(** * Band clustering (berry): a shallow embedding of [clustering_libs.py]

    The development follows the layout of the Python module:
    - numpy idioms used by the code ([np_index], [argmax], [argsort], ...);
    - [evaluate_result] and [evaluate_point] (module-level functions);
    - the undirected graph and [MATERIAL.make_connections];
    - [COMPONENT] (masks, boundary, [validate], [join], [get_cluster_score])
      and the merger loop of [MATERIAL.get_components];
    - [MATERIAL.obtain_output], [MATERIAL.correct_signal], [MATERIAL.solve].

    Conventions.
    - Python integers are [Z]; numpy arrays are lists (a 2-D array is a list
      of rows); an index is looked up the numpy way: [-len <= i < 0] wraps
      around, anything else out of range raises, which is [None] here.
    - Python floats are rationals [Q] with exact arithmetic: comparisons
      against the literals [0.9], [0.8], [0.2], [0.5] are comparisons
      against the corresponding fractions.  The one place where the code
      accumulates a float, [TOL -= step] in [solve], is rounded as a
      double subtraction ([float_sub]).
    - A Python exception (IndexError, KeyError, ValueError) is [None] in
      the [option] monad.
    - [scipy.optimize.curve_fit] is a parameter of the sections that use it;
      connected components of the graph (networkx) are inputs. *)

From Stdlib Require Import ZArith QArith Qabs Qminmax Qround Lia Lqa List Bool.
From Stdlib Require Import SpecFloat.
From stdpp Require Import base option list gmap sorting.

Import ListNotations.
Local Open Scope Z_scope.
Set Warnings "-clear-no-such-hyp".

(** ** numpy idioms *)

Module Np.

(** The position that the index [i] denotes in an array of length [n]:
    negative indices wrap once, anything else out of range is an error. *)
Definition np_pos (n : nat) (i : Z) : option nat :=
  if (0 <=? i) && (i <? Z.of_nat n) then Some (Z.to_nat i)
  else if (- Z.of_nat n <=? i) && (i <? 0) then Some (Z.to_nat (i + Z.of_nat n))
  else None.

(** [a[i]] on a 1-D array. *)
Definition np_index {A} (l : list A) (i : Z) : option A :=
  p ← np_pos (length l) i; l !! p.

(** [a[i] = x]. *)
Definition np_set {A} (l : list A) (i : Z) (x : A) : option (list A) :=
  p ← np_pos (length l) i; Some (<[p := x]> l).

(** [a[i, j]] and [a[i, j] = x] on a 2-D array. *)
Definition np_index2 {A} (a : list (list A)) (i j : Z) : option A :=
    row ← np_index a i; np_index row j.

Definition np_set2 {A} (a : list (list A)) (i j : Z) (x : A)
    : option (list (list A)) :=
    row ← np_index a i; row' ← np_set row j x; np_set a i row'.

(** [np.arange(lo, hi)]. *)
Definition arange (lo hi : Z) : list Z := seqZ lo (hi - lo).

(** [np.full((n, m), x)]. *)
Definition full2 {A} (n m : Z) (x : A) : list (list A) :=
    repeat (repeat x (Z.to_nat m)) (Z.to_nat n).

(** A loop over [l] that threads a state and may raise. *)
Fixpoint foldlM {A B} (f : A -> B -> option A) (a : A) (l : list B)
  : option A :=
  match l with
  | [] => Some a
  | x :: l => a' ← f a x; foldlM f a' l
  end.

Definition Qlt_bool (x y : Q) : bool := negb (Qle_bool y x).

Definition Qsum (l : list Q) : Q := fold_left Qplus l 0%Q.

(** [np.mean]: on an empty list numpy yields [nan], for which every
      comparison is false; here the quotient by zero is [0]. *)
Definition mean (values : list Q) : Q :=
    (Qsum values / inject_Z (Z.of_nat (length values)))%Q.

End Np.
Import Np.

(** ** Python floats

    A double is the rational it denotes.  [float_of_Q] reads a rational as
    a double (binary64: 53 bits of precision, round to nearest, ties to
    even): it is exact on a rational that is a double, and gives the
    nearest double for a fraction such as [1 # 10] whose numerator and
    denominator are below [2^53], as Python reads the literal [0.1].
    [Q_of_float] is the value of a double; an infinity is kept as
    [2^1024], which lies beyond every double. *)
Definition float_of_Q (x : Q) : spec_float :=
  let d := Z.pos (Qden x) in
  if d =? 2 ^ Z.log2 d
  then binary_normalize 53 1024 (Qnum x) (- Z.log2 d) false
  else SFdiv 53 1024 (binary_normalize 53 1024 (Qnum x) 0 false)
                     (binary_normalize 53 1024 d 0 false).

Definition Q_of_float (x : spec_float) : Q :=
  match x with
  | S754_finite s m e =>
      let n := if s then Z.neg m else Z.pos m in
      if 0 <=? e then inject_Z (n * 2 ^ e) else n # Z.to_pos (2 ^ (- e))
  | S754_infinity s => inject_Z (if s then - 2 ^ 1024 else 2 ^ 1024)
  | _ => 0%Q
  end.

(** [a - b] on Python floats: the double nearest to the difference. *)
Definition float_sub (a b : Q) : Q :=
  Q_of_float (SFsub 53 1024 (float_of_Q a) (float_of_Q b)).

(** ** Signals *)

Definition CORRECT : Z := 5.
Definition POTENTIAL_CORRECT : Z := 4.
Definition POTENTIAL_MISTAKE : Z := 3.
Definition DEGENERATE : Z := 2.
Definition MISTAKE : Z := 1.
Definition NOT_SOLVED : Z := 0.
Definition N_NEIGS : Z := 4.

(** [evaluate_result(values)]: the signal of a k point from the dot
    products with its neighbours. *)
Definition evaluate_result (values : list Q) : Z :=
  let TOL := (9 # 10)%Q in
  let TOL_DEG := (8 # 10)%Q in
  let TOL_MIN := (2 # 10)%Q in
  let value := mean values in
  if Qlt_bool TOL value then CORRECT
  else if Qlt_bool TOL_DEG value then POTENTIAL_CORRECT
  else if Qlt_bool TOL_MIN value && Qlt_bool value TOL_DEG
       then POTENTIAL_MISTAKE
  else MISTAKE.


(** ** [evaluate_point]: energy continuity along the four directions *)

Section EvaluatePoint.

(** [popt, pcov = curve_fit(pol, X, Es)]: the fitted coefficients
    [(a, b, c)] of scipy's least-squares fit. *)
Variable curve_fit : list Z -> list Q -> Q * Q * Q.

(** [pol = lambda x, a, b, c: a*x**2 + b*x + c]. *)
Definition pol (x : Z) (popt : Q * Q * Q) : Q :=
  let '(a, b, c) := popt in
  (a * inject_Z (x ^ 2) + b * inject_Z x + c)%Q.

(** [np.min]; raises on an empty array. *)
Definition np_min (l : list Q) : option Q :=
  match l with
  | [] => None
  | x :: r => Some (fold_left Qmin r x)
  end.

(** The local [difference_energy(Ek, Enew)] of [evaluate_point]; it reads
    the row [energies[k]] of the point under analysis. *)
Definition difference_energy (energies : list (list Q)) (k : Z)
    (Ek Enew : Q) : option Q :=
  energies_k ← np_index energies k;
  min_energy ← np_min (map (fun e => Qabs (Enew - e)) energies_k);
  let delta_energy := Qabs (Enew - Ek) in
  Some (if Qeq_bool delta_energy 0 then 1%Q
        else (min_energy / delta_energy)%Q).

(** Down, Right, Up, Left. *)
Definition directions : list (Z * Z) := [(1, 0); (0, 1); (-1, 0); (0, -1)].

(** [k_matrix.shape]. *)
Definition shape0 {A} (m : list (list A)) : Z := Z.of_nat (length m).
Definition shape1 {A} (m : list (list A)) : Z :=
  match m with [] => 0 | row :: _ => Z.of_nat (length row) end.

(** [a[a >= 0]] followed by [a[a < n]]. *)
Definition in_range (n : Z) (a : list Z) : list Z :=
  filter (fun x => x < n) (filter (fun x => 0 <= x) a).

(** The grid coordinates [(i, j)] of the (at most [N]) points used along
    [direction], with [flag] telling which axis varies. *)
Definition direction_points (N : Z) (k_matrix : list (list Z))
    (ik jk : Z) (direction : Z * Z) : bool * list Z * list Z :=
  let n := arange 1 (N + 1) in
  let i := map (fun t => t * direction.1 + ik) n in
  let j := map (fun t => t * direction.2 + jk) n in
  let flag := bool_decide (1 < length (remove_dups i))%nat in
  if flag then
    let i' := in_range (shape0 k_matrix) i in
    (flag, i', repeat (hd 0 j) (length i'))
  else
    let j' := in_range (shape1 k_matrix) j in
    (flag, repeat (hd 0 i) (length j'), j').

(** [k_matrix[i, j]] with index arrays. *)
Definition fancy2 {A} (m : list (list A)) (i j : list Z) : option (list A) :=
  mapM (fun ij : Z * Z => np_index2 m ij.1 ij.2) (zip i j).

(** The body of the loop over [directions]: the value appended to
    [energy_vals]. *)
Definition direction_energy (k bn : Z) (k_matrix : list (list Z))
    (bands : list (list Z)) (energies : list (list Q))
    (ik jk : Z) (Ek : Q) (direction : Z * Z) : option Q :=
  let N := 4 in
  let '(flag, i, j) := direction_points N k_matrix ik jk direction in
  ks ← (if bool_decide (0 < length i)%nat then fancy2 k_matrix i j
        else Some []);
  match ks with
  | [] => Some 1%Q
  | ks0 :: _ =>
      if bool_decide (length ks <= 3)%nat then
        b0 ← np_index2 bands ks0 bn;
        Eneig ← np_index2 energies ks0 b0;
        difference_energy energies k Ek Eneig
      else
        k_bands ← mapM (fun kp => np_index2 bands kp bn) ks;
        Es ← mapM (fun kb : Z * Z => np_index2 energies kb.1 kb.2)
                  (zip ks k_bands);
        let X := if flag then i else j in
        let new_x := if flag then ik else jk in
        let popt := curve_fit X Es in
        let Enew := pol new_x popt in
        difference_energy energies k Ek Enew
  end.

(** [evaluate_point(k, bn, k_index, k_matrix, signal, bands, energies)];
    the signals are local to the function: CORRECT = 4, MISTAKE = 1,
    OTHER = 3. *)
Definition evaluate_point (k bn : Z) (k_index : list (Z * Z))
    (k_matrix : list (list Z)) (signal bands : list (list Z))
    (energies : list (list Q)) : option (Z * list Z) :=
  let CORRECT := 4 in
  let MISTAKE := 1 in
  let OTHER := 3 in
  let TOL := (9 # 10)%Q in
  mach_bn ← np_index2 bands k bn;
  sig ← np_index2 signal k bn;
  ikjk ← np_index k_index k;
  Ek ← np_index2 energies k mach_bn;
  energy_vals ← mapM (direction_energy k bn k_matrix bands energies
                                       ikjk.1 ikjk.2 Ek) directions;
  let scores := map (fun e => if Qlt_bool TOL e then 1 else 0) energy_vals in
  let score := foldr Z.add 0 scores in
  if score =? N_NEIGS then Some (CORRECT, scores)
  else if score =? 0 then Some (MISTAKE, scores)
  else Some (OTHER, scores).

End EvaluatePoint.

(** [MATERIAL.make_kpointsIndex]: [matrix[i, j] = j*nkx + i] of shape
    [(nkx, nky)] and [kpoints_index[k] = (k % nkx, k // nkx)]. *)
Definition make_matrix (nkx nky : Z) : list (list Z) :=
  map (fun i => map (fun j => j * nkx + i) (arange 0 nky)) (arange 0 nkx).

Definition make_kpoints_index (nkx nks : Z) : list (Z * Z) :=
  map (fun c => (c mod nkx, c / nkx)) (arange 0 nks).

(** A stand-in for [curve_fit] on the small grids of the examples below,
    where no line holds the four points a fit needs: the constant
    polynomial through the first energy. *)
Definition flat_fit (X : list Z) (Es : list Q) : Q * Q * Q :=
  (0%Q, 0%Q, hd 0%Q Es).

(** ** The data of a run

    The fields of [MATERIAL] that are fixed once [make_vectors] has run.
    The caller always passes an explicit [max_band], so the width of the
    band window is [max_band + 1 - min_band] ([self.nbnd] after
    [make_vectors]) and [total_bands] is the number of bands of the input. *)
Record MATERIAL := {
  nkx : Z;
  nky : Z;
  nks : Z;
  total_bands : Z;
  min_band : Z;
  max_band : Z;
  eigenvalues : list (list Q);
  connections : list (list (list (list Q)));
  neighbors : list (list Z);
  degenerados : list (Z * Z)
}.

Definition nbnd (m : MATERIAL) : Z := max_band m + 1 - min_band m.

(** [len(self.vectors)]: the number of nodes. *)
Definition n_vectors (m : MATERIAL) : Z := nbnd m * nks m.

(** [a[i, j, k, l]] on a 4-D array. *)
Definition np_index4 {A} (a : list (list (list (list A)))) (i j k l : Z)
  : option A :=
  a1 ← np_index a i; a2 ← np_index a1 j; np_index2 a2 k l.

(** ** The graph ([networkx.Graph]): undirected, adjacency by node *)

Abbreviation Graph := (gmap Z (gset Z)).

Definition graph_neighbors (G : Graph) (n : Z) : gset Z := default ∅ (G !! n).

Definition add_node (n : Z) (G : Graph) : Graph :=
  match G !! n with Some _ => G | None => <[n := ∅]> G end.

Definition add_nodes_from (ns : list Z) (G : Graph) : Graph :=
  fold_left (fun G n => add_node n G) ns G.

(** [G.add_edge(u, v)] records [v] under [u] and [u] under [v], creating
    the nodes when they are new. *)
Definition add_edge (u v : Z) (G : Graph) : Graph :=
  let G1 := <[u := {[v]} ∪ graph_neighbors G u]> G in
  <[v := {[u]} ∪ graph_neighbors G1 v]> G1.

Definition add_edges_from (edges : list (Z * Z)) (G : Graph) : Graph :=
  fold_left (fun G e => add_edge e.1 e.2 G) edges G.

Definition has_edge (G : Graph) (u v : Z) : Prop := v ∈ graph_neighbors G u.

Definition has_node (G : Graph) (n : Z) : Prop := is_Some (G !! n).

(** The graph of [make_vectors]: the nodes [0 .. n_vectors - 1], no edge. *)
Definition initial_graph (m : MATERIAL) : Graph :=
  add_nodes_from (arange 0 (n_vectors m)) ∅.

(** ** [parallelize]: the slices handed to the processes *)

(** [l[a:b]] on a Python list: negative bounds count from the end, and
    bounds outside the list are cut to it. *)
Definition py_slice {A} (l : list A) (a b : Z) : list A :=
  let n := Z.of_nat (length l) in
  let cut i := if i <? 0 then Z.max 0 (i + n) else Z.min i n in
  take (Z.to_nat (cut b - cut a)) (drop (Z.to_nat (cut a)) l).

(** The arguments [iterator[i_start: j_end]] of the processes that
    [parallelize] starts, in the order of the loop.  [N//self.n_process]
    raises for [n_process = 0]. *)
Definition parallelize_chunks {A} (n_process : Z) (iterator : list A)
  : option (list (list A)) :=
  let N := Z.of_nat (length iterator) in
  guard (n_process <> 0);;
  let n := N / n_process in
  Some (map (fun i_start =>
               let j_end := if i_start <? n_process - 1 then n * (i_start + 1)
                            else n * (i_start + 1) + N mod n_process in
               let i_start := i_start * n in
               py_slice iterator i_start j_end)
            (arange 0 n_process)).

(** [self.parallelize(name, f, iterator)]: every process runs [f] on its
    slice and appends the value to the shared list [result].  An
    exception of [f] ends its process only: the parent joins the
    processes and returns what the others have appended, so a slice on
    which [f] raises contributes nothing.  The values are taken in the
    order of the slices; with several processes the order of arrival is
    not fixed. *)
Definition parallelize {A B} (n_process : Z) (f : list A -> option (list B))
    (iterator : list A) : option (list B) :=
  chunks ← parallelize_chunks n_process iterator;
  Some (concat (map (fun chunk => default [] (f chunk)) chunks)).

(** ** [make_connections]: the edges *)

(** [np.tile(a, n)] and [np.repeat(a, n)]. *)
Definition tile {A} (a : list A) (n : nat) : list A := concat (replicate n a).
Definition np_repeat {A} (a : list A) (n : nat) : list A :=
  a ≫= (fun x => replicate n x).

(** [np.where(a == x)[0]]. *)
Definition where_eq (a : list Z) (x : Z) : list Z :=
  map (fun p : nat * Z => Z.of_nat p.1)
      (filter (fun p : nat * Z => p.2 = x) (imap (fun i y => (i, y)) a)).

(** The truth value of a boolean array in an [if]: the element of an
    array of size one, false for an empty array, an error otherwise. *)
Definition truth (a : list bool) : option bool :=
  match a with
  | [] => Some false
  | [b] => Some b
  | _ => None
  end.

Section Connections.

Variable m : MATERIAL.
Variable tol : Q.

(** The test [connection > tol] for the pair [(i_, j_)]. *)
Definition connected (k1 bn1 : Z) (neighbors_k1 : list Z) (j_ : Z)
  : option bool :=
  let k2 := j_ mod nks m in
  let bn2 := j_ / nks m + min_band m in
  let i_neig := where_eq neighbors_k1 k2 in
  connection ← mapM (fun d => np_index4 (connections m) k1 d bn1 bn2) i_neig;
  truth (map (fun c => Qlt_bool tol c) connection).

(** The body of the loop [for i_ in vectors] of [connection_component]:
    the edges found from node [i_]. *)
Definition node_edges (bands : list Z) (i_ : Z) : option (list (Z * Z)) :=
  let bn1 := i_ / nks m + min_band m in
  let k1 := i_ mod nks m in
  neighbors_k1 ← np_index (neighbors m) k1;
  let neighs := tile neighbors_k1 (Z.to_nat (nbnd m)) in
  guard (length neighs = length bands);;
  let ks := map (fun nb : Z * Z => nb.1 + nb.2 * nks m)
                (filter (fun nb : Z * Z => nb.1 ≠ -1) (zip neighs bands)) in
  found ← mapM (fun j_ => c ← connected k1 bn1 neighbors_k1 j_;
                          Some (if c : bool then [(i_, j_)] else [])) ks;
  Some (concat found).

(** [connection_component(vectors)]. *)
Definition connection_component (vectors : list Z) : option (list (Z * Z)) :=
  neighbors_0 ← np_index (neighbors m) 0;
  let bands := np_repeat (arange (min_band m) (max_band m + 1))
                         (length neighbors_0) in
  found ← mapM (node_edges bands) vectors;
  Some (concat found).

(** The first part of [make_connections(tol)] with [self.n_process]
    processes: the edges that the workers of [parallelize] find are added
    to the graph of [make_vectors]; the order in which their results are
    concatenated does not show in the graph.  A worker in which
    [connection_component] raises adds no edge.  The second part of
    [make_connections] rewires the neighbours of the degenerate pairs of
    [self.degenerados]; it is not part of this definition, which is the
    whole of [make_connections] when there is no degenerate pair. *)
Definition make_connections_edges (n_process : Z) : option Graph :=
  edges ← parallelize n_process connection_component
             (arange 0 (n_vectors m));
  Some (add_edges_from edges (initial_graph m)).

End Connections.

(** The k point and the original band of a node. *)
Definition node_k (m : MATERIAL) (n : Z) : Z := n mod nks m.
Definition node_band (m : MATERIAL) (n : Z) : Z := n / nks m + min_band m.

(** The condition for an edge from [n1] to [n2]: the k point of [n2] is
    the neighbour of the k point of [n1] in some direction [dir], and the
    overlap [C[k1, dir, b1, b2]] exceeds [tol]. *)
Definition overlap_edge (m : MATERIAL) (tol : Q) (n1 n2 : Z) : Prop :=
  0 <= n1 < n_vectors m /\ 0 <= n2 < n_vectors m /\
  exists (dir : nat) (row : list Z) (c : Q),
    np_index (neighbors m) (node_k m n1) = Some row /\
    row !! dir = Some (node_k m n2) /\
    np_index4 (connections m) (node_k m n1) (Z.of_nat dir)
              (node_band m n1) (node_band m n2) = Some c /\
    (tol < c)%Q.

(** The neighbour table holds k points or [-1]. *)
Definition neighbors_in_range (m : MATERIAL) : Prop :=
  Forall (Forall (fun x => x = -1 \/ 0 <= x < nks m)) (neighbors m).

(** No k point is the neighbour of a k point in two directions. *)
Definition neighbors_distinct (m : MATERIAL) : Prop :=
  Forall (fun row => NoDup (filter (fun x => x <> -1) row)) (neighbors m).

(** The arrays have the shapes of the input files: [neighbors] is
    [(nks, 4)] and [connections] is [(nks, 4, nbnd, nbnd)] with
    [max_band < nbnd]. *)
Definition well_shaped (m : MATERIAL) : Prop :=
  Z.of_nat (length (neighbors m)) = nks m /\
  Forall (fun row => length row = 4%nat) (neighbors m) /\
  Z.of_nat (length (connections m)) = nks m /\
  Forall (fun a =>
            length a = 4%nat /\
            Forall (fun b =>
                      max_band m < Z.of_nat (length b) /\
                      Forall (fun c => max_band m < Z.of_nat (length c)) b)
                   a)
         (connections m).

(** A chain of two k points and one band: k = 0 sees k = 1 below it with
    overlap 1, while k = 1 sees k = 0 above it with overlap 0. *)
Definition chain2 : MATERIAL := {|
  nkx := 2; nky := 1; nks := 2; total_bands := 1;
  min_band := 0; max_band := 0;
  eigenvalues := [[0]; [0]]%Q;
  connections := [ [ [[1]]; [[0]]; [[0]]; [[0]] ];
                   [ [[0]]; [[0]]; [[0]]; [[0]] ] ]%Q;
  neighbors := [ [1; -1; -1; -1]; [-1; -1; 0; -1] ];
  degenerados := []
|}.

Definition chain2_graph : Graph :=
  add_edges_from [(0, 1)] (initial_graph chain2).

(** Two k points that see each other in two directions, all overlaps
    1: [np.where(self.neighbors[k1] == k2)] finds two directions, and the
    test [connection > tol] on an array of two values raises. *)
Definition ring2 : MATERIAL := {|
  nkx := 2; nky := 1; nks := 2; total_bands := 1;
  min_band := 0; max_band := 0;
  eigenvalues := [[0]; [0]]%Q;
  connections := [ [ [[1]]; [[1]]; [[1]]; [[1]] ];
                   [ [[1]]; [[1]]; [[1]]; [[1]] ] ]%Q;
  neighbors := [ [1; -1; 1; -1]; [0; -1; 0; -1] ];
  degenerados := []
|}.

(** ** [COMPONENT]

    A component keeps the nodes of its subgraph (joining only adds nodes).
    [__id__] is [str(self.nodes[0])]; the text of an integer determines
    it, so the first node itself stands for the identifier here.  The
    attributes that the code sets later ([positions_matrix], [k_points],
    [bands_number], [k_edges], [bands]) start empty. *)
Record COMPONENT := {
  nodes : list Z;
  N : Z;
  id_ : Z;
  was_modified : bool;
  scores : gmap Z Q;
  positions_matrix : list (list Z);
  k_points : list Z;
  bands_number : gmap Z Z;
  k_edges : list Z;
  bands : list Z
}.

Definition set_was_modified (b : bool) (c : COMPONENT) : COMPONENT :=
  {| nodes := nodes c; N := N c; id_ := id_ c; was_modified := b;
     scores := scores c; positions_matrix := positions_matrix c;
     k_points := k_points c; bands_number := bands_number c;
     k_edges := k_edges c; bands := bands c |}.

Definition set_scores (s : gmap Z Q) (c : COMPONENT) : COMPONENT :=
  {| nodes := nodes c; N := N c; id_ := id_ c;
     was_modified := was_modified c;
     scores := s; positions_matrix := positions_matrix c;
     k_points := k_points c; bands_number := bands_number c;
     k_edges := k_edges c; bands := bands c |}.

Definition set_k_edges (e : list Z) (c : COMPONENT) : COMPONENT :=
  {| nodes := nodes c; N := N c; id_ := id_ c;
     was_modified := was_modified c;
     scores := scores c; positions_matrix := positions_matrix c;
     k_points := k_points c; bands_number := bands_number c;
     k_edges := e; bands := bands c |}.

Definition set_bands (b : list Z) (c : COMPONENT) : COMPONENT :=
  {| nodes := nodes c; N := N c; id_ := id_ c;
     was_modified := was_modified c;
     scores := scores c; positions_matrix := positions_matrix c;
     k_points := k_points c; bands_number := bands_number c;
     k_edges := k_edges c; bands := b |}.

(** [dict(zip(keys, values))]: a later pair replaces an earlier one. *)
Definition dict_zip (keys values : list Z) : gmap Z Z :=
  fold_left (fun d kv => <[kv.1 := kv.2]> d) (zip keys values) ∅.

(** [scipy.ndimage.correlate(a, w, mode='reflect')] for a 3 x 3 weight
    array: an index one step off the array is the index of the edge. *)
Definition reflect (n i : Z) : Z := Z.max 0 (Z.min (n - 1) i).

Definition at2 (a : list (list Z)) (i j : Z) : Z :=
  nth (Z.to_nat j) (nth (Z.to_nat i) a []) 0.

Definition correlate (a : list (list Z)) (w : list (list Z))
  : list (list Z) :=
  let n0 := shape0 a in
  let n1 := shape1 a in
  map (fun i =>
    map (fun j =>
      foldr Z.add 0
        (da ← [0; 1; 2];
         db ← [0; 1; 2];
         [at2 w da db * at2 a (reflect n0 (i + da - 1))
                              (reflect n1 (j + db - 1))]))
      (arange 0 n1))
    (arange 0 n0).

Section Component.

Variable m : MATERIAL.

(** [self.matrix], [self.kpoints_index], [self.m_shape] and
    [self.nks = m_shape[0]*m_shape[1]]. *)
Definition matrix : list (list Z) := make_matrix (nkx m) (nky m).
Definition kpoints_index : list (Z * Z) :=
  make_kpoints_index (nkx m) (nks m).
Definition c_nks : Z := nkx m * nky m.

(** [COMPONENT(subgraph, kpoints_index, matrix)]. *)
Definition new_component (ns : list Z) : COMPONENT :=
  {| nodes := ns; N := Z.of_nat (length ns); id_ := hd 0 ns;
     was_modified := false; scores := ∅; positions_matrix := [];
     k_points := []; bands_number := ∅; k_edges := []; bands := [] |}.

(** [calculate_pointsMatrix]. *)
Definition calculate_pointsMatrix (c : COMPONENT) : option COMPONENT :=
  let ks := map (fun n => n mod c_nks) (nodes c) in
  index_points ← mapM (np_index kpoints_index) ks;
  pm ← foldlM (fun pm (ij : Z * Z) => np_set2 pm ij.1 ij.2 1)
              (full2 (nkx m) (nky m) 0) index_points;
  Some {| nodes := nodes c; N := N c; id_ := id_ c;
          was_modified := was_modified c; scores := scores c;
          positions_matrix := pm;
          k_points := ks;
          bands_number :=
            dict_zip ks (map (fun n => n / c_nks) (nodes c));
          k_edges := k_edges c; bands := bands c |}.

(** [calc_boundary]: the points of the mask where the horizontal or the
    vertical difference filter does not vanish; all the points of the
    component when there is none. *)
Definition calc_boundary (c : COMPONENT) : COMPONENT :=
  let Gx := replicate 3 [-1; 0; 1] in
  let Gy := [[-1; -1; -1]; [0; 0; 0]; [1; 1; 1]] in
  let Ax := correlate (positions_matrix c) Gx in
  let Ay := correlate (positions_matrix c) Gy in
  let boundary i j :=
    0 <? (at2 Ax i j ^ 2 + at2 Ay i j ^ 2) * at2 (positions_matrix c) i j in
  let k_edges :=
    i ← arange 0 (nkx m);
    j ← arange 0 (nky m);
    if boundary i j then [at2 matrix i j] else [] in
  set_k_edges (match k_edges with
               | [] => map (fun n => n mod c_nks) (nodes c)
               | _ => k_edges
               end) c.

(** [self.validate(component)]. *)
Definition validate (self component : COMPONENT) : bool :=
  let N_ := foldr Z.add 0
              (i ← arange 0 (nkx m);
               j ← arange 0 (nky m);
               [Z.lxor (at2 (positions_matrix self) i j)
                       (at2 (positions_matrix component) i j)]) in
  (N component <=? c_nks - N self) && (N_ =? N self + N component).

(** [self.join(component)]: the nodes of [component] that are new are
    added after those of [self]. *)
Definition join (self component : COMPONENT) : option COMPONENT :=
  let ns := nodes self
            ++ filter (fun n => n ∉ nodes self) (remove_dups (nodes component)) in
  c ← calculate_pointsMatrix
         {| nodes := ns; N := Z.of_nat (length ns); id_ := id_ self;
            was_modified := true; scores := scores self;
            positions_matrix := positions_matrix self;
            k_points := k_points self; bands_number := bands_number self;
            k_edges := k_edges self; bands := bands self |};
  Some (calc_boundary c).

End Component.

(** [make_BandsEnergy]: [BandsEnergy[bn, i, j] = eigenvalues[j*nkx + i, bn]]
    for all the bands of the input. *)
Definition make_BandsEnergy (m : MATERIAL) : option (list (list (list Q))) :=
  mapM (fun bn =>
    mapM (fun i =>
      mapM (fun j => np_index2 (eigenvalues m) (j * nkx m + i) bn)
           (arange 0 (nky m)))
      (arange 0 (nkx m)))
    (arange 0 (total_bands m)).

Definition np_index3 {A} (a : list (list (list A))) (i j k : Z) : option A :=
  a1 ← np_index a i; np_index2 a1 j k.

(** [a[mask]] for a boolean mask of the length of [a]. *)
Definition mask_select {A} (a : list A) (mask : list bool) : list A :=
  map fst (filter (fun p : A * bool => p.2 = true) (zip a mask)).

Section ClusterScore.

Variable m : MATERIAL.
Variable curve_fit : list Z -> list Q -> Q * Q * Q.
Variable energies : list (list (list Q)).

(** The local [difference_energy(bn1, bn2, iK1, iK2, Ei)] of
    [get_cluster_score]. *)
Definition difference_energy_score (bn1 bn2 : Z) (iK1 iK2 : Z * Z)
    (Ei : option Q) : option Q :=
  let '(ik1, jk1) := iK1 in
  let '(ik_n, jk_n) := iK2 in
  Ei ← match Ei with
       | None => np_index3 energies bn1 ik1 jk1
       | Some e => Some e
       end;
  let bands := arange (min_band m) (max_band m + 1) in
  diffs ← mapM (fun bn => e ← np_index3 energies bn ik_n jk_n;
                          Some (Qabs (Ei - e))) bands;
  min_energy ← np_min diffs;
  e2 ← np_index3 energies bn2 ik_n jk_n;
  let delta_energy := Qabs (Ei - e2) in
  Some (if Qeq_bool delta_energy 0 then 1%Q
        else (min_energy / delta_energy)%Q).

(** The local [fit_energy(bn1, bn2, iK1, iK2)] of [get_cluster_score],
    for the component [self]. *)
Definition fit_energy (self : COMPONENT) (bn1 bn2 : Z) (iK1 iK2 : Z * Z)
  : option Q :=
  let N_ := 4 in
  let '(ik1, jk1) := iK1 in
  let '(ik_n, jk_n) := iK2 in
  let I := replicate (Z.to_nat (N_ + 1)) ik1 in
  let J := replicate (Z.to_nat (N_ + 1)) jk1 in
  let flag := ik1 =? ik_n in
  let i := if flag then I
           else map (fun t => ik1 + t * Z.sgn (ik1 - ik_n))
                    (arange 0 (N_ + 1)) in
  let j := if negb flag then J
           else map (fun t => jk1 + t * Z.sgn (jk1 - jk_n))
                    (arange 0 (N_ + 1)) in
  let '(i, j) :=
    if negb flag then
      let i' := in_range (nkx m) i in (i', replicate (length i') jk1)
    else
      let j' := in_range (nky m) j in (replicate (length j') ik1, j') in
  ks ← fancy2 (matrix m) i j;
  let exist_ks := map (fun e => bool_decide (e ∈ k_points self)) ks in
  let ks := mask_select ks exist_ks in
  if bool_decide (length ks <= 3)%nat then
    difference_energy_score bn1 bn2 iK1 iK2 None
  else
    aux_bands ← mapM (fun kp => bands_number self !! kp) ks;
    let bands := map (fun b => b + min_band m) aux_bands in
    let i := mask_select i exist_ks in
    let j := mask_select j exist_ks in
    Es ← mapM (fun bij : Z * (Z * Z) =>
                 np_index3 energies bij.1 bij.2.1 bij.2.2)
              (zip bands (zip i j));
    let X := if jk1 =? jk_n then i else j in
    let new_x := if jk1 =? jk_n then ik_n else jk_n in
    let popt := curve_fit X Es in
    let Enew := pol new_x popt in
    Ei ← np_index3 energies bn1 ik1 jk1;
    difference_energy_score bn1 bn2 iK1 iK2 (Some Enew).

(** The contribution of the boundary point [k] of [self]: the terms
    [tol*connection + (1-tol)*energy_val] of its neighbours on the
    boundary of [cluster]. *)
Definition boundary_terms (self cluster : COMPONENT) (tol : Q) (k : Z)
  : option (list Q) :=
  b1 ← bands_number self !! k;
  let bn1 := b1 + min_band m in
  iK1 ← np_index (kpoints_index m) k;
  row ← np_index (neighbors m) k;
  terms ← mapM (fun p : nat * Z =>
      let i_neig := Z.of_nat p.1 in
      let k_n := p.2 in
      if (k_n =? -1) || bool_decide (k_n ∉ k_edges cluster) then Some []
      else
        iK2 ← np_index (kpoints_index m) k_n;
        b2 ← bands_number cluster !! k_n;
        let bn2 := b2 + min_band m in
        connection ← np_index4 (connections m) k i_neig bn1 bn2;
        energy_val ← fit_energy self bn1 bn2 iK1 iK2;
        Some [(tol * connection + (1 - tol) * energy_val)%Q])
    (imap (fun i x => (i, x)) row);
  Some (concat terms).

(** The score computed by [get_cluster_score] when it does not answer
    from [self.scores]: the mix of overlap and energy continuity over the
    boundary, divided by [len(self.k_edges)*4]. *)
Definition boundary_score (self cluster : COMPONENT) (tol : Q) : option Q :=
  terms ← mapM (boundary_terms self cluster tol) (k_edges self);
  let score := fold_left Qplus (concat terms) 0%Q in
  if bool_decide (k_edges self = []) then None
  else Some (score / inject_Z (Z.of_nat (length (k_edges self)) * 4))%Q.

(** [self.get_cluster_score(cluster, ..., tol)]: the score, and [self]
    with its [scores] updated. *)
Definition get_cluster_score (self cluster : COMPONENT) (tol : Q)
  : option (Q * COMPONENT) :=
  if was_modified cluster then
    score ← scores self !! id_ cluster;
    Some (score, self)
  else
    score ← boundary_score self cluster tol;
    Some (score, set_scores (<[id_ cluster := score]> (scores self)) self).

End ClusterScore.

(** [np.max] and [np.argmax] (the first index of the maximum); both raise
    on an empty array. *)
Definition np_max (l : list Q) : option Q :=
  match l with
  | [] => None
  | x :: r => Some (fold_left Qmax r x)
  end.

Fixpoint argmax_from (best : Q) (besti i : nat) (l : list Q) : nat :=
  match l with
  | [] => besti
  | x :: l => if Qlt_bool best x then argmax_from x i (S i) l
              else argmax_from best besti (S i) l
  end.

Definition argmax (l : list Q) : option nat :=
  match l with
  | [] => None
  | x :: r => Some (argmax_from x 0 1 r)
  end.

(** [np.argsort] on integers: the indices by increasing value.  numpy's
    default sort is not stable, so the order it gives to equal values
    depends on its build; here equal values keep their index order.  The
    general results below use only that [argsort] is a permutation of the
    indices that sorts the values ([argsort_Permutation],
    [argsort_sorted]); the order of ties shows only in the worked
    examples. *)
Fixpoint argsort_insert (a : list Z) (i : nat) (l : list nat) : list nat :=
  match l with
  | [] => [i]
  | j :: l' => if nth i a 0 <? nth j a 0 then i :: l
               else j :: argsort_insert a i l'
  end.

Definition argsort (a : list Z) : list nat :=
  fold_left (fun l i => argsort_insert a i l) (seq 0 (length a)) [].

(** ** [get_components]: the partition and the merger loop *)

Section Merger.

Variable m : MATERIAL.
Variable curve_fit : list Z -> list Q -> Q * Q * Q.
Variable energies : list (list (list Q)).
Variable tol : Q.

(** The components sorted by decreasing size are split into [solved],
    [clusters] and [samples]. *)
Definition partition_step (st : list COMPONENT * list COMPONENT * list COMPONENT)
    (component : COMPONENT)
  : option (list COMPONENT * list COMPONENT * list COMPONENT) :=
  let '(solved, clusters, samples) := st in
  if N component =? nks m then Some (solved ++ [component], clusters, samples)
  else
    c ← calculate_pointsMatrix m component;
    let c := calc_boundary m c in
    if bool_decide (length clusters = 0%nat) then
      Some (solved, clusters ++ [c], samples)
    else if negb (existsb (fun cluster => validate m cluster c) clusters)
    then Some (solved, clusters ++ [c], samples)
    else Some (solved, clusters, samples ++ [c]).

Definition partition (components : list COMPONENT)
  : option (list COMPONENT * list COMPONENT * list COMPONENT) :=
  let index_sorted := reverse (argsort (map N components)) in
  sorted ← mapM (fun i => components !! i) index_sorted;
  foldlM partition_step ([], [], []) sorted.

(** The loop over the clusters for one sample: the array [scores] and the
    sample with the scores it has stored. *)
Definition score_sample (clusters : list COMPONENT) (sample : COMPONENT)
  : option (list Q * COMPONENT) :=
  foldlM (fun (acc : list Q * COMPONENT) cluster =>
            let '(scores, sample) := acc in
            if negb (validate m cluster sample)
            then Some (scores ++ [0%Q], sample)
            else
              sample ← (if bool_decide (length (k_edges sample) = 0%nat)
                        then calc_boundary m <$> calculate_pointsMatrix m sample
                        else Some sample);
              r ← get_cluster_score m curve_fit energies sample cluster tol;
              Some (scores ++ [r.1], r.2))
         ([], sample) clusters.

(** The first loop of a round: [evaluate_samples] (best score and best
    cluster of every sample) and the samples after scoring. *)
Definition evaluate_round (clusters samples : list COMPONENT)
  : option (list (Q * nat) * list COMPONENT) :=
  scored ← mapM (fun sample =>
                   r ← score_sample clusters sample;
                   mx ← np_max r.1;
                   am ← argmax r.1;
                   Some ((mx, am), r.2)) samples;
  Some (map fst scored, map snd scored).

(** One round of [while len(samples) > 0]; [arg_max] is the position of
    the sample that is popped. *)
Definition merge_round (st : list COMPONENT * list COMPONENT * list COMPONENT)
  : option (nat * (list COMPONENT * list COMPONENT * list COMPONENT)) :=
  let '(solved, clusters, samples) := st in
  ev ← evaluate_round clusters samples;
  let '(evaluate_samples, samples) := ev in
  let clusters := map (set_was_modified false) clusters in
  arg_max ← argmax (map fst evaluate_samples);
  sample ← samples !! arg_max;
  let samples := delete arg_max samples in
  best ← evaluate_samples !! arg_max;
  let bn := best.2 in
  cluster ← clusters !! bn;
  joined ← join m cluster sample;
  let joined := set_was_modified true joined in
  let clusters := <[bn := joined]> clusters in
  if N joined =? nks m
  then Some (arg_max, (solved ++ [joined], delete bn clusters, samples))
  else Some (arg_max, (solved, clusters, samples)).

(** The merger loop; every round pops one sample, so [length samples]
    rounds empty the list. *)
Fixpoint merge_loop (rounds : nat)
    (st : list COMPONENT * list COMPONENT * list COMPONENT)
  : option (list COMPONENT * list COMPONENT * list COMPONENT) :=
  match rounds with
  | O => Some st
  | S rounds => r ← merge_round st; merge_loop rounds r.2
  end.

(** [get_components(tol)] from the connected components of the graph (in
    the order networkx yields them, each with its nodes): the solved
    components and the clusters that remain.  At the end the nodes index
    the array [labels] of length [nks*nbnd], which raises for a node
    outside of it. *)
Definition get_components (components : list (list Z))
  : option (list COMPONENT * list COMPONENT) :=
  st ← partition (map (new_component) components);
  st ← merge_loop (length st.2) st;
  let V := nks m * nbnd m in
  guard (Forall (fun c => Forall (fun n => - V <= n < V) (nodes c))
                (st.1.1 ++ st.1.2));;
  Some (st.1.1, st.1.2).

End Merger.

(** A chain of [n] k points ([nky = 1]) with one band: the neighbour
    below [k] is [k + 1], the one above is [k - 1]; [c k dir] is the
    overlap of [k] with its neighbour in direction [dir]. *)
Definition chain (n : Z) (c : Z -> Z -> Q) : MATERIAL := {|
  nkx := n; nky := 1; nks := n; total_bands := 1;
  min_band := 0; max_band := 0;
  eigenvalues := map (fun _ => [0%Q]) (arange 0 n);
  connections :=
    map (fun k => map (fun dir => [[c k dir]]) (arange 0 4)) (arange 0 n);
  neighbors :=
    map (fun k => [if k + 1 <? n then k + 1 else -1; -1; k - 1; -1])
        (arange 0 n);
  degenerados := []
|}.

(** Five k points: the overlap between k = 3 and k = 4 is 1, all others
    are 0.9; with the tolerance 0.95 of [make_connections] the components
    of the graph are [{0}], [{1}], [{2}] and [{3, 4}]. *)
Definition chain5 : MATERIAL :=
  chain 5 (fun k dir =>
    if ((k =? 3) && (dir =? 0)) || ((k =? 4) && (dir =? 2))
    then 1%Q else (9 # 10)%Q).

Definition chain5_components : list (list Z) := [[0]; [1]; [2]; [3; 4]].

(** Four k points: the overlap between k = 1 and k = 2 is 1, all others
    are 0.9; the components are [{0}], [{1, 2}] and [{3}]. *)
Definition chain4 : MATERIAL :=
  chain 4 (fun k dir =>
    if ((k =? 1) && (dir =? 0)) || ((k =? 2) && (dir =? 2))
    then 1%Q else (9 # 10)%Q).

Definition chain4_components : list (list Z) := [[0]; [1; 2]; [3]].

(** The tie-break by identifier: among the samples whose best score
    equals that of the popped sample, the popped one has the lowest
    identifier. *)
Definition lowest_id_on_ties (evaluate_samples : list (Q * nat))
    (samples : list COMPONENT) (arg_max : nat) : Prop :=
  forall i e_i e_a s_i s_a,
    evaluate_samples !! i = Some e_i ->
    evaluate_samples !! arg_max = Some e_a ->
    samples !! i = Some s_i ->
    samples !! arg_max = Some s_a ->
    (e_i.1 == e_a.1)%Q ->
    id_ s_a <= id_ s_i.

(** The first maximum of a list of scores. *)
Definition first_max (l : list Q) (a : nat) : Prop :=
  exists v, l !! a = Some v /\
    (forall i e, l !! i = Some e -> (e <= v)%Q) /\
    (forall i e, l !! i = Some e -> (i < a)%nat -> (e < v)%Q).

(** The first round of the merger on [chain5] and on [chain4], with the
    mixing tolerance 0.5 of the first iteration of [solve]: the scoring
    pass and the state after the round. *)
Definition first_round (m : MATERIAL) (components : list (list Z))
  : option (list (Q * nat) * list COMPONENT
            * (nat * (list COMPONENT * list COMPONENT * list COMPONENT))) :=
  energies ← make_BandsEnergy m;
  st ← partition m (map new_component components);
  ev ← evaluate_round m flat_fit energies (1 # 2) st.1.2 st.2;
  r ← merge_round m flat_fit energies (1 # 2) st;
  Some (ev, r).

(** The chain of four k points after the partition, and after the first
    round. *)
Definition chain4_energies : list (list (list Q)) :=
  Eval vm_compute in default [] (make_BandsEnergy chain4).

Definition chain4_partition
  : list COMPONENT * list COMPONENT * list COMPONENT :=
  Eval vm_compute in
    default ([], [], [])
            (partition chain4 (map new_component chain4_components)).

Definition chain4_round1
  : list COMPONENT * list COMPONENT * list COMPONENT :=
  Eval vm_compute in
    default ([], [], [])
            (snd <$> merge_round chain4 flat_fit chain4_energies (1 # 2)
                                 chain4_partition).

(** ** [obtain_output] *)

(** [np.unique]: the distinct values in increasing order. *)
Definition unique (a : list Z) : list Z := merge_sort Z.le (remove_dups a).

(** [enumerate(a)], with the positions as Python integers. *)
Definition enumerate {A} (a : list A) : list (Z * A) :=
  imap (fun i x => (Z.of_nat i, x)) a.

(** The arrays that [obtain_output] fills. *)
Record OUTPUT := {
  bands_final : list (list Z);
  signal_final : list (list Z);
  final_score : list Q;
  degenerate_final : list (Z * Z * Z)
}.

Section ObtainOutput.

Variable m : MATERIAL.

(** [get_bands]: the band offsets of the nodes, and the component with
    [k_points], [bands_number] and [bands] (the offsets by decreasing
    number of nodes). *)
Definition get_bands (c : COMPONENT) : list Z * COMPONENT :=
  let ks := map (fun n => n mod c_nks m) (nodes c) in
  let k_bands := map (fun n => n / c_nks m) (nodes c) in
  let uniq := unique k_bands in
  let counts :=
    map (fun b => Z.of_nat (length (filter (fun x => x = b) k_bands))) uniq in
  let bands := map (fun i => nth i uniq 0) (reverse (argsort counts)) in
  (k_bands,
   {| nodes := nodes c; N := N c; id_ := id_ c;
      was_modified := was_modified c; scores := scores c;
      positions_matrix := positions_matrix c;
      k_points := ks; bands_number := dict_zip ks k_bands;
      k_edges := k_edges c; bands := bands |}).

(** [while bn in solved_bands: bn = solved.bands[0] + min_band; ...]:
    the first free physical band; an IndexError when none is left. *)
Fixpoint next_band_solved (solved_bands : list Z) (bn : Z) (bands : list Z)
  : option Z :=
  if bool_decide (bn ∈ solved_bands) then
    match bands with
    | [] => None
    | b :: bands => next_band_solved solved_bands (b + min_band m) bands
    end
  else Some bn.

(** [while bn in solved_bands and len(cluster.bands) > 0: ...]: the band
    at which the loop stops, and the offsets that remain. *)
Fixpoint next_band_cluster (solved_bands : list Z) (bn : Z) (bands : list Z)
  : Z * list Z :=
  match bands with
  | [] => (bn, [])
  | b :: bands' =>
      if bool_decide (bn ∈ solved_bands)
      then next_band_cluster solved_bands (b + min_band m) bands'
      else (bn, bands)
  end.

(** The list [connections] of the point [k] of a component: the overlaps
    with its neighbours along the bands of the component; for a cluster a
    neighbour outside the cluster counts as 0. *)
Definition point_connections (is_cluster : bool) (c : COMPONENT) (k : Z)
  : option (list Q) :=
  b1 ← bands_number c !! k;
  let bn1 := b1 + min_band m in
  row ← np_index (neighbors m) k;
  found ← mapM (fun p : Z * Z =>
      let i_neig := p.1 in
      let k_neig := p.2 in
      if k_neig =? -1 then Some []
      else if is_cluster && bool_decide (k_neig ∉ k_points c)
      then Some [0%Q]
      else
        b2 ← bands_number c !! k_neig;
        let bn2 := b2 + min_band m in
        x ← np_index4 (connections m) k i_neig bn1 bn2;
        Some [x])
    (enumerate row);
  Some (concat found).

(** [self.bands_final[c.k_points, bn] = bands + self.min_band] and the
    loop [for k in c.k_points] that sets [signal_final[k, bn]]. *)
Definition assign_band (is_cluster : bool) (c : COMPONENT)
    (k_bands : list Z) (bn : Z) (out : OUTPUT) : option OUTPUT :=
  bf ← foldlM (fun bf (kb : Z * Z) => np_set2 bf kb.1 bn (kb.2 + min_band m))
              (bands_final out) (zip (k_points c) k_bands);
  sf ← foldlM (fun sf k =>
                 conns ← point_connections is_cluster c k;
                 np_set2 sf k bn (evaluate_result conns))
              (signal_final out) (k_points c);
  Some {| bands_final := bf; signal_final := sf;
          final_score := final_score out;
          degenerate_final := degenerate_final out |}.

(** The body of [for solved in self.solved]. *)
Definition output_solved (st : list Z * OUTPUT) (solved : COMPONENT)
  : option (list Z * OUTPUT) :=
  let '(solved_bands, out) := st in
  let '(k_bands, solved) := get_bands solved in
  b0 ← head (bands solved);
  bn ← next_band_solved solved_bands (b0 + min_band m) (tail (bands solved));
  out ← assign_band false solved k_bands bn out;
  Some (solved_bands ++ [bn], out).

(** The loop [for i_arg in clusters_sort[::-1]]; it is left by [break]
    at the first cluster for which no physical band is free. *)
Fixpoint output_clusters (clusters : list COMPONENT) (st : list Z * OUTPUT)
  : option (list Z * OUTPUT) :=
  match clusters with
  | [] => Some st
  | cluster :: clusters =>
      let '(solved_bands, out) := st in
      let '(k_bands, cluster) := get_bands cluster in
      b0 ← head (bands cluster);
      let '(bn, rest) :=
        next_band_cluster solved_bands (b0 + min_band m)
                          (tail (bands cluster)) in
      if bool_decide (bn ∈ solved_bands) && bool_decide (length rest = 0%nat)
      then Some st
      else
        out ← assign_band true cluster k_bands bn out;
        output_clusters clusters (solved_bands ++ [bn], out)
  end.

(** [np.argmax(row == bn) if np.sum(row == bn) != 0 else bn]. *)
Definition final_band_of (row : list Z) (bn : Z) : Z :=
  match where_eq row bn with
  | [] => bn
  | i :: _ => i
  end.

(** The body of [for d1, d2 in self.degenerados]. *)
Definition output_degenerate (sf_bf : list (list Z) * list (list Z))
    (d : Z * Z) : option (list (list Z) * list (list Z)) :=
  let '(sf, bf) := sf_bf in
  let k1 := d.1 mod nks m in
  let bn1 := d.1 / nks m + min_band m in
  let k2 := d.2 mod nks m in
  let bn2 := d.2 / nks m + min_band m in
  row1 ← np_index bf k1;
  row2 ← np_index bf k2;
  let bn1 := final_band_of row1 bn1 in
  let bn2 := final_band_of row2 bn2 in
  sf ← np_set2 sf k1 bn1 DEGENERATE;
  sf ← np_set2 sf k2 bn2 DEGENERATE;
  Some (sf, bf).

End ObtainOutput.

Section BasisRotation.

Variable m : MATERIAL.

(** [0.5 <= x <= 0.8]. *)
Definition in_rotation_range (x : Q) : bool :=
  Qle_bool (1 # 2) x && Qle_bool x (8 # 10).

(** The groups of [bn_deg] by the value of [k_deg], for [k_deg] and
    [bn_deg] already sorted by [k_deg]: [np.unique(k_deg)] and
    [np.split(bn_deg, index_unique[1:])]. *)
Definition group_by_k (k_deg bn_deg : list Z) : list (Z * list Z) :=
  map (fun kd => (kd, map snd (filter (fun p : Z * Z => p.1 = kd)
                                      (zip k_deg bn_deg))))
      (unique k_deg).

(** An entry of [k_basis_rotation]: [[k, k_deg, bn, bns_deg]]. *)
Definition rotation_entry : Type := Z * list Z * Z * list (list Z).

(** The branch [if np.any(np.logical_and(dps >= 0.5, dps <= 0.8))] for
    the point [k] of the physical band [bn]: the entry added to
    [k_basis_rotation], if any.  With a single neighbour holding several
    bands the code indexes a Python list with an array, an error. *)
Definition find_rotation (k bn bn_k : Z) (row i_neigs : list Z)
    (dps : list Q) : option (option rotation_entry) :=
  if existsb in_rotation_range dps then
    dps_deg ← mapM (fun i => a1 ← np_index (connections m) k;
                             a2 ← np_index a1 i;
                             np_index a2 bn_k) i_neigs;
    let hits :=
      rb ← enumerate dps_deg;
      map (fun bx : Z * Q => (rb.1, bx.1))
          (filter (fun bx : Z * Q => in_rotation_range bx.2 = true)
                  (enumerate rb.2)) in
    let i_deg := map fst hits in
    let bn_deg := map snd hits in
    let i_min := foldr Z.min (hd 0 i_neigs) i_neigs in
    k_deg ← mapM (fun i => np_index row (i + i_min)) i_deg;
    let i_sort := argsort k_deg in
    let k_deg := map (fun i => nth i k_deg 0) i_sort in
    let bn_deg := map (fun i => nth i bn_deg 0) i_sort in
    let groups := filter (fun g : Z * list Z => (1 < length g.2)%nat)
                         (group_by_k k_deg bn_deg) in
    match groups with
    | [] => Some None
    | [_] => None
    | _ => Some (Some (k, map fst groups, bn, map snd groups))
    end
  else Some None.

(** The body of [for k in range(self.nks)] for the physical band [bn]:
    the entry added to [k_basis_rotation], if any, and the term
    [np.mean(dps)] added to [score], if any. *)
Definition scan_point (out : OUTPUT) (bn k : Z)
  : option (option rotation_entry * option Q) :=
  sig ← np_index2 (signal_final out) k bn;
  if sig =? NOT_SOLVED then Some (None, None)
  else
    row ← np_index (neighbors m) k;
    guard (Z.of_nat (length row) = N_NEIGS);;
    let neigs := filter (fun p : Z * Z => p.2 ≠ -1) (enumerate row) in
    sigs ← mapM (fun p : Z * Z => np_index2 (signal_final out) p.2 bn)
                neigs;
    let neigs := mask_select neigs (map (fun s => negb (s =? NOT_SOLVED))
                                        sigs) in
    let i_neigs := map fst neigs in
    let kneigs := map snd neigs in
    if bool_decide (length kneigs = 0%nat) then Some (None, None)
    else
      bn_k ← np_index2 (bands_final out) k bn;
      bn_neighs ← mapM (fun kn => np_index2 (bands_final out) kn bn) kneigs;
      dps ← mapM (fun p : Z * Z => np_index4 (connections m) k p.1 bn_k p.2)
                 (zip i_neigs bn_neighs);
      entry ← find_rotation k bn bn_k row i_neigs dps;
      Some (entry, Some (mean dps)).

(** The loop [for bn in range(self.total_bands)]: the entries of
    [k_basis_rotation] and the array [final_score]. *)
Definition scan_band (out : OUTPUT) (bn : Z)
  : option (list rotation_entry * Q) :=
  guard (nks m ≠ 0);;
  found ← mapM (scan_point out bn) (arange 0 (nks m));
  let entries := omap fst found in
  let score := fold_left Qplus (omap snd found) 0%Q in
  Some (entries, (score / inject_Z (nks m))%Q).

(** [np.all(np.isin(a, b))]. *)
Definition all_isin (a b : list Z) : bool :=
  forallb (fun x => bool_decide (x ∈ b)) a.

(** The test that pairs the entry [e] with a later entry [e_]. *)
Definition same_locus (e e_ : rotation_entry) : bool :=
  let '(k, k_deg, bn, bns_deg) := e in
  let '(k_, k_deg_, bn_, bns_deg_) := e_ in
  (k =? k_) && bool_decide (k_deg = k_deg_)
  && forallb (fun p : list Z * list Z => all_isin p.1 p.2)
             (zip bns_deg bns_deg_).

(** The test of an entry of [degenerates] against the pair of entries. *)
Definition known_locus (k bn bn_ : Z) (d : Z * Z * Z * list Z) : bool :=
  let '(k_c, bn_c1, bn_c2, k_deg_c) := d in
  (k =? k_c) && all_isin [bn; bn_] [bn_c1; bn_c2]
  && existsb (fun x => x =? k) k_deg_c.

(** The inner loop [for ... in k_basis_rotation[i+1:]].  When an entry of
    [degenerates] passes [known_locus], the code evaluates
    [np.array(1, -1)], which is an error. *)
Definition pair_entries (e : rotation_entry)
    (degenerates : list (Z * Z * Z * list Z)) (e_ : rotation_entry)
  : option (list (Z * Z * Z * list Z)) :=
  if negb (same_locus e e_) then Some degenerates
  else
    let '(k, k_deg, bn, _) := e in
    let '(_, _, bn_, _) := e_ in
    if existsb (known_locus k bn bn_) degenerates then None
    else Some (degenerates ++ [(k, bn, bn_, k_deg)]).

(** The loop [for i, ... in enumerate(k_basis_rotation[:-1])]. *)
Fixpoint fold_rotations (entries : list rotation_entry)
    (degenerates : list (Z * Z * Z * list Z))
  : option (list (Z * Z * Z * list Z)) :=
  match entries with
  | [] => Some degenerates
  | e :: rest =>
      degenerates ← foldlM (pair_entries e) degenerates rest;
      fold_rotations rest degenerates
  end.

(** [obtain_output()], from the solved components and the clusters left
    by [get_components]. *)
Definition obtain_output (solved clusters : list COMPONENT) (out : OUTPUT)
  : option OUTPUT :=
  st ← foldlM (output_solved m) ([], out) solved;
  let clusters_sort := argsort (map N clusters) in
  sorted ← mapM (fun i => clusters !! i) (reverse clusters_sort);
  st ← output_clusters m sorted st;
  let out := st.2 in
  sf_bf ← foldlM (output_degenerate m)
                 (signal_final out, bands_final out) (degenerados m);
  let out := {| bands_final := sf_bf.2; signal_final := sf_bf.1;
                final_score := final_score out;
                degenerate_final := [] |} in
  scanned ← mapM (scan_band out) (arange 0 (total_bands m));
  fs ← foldlM (fun fs (bs : Z * Q) => np_set fs bs.1 bs.2)
              (final_score out)
              (zip (arange 0 (total_bands m)) (map snd scanned));
  degenerates ← fold_rotations (concat (map fst scanned)) [];
  Some {| bands_final := bands_final out; signal_final := signal_final out;
          final_score := fs;
          degenerate_final :=
            map (fun d : Z * Z * Z * list Z => (d.1.1.1, d.1.1.2, d.1.2))
                degenerates |}.

End BasisRotation.

(** The arrays at the start of [solve]: [bands_final] full of -1
    ([make_vectors]), [signal_final] and [final_score] full of 0. *)
Definition initial_output (m : MATERIAL) : OUTPUT := {|
  bands_final := full2 (nks m) (total_bands m) (-1);
  signal_final := full2 (nks m) (total_bands m) 0;
  final_score := replicate (Z.to_nat (total_bands m)) 0%Q;
  degenerate_final := []
|}.


Definition chain3_components : list (list Z) := [[0]; [1]; [2]; [3]; [4]; [5]].

(** One pass of [get_components(tol = 0.5)] and [obtain_output()] on a
    fresh run. *)
Definition first_output (m : MATERIAL) (components : list (list Z))
  : option OUTPUT :=
  energies ← make_BandsEnergy m;
  r ← get_components m flat_fit energies (1 # 2) components;
  obtain_output m r.1 r.2 (initial_output m).

(** ** [correct_signal] *)

(** [np.where(a == x)] on a 2-D array: the positions in row-major order. *)
Definition where_eq2 (a : list (list Z)) (x : Z) : list (Z * Z) :=
  r ← enumerate a; map (fun j => (r.1, j)) (where_eq r.2 x).

(** The state of [correct_signal] besides the output arrays: the graph it
    rebuilds and the corrected signals of this call and of the previous
    one. *)
Record CORRECTION := {
  GRAPH : Graph;
  correct_signalfinal : list (list Z);
  correct_signalfinal_prev : list (list Z)
}.

Section CorrectSignal.

Variable m : MATERIAL.
Variable curve_fit : list Z -> list Q -> Q * Q * Q.

(** [correct_signalfinal = np.copy(signal_final)] with CORRECT lowered to
    [CORRECT - 1], then the loop that re-evaluates the points signalled
    POTENTIAL_CORRECT or POTENTIAL_MISTAKE. *)
Definition evaluate_signals (out : OUTPUT) : option (list (list Z)) :=
  let csf := map (map (fun s => if s =? CORRECT then CORRECT - 1 else s))
                 (signal_final out) in
  let points := where_eq2 (signal_final out) POTENTIAL_CORRECT
                ++ where_eq2 (signal_final out) POTENTIAL_MISTAKE in
  foldlM (fun csf (p : Z * Z) =>
            r ← evaluate_point curve_fit p.1 p.2 (kpoints_index m) (matrix m)
                               (signal_final out) (bands_final out)
                               (eigenvalues m);
            np_set2 csf p.1 p.2 r.1)
         csf points.

(** [identify_points] for one band of [bands_signaling]. *)
Definition identify_points (band : list (list Z)) : list (list bool) :=
  let total := foldr Z.add 0 (concat band) in
  if Qlt_bool (inject_Z (nks m) * (5 # 100)) (inject_Z total) then
    map (map (fun x => 0 <? x)) (correlate band (replicate 3 [1; 1; 1]))
  else map (map (fun x => 0 <? x)) band.

(** [kp in self.degenerate_final]: some entry of the array equals [kp]. *)
Definition in_degenerate_final (out : OUTPUT) (kp : Z) : bool :=
  existsb (fun d : Z * Z * Z =>
             (d.1.1 =? kp) || (d.1.2 =? kp) || (d.2 =? kp))
          (degenerate_final out).

(** The edges found for the physical band [bn]. *)
Definition band_edges (out : OUTPUT) (bn : Z) (ident : list (list bool))
  : option (list (Z * Z)) :=
  found ← mapM (fun ij : Z * Z =>
      let '(ik, jk) := ij in
      need_correction ← np_index2 ident ik jk;
      kp ← np_index2 (matrix m) ik jk;
      if need_correction && negb (in_degenerate_final out kp) then Some []
      else
        es ← mapM (fun direction : Z * Z =>
            let ikn := ik + direction.1 in
            let jkn := jk + direction.2 in
            if (shape0 (matrix m) <=? ikn) || (shape1 (matrix m) <=? jkn)
            then Some []
            else
              kneig ← np_index2 (matrix m) ikn jkn;
              marked ← np_index2 ident ikn jkn;
              if negb marked then
                b ← np_index2 (bands_final out) kp bn;
                b_n ← np_index2 (bands_final out) kneig bn;
                Some [(kp + (b - min_band m) * nks m,
                       kneig + (b_n - min_band m) * nks m)]
              else Some [])
          [(1, 0); (0, 1)];
        Some (concat es))
    (i ← arange 0 (Z.of_nat (length ident));
     j ← arange 0 (Z.of_nat (length (nth (Z.to_nat i) ident [])));
     [(i, j)]);
  Some (concat found).

(** [correct_signal()], after its call of [obtain_output]. *)
Definition correct_signal_after_output (out : OUTPUT) (prev : list (list Z))
  : option CORRECTION :=
  csf ← evaluate_signals out;
  let MISTAKE_ := 1 in
  let OTHER := 3 in
  let errors := where_eq2 csf MISTAKE_ in
  let others := where_eq2 csf OTHER in
  other_same ← mapM (fun p : Z * Z => s ← np_index2 prev p.1 p.2;
                                      Some (s =? OTHER)) others;
  let ot := mask_select others other_same in
  let others := mask_select others (map negb other_same) in
  let marked := errors ++ others in
  k_index ← mapM (fun p : Z * Z => np_index (kpoints_index m) p.1) marked;
  bands_signaling ←
    foldlM (fun bs (p : Z * (Z * Z)) =>
              band ← np_index bs p.1;
              band ← np_set2 band p.2.1 p.2.2 1;
              np_set bs p.1 band)
           (replicate (Z.to_nat (total_bands m)) (full2 (nkx m) (nky m) 0))
           (zip (map snd marked) k_index);
  (* [bands_signaling[min_band : max_band + 1]]; a negative [min_band]
     is outside the contract of a run and is an error here *)
  guard (0 <= min_band m);;
  let window := take (Z.to_nat (max_band m + 1 - min_band m))
                     (drop (Z.to_nat (min_band m)) bands_signaling) in
  foldlM (fun (c : CORRECTION) (p : Z * list (list Z)) =>
            let bn := p.1 + min_band m in
            edges ← band_edges out bn (identify_points p.2);
            let G := add_edges_from edges (GRAPH c) in
            let prev := correct_signalfinal c in
            csf ← foldlM (fun csf (q : Z * Z) =>
                            np_set2 csf q.1 q.2 (CORRECT - 1))
                         (correct_signalfinal c) ot;
            Some {| GRAPH := G; correct_signalfinal := csf;
                    correct_signalfinal_prev := prev |})
         {| GRAPH := initial_graph m; correct_signalfinal := csf;
            correct_signalfinal_prev := prev |}
         (enumerate window).

(** [correct_signal()]. *)
Definition correct_signal (solved clusters : list COMPONENT) (out : OUTPUT)
    (prev : list (list Z)) : option (OUTPUT * CORRECTION) :=
  out ← obtain_output m solved clusters out;
  c ← correct_signal_after_output out prev;
  Some (out, c).

End CorrectSignal.

(** ** [solve] *)

(** The attributes that [solve] reads and writes.  [best_signal_final]
    does not exist before the first snapshot. *)
Record SOLVER := {
  TOL : Q;
  bands_final_flag : bool;
  max_solved : Z;
  output : OUTPUT;
  correction : CORRECTION;
  bands_final_prev : list (list Z);
  best_bands_final : list (list Z);
  best_score : list Q;
  best_signal_final : option (list (list Z));
  degenerate_best : list (Z * Z * Z)
}.

(** The result of running the loop of [solve]: it finished after a number
    of iterations, an iteration raised, or the fuel of the model ran out. *)
Inductive outcome : Type :=
| Done (s : SOLVER) (iterations : nat)
| Raised (iterations : nat)
| OutOfFuel.

(** [np.sum(a[:, bn] == NOT_SOLVED)]. *)
Definition count_not_solved (a : list (list Z)) (bn : Z) : option Z :=
  column ← mapM (fun row => np_index row bn) a;
  Some (Z.of_nat (length (filter (fun x => x = NOT_SOLVED) column))).

(** The loop [for bn, score in enumerate(self.final_score)] that counts
    the leading bands which are not worse than the best result. *)
Fixpoint count_solved (best : list Q) (csf csf_prev : list (list Z))
    (scores : list (Z * Q)) : option Z :=
  match scores with
  | [] => Some 0
  | (bn, score) :: scores =>
      best_score ← np_index best bn;
      not_solved_prev ← count_not_solved csf_prev bn;
      not_solved ← count_not_solved csf bn;
      if Qle_bool best_score score && (not_solved <=? not_solved_prev)
      then n ← count_solved best csf csf_prev scores; Some (n + 1)
      else Some 0
  end.

Section Solve.

Variable m : MATERIAL.
Variable curve_fit : list Z -> list Q -> Q * Q * Q.

(** [nx.connected_components(self.GRAPH)]: the components of the graph,
    each with its nodes, in the order networkx yields them. *)
Variable connected_components : Graph -> list (list Z).

(** The floats [step] and [min_tol] of the call, each given by its value. *)
Variable step : Q.
Variable min_tol : Q.

(** The state before the loop; [bands_final] is the array of
    [make_vectors], the graph is the one left by [make_connections]. *)
Definition solve_init (G : Graph) : SOLVER := {|
  TOL := 1 # 2;
  bands_final_flag := true;
  max_solved := 0;
  output := initial_output m;
  correction := {| GRAPH := G;
                   correct_signalfinal := [];
                   correct_signalfinal_prev :=
                     full2 (nks m) (total_bands m) (-1) |};
  bands_final_prev := bands_final (initial_output m);
  best_bands_final := bands_final (initial_output m);
  best_score := replicate (Z.to_nat (total_bands m)) 0%Q;
  best_signal_final := None;
  degenerate_best := []
|}.

(** The body of the loop, up to the test of the result: the components,
    the output, the corrected signals and the comparison with the
    previous [bands_final]. *)
Definition solve_compute (energies : list (list (list Q))) (s : SOLVER)
  : option (list COMPONENT * list COMPONENT * OUTPUT * CORRECTION) :=
  r ← get_components m curve_fit energies (TOL s)
         (connected_components (GRAPH (correction s)));
  out ← obtain_output m r.1 r.2 (output s);
  oc ← correct_signal m curve_fit r.1 r.2 out
          (correct_signalfinal_prev (correction s));
  Some (r.1, r.2, oc.1, oc.2).

(** [np.sum(np.abs(self.bands_final_prev - self.bands_final)) != 0]. *)
Definition bands_changed (prev cur : list (list Z)) : bool :=
  negb (foldr Z.add 0
          (map (fun p : Z * Z => Z.abs (p.1 - p.2))
               (zip (concat prev) (concat cur))) =? 0).

(** One iteration of [while bands_final_flag and TOL >= min_tol]; it ends
    with [TOL -= step] on floats. *)
Definition solve_step (energies : list (list (list Q))) (s : SOLVER)
  : option SOLVER :=
  r ← solve_compute energies s;
  let '(solved_, clusters_, out, c) := r in
  let flag := bands_changed (bands_final_prev s) (bands_final out) in
  solved ← count_solved (best_score s) (correct_signalfinal c)
                        (correct_signalfinal_prev c)
                        (enumerate (final_score out));
  if max_solved s <=? solved then
    Some {| TOL := float_sub (TOL s) step;
            bands_final_flag := flag;
            max_solved := solved;
            output := out;
            correction := c;
            bands_final_prev := bands_final out;
            best_bands_final := bands_final out;
            best_score := final_score out;
            best_signal_final := Some (signal_final out);
            degenerate_best := degenerate_final out |}
  else
    best_signal ← best_signal_final s;
    let restored := {| bands_final := best_bands_final s;
                       signal_final := best_signal;
                       final_score := best_score s;
                       degenerate_final := degenerate_best s |} in
    oc ← correct_signal m curve_fit solved_ clusters_ restored
            (correct_signalfinal_prev c);
    Some {| TOL := float_sub (TOL s) step;
            bands_final_flag := flag;
            max_solved := max_solved s;
            output := oc.1;
            correction := oc.2;
            bands_final_prev := bands_final out;
            best_bands_final := best_bands_final s;
            best_score := best_score s;
            best_signal_final := best_signal_final s;
            degenerate_best := degenerate_best s |}.

(** The loop of [solve]. *)
Fixpoint solve_loop (fuel : nat) (energies : list (list (list Q)))
    (s : SOLVER) (iterations : nat) : outcome :=
  if bands_final_flag s && Qle_bool min_tol (TOL s) then
    match fuel with
    | O => OutOfFuel
    | S fuel =>
        match solve_step energies s with
        | None => Raised iterations
        | Some s' => solve_loop fuel energies s' (S iterations)
        end
    end
  else Done s iterations.

(** [solve(step, min_tol)]: the loop, then the best result is restored. *)
Definition solve (fuel : nat) (G : Graph) : outcome :=
  match make_BandsEnergy m with
  | None => Raised 0
  | Some energies =>
      match solve_loop fuel energies (solve_init G) 0 with
      | Done s n =>
          match best_signal_final s with
          | None => Raised n
          | Some best_signal =>
              Done {| TOL := TOL s;
                      bands_final_flag := bands_final_flag s;
                      max_solved := max_solved s;
                      output := {| bands_final := best_bands_final s;
                                   signal_final := best_signal;
                                   final_score := best_score s;
                                   degenerate_final := degenerate_best s |};
                      correction := correction s;
                      bands_final_prev := bands_final_prev s;
                      best_bands_final := best_bands_final s;
                      best_score := best_score s;
                      best_signal_final := best_signal_final s;
                      degenerate_best := degenerate_best s |} n
          end
      | r => r
      end
  end.

End Solve.

(** A reference [connected_components] for the examples: the components
    in the order of their smallest node, each with its nodes in
    increasing order. *)
Definition reach_step (G : Graph) (s : gset Z) : gset Z :=
  s ∪ ⋃ (map (graph_neighbors G) (elements s)).

Fixpoint reach (fuel : nat) (G : Graph) (s : gset Z) : gset Z :=
  match fuel with
  | O => s
  | S fuel => reach fuel G (reach_step G s)
  end.

Definition reference_components (G : Graph) : list (list Z) :=
  fold_left (fun comps n =>
               if existsb (fun c => bool_decide (n ∈ c)) comps then comps
               else comps ++ [merge_sort Z.le
                                (elements (reach (size G) G {[n]}))])
            (merge_sort Z.le (elements (dom G))) [].

(** The number of iterations allowed by the tolerance schedule. *)
Definition iteration_bound (step min_tol : Q) : Z :=
  Qfloor (((1 # 2) - min_tol) / step) + 1.

(** The doubles [0.1] and [0.30000000000000004]. *)
Definition double_0_1 : Q := 3602879701896397 # 36028797018963968.
Definition double_0_30000000000000004 : Q :=
  1351079888211149 # 4503599627370496.

(** [TOL] after [n] iterations of the loop of [solve]. *)
Fixpoint tol_schedule (step : Q) (n : nat) : Q :=
  match n with
  | O => 1 # 2
  | S n => float_sub (tol_schedule step n) step
  end.

(** The first [n] subtractions [TOL -= step] are exact: after [k <= n]
    iterations [TOL] is [0.5 - k*step]. *)
Definition exact_schedule (step : Q) (n : nat) : Prop :=
  Forall (fun k : nat =>
            (tol_schedule step (S k)
             == (1 # 2) - inject_Z (Z.of_nat (S k)) * step)%Q)
         (seq 0 n).

(** The 2 x 2 grid with two flat bands and overlap 1 along each band. *)
Definition square2 : MATERIAL := {|
  nkx := 2; nky := 2; nks := 4; total_bands := 2;
  min_band := 0; max_band := 1;
  eigenvalues := replicate 4 [0; 1]%Q;
  connections := replicate 4 (replicate 4 [[1; 0]; [0; 1]]%Q);
  neighbors := [ [1; 2; -1; -1]; [-1; 3; 0; -1];
                 [3; -1; -1; 0]; [-1; -1; 2; 1] ];
  degenerados := []
|}.

(** ** Predicates of the properties *)

(** An entry of [bands_final]: -1 or an original band of the window. *)
Definition band_ok (m : MATERIAL) (x : Z) : Prop :=
  x = -1 \/ min_band m <= x <= max_band m.

Definition bands_final_ok (m : MATERIAL) (bf : list (list Z)) : Prop :=
  Forall (Forall (band_ok m)) bf.

(** A node whose band offset gives such an entry: a node of the band
    window, or a node that [correct_signal] makes from an unassigned
    entry. *)
Definition node_ok (m : MATERIAL) (n : Z) : Prop :=
  band_ok m (n / c_nks m + min_band m).

Definition components_ok (m : MATERIAL) (cs : list COMPONENT) : Prop :=
  Forall (fun c => Forall (node_ok m) (nodes c)) cs.

(** A chain of [n] k points with [B] flat bands (the energy of band [b]
    is [b]).  [bonds] lists the pairs with overlap 1: [(k, b, b')] bonds
    the band [b] at [k] with the band [b'] at [k + 1], in both
    directions; all other overlaps are 0. *)
Definition bonded_chain (n B : Z) (bonds : list (Z * Z * Z)) : MATERIAL := {|
  nkx := n; nky := 1; nks := n; total_bands := B;
  min_band := 0; max_band := B - 1;
  eigenvalues := map (fun _ => map inject_Z (arange 0 B)) (arange 0 n);
  connections :=
    map (fun k =>
      map (fun dir =>
        map (fun b1 =>
          map (fun b2 =>
            if ((dir =? 0) && bool_decide ((k, b1, b2) ∈ bonds))
               || ((dir =? 2) && bool_decide ((k - 1, b2, b1) ∈ bonds))
            then 1%Q else 0%Q)
            (arange 0 B))
          (arange 0 B))
        (arange 0 4))
      (arange 0 n);
  neighbors :=
    map (fun k => [if k + 1 <? n then k + 1 else -1; -1; k - 1; -1])
        (arange 0 n);
  degenerados := []
|}.

(** Three k points, three bands.  The bonds make the components
    [{0, 1, 4, 6}] (four nodes on the k points 0 and 1),
    [{3, 5, 7}] (one node per k point: solved), [{2}] and [{8}]. *)
Definition crossing3 : MATERIAL :=
  bonded_chain 3 3 [(0, 0, 0); (0, 0, 1); (0, 2, 0); (0, 1, 2); (1, 2, 1)].

Definition crossing3_graph : Graph :=
  default ∅ (make_connections_edges crossing3 (95 # 100) 1).



(** The 2 x 2 grid of [square2] with the two bands degenerate at k = 0:
    the nodes 0 and 4 form a degenerate pair. *)
Definition square2_degenerate : MATERIAL := {|
  nkx := 2; nky := 2; nks := 4; total_bands := 2;
  min_band := 0; max_band := 1;
  eigenvalues := [1 # 2; 1 # 2]%Q :: replicate 3 [0; 1]%Q;
  connections := connections square2;
  neighbors := neighbors square2;
  degenerados := [(0, 4)]
|}.



(** The overlaps are magnitudes. *)
Definition connections_nonneg (m : MATERIAL) : Prop :=
  Forall (Forall (Forall (Forall (fun x => (0 <= x)%Q)))) (connections m).

(** Two arrays of signals with NOT_SOLVED at the same places. *)
Definition same_zeros (a b : list (list Z)) : Prop :=
  Forall2 (Forall2 (fun x y => x = NOT_SOLVED <-> y = NOT_SOLVED)) a b.

(** The state of [solve] after [n] iterations of the loop body. *)
Fixpoint solve_iterate (m : MATERIAL)
    (curve_fit : list Z -> list Q -> Q * Q * Q)
    (connected_components : Graph -> list (list Z)) (step : Q)
    (energies : list (list (list Q))) (n : nat) (s : SOLVER)
  : option SOLVER :=
  match n with
  | O => Some s
  | S n =>
      s' ← solve_iterate m curve_fit connected_components step energies n s;
      solve_step m curve_fit connected_components step energies s'
  end.

(** What the loop of [solve] keeps true about the scores. *)
Definition best_score_inv (s : SOLVER) : Prop :=
  Forall (fun x => (0 <= x)%Q) (final_score (output s)) /\
  Forall (fun x => (0 <= x)%Q) (best_score s) /\
  length (best_score s) = length (final_score (output s)) /\
  ((max_solved s = 0 /\ Forall (fun x => (x == 0)%Q) (best_score s)) \/
   max_solved s = Z.of_nat (length (best_score s))).


(** The states of the loop of [solve] on [crossing3], with the tolerance
    step 0.1. *)
Definition crossing3_iterations (n : nat) : option SOLVER :=
  solve_iterate crossing3 flat_fit reference_components (1 # 10)
    (default [] (make_BandsEnergy crossing3)) n
    (solve_init crossing3 crossing3_graph).

Definition crossing3_state (n : nat) : SOLVER :=
  default (solve_init crossing3 crossing3_graph) (crossing3_iterations n).

(** A graph as [networkx] keeps it: the end of every edge is a node. *)
Definition graph_wf (G : Graph) : Prop :=
  forall u v, has_edge G u v -> has_node G v.

(** All the nodes of the graph satisfy [P]. *)
Definition graph_nodes (P : Z -> Prop) (G : Graph) : Prop :=
  forall n, has_node G n -> P n.

(** A node as the graph can hold it: a non-negative number
    ([make_vectors], [make_connections]), or a node made from an entry of
    [bands_final] ([correct_signal]). *)
Definition graph_node_ok (m : MATERIAL) (n : Z) : Prop :=
  0 <= n \/ node_ok m n.

(** [connected_components] yields nodes of the graph. *)
Definition components_of_graph (connected_components : Graph -> list (list Z))
  : Prop :=
  forall G, graph_wf G ->
    Forall (Forall (has_node G)) (connected_components G).

(** The arrays of bands of a state of [solve], and its graph. *)
Definition coverage_inv (m : MATERIAL) (s : SOLVER) : Prop :=
  bands_final_ok m (bands_final (output s)) /\
  bands_final_ok m (best_bands_final s) /\
  bands_final_ok m (bands_final_prev s) /\
  graph_wf (GRAPH (correction s)) /\
  graph_nodes (graph_node_ok m) (GRAPH (correction s)).

(** The components and the corrected signals of the first iteration of
    [solve] on [crossing3]. *)
Definition crossing3_energies : list (list (list Q)) :=
  default [] (make_BandsEnergy crossing3).

Definition crossing3_components : list COMPONENT * list COMPONENT :=
  default ([], [])
    (get_components crossing3 flat_fit crossing3_energies (1 # 2)
       (reference_components crossing3_graph)).

Definition crossing3_corrected : OUTPUT * CORRECTION :=
  default (initial_output crossing3, correction (solve_init crossing3 ∅))
    (correct_signal crossing3 flat_fit crossing3_components.1
       crossing3_components.2 (initial_output crossing3)
       (full2 (nks crossing3) (total_bands crossing3) (-1))).

(** ** [make_vectors] *)

(** The local [nbnd] of [make_vectors]: one past the last band of the
    window ([max_band = -1] stands for the last band of the input). *)
Definition window_end (m : MATERIAL) : Z :=
  if max_band m =? -1 then total_bands m else max_band m + 1.

(** [self.vectors]: one row [[ik, jk, E]] per node, band after band.
    [np.tile] raises for a negative count, [reshape] for a size that does
    not fit and [np.stack] for arrays of different lengths. *)
Definition make_vectors_array (m : MATERIAL) : option (list (Z * Z * Q)) :=
  let nb := window_end m - min_band m in
  let n_vectors := nb * nks m in
  guard (0 <= nb);;
  let ik := tile (map fst (kpoints_index m)) (Z.to_nat nb) in
  let jk := tile (map snd (kpoints_index m)) (Z.to_nat nb) in
  let bands := arange (min_band m) (window_end m) in
  columns ← mapM (fun b => mapM (fun row : list Q => np_index row b)
                                (eigenvalues m)) bands;
  let eigenvalues := concat columns in
  guard (n_vectors = -1 \/ Z.of_nat (length eigenvalues) = n_vectors);;
  guard (length ik = length eigenvalues);;
  Some (zip (zip ik jk) eigenvalues).

(** [np.isclose(x, 0)] with the default tolerances: [|x| <= 1e-8]. *)
Definition isclose0 (x : Q) : bool := Qle_bool (Qabs x) (1 # 100000000).

(** [np.all(np.isclose(w - v, 0))] for two rows of [self.vectors]. *)
Definition same_vector (v w : Z * Z * Q) : bool :=
  isclose0 (inject_Z (w.1.1 - v.1.1)) && isclose0 (inject_Z (w.1.2 - v.1.2))
  && isclose0 (w.2 - v.2).

(** The local [obtain_degenerates(vectors)] of [make_vectors], for a
    slice [vectors] of [enumerate(self.vectors)]: the pairs [[i, j]] with
    [j] after [i] and the same row. *)
Definition obtain_degenerates (all : list (Z * Z * Q))
    (vectors : list (Z * (Z * Z * Q))) : list (Z * Z) :=
  iv ← vectors;
  let rest := py_slice all (iv.1 + 1) (Z.of_nat (length all)) in
  let degenerado :=
    map fst (filter (fun dw : Z * (Z * Z * Q) => same_vector iv.2 dw.2 = true)
                    (enumerate rest)) in
  map (fun d => (iv.1, d + iv.1 + 1)) degenerado.

(** [self.degenerados] as [make_vectors] computes it with [n_process]
    processes.  The results of the processes are joined in the order in
    which they end; here this is the order in which they start (with one
    process there is no other). *)
Definition make_degenerados (n_process : Z) (m : MATERIAL)
  : option (list (Z * Z)) :=
  vectors ← make_vectors_array m;
  chunks ← parallelize_chunks n_process (enumerate vectors);
  Some (concat (map (obtain_degenerates vectors) chunks)).

(** The eigenvalue of the node [n]: that of its k point [n % nks] in the
    band [n // nks + min_band]. *)
Definition node_energy (m : MATERIAL) (n : Z) : option Q :=
  np_index2 (eigenvalues m) (n mod nks m) (n / nks m + min_band m).

(** The nodes of a list of components. *)
Definition all_nodes (l : list COMPONENT) : list Z := l ≫= nodes.

(** What the two loops of [get_components] keep: the set of the nodes
    held by the three lists, solved components of [nks] nodes and
    clusters of another size. *)
Definition partition_inv (m : MATERIAL) (ns : list Z)
    (st : list COMPONENT * list COMPONENT * list COMPONENT) : Prop :=
  (forall n, n ∈ all_nodes (st.1.1 ++ st.1.2 ++ st.2) <-> n ∈ ns) /\
  Forall (fun c => N c = nks m) st.1.1 /\
  Forall (fun c => N c <> nks m) st.1.2.

(** [solved_bands] at the end of the two loops of [obtain_output]. *)
Definition assigned_bands (m : MATERIAL) (solved clusters : list COMPONENT)
    (out : OUTPUT) : option (list Z) :=
  st ← foldlM (output_solved m) ([], out) solved;
  sorted ← mapM (fun i => clusters !! i) (reverse (argsort (map N clusters)));
  st ← output_clusters m sorted st;
  Some st.1.

(** The overlaps of the input lie between 0 and 1. *)
Definition connections_unit (m : MATERIAL) : Prop :=
  Forall (Forall (Forall (Forall (fun x => (0 <= x <= 1)%Q)))) (connections m).

(** The entries of an array of signals lie between 0 and [hi]. *)
Definition signals_within (hi : Z) (a : list (list Z)) : Prop :=
  Forall (Forall (fun s => 0 <= s <= hi)) a.

(** The scores of a state of [solve] lie between 0 and 1. *)
Definition scores_unit (s : SOLVER) : Prop :=
  Forall (fun x => (0 <= x <= 1)%Q) (final_score (output s)) /\
  Forall (fun x => (0 <= x <= 1)%Q) (best_score s).

(** The state that [solve] leaves on [crossing3]. *)
Definition crossing3_result : SOLVER :=
  match solve crossing3 flat_fit reference_components (1 # 10) 0 6
              crossing3_graph with
  | Done s _ => s
  | _ => solve_init crossing3 crossing3_graph
  end.

(** ** The mask of a component *)

(** An array of shape [(n0, n1)]. *)
Definition has_shape {A} (n0 n1 : Z) (a : list (list A)) : Prop :=
  Z.of_nat (length a) = n0 /\
  Forall (fun row => Z.of_nat (length row) = n1) a.

(** *** [validate] *)

(** The k points of the grid in the order of the two loops over the
    mask. *)
Definition grid_keys (nkx nky : Z) : list Z :=
  i ← arange 0 nkx; j ← arange 0 nky; [j * nkx + i].

Definition sumZ (l : list Z) : Z := foldr Z.add 0 l.

(** The entry of the mask of the k points [ks] at the k point [k]. *)
Definition mask_at (ks : list Z) (k : Z) : Z :=
  if bool_decide (k ∈ ks) then 1 else 0.
(** The mask of a component is up to date: [N] counts its nodes,
    [k_points] holds their k points and [positions_matrix] marks them. *)
Definition masked (m : MATERIAL) (c : COMPONENT) : Prop :=
  N c = Z.of_nat (length (nodes c)) /\
  k_points c = map (fun n => n mod nks m) (nodes c) /\
  Forall (fun i =>
    Forall (fun j => np_index2 (positions_matrix c) i j
                     = Some (mask_at (k_points c) (j * nkx m + i)))
           (arange 0 (nky m)))
    (arange 0 (nkx m)).

(** * Properties *)

(** *** Properties of [evaluate_result] *)

Lemma Qlt_bool_iff (x y : Q) : Qlt_bool x y = true <-> (x < y)%Q.
Proof.
  unfold Qlt_bool. rewrite negb_true_iff.
  split.
  - intros H. apply Qnot_le_lt. intros Hle.
    apply Qle_bool_iff in Hle. congruence.
  - intros H. destruct (Qle_bool y x) eqn:E; [|reflexivity].
    apply Qle_bool_iff in E. exfalso. exact (Qlt_not_le _ _ H E).
Qed.

Lemma Qlt_bool_false_iff (x y : Q) : Qlt_bool x y = false <-> (y <= x)%Q.
Proof.
  unfold Qlt_bool. rewrite negb_false_iff. apply Qle_bool_iff.
Qed.

Lemma evaluate_result_correct (values : list Q) :
  (9 # 10 < mean values)%Q -> evaluate_result values = CORRECT.
Proof.
  intros H. unfold evaluate_result.
  apply Qlt_bool_iff in H. cbv zeta. rewrite H. reflexivity.
Qed.

Lemma evaluate_result_potential_correct (values : list Q) :
  (8 # 10 < mean values)%Q -> (mean values <= 9 # 10)%Q ->
  evaluate_result values = POTENTIAL_CORRECT.
Proof.
  intros H1 H2. unfold evaluate_result. cbv zeta.
  apply Qlt_bool_iff in H1. apply Qlt_bool_false_iff in H2.
  rewrite H2, H1. reflexivity.
Qed.

Lemma evaluate_result_potential_mistake (values : list Q) :
  (2 # 10 < mean values)%Q -> (mean values < 8 # 10)%Q ->
  evaluate_result values = POTENTIAL_MISTAKE.
Proof.
  intros H1 H2. unfold evaluate_result. cbv zeta.
  assert (H3 : (mean values <= 9 # 10)%Q).
  { apply Qlt_le_weak. eapply Qlt_trans; [exact H2|]. reflexivity. }
  assert (H4 : (mean values <= 8 # 10)%Q) by (apply Qlt_le_weak; exact H2).
  apply Qlt_bool_iff in H1. apply Qlt_bool_iff in H2.
  apply Qlt_bool_false_iff in H3. apply Qlt_bool_false_iff in H4.
  rewrite H3, H4, H1, H2. reflexivity.
Qed.

Lemma evaluate_result_mistake (values : list Q) :
  (mean values <= 2 # 10)%Q -> evaluate_result values = MISTAKE.
Proof.
  intros H. unfold evaluate_result. cbv zeta.
  assert (H3 : (mean values <= 9 # 10)%Q).
  { eapply Qle_trans; [exact H|]. discriminate. }
  assert (H4 : (mean values <= 8 # 10)%Q).
  { eapply Qle_trans; [exact H|]. discriminate. }
  apply Qlt_bool_false_iff in H. apply Qlt_bool_false_iff in H3.
  apply Qlt_bool_false_iff in H4.
  rewrite H3, H4, H. reflexivity.
Qed.

(** At the threshold [TOL_DEG] itself neither [value > TOL_DEG] nor
    [value < TOL_DEG] holds, and the function falls through to [MISTAKE]. *)
Lemma evaluate_result_at_TOL_DEG (values : list Q) :
  (mean values == 8 # 10)%Q -> evaluate_result values = MISTAKE.
Proof.
  intros H. unfold evaluate_result. cbv zeta.
  assert (H3 : (mean values <= 9 # 10)%Q) by (rewrite H; discriminate).
  assert (H4 : (mean values <= 8 # 10)%Q) by (rewrite H; apply Qle_refl).
  assert (H5 : (8 # 10 <= mean values)%Q) by (rewrite H; apply Qle_refl).
  apply Qlt_bool_false_iff in H3. apply Qlt_bool_false_iff in H4.
  apply Qlt_bool_false_iff in H5.
  rewrite H3, H4, H5, andb_false_r. reflexivity.
Qed.

(** C3: the docstring of [evaluate_result] and the specification give
    POTENTIAL_MISTAKE (3) for a mean connection of exactly 0.8; the code
    returns MISTAKE (1) there, e.g. for the single overlap [0.8] and for
    the four overlaps [0.7, 0.9, 0.8, 0.8]. *)
Theorem evaluate_result_mean_08 :
  evaluate_result [8 # 10]%Q = MISTAKE /\
  evaluate_result [7 # 10; 9 # 10; 8 # 10; 8 # 10]%Q = MISTAKE /\
  MISTAKE <> POTENTIAL_MISTAKE.
Proof. repeat split; vm_compute; congruence. Qed.

(** *** Properties of [evaluate_point] *)

(** The candidate points of a direction that fall inside the grid. *)
Definition candidates (k_matrix : list (list Z)) (ik jk : Z)
    (direction : Z * Z) : list Z :=
  (direction_points 4 k_matrix ik jk direction).1.2.

Lemma direction_energy_no_candidates curve_fit k bn k_matrix bands energies
    ik jk Ek direction :
  candidates k_matrix ik jk direction = [] ->
  direction_energy curve_fit k bn k_matrix bands energies ik jk Ek direction
  = Some 1%Q.
Proof.
  unfold candidates, direction_energy. intros H.
  destruct (direction_points 4 k_matrix ik jk direction) as [[flag i] j].
  simpl in H. subst i. reflexivity.
Qed.

Lemma Forall2_lookup_eq {A B} (R : A -> B -> Prop) (l : list A) (k : list B)
    (d : nat) (x : A) :
  Forall2 R l k -> l !! d = Some x -> exists y, k !! d = Some y /\ R x y.
Proof.
  intros HF Hl. destruct (Forall2_lookup_l R l k d x HF Hl) as (y & ? & ?).
  eauto.
Qed.

(** A 2 x 2 grid with two flat bands, the bands in their original order. *)
Definition corner_bands : list (list Z) := repeat [0; 1] 4.
Definition corner_signal : list (list Z) := repeat [4; 4] 4.
Definition corner_energies : list (list Q) := repeat [0; 1]%Q 4.

(** C10: in [evaluate_point] a direction none of whose candidate points
    lies inside the grid contributes the energy value 1 and so counts as
    preserving continuity (score 1); at the corner k = 0 of a 2 x 2 grid
    only two directions have candidate points and the point is signalled
    CORRECT (4). *)
Theorem evaluate_point_empty_direction :
  (forall curve_fit k bn k_index k_matrix signal bands energies
          sig scores ik jk d direction,
      evaluate_point curve_fit k bn k_index k_matrix signal bands energies
        = Some (sig, scores) ->
      np_index k_index k = Some (ik, jk) ->
      directions !! d = Some direction ->
      candidates k_matrix ik jk direction = [] ->
      scores !! d = Some 1) /\
  (forall curve_fit : list Z -> list Q -> Q * Q * Q,
      evaluate_point curve_fit 0 0 (make_kpoints_index 2 4) (make_matrix 2 2)
        corner_signal corner_bands corner_energies = Some (4, [1; 1; 1; 1]) /\
      filter (fun direction => candidates (make_matrix 2 2) 0 0 direction <> [])
        directions = [(1, 0); (0, 1)]).
Proof.
  split.
  - intros curve_fit k bn k_index k_matrix signal bands energies
           sig scores ik jk d direction Hev Hk Hd Hc.
    unfold evaluate_point in Hev. cbv zeta in Hev.
    destruct (np_index2 bands k bn) as [mach_bn|]; [|discriminate].
    destruct (np_index2 signal k bn) as [sg|]; [|discriminate].
    rewrite Hk in Hev. cbn [mbind option_bind fst snd] in Hev.
    destruct (np_index2 energies k mach_bn) as [Ek|]; [|discriminate].
    cbn [mbind option_bind] in Hev.
    destruct (mapM _ directions) as [energy_vals|] eqn:HM; [|discriminate].
    cbn [mbind option_bind] in Hev.
    apply mapM_Some_1 in HM.
    destruct (Forall2_lookup_eq _ _ _ _ _ HM Hd) as (e & He & Hde).
    rewrite direction_energy_no_candidates in Hde by exact Hc.
    injection Hde as <-.
    assert (Hs : map (fun e => if Qlt_bool (9 # 10) e then 1 else 0)
                     energy_vals !! d = Some 1).
    { rewrite list_lookup_fmap, He. reflexivity. }
    destruct (_ =? N_NEIGS); [|destruct (_ =? 0)];
      injection Hev as _ <-; exact Hs.
  - intros curve_fit. split; vm_compute; reflexivity.
Qed.

Lemma evaluate_point_empty_direction_witness :
  [1; 1; 1; 1] !! 2%nat = Some 1.
Proof.
  apply (proj1 evaluate_point_empty_direction flat_fit 0 0
           (make_kpoints_index 2 4) (make_matrix 2 2)
           corner_signal corner_bands corner_energies
           4 [1; 1; 1; 1] 0 0 2%nat (-1, 0)).
  - vm_compute; reflexivity.
  - vm_compute; reflexivity.
  - reflexivity.
  - vm_compute; reflexivity.
Defined.

(** *** Properties of the graph *)

Lemma graph_neighbors_add_edge (G : Graph) (u v a : Z) :
  graph_neighbors (add_edge u v G) a
  = graph_neighbors G a ∪ (if decide (a = u) then {[v]} else ∅)
                        ∪ (if decide (a = v) then {[u]} else ∅).
Proof.
  unfold add_edge, graph_neighbors.
  destruct (decide (a = u)) as [Hu|Hu], (decide (a = v)) as [Hv|Hv];
    subst;
    repeat (rewrite ?lookup_insert_eq, ?lookup_insert_ne by congruence;
            simpl);
    set_solver.
Qed.

Lemma has_edge_add_edge (G : Graph) (u v a b : Z) :
  has_edge (add_edge u v G) a b
  <-> has_edge G a b \/ (a = u /\ b = v) \/ (a = v /\ b = u).
Proof.
  unfold has_edge. rewrite graph_neighbors_add_edge.
  destruct (decide (a = u)), (decide (a = v)); set_solver.
Qed.

Lemma has_edge_add_edges_from (edges : list (Z * Z)) (G : Graph) (a b : Z) :
  has_edge (add_edges_from edges G) a b
  <-> has_edge G a b \/ (a, b) ∈ edges \/ (b, a) ∈ edges.
Proof.
  revert G. induction edges as [|[u v] edges IH]; intros G.
  - simpl. set_solver.
  - simpl. rewrite IH, has_edge_add_edge. simpl.
    rewrite !elem_of_cons. split; intros H; [|].
    + destruct H as [[?|[[-> ->]|[-> ->]]]|[?|?]]; eauto 6.
    + destruct H as [?|[[H|?]|[H|?]]]; eauto 6;
        injection H as -> ->; eauto 6.
Qed.

Lemma graph_neighbors_add_node (G : Graph) (n a : Z) :
  graph_neighbors (add_node n G) a = graph_neighbors G a.
Proof.
  unfold add_node, graph_neighbors.
  destruct (G !! n) eqn:E; [reflexivity|].
  destruct (decide (n = a)) as [->|Hne].
  - rewrite lookup_insert_eq, E. reflexivity.
  - rewrite lookup_insert_ne by exact Hne. reflexivity.
Qed.

Lemma graph_neighbors_add_nodes_from (ns : list Z) (G : Graph) (a : Z) :
  graph_neighbors (add_nodes_from ns G) a = graph_neighbors G a.
Proof.
  revert G. induction ns as [|n ns IH]; intros G; simpl; [reflexivity|].
  rewrite IH. apply graph_neighbors_add_node.
Qed.

Lemma initial_graph_no_edge (m : MATERIAL) (a b : Z) :
  ~ has_edge (initial_graph m) a b.
Proof.
  unfold has_edge, initial_graph.
  rewrite graph_neighbors_add_nodes_from. unfold graph_neighbors.
  rewrite lookup_empty. simpl. set_solver.
Qed.

(** The graph is undirected whatever edges were added. *)
Lemma has_edge_sym_add_edges_from (edges : list (Z * Z)) (G : Graph) :
  (forall a b, has_edge G a b -> has_edge G b a) ->
  forall a b, has_edge (add_edges_from edges G) a b ->
              has_edge (add_edges_from edges G) b a.
Proof.
  intros HG a b. rewrite !has_edge_add_edges_from.
  intros [H|[H|H]]; auto.
Qed.

(** *** Properties of [make_connections] *)

Lemma elem_of_where_eq (a : list Z) (x d : Z) :
  d ∈ where_eq a x <-> exists i : nat, d = Z.of_nat i /\ a !! i = Some x.
Proof.
  unfold where_eq. rewrite list_elem_of_fmap. split.
  - intros ([i y] & -> & H). apply list_elem_of_filter in H as [Hy H].
    simpl in Hy. subst y.
    apply elem_of_lookup_imap in H as (i' & y' & Heq & Hl).
    injection Heq as -> ->. eauto.
  - intros (i & -> & H). exists (i, x). split; [reflexivity|].
    apply list_elem_of_filter. split; [reflexivity|].
    apply (elem_of_lookup_imap_2 (fun i y => (i, y))). exact H.
Qed.

Lemma zip_tile_repeat {A B} (l : list A) (bs : list B) :
  zip (tile l (length bs)) (np_repeat bs (length l))
  = bs ≫= (fun b => (fun x => (x, b)) <$> l).
Proof.
  unfold tile, np_repeat. induction bs as [|b bs IH]; [reflexivity|].
  cbn [length replicate concat mbind list_bind].
  rewrite zip_with_app by (rewrite length_replicate; reflexivity).
  f_equal; [|exact IH].
  clear. induction l as [|x l IH]; [reflexivity|].
  simpl. f_equal. exact IH.
Qed.

Lemma truth_singleton (a : list bool) (b : bool) :
  truth a = Some b -> a = [b] \/ (a = [] /\ b = false).
Proof.
  destruct a as [|x [|y a]]; simpl; intros H; try discriminate;
    injection H as <-; auto.
Qed.

Lemma elem_of_concat_mapM {A B} (f : A -> option (list B)) (xs : list A)
    (found : list (list B)) (y : B) :
  mapM f xs = Some found ->
  y ∈ concat found <-> exists x l, x ∈ xs /\ f x = Some l /\ y ∈ l.
Proof.
  intros H. apply mapM_Some_1 in H.
  induction H as [|x l xs found Hx _ IH]; simpl.
  - split; [intros H; inversion H|intros (x & l & H & _); inversion H].
  - rewrite elem_of_app, IH. split.
    + intros [Hy|(x' & l' & Hin & Hf & Hy)].
      * exists x, l. rewrite elem_of_cons. auto.
      * exists x', l'. rewrite elem_of_cons. auto.
    + intros (x' & l' & Hin & Hf & Hy).
      apply elem_of_cons in Hin as [->|Hin].
      * left. congruence.
      * right. eauto.
Qed.

Lemma mapM_is_Some_elem {A B} (f : A -> option B) (xs : list A)
    (ys : list B) (x : A) :
  mapM f xs = Some ys -> x ∈ xs -> is_Some (f x).
Proof.
  intros H Hin.
  assert (HS : is_Some (mapM f xs)) by (rewrite H; eauto).
  apply mapM_is_Some_1 in HS. rewrite Forall_forall in HS.
  apply HS. exact Hin.
Qed.

Section ConnectionsProperties.

Variable m : MATERIAL.
Variable tol : Q.

Lemma connected_true_inv k1 bn1 row j_ :
  connected m tol k1 bn1 row j_ = Some true ->
  exists (dir : nat) (c : Q),
    row !! dir = Some (j_ mod nks m) /\
    np_index4 (connections m) k1 (Z.of_nat dir) bn1
              (j_ / nks m + min_band m) = Some c /\
    (tol < c)%Q.
Proof.
  unfold connected. cbv zeta.
  destruct (mapM _ (where_eq row (j_ mod nks m))) as [conn|] eqn:HM;
    [|discriminate].
  cbn [mbind option_bind]. intros Ht.
  apply truth_singleton in Ht as [Ht|[_ ?]]; [|discriminate].
  destruct conn as [|c [|c' conn]]; try discriminate.
  injection Ht as Ht. apply Qlt_bool_iff in Ht.
  apply mapM_Some_1 in HM. inversion HM as [|d c0 ds cs Hd Hrest Heq1 Heq2].
  subst. inversion Hrest. subst.
  assert (Hin : d ∈ where_eq row (j_ mod nks m))
    by (rewrite <- Heq1; apply list_elem_of_here).
  apply elem_of_where_eq in Hin as (i & -> & Hi).
  exists i, c. auto.
Qed.

Lemma connected_Some_true k1 bn1 row j_ (t : bool) (dir : nat) (c : Q) :
  connected m tol k1 bn1 row j_ = Some t ->
  row !! dir = Some (j_ mod nks m) ->
  np_index4 (connections m) k1 (Z.of_nat dir) bn1
            (j_ / nks m + min_band m) = Some c ->
  (tol < c)%Q ->
  t = true.
Proof.
  unfold connected. cbv zeta.
  destruct (mapM _ (where_eq row (j_ mod nks m))) as [conn|] eqn:HM;
    [|discriminate].
  cbn [mbind option_bind]. intros Ht Hrow Hc Hlt.
  assert (Hin : Z.of_nat dir ∈ where_eq row (j_ mod nks m))
    by (apply elem_of_where_eq; eauto).
  apply mapM_Some_1 in HM.
  destruct (where_eq row (j_ mod nks m)) as [|d ds] eqn:Hw;
    [inversion Hin|].
  inversion HM as [|d0 c0 ds0 cs Hd Hrest]. subst.
  apply truth_singleton in Ht as [Ht|[? _]]; [|discriminate].
  destruct cs as [|c1 cs]; [|discriminate].
  inversion Hrest. subst.
  apply list_elem_of_singleton in Hin. subst d.
  rewrite Hc in Hd. injection Hd as <-.
  injection Ht as <-. apply Qlt_bool_iff. exact Hlt.
Qed.

End ConnectionsProperties.

Lemma np_pos_lt (n : nat) (i : Z) (p : nat) :
  np_pos n i = Some p -> (p < n)%nat.
Proof.
  unfold np_pos.
  destruct ((0 <=? i) && (i <? Z.of_nat n)) eqn:E1;
    [|destruct ((- Z.of_nat n <=? i) && (i <? 0)) eqn:E2];
    intros H; try discriminate; injection H as <-; lia.
Qed.

Lemma np_pos_nonneg (n : nat) (i : Z) :
  0 <= i < Z.of_nat n -> np_pos n i = Some (Z.to_nat i).
Proof.
  intros H. unfold np_pos.
  destruct (Z.leb_spec 0 i); [|lia].
  destruct (Z.ltb_spec i (Z.of_nat n)); [reflexivity|lia].
Qed.

Lemma np_index_elem {A} (l : list A) (i : Z) (x : A) :
  np_index l i = Some x -> x ∈ l.
Proof.
  unfold np_index. destruct (np_pos _ _) as [p|]; [|discriminate].
  cbn [mbind option_bind]. intros H. apply list_elem_of_lookup. eauto.
Qed.

Lemma length_tile {A} (l : list A) (n : nat) :
  length (tile l n) = (n * length l)%nat.
Proof.
  unfold tile. induction n as [|n IH]; simpl; [reflexivity|].
  rewrite length_app, IH. reflexivity.
Qed.

Lemma length_np_repeat {A} (l : list A) (n : nat) :
  length (np_repeat l n) = (length l * n)%nat.
Proof.
  unfold np_repeat. induction l as [|x l IH]; [reflexivity|].
  rewrite bind_cons, length_app, length_replicate, IH. reflexivity.
Qed.

Lemma elem_of_tile {A} (l : list A) (n : nat) (x : A) :
  x ∈ tile l n -> x ∈ l.
Proof.
  unfold tile. induction n as [|n IH]; simpl.
  - intros H. inversion H.
  - rewrite elem_of_app. intros [H|H]; auto.
Qed.

Lemma elem_of_np_repeat {A} (l : list A) (n : nat) (x : A) :
  x ∈ np_repeat l n -> x ∈ l.
Proof.
  unfold np_repeat. rewrite list_elem_of_bind.
  intros (y & Hx & Hy). apply elem_of_replicate_inv in Hx. congruence.
Qed.

Lemma elem_of_arange (lo hi x : Z) : x ∈ arange lo hi <-> lo <= x < hi.
Proof. unfold arange. rewrite elem_of_seqZ. lia. Qed.

Section EdgesProperties.

Variable m : MATERIAL.
Variable tol : Q.

Lemma node_edges_inv bands i_ es a b :
  node_edges m tol bands i_ = Some es ->
  (a, b) ∈ es ->
  a = i_ /\
  exists row neigh bb,
    np_index (neighbors m) (i_ mod nks m) = Some row /\
    neigh ∈ row /\ bb ∈ bands /\ neigh <> -1 /\
    b = neigh + bb * nks m /\
    connected m tol (i_ mod nks m) (i_ / nks m + min_band m) row b
    = Some true.
Proof.
  unfold node_edges. cbv zeta.
  destruct (np_index (neighbors m) (i_ mod nks m)) as [row|]; [|discriminate].
  cbn [mbind option_bind].
  case_guard; [|discriminate]. cbn [mbind option_bind].
  destruct (mapM _ _) as [found|] eqn:HM; [|discriminate].
  cbn [mbind option_bind]. intros Hes Hin. injection Hes as <-.
  apply (elem_of_concat_mapM _ _ _ _ HM) in Hin as (j_ & l & Hj & Hl & Hab).
  destruct (connected m tol _ _ row j_) as [[|]|] eqn:Hc;
    cbn [mbind option_bind] in Hl; try discriminate;
    injection Hl as <-; [|inversion Hab].
  apply list_elem_of_singleton in Hab. injection Hab as -> ->.
  split; [reflexivity|].
  apply list_elem_of_fmap in Hj as ([neigh bb] & -> & Hnb).
  apply list_elem_of_filter in Hnb as [Hne Hnb]. simpl in Hne.
  exists row, neigh, bb. simpl in *.
  repeat split; auto.
  - apply elem_of_zip_l in Hnb. eapply elem_of_tile; exact Hnb.
  - apply elem_of_zip_r in Hnb. exact Hnb.
Qed.

Lemma node_edges_complete bands i_ es row neigh bb :
  node_edges m tol bands i_ = Some es ->
  np_index (neighbors m) (i_ mod nks m) = Some row ->
  (neigh, bb) ∈ zip (tile row (Z.to_nat (nbnd m))) bands ->
  neigh <> -1 ->
  exists t,
    connected m tol (i_ mod nks m) (i_ / nks m + min_band m) row
              (neigh + bb * nks m) = Some t /\
    (t = true -> (i_, neigh + bb * nks m) ∈ es).
Proof.
  unfold node_edges. cbv zeta. intros Hes Hrow Hnb Hne.
  rewrite Hrow in Hes. cbn [mbind option_bind] in Hes.
  case_guard; [|discriminate]. cbn [mbind option_bind] in Hes.
  destruct (mapM _ _) as [found|] eqn:HM; [|discriminate].
  cbn [mbind option_bind] in Hes. injection Hes as <-.
  set (j_ := neigh + bb * nks m).
  assert (Hj : j_ ∈ map (fun nb : Z * Z => nb.1 + nb.2 * nks m)
                 (filter (fun nb : Z * Z => nb.1 ≠ -1)
                    (zip (tile row (Z.to_nat (nbnd m))) bands))).
  { apply list_elem_of_fmap. exists (neigh, bb). split; [reflexivity|].
    apply list_elem_of_filter. split; [exact Hne|exact Hnb]. }
  destruct (mapM_is_Some_elem _ _ _ _ HM Hj) as [l Hl].
  destruct (connected m tol _ _ row j_) as [t|] eqn:Hc;
    cbn [mbind option_bind] in Hl; [|discriminate].
  exists t. split; [reflexivity|]. intros ->.
  apply (elem_of_concat_mapM _ _ _ _ HM).
  exists j_, [(i_, j_)]. rewrite Hc. cbn [mbind option_bind].
  split; [exact Hj|]. split; [reflexivity|]. apply list_elem_of_here.
Qed.

End EdgesProperties.

(** *** The slices of [parallelize] *)

Lemma py_slice_nonneg {A} (l : list A) (a b : Z) :
  0 <= a <= b -> b <= Z.of_nat (length l) ->
  py_slice l a b = take (Z.to_nat (b - a)) (drop (Z.to_nat a) l).
Proof.
  intros Ha Hb. unfold py_slice.
  destruct (Z.ltb_spec a 0); [lia|]. destruct (Z.ltb_spec b 0); [lia|].
  rewrite !Z.min_l by lia. reflexivity.
Qed.

Lemma concat_even_slices {A} (l : list A) (n : Z) (q : nat) :
  0 <= n -> Z.of_nat q * n <= Z.of_nat (length l) ->
  concat (map (fun i => py_slice l (i * n) (n * (i + 1)))
              (seqZ 0 (Z.of_nat q)))
  = take (Z.to_nat (Z.of_nat q * n)) l.
Proof.
  intros Hn. induction q as [|q IH]; intros Hq.
  - reflexivity.
  - rewrite seqZ_S, map_app, concat_app, IH by lia.
    cbn [map concat]. rewrite app_nil_r.
    rewrite py_slice_nonneg by nia.
    replace (Z.to_nat (Z.of_nat (S q) * n))
      with (Z.to_nat (Z.of_nat q * n) + Z.to_nat n)%nat by nia.
    rewrite <- take_take_drop. f_equal. f_equal; f_equal; nia.
Qed.

Lemma parallelize_chunks_concat {A} (n_process : Z) (iterator : list A)
    chunks :
  0 < n_process ->
  parallelize_chunks n_process iterator = Some chunks ->
  concat chunks = iterator.
Proof.
  intros Hp. unfold parallelize_chunks.
  rewrite option_guard_True by lia. cbn [mbind option_bind].
  intros H. injection H as <-.
  set (N := Z.of_nat (length iterator)). set (n := N / n_process).
  assert (Hn : 0 <= n) by (apply Z.div_pos; lia).
  assert (HN : N = n_process * n + N mod n_process)
    by (apply Z.div_mod; lia).
  assert (Hmod : 0 <= N mod n_process < n_process)
    by (apply Z.mod_pos_bound; lia).
  unfold arange.
  replace (n_process - 0) with (Z.of_nat (S (Z.to_nat (n_process - 1))))
    by lia.
  rewrite seqZ_S, map_app, concat_app. cbn [map concat].
  rewrite app_nil_r.
  rewrite (map_ext_in _ (fun i => py_slice iterator (i * n) (n * (i + 1)))).
  2:{ intros i Hi. apply list_elem_of_In, elem_of_seqZ in Hi.
      destruct (Z.ltb_spec i (n_process - 1)); [reflexivity|lia]. }
  rewrite concat_even_slices by (fold N; nia).
  destruct (Z.ltb_spec (0 + Z.of_nat (Z.to_nat (n_process - 1)))
                       (n_process - 1)); [lia|].
  rewrite py_slice_nonneg by (fold N; nia).
  replace ((0 + Z.of_nat (Z.to_nat (n_process - 1))) * n)
    with (Z.of_nat (Z.to_nat (n_process - 1)) * n) by lia.
  rewrite (take_ge (drop _ _)).
  2:{ rewrite length_drop. fold N. nia. }
  apply take_drop.
Qed.

Lemma parallelize_chunks_is_Some {A} (n_process : Z) (iterator : list A) :
  n_process <> 0 -> is_Some (parallelize_chunks n_process iterator).
Proof.
  intros Hp. unfold parallelize_chunks.
  rewrite option_guard_True by exact Hp. cbn [mbind option_bind]. eauto.
Qed.

Lemma parallelize_chunks_elem {A} (n_process : Z) (iterator : list A)
    chunks chunk (x : A) :
  parallelize_chunks n_process iterator = Some chunks ->
  chunk ∈ chunks -> x ∈ chunk -> x ∈ iterator.
Proof.
  unfold parallelize_chunks. case_guard; [|discriminate].
  cbn [mbind option_bind]. intros Heq Hchunk Hx. injection Heq as <-.
  apply list_elem_of_fmap in Hchunk as (i & -> & _).
  unfold py_slice in Hx. apply subseteq_take, subseteq_drop in Hx. exact Hx.
Qed.

Lemma elem_of_concat {A} (x : A) (ls : list (list A)) :
  x ∈ concat ls <-> exists l, x ∈ l /\ l ∈ ls.
Proof.
  induction ls as [|a ls IH]; simpl.
  - split; [inversion 1|intros (l & _ & H); inversion H].
  - rewrite elem_of_app, IH. split.
    + intros [H|(l & H1 & H2)].
      * exists a. split; [exact H|apply list_elem_of_here].
      * exists l. split; [exact H1|apply list_elem_of_further, H2].
    + intros (l & H1 & H2).
      apply elem_of_cons in H2 as [->|H2]; [left|right]; eauto.
Qed.

Lemma np_index_in_range {A} (l : list A) (i : Z) :
  0 <= i < Z.of_nat (length l) ->
  exists x, np_index l i = Some x /\ x ∈ l.
Proof.
  intros Hi. unfold np_index. rewrite np_pos_nonneg by exact Hi.
  cbn [mbind option_bind].
  destruct (lookup_lt_is_Some_2 l (Z.to_nat i)) as [x Hx]; [lia|].
  exists x. split; [exact Hx|]. apply list_elem_of_lookup. eauto.
Qed.

Lemma length_where_eq (a : list Z) (x : Z) :
  length (where_eq a x) = length (filter (fun y => y = x) a).
Proof.
  unfold where_eq. rewrite length_map.
  assert (H : forall g : nat -> nat,
            length (filter (fun p : nat * Z => p.2 = x)
                           (imap (fun i y => (g i, y)) a))
            = length (filter (fun y => y = x) a)).
  { induction a as [|y a IH]; intros g; [reflexivity|].
    cbn [imap]. rewrite !filter_cons. cbn [snd].
    specialize (IH (fun i => g (S i))).
    destruct (decide (y = x)); cbn [length]; rewrite <- IH; reflexivity. }
  exact (H (fun i => i)).
Qed.

Lemma where_eq_at_most_one (row : list Z) (x : Z) :
  NoDup (filter (fun y => y <> -1) row) -> x <> -1 ->
  (length (where_eq row x) <= 1)%nat.
Proof.
  intros Hnd Hx. rewrite length_where_eq.
  induction row as [|y row IH]; [simpl; lia|].
  rewrite filter_cons in Hnd |- *.
  destruct (decide (y = x)) as [->|Hyx].
  - rewrite decide_True in Hnd by exact Hx.
    apply NoDup_cons in Hnd as [Hnotin _].
    assert (Hnil : filter (fun y => y = x) row = []).
    { destruct (filter (fun y => y = x) row) as [|z l] eqn:Hf; [reflexivity|].
      exfalso. apply Hnotin.
      assert (Hz : z ∈ filter (fun y => y = x) row)
        by (rewrite Hf; apply list_elem_of_here).
      apply list_elem_of_filter in Hz as [-> Hz].
      apply list_elem_of_filter. auto. }
    rewrite Hnil. simpl. lia.
  - apply IH. destruct (decide (y <> -1)); [|exact Hnd].
    apply NoDup_cons in Hnd as [_ Hnd]. exact Hnd.
Qed.

Section MakeConnections.

Variable m : MATERIAL.
Variable tol : Q.
Hypothesis min_band_0 : min_band m = 0.
Hypothesis nks_pos : 0 < nks m.
Hypothesis neighbors_ok : neighbors_in_range m.

Lemma n_vectors_min_band_0 : n_vectors m = (max_band m + 1) * nks m.
Proof. unfold n_vectors, nbnd. rewrite min_band_0. f_equal. lia. Qed.

Lemma connection_component_sound vectors es a b :
  (forall i, i ∈ vectors -> 0 <= i < n_vectors m) ->
  connection_component m tol vectors = Some es ->
  (a, b) ∈ es -> overlap_edge m tol a b.
Proof.
  intros Hv. unfold connection_component.
  destruct (np_index (neighbors m) 0) as [row0|]; [|discriminate].
  cbn [mbind option_bind].
  destruct (mapM _ _) as [found|] eqn:HM; [|discriminate].
  cbn [mbind option_bind]. intros Hes Hin. injection Hes as <-.
  apply (elem_of_concat_mapM _ _ _ _ HM) in Hin as (i_ & l & Hi & Hl & Hab).
  apply Hv in Hi.
  destruct (node_edges_inv _ _ _ _ _ _ _ Hl Hab)
    as (-> & row & neigh & bb & Hrow & Hneigh & Hbb & Hne & -> & Hc).
  apply elem_of_np_repeat, elem_of_arange in Hbb.
  rewrite min_band_0 in Hbb.
  assert (Hrange : 0 <= neigh < nks m).
  { apply np_index_elem in Hrow.
    unfold neighbors_in_range in neighbors_ok.
    rewrite Forall_forall in neighbors_ok.
    specialize (neighbors_ok _ Hrow). rewrite Forall_forall in neighbors_ok.
    destruct (neighbors_ok _ Hneigh); [congruence|assumption]. }
  assert (Hmod : (neigh + bb * nks m) mod nks m = neigh).
  { rewrite Z.mod_add by lia. apply Z.mod_small. exact Hrange. }
  assert (Hdiv : (neigh + bb * nks m) / nks m = bb).
  { rewrite Z.div_add by lia. rewrite Z.div_small by exact Hrange. lia. }
  apply connected_true_inv in Hc as (dir & c & Hdir & Hc & Hlt).
  unfold overlap_edge, node_k, node_band.
  split; [exact Hi|]. split.
  - rewrite n_vectors_min_band_0. nia.
  - exists dir, row, c. rewrite Hmod in *. rewrite Hdiv in *. auto.
Qed.

Lemma connection_component_complete vectors es a b :
  connection_component m tol vectors = Some es ->
  a ∈ vectors ->
  overlap_edge m tol a b -> (a, b) ∈ es.
Proof.
  unfold connection_component.
  destruct (np_index (neighbors m) 0) as [row0|]; [|discriminate].
  cbn [mbind option_bind].
  destruct (mapM _ _) as [found|] eqn:HM; [|discriminate].
  cbn [mbind option_bind]. intros Hes Hina. injection Hes as <-.
  unfold overlap_edge, node_k, node_band.
  intros (Ha & Hb & dir & row & c & Hrow & Hdir & Hc & Hlt).
  destruct (mapM_is_Some_elem _ _ _ _ HM Hina) as [es_a Hes_a].
  apply (elem_of_concat_mapM _ _ _ _ HM). exists a, es_a.
  split; [exact Hina|]. split; [exact Hes_a|].
  set (bands := np_repeat (arange (min_band m) (max_band m + 1))
                          (length row0)) in *.
  (* the lengths of the rows agree, as the broadcast succeeded *)
  assert (Hnbnd : 0 < nbnd m).
  { unfold n_vectors in Ha. nia. }
  assert (Hlen_ar : length (arange (min_band m) (max_band m + 1))
                    = Z.to_nat (nbnd m)).
  { unfold arange, nbnd. rewrite length_seqZ. reflexivity. }
  assert (Hlen : length row = length row0).
  { pose proof Hes_a as Hg. unfold node_edges in Hg. cbv zeta in Hg.
    rewrite Hrow in Hg. cbn [mbind option_bind] in Hg.
    case_guard; [|discriminate].
    match goal with H : length (tile _ _) = _ |- _ => pose proof H as Hl end.
    clear Hg. unfold bands in Hl.
    rewrite length_tile, length_np_repeat, Hlen_ar in Hl.
    apply Nat.mul_cancel_l in Hl; [exact Hl|lia]. }
  assert (Hzip : (b mod nks m, b / nks m)
                 ∈ zip (tile row (Z.to_nat (nbnd m))) bands).
  { unfold bands. rewrite <- Hlen, <- Hlen_ar, zip_tile_repeat.
    apply list_elem_of_bind. exists (b / nks m). split.
    - apply list_elem_of_fmap. exists (b mod nks m). split; [reflexivity|].
      apply list_elem_of_lookup. eauto.
    - apply elem_of_arange. rewrite min_band_0.
      rewrite n_vectors_min_band_0 in Hb.
      split; [apply Z.div_pos; lia|].
      apply Z.div_lt_upper_bound; lia. }
  assert (Hne : b mod nks m <> -1).
  { pose proof (Z.mod_pos_bound b (nks m) nks_pos). lia. }
  destruct (node_edges_complete m tol _ _ _ _ _ _ Hes_a Hrow Hzip Hne)
    as (t & Ht & Hin).
  assert (Hb_eq : b mod nks m + b / nks m * nks m = b).
  { pose proof (Z.div_mod b (nks m)). lia. }
  rewrite Hb_eq in *.
  apply Hin. eapply connected_Some_true; eauto.
Qed.

(** Whatever the workers do, an edge of the graph has the overlap
    condition behind it. *)
Lemma make_connections_edges_sound n_process G n1 n2 :
  0 < n_process ->
  make_connections_edges m tol n_process = Some G ->
  has_edge G n1 n2 ->
  overlap_edge m tol n1 n2 \/ overlap_edge m tol n2 n1.
Proof.
  intros Hp. unfold make_connections_edges, parallelize.
  destruct (parallelize_chunks _ _) as [chunks|] eqn:Hchunks; [|discriminate].
  cbn [mbind option_bind]. intros HG. injection HG as <-.
  pose proof (parallelize_chunks_concat _ _ _ Hp Hchunks) as Hcat.
  assert (Hsound : forall a b,
            (a, b) ∈ concat (map (fun chunk =>
                                    default [] (connection_component m tol chunk))
                                 chunks) ->
            overlap_edge m tol a b).
  { intros a b Hin. apply elem_of_concat in Hin as (es & Hab & Hes).
    apply list_elem_of_fmap in Hes as (chunk & -> & Hchunk).
    destruct (connection_component m tol chunk) as [es|] eqn:Hcc;
      [|inversion Hab].
    eapply connection_component_sound; [|exact Hcc|exact Hab].
    intros i Hi. apply elem_of_arange. rewrite <- Hcat.
    apply elem_of_concat. eauto. }
  rewrite has_edge_add_edges_from. intros [H|[H|H]].
  - destruct (initial_graph_no_edge _ _ _ H).
  - left. apply Hsound, H.
  - right. apply Hsound, H.
Qed.

Section NoWorkerRaises.

Hypothesis shapes_ok : well_shaped m.
Hypothesis distinct_ok : neighbors_distinct m.

Lemma np_index4_in_shape (k d b1 b2 : Z) :
  0 <= k < nks m -> 0 <= d < 4 ->
  0 <= b1 <= max_band m -> 0 <= b2 <= max_band m ->
  is_Some (np_index4 (connections m) k d b1 b2).
Proof.
  intros Hk Hd Hb1 Hb2.
  destruct shapes_ok as (_ & _ & Hlen & Hall).
  unfold np_index4, np_index2.
  destruct (np_index_in_range (connections m) k) as (a & -> & Ha); [lia|].
  cbn [mbind option_bind].
  rewrite Forall_forall in Hall. destruct (Hall _ Ha) as [Hla Hb].
  destruct (np_index_in_range a d) as (b & -> & Hbin); [lia|].
  cbn [mbind option_bind].
  rewrite Forall_forall in Hb. destruct (Hb _ Hbin) as [Hlb Hc].
  destruct (np_index_in_range b b1) as (c & -> & Hcin); [lia|].
  cbn [mbind option_bind].
  rewrite Forall_forall in Hc. specialize (Hc _ Hcin).
  destruct (np_index_in_range c b2) as (x & -> & _); [lia|]. eauto.
Qed.

Lemma neighbors_row (k : Z) :
  0 <= k < nks m ->
  exists row, np_index (neighbors m) k = Some row /\
    length row = 4%nat /\
    Forall (fun x => x = -1 \/ 0 <= x < nks m) row /\
    NoDup (filter (fun x => x <> -1) row).
Proof.
  intros Hk. destruct shapes_ok as (Hlen & Hrows & _).
  destruct (np_index_in_range (neighbors m) k) as (row & Hrow & Hin); [lia|].
  exists row. split; [exact Hrow|].
  rewrite Forall_forall in Hrows.
  unfold neighbors_in_range in neighbors_ok.
  rewrite Forall_forall in neighbors_ok.
  unfold neighbors_distinct in distinct_ok.
  rewrite Forall_forall in distinct_ok. auto.
Qed.

Lemma connected_is_Some (i_ neigh bb : Z) (row : list Z) :
  0 <= i_ < n_vectors m ->
  length row = 4%nat -> NoDup (filter (fun x => x <> -1) row) ->
  0 <= neigh < nks m -> 0 <= bb <= max_band m ->
  is_Some (connected m tol (i_ mod nks m) (i_ / nks m + min_band m) row
                     (neigh + bb * nks m)).
Proof.
  intros Hi Hlen Hnd Hneigh Hbb. unfold connected. cbv zeta.
  assert (Hmod : (neigh + bb * nks m) mod nks m = neigh).
  { rewrite Z.mod_add by lia. apply Z.mod_small. exact Hneigh. }
  assert (Hdiv : (neigh + bb * nks m) / nks m = bb).
  { rewrite Z.div_add by lia. rewrite Z.div_small by exact Hneigh. lia. }
  rewrite Hmod, Hdiv, min_band_0, !Z.add_0_r.
  rewrite n_vectors_min_band_0 in Hi.
  assert (Hk1 : 0 <= i_ mod nks m < nks m) by (apply Z.mod_pos_bound; lia).
  assert (Hb1 : 0 <= i_ / nks m <= max_band m).
  { split; [apply Z.div_pos; lia|].
    apply Z.lt_succ_r. apply Z.div_lt_upper_bound; lia. }
  destruct (mapM_is_Some_2
              (fun d => np_index4 (connections m) (i_ mod nks m) d
                                  (i_ / nks m) bb)
              (where_eq row neigh)) as [conn Hconn].
  { apply Forall_forall. intros d Hd.
    apply elem_of_where_eq in Hd as (i & -> & Hrow).
    apply lookup_lt_Some in Hrow. unfold compose.
    apply np_index4_in_shape; lia. }
  rewrite Hconn. cbn [mbind option_bind].
  pose proof (where_eq_at_most_one row neigh Hnd) as Hone.
  apply mapM_Some_1, Forall2_length in Hconn.
  destruct conn as [|c [|c' conn]]; simpl; eauto.
  simpl in Hconn. lia.
Qed.

Lemma node_edges_is_Some (row0 : list Z) (i_ : Z) :
  np_index (neighbors m) 0 = Some row0 ->
  0 <= i_ < n_vectors m ->
  is_Some (node_edges m tol
             (np_repeat (arange (min_band m) (max_band m + 1)) (length row0))
             i_).
Proof.
  intros Hrow0 Hi. unfold node_edges. cbv zeta.
  assert (Hk1 : 0 <= i_ mod nks m < nks m) by (apply Z.mod_pos_bound; lia).
  destruct (neighbors_row _ Hk1) as (row & -> & Hlen & Hrange & Hnd).
  cbn [mbind option_bind].
  assert (Hlen0 : length row0 = 4%nat).
  { destruct (neighbors_row 0) as (r & Hr & Hl & _); [lia|]. congruence. }
  rewrite option_guard_True.
  2:{ rewrite length_tile, length_np_repeat, Hlen, Hlen0.
      unfold arange, nbnd. rewrite length_seqZ. reflexivity. }
  cbn [mbind option_bind].
  match goal with |- is_Some (mapM ?f ?ks ≫= _) =>
    destruct (mapM_is_Some_2 f ks) as [found Hfound] end.
  { apply Forall_forall. intros j_ Hj. unfold compose.
    apply list_elem_of_fmap in Hj as ([neigh bb] & -> & Hnb).
    apply list_elem_of_filter in Hnb as [Hne Hzip]. cbn [fst snd] in *.
    assert (Hneigh : neigh ∈ row).
    { apply elem_of_zip_l in Hzip. eapply elem_of_tile, Hzip. }
    assert (Hbb : 0 <= bb <= max_band m).
    { apply elem_of_zip_r in Hzip.
      apply elem_of_np_repeat, elem_of_arange in Hzip. lia. }
    rewrite Forall_forall in Hrange.
    destruct (Hrange _ Hneigh) as [?|Hn]; [contradiction|].
    destruct (connected_is_Some i_ neigh bb row Hi Hlen Hnd Hn Hbb)
      as [c ->].
    cbn [mbind option_bind]. eauto. }
  rewrite Hfound. cbn [mbind option_bind]. eauto.
Qed.

Lemma connection_component_is_Some vectors :
  (forall i, i ∈ vectors -> 0 <= i < n_vectors m) ->
  is_Some (connection_component m tol vectors).
Proof.
  intros Hv. unfold connection_component.
  destruct (neighbors_row 0) as (row0 & Hrow0 & _); [lia|].
  rewrite Hrow0. cbn [mbind option_bind].
  match goal with |- is_Some (mapM ?f ?ks ≫= _) =>
    destruct (mapM_is_Some_2 f ks) as [found Hfound] end.
  { apply Forall_forall. intros i Hi. unfold compose.
    apply node_edges_is_Some; auto. }
  rewrite Hfound. cbn [mbind option_bind]. eauto.
Qed.

Lemma make_connections_edges_has_edge n_process :
  0 < n_process ->
  exists G,
    make_connections_edges m tol n_process = Some G /\
    forall n1 n2,
      has_edge G n1 n2
      <-> overlap_edge m tol n1 n2 \/ overlap_edge m tol n2 n1.
Proof.
  intros Hp.
  destruct (parallelize_chunks_is_Some n_process (arange 0 (n_vectors m)))
    as [chunks Hchunks]; [lia|].
  pose proof (parallelize_chunks_concat _ _ _ Hp Hchunks) as Hcat.
  eexists. split.
  { unfold make_connections_edges, parallelize. rewrite Hchunks.
    reflexivity. }
  intros n1 n2. split.
  { apply make_connections_edges_sound with (n_process := n_process);
      [exact Hp|].
    unfold make_connections_edges, parallelize. rewrite Hchunks.
    reflexivity. }
  assert (Hcomplete : forall a b,
            overlap_edge m tol a b ->
            (a, b) ∈ concat (map (fun chunk =>
                                    default [] (connection_component m tol chunk))
                                 chunks)).
  { intros a b Hab.
    assert (Ha : a ∈ concat chunks).
    { rewrite Hcat. apply elem_of_arange. apply Hab. }
    apply elem_of_concat in Ha as (chunk & Ha & Hchunk).
    destruct (connection_component_is_Some chunk) as [es Hes].
    { intros i Hi. apply elem_of_arange. rewrite <- Hcat.
      apply elem_of_concat. eauto. }
    apply elem_of_concat. exists es. split.
    - eapply connection_component_complete; eauto.
    - apply list_elem_of_fmap. exists chunk. rewrite Hes. auto. }
  rewrite has_edge_add_edges_from.
  intros [H|H]; [right; left|right; right]; apply Hcomplete, H.
Qed.

End NoWorkerRaises.

End MakeConnections.

(** C7 (as amended): with [min_band = 0], at least one process and input
    arrays of the declared shapes whose neighbour table holds k points or
    -1 and no k point twice in a row, [make_connections] builds its graph
    (no worker raises), and the graph has an edge between [n1] and [n2]
    exactly when the overlap condition holds from [n1] to [n2] or from
    [n2] to [n1]; the edge relation is symmetric. *)
Theorem make_connections_edge_iff (m : MATERIAL) (tol : Q) (n_process : Z) :
  min_band m = 0 ->
  0 < nks m ->
  0 < n_process ->
  neighbors_in_range m ->
  neighbors_distinct m ->
  well_shaped m ->
  exists G,
    make_connections_edges m tol n_process = Some G /\
    forall n1 n2,
      (has_edge G n1 n2
       <-> overlap_edge m tol n1 n2 \/ overlap_edge m tol n2 n1) /\
      (has_edge G n1 n2 -> has_edge G n2 n1).
Proof.
  intros Hmin Hnks Hp Hneigh Hdist Hshape.
  destruct (make_connections_edges_has_edge m tol Hmin Hnks Hneigh Hshape
              Hdist n_process Hp) as (G & HG & H).
  exists G. split; [exact HG|]. intros n1 n2.
  split; [apply H|]. rewrite !H. tauto.
Qed.

Lemma make_connections_edge_iff_witness :
  exists G,
    make_connections_edges chain2 (95 # 100) 2 = Some G /\
    forall n1 n2,
      (has_edge G n1 n2
       <-> overlap_edge chain2 (95 # 100) n1 n2
           \/ overlap_edge chain2 (95 # 100) n2 n1) /\
      (has_edge G n1 n2 -> has_edge G n2 n1).
Proof.
  apply (make_connections_edge_iff chain2 (95 # 100) 2).
  - reflexivity.
  - reflexivity.
  - reflexivity.
  - unfold neighbors_in_range. apply (bool_decide_unpack _). vm_compute. exact I.
  - unfold neighbors_distinct. apply (bool_decide_unpack _). vm_compute. exact I.
  - unfold well_shaped. apply (bool_decide_unpack _). vm_compute. exact I.
Defined.

(** C7 as stated fails: in the chain of two k points the overlap from
    node 0 to node 1 exceeds the tolerance, so the undirected graph has
    the edge between 1 and 0, although the overlap from node 1 to node 0
    is 0. *)
Lemma make_connections_edge_not_directed :
  make_connections_edges chain2 (95 # 100) 1 = Some chain2_graph /\
  ~ (forall n1 n2, has_edge chain2_graph n1 n2
                   <-> overlap_edge chain2 (95 # 100) n1 n2).
Proof.
  split; [vm_compute; reflexivity|].
  intros H. specialize (H 1 0).
  assert (He : has_edge chain2_graph 1 0).
  { unfold chain2_graph. apply has_edge_add_edges_from.
    right. right. apply list_elem_of_here. }
  apply H in He. destruct He as (_ & _ & dir & row & c & Hrow & Hdir & Hc & Hlt).
  vm_compute in Hrow. injection Hrow as <-.
  destruct dir as [|[|[|[|dir]]]]; try discriminate Hdir.
  vm_compute in Hc. injection Hc as <-.
  vm_compute in Hlt. discriminate.
Qed.

(** A worker that raises loses its edges and nothing else happens:
    on [ring2] [connection_component] raises for every node, and
    [make_connections] returns the graph without an edge although the
    overlap from node 0 to node 1 exceeds the tolerance.  The neighbour
    table of [ring2] names a k point twice in a row. *)
Lemma make_connections_worker_raises :
  connection_component ring2 (95 # 100) [0; 1] = None /\
  make_connections_edges ring2 (95 # 100) 1 = Some (initial_graph ring2) /\
  make_connections_edges ring2 (95 # 100) 2 = Some (initial_graph ring2) /\
  overlap_edge ring2 (95 # 100) 0 1 /\
  ~ has_edge (initial_graph ring2) 0 1 /\
  ~ neighbors_distinct ring2.
Proof.
  split; [vm_compute; reflexivity|].
  split; [vm_compute; reflexivity|].
  split; [vm_compute; reflexivity|].
  split; [|split].
  - unfold overlap_edge, node_k, node_band.
    split; [vm_compute; split; [discriminate|reflexivity]|].
    split; [vm_compute; split; [discriminate|reflexivity]|].
    exists 0%nat, [1; -1; 1; -1], 1%Q.
    repeat split; vm_compute; reflexivity.
  - apply initial_graph_no_edge.
  - unfold neighbors_distinct. intros H.
    apply Forall_cons in H as [H _]. vm_compute in H.
    apply NoDup_cons in H as [H _]. apply H. apply list_elem_of_here.
Qed.

(** *** Properties of the merger *)

Lemma get_cluster_score_modified m curve_fit energies self cluster tol :
  was_modified cluster = true ->
  get_cluster_score m curve_fit energies self cluster tol
  = (score ← scores self !! id_ cluster; Some (score, self)).
Proof. unfold get_cluster_score. intros ->. reflexivity. Qed.

Lemma get_cluster_score_unmodified m curve_fit energies self cluster tol :
  was_modified cluster = false ->
  get_cluster_score m curve_fit energies self cluster tol
  = (score ← boundary_score m curve_fit energies self cluster tol;
     Some (score, set_scores (<[id_ cluster := score]> (scores self)) self)).
Proof. unfold get_cluster_score. intros ->. reflexivity. Qed.

(** C1: the score is answered from [self.scores] exactly when
    [cluster.was_modified] is set, the reverse of the memoization rule.
    On the chain of five k points the first round stores the score 0 of
    the sample [{1}] against the cluster [{3, 4}] and then joins [{2}] to
    that cluster; in the second round the modified cluster [{3, 4, 2}]
    touches the sample, whose recomputed score is 19/80, and
    [get_cluster_score] returns the stored 0. *)
Theorem get_cluster_score_stale_after_join :
  match make_BandsEnergy chain5, first_round chain5 chain5_components with
  | Some energies, Some (_, (_, (_, [cluster], sample :: _))) =>
      nodes cluster = [3; 4; 2] /\ nodes sample = [1] /\
      was_modified cluster = true /\
      map_to_list (scores sample) = [(id_ cluster, 0 # 4)%Q] /\
      fst <$> get_cluster_score chain5 flat_fit energies sample cluster (1 # 2)
        = Some (0 # 4)%Q /\
      boundary_score chain5 flat_fit energies sample cluster (1 # 2)
        = Some (38 # 160)%Q /\
      ~ (0 # 4 == 38 # 160)%Q
  | _, _ => False
  end.
Proof. vm_compute. repeat split; discriminate. Qed.

Lemma first_max_snoc_gt (pre : list Q) (besti : nat) (best x : Q) :
  first_max pre besti -> pre !! besti = Some best -> (best < x)%Q ->
  first_max (pre ++ [x]) (length pre).
Proof.
  intros (v & Hv & Hle & Hlt) Hb Hx.
  assert (v = best) by congruence. subst v.
  exists x. split; [|split].
  - rewrite lookup_app_r, Nat.sub_diag by lia. reflexivity.
  - intros i e He. apply lookup_app_Some in He as [He|[Hi He]].
    + apply Qlt_le_weak. eapply Qle_lt_trans; [exact (Hle _ _ He)|exact Hx].
    + destruct (i - length pre)%nat; [|discriminate].
      injection He as <-. apply Qle_refl.
  - intros i e He Hi. rewrite lookup_app_l in He by exact Hi.
    eapply Qle_lt_trans; [exact (Hle _ _ He)|exact Hx].
Qed.

Lemma first_max_snoc_le (pre : list Q) (besti : nat) (best x : Q) :
  first_max pre besti -> pre !! besti = Some best -> (x <= best)%Q ->
  first_max (pre ++ [x]) besti.
Proof.
  intros (v & Hv & Hle & Hlt) Hb Hx.
  assert (v = best) by congruence. subst v.
  exists best. split; [|split].
  - apply lookup_app_l_Some. exact Hb.
  - intros i e He. apply lookup_app_Some in He as [He|[Hi He]].
    + exact (Hle _ _ He).
    + destruct (i - length pre)%nat; [|discriminate].
      injection He as <-. exact Hx.
  - intros i e He Hi.
    assert (Hb' : (besti < length pre)%nat)
      by (apply lookup_lt_is_Some; eauto).
    rewrite lookup_app_l in He by lia. exact (Hlt _ _ He Hi).
Qed.

Lemma argmax_from_first_max (l pre : list Q) (best : Q) (besti : nat) :
  first_max pre besti -> pre !! besti = Some best ->
  first_max (pre ++ l) (argmax_from best besti (length pre) l).
Proof.
  revert pre best besti.
  induction l as [|x l IH]; intros pre best besti Hfm Hb; simpl.
  - rewrite app_nil_r. exact Hfm.
  - assert (Hlen : length (pre ++ [x]) = S (length pre))
      by (rewrite length_app; simpl; lia).
    rewrite <- Hlen, cons_middle, app_assoc.
    destruct (Qlt_bool best x) eqn:E.
    + apply Qlt_bool_iff in E. apply IH.
      * eapply first_max_snoc_gt; eauto.
      * rewrite lookup_app_r, Nat.sub_diag by lia. reflexivity.
    + apply Qlt_bool_false_iff in E. apply IH.
      * eapply first_max_snoc_le; eauto.
      * apply lookup_app_l_Some. exact Hb.
Qed.

Lemma argmax_first_max (l : list Q) (a : nat) :
  argmax l = Some a -> first_max l a.
Proof.
  destruct l as [|x l]; simpl; [discriminate|].
  intros H. injection H as <-.
  apply (argmax_from_first_max l [x] x 0).
  - exists x. split; [reflexivity|]. split.
    + intros [|i] e He; [|discriminate].
      injection He as <-. apply Qle_refl.
    + intros i e _ Hi. lia.
  - reflexivity.
Qed.

(** *** Properties of [solve] *)

Section SolveProperties.

Variable m : MATERIAL.
Variable curve_fit : list Z -> list Q -> Q * Q * Q.
Variable connected_components : Graph -> list (list Z).
Variable step : Q.
Variable min_tol : Q.

Local Abbreviation step_ :=
  (solve_step m curve_fit connected_components step).
Local Abbreviation loop_ :=
  (solve_loop m curve_fit connected_components step min_tol).

Lemma solve_step_TOL energies s s' :
  step_ energies s = Some s' -> TOL s' = float_sub (TOL s) step.
Proof.
  unfold solve_step.
  destruct (solve_compute _ _ _ _ _) as [[[[solved_ clusters_] out] c]|];
    [|discriminate].
  cbn [mbind option_bind].
  destruct (count_solved _ _ _ _) as [solved|]; [|discriminate].
  cbn [mbind option_bind].
  destruct (max_solved s <=? solved).
  - intros H. injection H as <-. reflexivity.
  - destruct (best_signal_final s) as [best_signal|]; [|discriminate].
    cbn [mbind option_bind].
    destruct (correct_signal _ _ _ _ _ _) as [oc|]; [|discriminate].
    cbn [mbind option_bind]. intros H. injection H as <-. reflexivity.
Qed.

(** Once the tolerance of the schedule is below [min_tol] after [N]
    subtractions, the loop has ended within [N] iterations. *)
Lemma solve_loop_schedule energies (N fuel : nat) :
  (tol_schedule step N < min_tol)%Q ->
  forall s (n : nat),
    TOL s = tol_schedule step n ->
    (n <= N)%nat -> (N <= fuel + n)%nat ->
    match loop_ fuel energies s n with
    | Done s' n' =>
        (n' <= N)%nat /\
        (bands_final_flag s' = false \/ (TOL s' < min_tol)%Q)
    | Raised n' => (n' < N)%nat
    | OutOfFuel => False
    end.
Proof.
  intros HN. induction fuel as [|fuel IH]; intros s n HT Hn Hfuel.
  - simpl. destruct (bands_final_flag s) eqn:Hflag; simpl.
    + destruct (Qle_bool min_tol (TOL s)) eqn:Hle.
      * apply Qle_bool_iff in Hle. rewrite HT in Hle.
        assert (n = N) by lia. subst n. lra.
      * split; [exact Hn|]. right. apply Qnot_le_lt. intros H.
        apply Qle_bool_iff in H. congruence.
    + auto.
  - simpl. destruct (bands_final_flag s) eqn:Hflag; simpl.
    + destruct (Qle_bool min_tol (TOL s)) eqn:Hle.
      * apply Qle_bool_iff in Hle. rewrite HT in Hle.
        assert (Hlt : (n < N)%nat).
        { destruct (decide (n = N)) as [->|]; [lra|lia]. }
        destruct (step_ energies s) as [s'|] eqn:Hs; [|exact Hlt].
        apply IH.
        -- rewrite (solve_step_TOL _ _ _ Hs), HT. reflexivity.
        -- lia.
        -- lia.
      * split; [exact Hn|]. right. apply Qnot_le_lt. intros H.
        apply Qle_bool_iff in H. congruence.
    + auto.
Qed.

End SolveProperties.

(** The bound of the schedule lies beyond [(0.5 - min_tol)/step]. *)
Lemma iteration_bound_spec (step min_tol : Q) :
  (0 < step)%Q -> (min_tol <= 1 # 2)%Q ->
  0 < iteration_bound step min_tol /\
  ((1 # 2) - inject_Z (iteration_bound step min_tol) * step < min_tol)%Q.
Proof.
  intros Hstep Hmin. unfold iteration_bound.
  set (x := (((1 # 2) - min_tol) / step)%Q).
  assert (H0 : (0 <= x)%Q).
  { apply Qle_shift_div_l; [exact Hstep|]. lra. }
  split.
  - apply Qfloor_resp_le in H0. change (Qfloor 0) with 0 in H0. lia.
  - pose proof (Qlt_floor x) as Hx. rewrite inject_Z_plus in Hx |- *.
    change (inject_Z 1) with 1%Q in Hx |- *.
    assert (Hx' : (x * step < (inject_Z (Qfloor x) + 1) * step)%Q).
    { apply Qmult_lt_compat_r; assumption. }
    assert (Hxs : (x * step == (1 # 2) - min_tol)%Q).
    { unfold x. field. intros H. rewrite H in Hstep. discriminate. }
    rewrite Hxs in Hx'. lra.
Qed.

(** When the first [n] subtractions are exact and [n] is the bound of
    the schedule, the tolerance after [n] iterations is below [min_tol]. *)
Lemma exact_schedule_below (step min_tol : Q) :
  (0 < step)%Q -> (min_tol <= 1 # 2)%Q ->
  exact_schedule step (Z.to_nat (iteration_bound step min_tol)) ->
  (tol_schedule step (Z.to_nat (iteration_bound step min_tol)) < min_tol)%Q.
Proof.
  intros Hstep Hmin Hexact.
  destruct (iteration_bound_spec step min_tol Hstep Hmin) as [Hpos Hlt].
  unfold exact_schedule in Hexact. rewrite Forall_forall in Hexact.
  destruct (Z.to_nat (iteration_bound step min_tol)) as [|k] eqn:EN; [lia|].
  rewrite (Hexact k) by (apply elem_of_seq; lia).
  replace (Z.of_nat (S k)) with (iteration_bound step min_tol) by lia.
  exact Hlt.
Qed.

(** C9 (as amended): with [step > 0] and [min_tol <= 0.5], when the
    tolerance that [floor((0.5 - min_tol)/step) + 1] double subtractions
    of [step] leave of 0.5 is below [min_tol] (as it is whenever these
    subtractions are exact), the loop of [solve] ends (normally or by an
    exception of an iteration) within [floor((0.5 - min_tol)/step) + 1]
    iterations; when it ends normally, [bands_final] was unchanged by the
    last iteration or the tolerance has dropped below [min_tol]. *)
Theorem solve_loop_terminates m curve_fit connected_components
    (step min_tol : Q) energies G (fuel : nat) :
  (0 < step)%Q ->
  (min_tol <= 1 # 2)%Q ->
  (tol_schedule step (Z.to_nat (Qfloor (((1 # 2) - min_tol) / step) + 1))
   < min_tol)%Q ->
  Qfloor (((1 # 2) - min_tol) / step) + 1 <= Z.of_nat fuel ->
  match solve_loop m curve_fit connected_components step min_tol
                   fuel energies (solve_init m G) 0 with
  | Done s n =>
      Z.of_nat n <= Qfloor (((1 # 2) - min_tol) / step) + 1 /\
      (bands_final_flag s = false \/ (TOL s < min_tol)%Q)
  | Raised n => Z.of_nat n < Qfloor (((1 # 2) - min_tol) / step) + 1
  | OutOfFuel => False
  end.
Proof.
  intros Hstep Hmin Hsched Hfuel.
  fold (iteration_bound step min_tol) in *.
  destruct (iteration_bound_spec step min_tol Hstep Hmin) as [Hpos _].
  set (N := Z.to_nat (iteration_bound step min_tol)) in *.
  assert (HN : Z.of_nat N = iteration_bound step min_tol)
    by (unfold N; lia).
  pose proof (solve_loop_schedule m curve_fit connected_components step
                min_tol energies N fuel Hsched (solve_init m G) 0%nat
                eq_refl) as H.
  destruct (solve_loop _ _ _ _ _ _ _ _ _) as [s n|n|].
  - destruct H as [Hn Hend]; [lia|lia|]. split; [lia|exact Hend].
  - assert (n < N)%nat by (apply H; lia). lia.
  - apply H; lia.
Qed.

Lemma solve_loop_terminates_witness :
  match solve_loop square2 flat_fit reference_components (1 # 10) 0
                   6 (default [] (make_BandsEnergy square2))
                   (solve_init square2
                      (default ∅ (make_connections_edges square2 (95 # 100) 1)))
                   0 with
  | Done s n =>
      Z.of_nat n <= Qfloor (((1 # 2) - 0) / (1 # 10)) + 1 /\
      (bands_final_flag s = false \/ (TOL s < 0)%Q)
  | Raised n => Z.of_nat n < Qfloor (((1 # 2) - 0) / (1 # 10)) + 1
  | OutOfFuel => False
  end.
Proof.
  apply (solve_loop_terminates square2 flat_fit reference_components
           (1 # 10) 0).
  - reflexivity.
  - vm_compute. discriminate.
  - vm_compute. reflexivity.
  - vm_compute. discriminate.
Defined.

(** With [step = 0.125] and [min_tol = 0] the five subtractions of the
    schedule are exact. *)
Lemma exact_schedule_eighth : exact_schedule (1 # 8) 5.
Proof.
  unfold exact_schedule. cbn [seq].
  repeat (constructor; [vm_compute; reflexivity|]). constructor.
Qed.

(** C9 as stated fails under the rounding of [TOL -= step]: with
    [step = 0.1] and [min_tol = 0.30000000000000004] the bound is 2, but
    in double arithmetic [0.5 - 0.1 - 0.1] is [0.30000000000000004], so
    the guard [TOL >= min_tol] still holds after two iterations and the
    loop on [crossing3] makes a third one. *)
Lemma solve_loop_rounding_exceeds_bound :
  (0 < double_0_1)%Q /\
  (double_0_30000000000000004 <= 1 # 2)%Q /\
  Qfloor (((1 # 2) - double_0_30000000000000004) / double_0_1) + 1 = 2 /\
  (tol_schedule double_0_1 2 == double_0_30000000000000004)%Q /\
  match solve_loop crossing3 flat_fit reference_components
                   double_0_1 double_0_30000000000000004
                   10 (default [] (make_BandsEnergy crossing3))
                   (solve_init crossing3 crossing3_graph) 0 with
  | Done _ n => n = 3%nat
  | _ => False
  end.
Proof.
  split; [reflexivity|]. split; [vm_compute; discriminate|].
  split; [vm_compute; reflexivity|]. split; [vm_compute; reflexivity|].
  vm_compute. reflexivity.
Qed.

(** *** Arrays *)

Lemma foldlM_invariant {A B} (P : A -> Prop) (f : A -> B -> option A)
    (l : list B) (a a' : A) :
  (forall a x a', x ∈ l -> P a -> f a x = Some a' -> P a') ->
  P a -> foldlM f a l = Some a' -> P a'.
Proof.
  revert a. induction l as [|x l IH]; intros a Hstep Ha; simpl.
  - intros H. injection H as <-. exact Ha.
  - destruct (f a x) as [a1|] eqn:E; [|discriminate].
    cbn [mbind option_bind]. apply IH.
    + intros a0 y a0' Hy. apply Hstep. apply list_elem_of_further. exact Hy.
    + eapply Hstep; eauto. apply list_elem_of_here.
Qed.

Lemma np_set_Some {A} (l l' : list A) (i : Z) (x : A) :
  np_set l i x = Some l' ->
  exists p, np_pos (length l) i = Some p /\ l' = <[p := x]> l.
Proof.
  unfold np_set. destruct (np_pos _ _) as [p|]; [|discriminate].
  cbn [mbind option_bind]. intros H. injection H as <-. eauto.
Qed.

Lemma np_index_Some {A} (l : list A) (i : Z) (x : A) :
  np_index l i = Some x ->
  exists p, np_pos (length l) i = Some p /\ l !! p = Some x.
Proof.
  unfold np_index. destruct (np_pos _ _) as [p|]; [|discriminate].
  cbn [mbind option_bind]. eauto.
Qed.

Lemma np_set2_Some {A} (a a' : list (list A)) (i j : Z) (x : A) :
  np_set2 a i j x = Some a' ->
  exists p q row,
    np_pos (length a) i = Some p /\ a !! p = Some row /\
    np_pos (length row) j = Some q /\
    a' = <[p := <[q := x]> row]> a.
Proof.
  unfold np_set2.
  destruct (np_index a i) as [row|] eqn:Hrow; [|discriminate].
  cbn [mbind option_bind].
  destruct (np_set row j x) as [row'|] eqn:Hset; [|discriminate].
  cbn [mbind option_bind]. intros H.
  apply np_index_Some in Hrow as (p & Hp & Hrow).
  apply np_set_Some in Hset as (q & Hq & ->).
  apply np_set_Some in H as (p' & Hp' & ->).
  assert (p' = p) by congruence. subst p'.
  exists p, q, row. auto.
Qed.

Lemma np_index2_Some {A} (a : list (list A)) (i j : Z) (x : A) :
  np_index2 a i j = Some x ->
  exists p q row,
    np_pos (length a) i = Some p /\ a !! p = Some row /\
    np_pos (length row) j = Some q /\ row !! q = Some x.
Proof.
  unfold np_index2.
  destruct (np_index a i) as [row|] eqn:Hrow; [|discriminate].
  cbn [mbind option_bind]. intros H.
  apply np_index_Some in Hrow as (p & Hp & Hrow).
  apply np_index_Some in H as (q & Hq & H).
  exists p, q, row. auto.
Qed.

Lemma np_index2_elem {A} (a : list (list A)) (i j : Z) (x : A) (P : A -> Prop) :
  Forall (Forall P) a -> np_index2 a i j = Some x -> P x.
Proof.
  intros Ha H. apply np_index2_Some in H as (p & q & row & _ & Hrow & _ & Hx).
  rewrite Forall_forall in Ha.
  assert (Hr : Forall P row) by (apply Ha, list_elem_of_lookup; eauto).
  rewrite Forall_forall in Hr. apply Hr, list_elem_of_lookup. eauto.
Qed.

Lemma np_set2_Forall {A} (P : A -> Prop) (a a' : list (list A))
    (i j : Z) (x : A) :
  Forall (Forall P) a -> P x -> np_set2 a i j x = Some a' ->
  Forall (Forall P) a'.
Proof.
  intros Ha Hx H.
  apply np_set2_Some in H as (p & q & row & _ & Hrow & _ & ->).
  apply Forall_insert; [exact Ha|].
  apply Forall_insert; [|exact Hx].
  rewrite Forall_forall in Ha. apply Ha, list_elem_of_lookup. eauto.
Qed.


(** A write leaves every other entry as it was. *)
Lemma np_index2_set2 {A} (a a' : list (list A)) (i j i' j' : Z) (x y : A) :
  np_set2 a i j x = Some a' ->
  np_index2 a i' j' = Some y ->
  np_index2 a' i' j' = Some y \/ np_index2 a' i' j' = Some x.
Proof.
  intros H Hy.
  apply np_set2_Some in H as (p & q & row & Hp & Hrow & Hq & ->).
  apply np_index2_Some in Hy as (p' & q' & row' & Hp' & Hrow' & Hq' & Hy).
  unfold np_index2, np_index.
  rewrite length_insert, Hp'. cbn [mbind option_bind].
  destruct (decide (p = p')) as [<-|Hne].
  - rewrite list_lookup_insert_eq by (apply np_pos_lt in Hp; exact Hp).
    cbn [mbind option_bind].
    assert (row' = row) by congruence. subst row'.
    rewrite length_insert, Hq'. cbn [mbind option_bind].
    destruct (decide (q = q')) as [<-|Hneq].
    + right. apply list_lookup_insert_eq. apply np_pos_lt in Hq. exact Hq.
    + left. rewrite list_lookup_insert_ne by exact Hneq. exact Hy.
  - left. rewrite list_lookup_insert_ne by exact Hne. rewrite Hrow'.
    cbn [mbind option_bind]. rewrite Hq'. exact Hy.
Qed.

(** *** [obtain_output] keeps the entries of [bands_final] in range *)

Section Coverage.

Variable m : MATERIAL.

Lemma get_bands_fst (c : COMPONENT) :
  (get_bands m c).1 = map (fun n => n / c_nks m) (nodes c).
Proof. reflexivity. Qed.

Lemma get_bands_k_points (c : COMPONENT) :
  k_points (get_bands m c).2 = map (fun n => n mod c_nks m) (nodes c).
Proof. reflexivity. Qed.

Lemma assign_band_bands_ok is_cluster c k_bands bn out out' :
  (forall b, b ∈ k_bands -> band_ok m (b + min_band m)) ->
  bands_final_ok m (bands_final out) ->
  assign_band m is_cluster c k_bands bn out = Some out' ->
  bands_final_ok m (bands_final out').
Proof.
  intros Hb Hok. unfold assign_band.
  destruct (foldlM _ (bands_final out) _) as [bf|] eqn:Hbf; [|discriminate].
  cbn [mbind option_bind].
  destruct (foldlM _ (signal_final out) _) as [sf|]; [|discriminate].
  cbn [mbind option_bind]. intros H. injection H as <-. simpl.
  revert Hbf. apply foldlM_invariant; [|exact Hok].
  intros a kb a' Hkb Ha Hset.
  eapply np_set2_Forall; [exact Ha| |exact Hset].
  apply Hb. destruct kb as [k b]. eapply elem_of_zip_r. exact Hkb.
Qed.

Lemma node_ok_k_bands (c : COMPONENT) (b : Z) :
  Forall (node_ok m) (nodes c) ->
  b ∈ (get_bands m c).1 -> band_ok m (b + min_band m).
Proof.
  intros Hc Hb. rewrite get_bands_fst in Hb.
  apply list_elem_of_fmap in Hb as (n & -> & Hn).
  rewrite Forall_forall in Hc. exact (Hc _ Hn).
Qed.

Lemma output_solved_bands_ok st st' (c : COMPONENT) :
  Forall (node_ok m) (nodes c) ->
  bands_final_ok m (bands_final st.2) ->
  output_solved m st c = Some st' ->
  bands_final_ok m (bands_final st'.2).
Proof.
  intros Hc Hok. unfold output_solved. destruct st as [sb out].
  pose proof (node_ok_k_bands c) as Hkb.
  destruct (get_bands m c) as [k_bands c'].
  destruct (head (bands c')) as [b0|]; [|discriminate].
  cbn [mbind option_bind].
  destruct (next_band_solved _ _ _ _) as [bn|]; [|discriminate].
  cbn [mbind option_bind].
  destruct (assign_band _ _ _ _ _ _) as [out'|] eqn:Ha; [|discriminate].
  cbn [mbind option_bind]. intros H. injection H as <-. simpl.
  eapply assign_band_bands_ok; [|exact Hok|exact Ha].
  intros b Hb. apply Hkb; [exact Hc|exact Hb].
Qed.

Lemma output_clusters_bands_ok (cs : list COMPONENT) st st' :
  components_ok m cs ->
  bands_final_ok m (bands_final st.2) ->
  output_clusters m cs st = Some st' ->
  bands_final_ok m (bands_final st'.2).
Proof.
  revert st. induction cs as [|c cs IH]; intros st Hcs Hok;
    cbn [output_clusters].
  - intros H. injection H as <-. exact Hok.
  - destruct st as [sb out].
    apply Forall_cons in Hcs as [Hc Hcs].
    pose proof (node_ok_k_bands c) as Hkb.
    destruct (get_bands m c) as [k_bands c'].
    destruct (head (bands c')) as [b0|]; [|discriminate].
    cbn [mbind option_bind].
    destruct (next_band_cluster _ _ _ _) as [bn rest].
    destruct (_ && _).
    + intros H. injection H as <-. exact Hok.
    + destruct (assign_band _ _ _ _ _ _) as [out'|] eqn:Ha; [|discriminate].
      cbn [mbind option_bind]. apply IH; [exact Hcs|]. simpl.
      eapply assign_band_bands_ok; [|exact Hok|exact Ha].
      intros b Hb. apply Hkb; [exact Hc|exact Hb].
Qed.

Lemma output_degenerate_bands sf_bf sf_bf' d :
  output_degenerate m sf_bf d = Some sf_bf' -> sf_bf'.2 = sf_bf.2.
Proof.
  unfold output_degenerate. destruct sf_bf as [sf bf].
  destruct (np_index bf (d.1 mod nks m)) as [row1|]; [|discriminate].
  cbn [mbind option_bind].
  destruct (np_index bf (d.2 mod nks m)) as [row2|]; [|discriminate].
  cbn [mbind option_bind].
  destruct (np_set2 sf _ _ _) as [sf1|]; [|discriminate].
  cbn [mbind option_bind].
  destruct (np_set2 sf1 _ _ _) as [sf2|]; [|discriminate].
  cbn [mbind option_bind]. intros H. injection H as <-. reflexivity.
Qed.

Lemma elem_of_mapM_lookup {A} (l : list A) (is_ : list nat) (xs : list A)
    (x : A) :
  mapM (fun i => l !! i) is_ = Some xs -> x ∈ xs -> x ∈ l.
Proof.
  intros HM Hx. apply mapM_Some_1 in HM.
  apply list_elem_of_lookup in Hx as [i Hi].
  destruct (Forall2_lookup_r _ _ _ _ _ HM Hi) as (j & _ & Hj).
  apply list_elem_of_lookup. eauto.
Qed.

Lemma obtain_output_bands_ok solved clusters out out' :
  components_ok m solved ->
  components_ok m clusters ->
  bands_final_ok m (bands_final out) ->
  obtain_output m solved clusters out = Some out' ->
  bands_final_ok m (bands_final out').
Proof.
  intros Hs Hc Hok. unfold obtain_output.
  destruct (foldlM (output_solved m) _ _) as [st1|] eqn:H1; [|discriminate].
  cbn [mbind option_bind].
  destruct (mapM _ _) as [sorted|] eqn:Hsorted; [|discriminate].
  cbn [mbind option_bind].
  destruct (output_clusters m sorted st1) as [st2|] eqn:H2; [|discriminate].
  cbn [mbind option_bind].
  destruct (foldlM (output_degenerate m) _ _) as [sf_bf|] eqn:H3;
    [|discriminate].
  cbn [mbind option_bind].
  destruct (mapM _ (arange 0 (total_bands m))) as [scanned|]; [|discriminate].
  cbn [mbind option_bind].
  destruct (foldlM _ (final_score _) _) as [fs|]; [|discriminate].
  cbn [mbind option_bind].
  destruct (fold_rotations _ _) as [degenerates|]; [|discriminate].
  cbn [mbind option_bind]. intros H. injection H as <-. simpl.
  assert (Hst1 : bands_final_ok m (bands_final st1.2)).
  { revert H1. apply (foldlM_invariant
                        (fun st => bands_final_ok m (bands_final st.2)));
      [|exact Hok].
    intros st c st' Hin Hst Hstep. unfold components_ok in Hs.
    rewrite Forall_forall in Hs.
    eapply output_solved_bands_ok; [apply Hs; exact Hin|exact Hst|exact Hstep]. }
  assert (Hst2 : bands_final_ok m (bands_final st2.2)).
  { eapply output_clusters_bands_ok; [|exact Hst1|exact H2].
    unfold components_ok in *. rewrite Forall_forall in *.
    intros c Hin. apply Hc. eapply elem_of_mapM_lookup; eauto. }
  assert (Heq : sf_bf.2 = bands_final st2.2).
  { revert H3. apply (foldlM_invariant
                        (fun p => p.2 = bands_final st2.2));
      [|reflexivity].
    intros p d p' _ Hp Hstep.
    rewrite (output_degenerate_bands _ _ _ Hstep). exact Hp. }
  rewrite Heq. exact Hst2.
Qed.

End Coverage.

(** *** Degenerate pairs in [obtain_output] *)

Section DegenerateSignal.

Variable m : MATERIAL.




End DegenerateSignal.




(** *** The loop over the clusters in [obtain_output] *)

Lemma output_clusters_break m c cs solved_bands out b0 bn :
  head (bands (get_bands m c).2) = Some b0 ->
  next_band_cluster m solved_bands (b0 + min_band m)
                    (tail (bands (get_bands m c).2)) = (bn, []) ->
  bn ∈ solved_bands ->
  output_clusters m (c :: cs) (solved_bands, out) = Some (solved_bands, out).
Proof.
  intros Hhead Hnext Hbn. cbn [output_clusters].
  destruct (get_bands m c) as [k_bands c']. simpl in Hhead, Hnext.
  rewrite Hhead. cbn [mbind option_bind]. rewrite Hnext.
  rewrite bool_decide_eq_true_2 by exact Hbn.
  rewrite bool_decide_eq_true_2 by reflexivity. reflexivity.
Qed.

(** C2: on the chain [crossing3] the components of the graph are
    [{0, 1, 4, 6}], [{2}], [{3, 5, 7}] and [{8}]; [{3, 5, 7}] is solved and
    takes the physical band 1, the clusters are [{0, 1, 4, 6}], [{8}] and
    [{2}].  The largest cluster takes band 0; the cluster [{2}], which
    only has band 0, finds no free band and the loop is left: the cluster
    [{8}] is never processed and its k point 2 keeps -1 in column 2 of
    [bands_final], although no component has taken band 2. *)
Theorem output_clusters_break_drops_cluster :
  reference_components crossing3_graph = [[0; 1; 4; 6]; [2]; [3; 5; 7]; [8]] /\
  match make_BandsEnergy crossing3 with
  | Some energies =>
      match get_components crossing3 flat_fit energies (1 # 2)
                           (reference_components crossing3_graph) with
      | Some (solved, clusters) =>
          map nodes solved = [[3; 5; 7]] /\
          map nodes clusters = [[0; 1; 4; 6]; [8]; [2]] /\
          (obtain_output crossing3 solved clusters (initial_output crossing3)
             ≫= fun out => Some (bands_final out))
          = Some [[2; 1; -1]; [1; 2; -1]; [-1; 1; -1]]
      | None => False
      end
  | None => False
  end.
Proof. vm_compute. repeat split; reflexivity. Qed.

(** *** Scores are not negative *)

Lemma fold_left_Qplus_nonneg (l : list Q) (a : Q) :
  (0 <= a)%Q -> Forall (fun x => (0 <= x)%Q) l ->
  (0 <= fold_left Qplus l a)%Q.
Proof.
  revert a. induction l as [|x l IH]; intros a Ha Hl; simpl; [exact Ha|].
  apply Forall_cons in Hl as [Hx Hl]. apply IH; [|exact Hl].
  replace 0%Q with (0 + 0)%Q by reflexivity.
  apply Qplus_le_compat; assumption.
Qed.

Lemma Qdiv_nonneg (a b : Q) : (0 <= a)%Q -> (0 <= b)%Q -> (0 <= a / b)%Q.
Proof.
  intros Ha Hb. unfold Qdiv. apply Qmult_le_0_compat; [exact Ha|].
  apply Qinv_le_0_compat. exact Hb.
Qed.

Lemma mean_nonneg (l : list Q) :
  Forall (fun x => (0 <= x)%Q) l -> (0 <= mean l)%Q.
Proof.
  intros Hl. unfold mean, Qsum. apply Qdiv_nonneg.
  - apply fold_left_Qplus_nonneg; [apply Qle_refl|exact Hl].
  - change 0%Q with (inject_Z 0). rewrite <- Zle_Qle. lia.
Qed.

Lemma np_index4_nonneg (m : MATERIAL) (i j k l : Z) (x : Q) :
  connections_nonneg m ->
  np_index4 (connections m) i j k l = Some x -> (0 <= x)%Q.
Proof.
  unfold connections_nonneg, np_index4. intros Hc.
  destruct (np_index (connections m) i) as [a1|] eqn:H1; [|discriminate].
  cbn [mbind option_bind].
  destruct (np_index a1 j) as [a2|] eqn:H2; [|discriminate].
  cbn [mbind option_bind]. intros H.
  apply np_index_elem in H1, H2.
  rewrite Forall_forall in Hc. specialize (Hc _ H1).
  rewrite Forall_forall in Hc. specialize (Hc _ H2).
  exact (np_index2_elem _ _ _ _ _ Hc H).
Qed.

Lemma mapM_Forall {A B} (f : A -> option B) (P : B -> Prop)
    (l : list A) (k : list B) :
  (forall x y, x ∈ l -> f x = Some y -> P y) ->
  mapM f l = Some k -> Forall P k.
Proof.
  intros Hf HM. apply mapM_Some_1 in HM.
  induction HM as [|x y l k Hxy _ IH]; [constructor|].
  constructor.
  - eapply Hf; [apply list_elem_of_here|exact Hxy].
  - apply IH. intros x' y' Hin. apply Hf. apply list_elem_of_further.
    exact Hin.
Qed.

Section ScoreNonneg.

Variable m : MATERIAL.
Hypothesis Hconn : connections_nonneg m.

Lemma scan_point_nonneg out bn k e x :
  scan_point m out bn k = Some (e, Some x) -> (0 <= x)%Q.
Proof.
  unfold scan_point.
  destruct (np_index2 (signal_final out) k bn) as [sig|]; [|discriminate].
  cbn [mbind option_bind].
  destruct (sig =? NOT_SOLVED); [discriminate|].
  destruct (np_index (neighbors m) k) as [row|]; [|discriminate].
  cbn [mbind option_bind].
  case_guard; [|discriminate]. cbn [mbind option_bind].
  destruct (mapM _ (filter _ (enumerate row))) as [sigs|]; [|discriminate].
  cbn [mbind option_bind].
  destruct (bool_decide _); [discriminate|].
  destruct (np_index2 (bands_final out) k bn) as [bn_k|]; [|discriminate].
  cbn [mbind option_bind].
  destruct (mapM (fun kn => np_index2 (bands_final out) kn bn) _)
    as [bn_neighs|]; [|discriminate].
  cbn [mbind option_bind].
  destruct (mapM (fun p : Z * Z => np_index4 (connections m) k p.1 bn_k p.2) _)
    as [dps|] eqn:Hdps; [|discriminate].
  cbn [mbind option_bind].
  destruct (find_rotation _ _ _ _ _ _ _) as [en|]; [|discriminate].
  cbn [mbind option_bind]. intros Hres. injection Hres as _ <-.
  apply mean_nonneg. revert Hdps. apply mapM_Forall.
  intros p y _ Hy. eapply np_index4_nonneg; eauto.
Qed.

Lemma scan_band_nonneg out bn entries score :
  scan_band m out bn = Some (entries, score) -> (0 <= score)%Q.
Proof.
  unfold scan_band. case_guard; [|discriminate].
  cbn [mbind option_bind].
  destruct (mapM _ _) as [found|] eqn:HM; [|discriminate].
  cbn [mbind option_bind]. intros Hres. injection Hres as _ <-.
  assert (Hsum : (0 <= fold_left Qplus (omap snd found) 0)%Q).
  { apply fold_left_Qplus_nonneg; [apply Qle_refl|].
    apply Forall_forall. intros x Hx.
    apply list_elem_of_omap in Hx as ([e o] & Hin & Ho). simpl in Ho. subst o.
    apply list_elem_of_lookup in Hin as [i Hi].
    apply mapM_Some_1 in HM.
    destruct (Forall2_lookup_r _ _ _ _ _ HM Hi) as (k & _ & Hk).
    eapply scan_point_nonneg; exact Hk. }
  destruct (Z_lt_le_dec 0 (nks m)) as [Hpos|Hneg].
  - apply Qdiv_nonneg; [exact Hsum|].
    change 0%Q with (inject_Z 0). rewrite <- Zle_Qle. lia.
  - assert (Hnil : arange 0 (nks m) = []).
    { unfold arange, seqZ. replace (Z.to_nat (nks m - 0)) with 0%nat by lia.
      reflexivity. }
    rewrite Hnil in HM. simpl in HM. injection HM as <-. simpl.
    unfold Qdiv. rewrite Qmult_0_l. apply Qle_refl.
Qed.

Lemma np_set_Forall {A} (P : A -> Prop) (l l' : list A) (i : Z) (x : A) :
  Forall P l -> P x -> np_set l i x = Some l' -> Forall P l'.
Proof.
  intros Hl Hx H. apply np_set_Some in H as (p & _ & ->).
  apply Forall_insert; assumption.
Qed.

Lemma np_set_length {A} (l l' : list A) (i : Z) (x : A) :
  np_set l i x = Some l' -> length l' = length l.
Proof.
  intros H. apply np_set_Some in H as (p & _ & ->). apply length_insert.
Qed.

Lemma obtain_output_final_score solved clusters out out' :
  Forall (fun x => (0 <= x)%Q) (final_score out) ->
  obtain_output m solved clusters out = Some out' ->
  Forall (fun x => (0 <= x)%Q) (final_score out') /\
  length (final_score out') = length (final_score out).
Proof.
  intros Hfs. unfold obtain_output.
  destruct (foldlM (output_solved m) _ _) as [st1|] eqn:H1; [|discriminate].
  cbn [mbind option_bind].
  destruct (mapM _ _) as [sorted|]; [|discriminate].
  cbn [mbind option_bind].
  destruct (output_clusters m sorted st1) as [st2|] eqn:H2; [|discriminate].
  cbn [mbind option_bind].
  destruct (foldlM (output_degenerate m) _ _) as [sf_bf|]; [|discriminate].
  cbn [mbind option_bind].
  destruct (mapM _ (arange 0 (total_bands m))) as [scanned|] eqn:Hscan;
    [|discriminate].
  cbn [mbind option_bind].
  destruct (foldlM _ (final_score _) _) as [fs|] eqn:Hfold; [|discriminate].
  cbn [mbind option_bind].
  destruct (fold_rotations _ _) as [degenerates|]; [|discriminate].
  cbn [mbind option_bind]. intros H. injection H as <-. simpl.
  assert (Hst1 : final_score st1.2 = final_score out).
  { revert H1. apply (foldlM_invariant
                        (fun st => final_score st.2 = final_score out));
      [|reflexivity].
    intros [sb o] c [sb' o'] _ Hst. unfold output_solved.
    destruct (get_bands m c) as [k_bands c'].
    destruct (head (bands c')) as [b0|]; [|discriminate].
    cbn [mbind option_bind].
    destruct (next_band_solved _ _ _ _) as [bn|]; [|discriminate].
    cbn [mbind option_bind]. unfold assign_band.
    destruct (foldlM _ (bands_final o) _) as [bf|]; [|discriminate].
    cbn [mbind option_bind].
    destruct (foldlM _ (signal_final o) _) as [sf|]; [|discriminate].
    cbn [mbind option_bind]. intros H. injection H as _ <-. exact Hst. }
  assert (Hst2 : final_score st2.2 = final_score out).
  { rewrite <- Hst1. clear -H2. revert st1 H2.
    induction sorted as [|c cs IH]; intros [sb o] H2;
      cbn [output_clusters] in H2.
    - injection H2 as <-. reflexivity.
    - destruct (get_bands m c) as [k_bands c'].
      destruct (head (bands c')) as [b0|]; [|discriminate].
      cbn [mbind option_bind] in H2.
      destruct (next_band_cluster _ _ _ _) as [bn rest].
      destruct (_ && _).
      + injection H2 as <-. reflexivity.
      + unfold assign_band in H2.
        destruct (foldlM _ (bands_final o) _) as [bf|]; [|discriminate].
        cbn [mbind option_bind] in H2.
        destruct (foldlM _ (signal_final o) _) as [sf|]; [|discriminate].
        cbn [mbind option_bind] in H2.
        apply IH in H2. exact H2. }
  rewrite Hst2 in Hfold.
  assert (Hsc : Forall (fun x => (0 <= x)%Q) (map snd scanned)).
  { apply Forall_fmap. revert Hscan. apply mapM_Forall.
    intros bn [entries score] _ Hb. simpl.
    eapply scan_band_nonneg; exact Hb. }
  revert Hfold.
  apply (foldlM_invariant
           (fun fs => Forall (fun x => (0 <= x)%Q) fs /\
                      length fs = length (final_score out)));
    [|split; [exact Hfs|reflexivity]].
  intros a [bn sc] a' Hin [Ha Hlen] Hset. simpl in Hset. split.
  - eapply np_set_Forall; [exact Ha| |exact Hset].
    apply elem_of_zip_r in Hin. rewrite Forall_forall in Hsc. auto.
  - rewrite (np_set_length _ _ _ _ Hset). exact Hlen.
Qed.

End ScoreNonneg.

(** *** The unsolved points of [correct_signalfinal] and of its copy *)

Lemma same_zeros_refl (a : list (list Z)) : same_zeros a a.
Proof.
  unfold same_zeros. apply Forall2_same_length_lookup_2; [reflexivity|].
  intros i r r' Hr Hr'. assert (r' = r) by congruence. subst r'.
  apply Forall2_same_length_lookup_2; [reflexivity|].
  intros j x y Hx Hy. assert (y = x) by congruence. subst y. tauto.
Qed.

Lemma same_zeros_trans (a b c : list (list Z)) :
  same_zeros a b -> same_zeros b c -> same_zeros a c.
Proof.
  unfold same_zeros. intros Hab Hbc.
  set (R := fun x y : Z => x = NOT_SOLVED <-> y = NOT_SOLVED) in *.
  apply (Forall2_trans (Forall2 R) (Forall2 R) (Forall2 R) a b c);
    [|exact Hab|exact Hbc].
  intros r1 r2 r3 H12 H23.
  apply (Forall2_trans R R R r1 r2 r3); [|exact H12|exact H23].
  unfold R. intros x y z Hxy Hyz. tauto.
Qed.

Lemma np_set2_same_zeros (a a' : list (list Z)) (i j v x : Z) :
  np_index2 a i j = Some v -> v <> NOT_SOLVED -> x <> NOT_SOLVED ->
  np_set2 a i j x = Some a' -> same_zeros a a'.
Proof.
  intros Hv Hvn Hxn Hset.
  apply np_set2_Some in Hset as (p & q & row & Hp & Hrow & Hq & ->).
  apply np_index2_Some in Hv as (p' & q' & row' & Hp' & Hrow' & Hq' & Hv).
  assert (p' = p) by congruence. subst p'.
  assert (row' = row) by congruence. subst row'.
  assert (q' = q) by congruence. subst q'.
  unfold same_zeros.
  rewrite <- (list_insert_id a p row Hrow) at 1.
  apply Forall2_insert; [apply same_zeros_refl|].
  rewrite <- (list_insert_id row q v Hv) at 1.
  apply Forall2_insert; [|tauto].
  apply Forall2_same_length_lookup_2; [reflexivity|].
  intros k y z Hy Hz. assert (z = y) by congruence. subst z. tauto.
Qed.

Lemma same_zeros_nonzero (a b : list (list Z)) (i j v : Z) :
  same_zeros a b -> np_index2 a i j = Some v -> v <> NOT_SOLVED ->
  exists w, np_index2 b i j = Some w /\ w <> NOT_SOLVED.
Proof.
  intros Hab Hv Hvn.
  apply np_index2_Some in Hv as (p & q & row & Hp & Hrow & Hq & Hv).
  unfold same_zeros in Hab.
  destruct (Forall2_lookup_l _ _ _ _ _ Hab Hrow) as (row' & Hrow' & Hrr).
  destruct (Forall2_lookup_l _ _ _ _ _ Hrr Hv) as (w & Hw & Hvw).
  exists w. split; [|tauto].
  unfold np_index2, np_index.
  rewrite <- (Forall2_length _ _ _ Hab), Hp. cbn [mbind option_bind].
  rewrite Hrow'. cbn [mbind option_bind].
  rewrite <- (Forall2_length _ _ _ Hrr), Hq. exact Hw.
Qed.

Lemma count_not_solved_same_zeros (a b : list (list Z)) (bn : Z) :
  same_zeros a b -> count_not_solved a bn = count_not_solved b bn.
Proof.
  unfold same_zeros, count_not_solved. intros Hab.
  induction Hab as [|r r' a b Hrr _ IH]; [reflexivity|].
  simpl.
  assert (Hlen : length r = length r') by (eapply Forall2_length; eauto).
  unfold np_index. rewrite <- Hlen.
  destruct (np_pos (length r) bn) as [q|] eqn:Hq; [|reflexivity].
  cbn [mbind option_bind].
  destruct (r !! q) as [x|] eqn:Hx.
  - destruct (Forall2_lookup_l _ _ _ _ _ Hrr Hx) as (y & Hy & Hxy).
    rewrite Hy. cbn [mbind option_bind].
    destruct (mapM (fun row => _) a) as [ca|];
      destruct (mapM (fun row => _) b) as [cb|];
      cbn [mbind option_bind mret option_ret] in *; try discriminate;
      [|reflexivity].
    injection IH as IH. f_equal.
    rewrite !filter_cons.
    destruct (decide (x = NOT_SOLVED)) as [Hx0|Hx0];
      destruct (decide (y = NOT_SOLVED)) as [Hy0|Hy0]; try tauto;
      simpl; lia.
  - apply lookup_ge_None in Hx. apply np_pos_lt in Hq. lia.
Qed.

Lemma elem_of_where_eq2 (a : list (list Z)) (x : Z) (p : Z * Z) :
  p ∈ where_eq2 a x -> np_index2 a p.1 p.2 = Some x.
Proof.
  unfold where_eq2. rewrite list_elem_of_bind.
  intros ([i row] & Hp & Hrow).
  apply list_elem_of_fmap in Hp as (j & -> & Hj). simpl in *.
  unfold enumerate in Hrow.
  apply elem_of_lookup_imap in Hrow as (i' & row' & Heq & Hrow).
  injection Heq as -> ->.
  apply elem_of_where_eq in Hj as (j' & -> & Hj).
  unfold np_index2, np_index.
  rewrite np_pos_nonneg
    by (split; [lia|]; apply Nat2Z.inj_lt; eapply lookup_lt_Some; eauto).
  cbn [mbind option_bind]. rewrite Nat2Z.id, Hrow. cbn [mbind option_bind].
  rewrite np_pos_nonneg
    by (split; [lia|]; apply Nat2Z.inj_lt; eapply lookup_lt_Some; eauto).
  cbn [mbind option_bind]. rewrite Nat2Z.id. exact Hj.
Qed.

Lemma elem_of_mask_select {A} (l : list A) (mask : list bool) (x : A) :
  x ∈ mask_select l mask -> x ∈ l.
Proof.
  unfold mask_select. rewrite list_elem_of_fmap.
  intros ([y b] & -> & H). apply list_elem_of_filter in H as [_ H].
  eapply elem_of_zip_l. exact H.
Qed.

Lemma set_correct_same_zeros (ot : list (Z * Z)) (a a' : list (list Z)) :
  (forall q, q ∈ ot ->
     exists v, np_index2 a q.1 q.2 = Some v /\ v <> NOT_SOLVED) ->
  foldlM (fun csf (q : Z * Z) => np_set2 csf q.1 q.2 (CORRECT - 1)) a ot
    = Some a' ->
  same_zeros a a' /\
  (forall q, q ∈ ot ->
     exists v, np_index2 a' q.1 q.2 = Some v /\ v <> NOT_SOLVED).
Proof.
  intros HJ.
  apply (foldlM_invariant
           (fun x => same_zeros a x /\
                     (forall q, q ∈ ot ->
                        exists v, np_index2 x q.1 q.2 = Some v /\
                                  v <> NOT_SOLVED)));
    [|split; [apply same_zeros_refl|exact HJ]].
  intros x q x' Hq [Hsz Hx] Hset.
  destruct (Hx q Hq) as (v & Hv & Hvn). split.
  - eapply same_zeros_trans; [exact Hsz|].
    eapply np_set2_same_zeros; [exact Hv|exact Hvn| |exact Hset].
    discriminate.
  - intros q' Hq'. destruct (Hx q' Hq') as (v' & Hv' & Hvn').
    destruct (np_index2_set2 _ _ _ _ _ _ _ _ Hset Hv') as [H|H].
    + exists v'. auto.
    + exists (CORRECT - 1). split; [exact H|discriminate].
Qed.

Section CorrectSignalProperties.

Variable m : MATERIAL.
Variable curve_fit : list Z -> list Q -> Q * Q * Q.

Lemma correct_signal_same_zeros out prev c :
  0 <= min_band m <= max_band m ->
  min_band m < total_bands m ->
  correct_signal_after_output m curve_fit out prev = Some c ->
  same_zeros (correct_signalfinal_prev c) (correct_signalfinal c).
Proof.
  intros Hmin Htot. unfold correct_signal_after_output.
  destruct (evaluate_signals m curve_fit out) as [csf0|]; [|discriminate].
  cbn [mbind option_bind]. cbv zeta.
  destruct (mapM _ (where_eq2 csf0 3)) as [other_same|]; [|discriminate].
  cbn [mbind option_bind].
  destruct (mapM _ (where_eq2 csf0 1 ++ _)) as [k_index|]; [|discriminate].
  cbn [mbind option_bind].
  destruct (foldlM _ (replicate _ _) _) as [bs|] eqn:Hbs; [|discriminate].
  cbn [mbind option_bind].
  case_guard; [|discriminate]. cbn [mbind option_bind].
  set (ot := mask_select (where_eq2 csf0 3) other_same).
  assert (Hot : forall q, q ∈ ot ->
            exists v, np_index2 csf0 q.1 q.2 = Some v /\ v <> NOT_SOLVED).
  { intros q Hq. apply elem_of_mask_select, elem_of_where_eq2 in Hq.
    exists 3. split; [exact Hq|discriminate]. }
  assert (Hlen : length bs = Z.to_nat (total_bands m)).
  { revert Hbs. apply (foldlM_invariant
                         (fun bs => length bs = Z.to_nat (total_bands m)));
      [|apply length_replicate].
    intros a p a' _ Ha.
    destruct (np_index a p.1) as [band|]; [|discriminate].
    cbn [mbind option_bind].
    destruct (np_set2 band _ _ _) as [band'|]; [|discriminate].
    cbn [mbind option_bind]. intros Hset.
    rewrite (np_set_length _ _ _ _ Hset). exact Ha. }
  destruct (take _ (drop _ bs)) as [|w window] eqn:Hw.
  { exfalso. apply (f_equal length) in Hw.
    rewrite length_take, length_drop, Hlen in Hw. simpl in Hw. lia. }
  unfold enumerate. cbn [imap foldlM].
  destruct (band_edges _ _ _ _) as [edges|]; [|discriminate].
  cbn [mbind option_bind correct_signalfinal GRAPH].
  destruct (foldlM _ csf0 ot) as [csf1|] eqn:H1; [|discriminate].
  cbn [mbind option_bind].
  destruct (set_correct_same_zeros ot csf0 csf1 Hot H1) as [Hsz1 Hot1].
  apply (foldlM_invariant
           (fun c => same_zeros (correct_signalfinal_prev c)
                                (correct_signalfinal c) /\
                     (forall q, q ∈ ot ->
                        exists v, np_index2 (correct_signalfinal c) q.1 q.2
                                  = Some v /\ v <> NOT_SOLVED)));
    [|split; [exact Hsz1|exact Hot1]].
  intros a p a' _ [_ Ha].
  destruct (band_edges _ _ _ _) as [edges'|]; [|discriminate].
  cbn [mbind option_bind].
  destruct (foldlM _ (correct_signalfinal a) ot) as [csf2|] eqn:H2;
    [|discriminate].
  cbn [mbind option_bind]. intros Hres. injection Hres as <-. simpl.
  exact (set_correct_same_zeros ot _ _ Ha H2).
Qed.

End CorrectSignalProperties.

(** *** The count of solved bands *)

Lemma count_solved_bounds best csf prev scores n :
  count_solved best csf prev scores = Some n ->
  0 <= n <= Z.of_nat (length scores).
Proof.
  revert n. induction scores as [|[bn score] scores IH]; intros n;
    cbn [count_solved].
  - intros H. injection H as <-. simpl. lia.
  - destruct (np_index best bn) as [b|]; [|discriminate].
    cbn [mbind option_bind].
    destruct (count_not_solved prev bn) as [np|]; [|discriminate].
    cbn [mbind option_bind].
    destruct (count_not_solved csf bn) as [ns|]; [|discriminate].
    cbn [mbind option_bind].
    destruct (_ && _).
    + destruct (count_solved best csf prev scores) as [n'|]; [|discriminate].
      cbn [mbind option_bind]. intros H. injection H as <-.
      specialize (IH n' eq_refl). simpl length. lia.
    + intros H. injection H as <-. simpl length. lia.
Qed.

Lemma count_solved_full best csf prev scores :
  count_solved best csf prev scores = Some (Z.of_nat (length scores)) ->
  Forall (fun p : Z * Q =>
            exists b, np_index best p.1 = Some b /\ (b <= p.2)%Q) scores.
Proof.
  induction scores as [|[bn score] scores IH]; cbn [count_solved];
    [constructor|].
  destruct (np_index best bn) as [b|] eqn:Hb; [|discriminate].
  cbn [mbind option_bind].
  destruct (count_not_solved prev bn) as [np|]; [|discriminate].
  cbn [mbind option_bind].
  destruct (count_not_solved csf bn) as [ns|]; [|discriminate].
  cbn [mbind option_bind].
  destruct (Qle_bool b score) eqn:Hle; simpl andb.
  - destruct (ns <=? np).
    + destruct (count_solved best csf prev scores) as [n'|] eqn:Hn;
        [|discriminate].
      cbn [mbind option_bind]. intros H. injection H as H.
      constructor.
      * exists b. split; [exact Hb|]. apply Qle_bool_iff. exact Hle.
      * apply IH. f_equal. simpl length in H. lia.
    + intros H. injection H as H. simpl length in H. lia.
  - intros H. injection H as H. simpl length in H. lia.
Qed.

Lemma count_solved_all best csf prev scores n :
  Forall (fun p : Z * Q =>
            forall b, np_index best p.1 = Some b -> (b <= p.2)%Q) scores ->
  (forall bn, count_not_solved csf bn = count_not_solved prev bn) ->
  count_solved best csf prev scores = Some n ->
  n = Z.of_nat (length scores).
Proof.
  intros Hall Hzero. revert n.
  induction Hall as [|[bn score] scores Hp _ IH]; intros n;
    cbn [count_solved].
  - intros H. injection H as <-. reflexivity.
  - destruct (np_index best bn) as [b|] eqn:Hb; [|discriminate].
    cbn [mbind option_bind]. rewrite (Hzero bn).
    destruct (count_not_solved prev bn) as [np|]; [|discriminate].
    cbn [mbind option_bind].
    assert (Hle : Qle_bool b score = true)
      by (apply Qle_bool_iff; exact (Hp b Hb)).
    rewrite Hle, Z.leb_refl. simpl andb.
    destruct (count_solved best csf prev scores) as [n'|]; [|discriminate].
    cbn [mbind option_bind]. intros H. injection H as <-.
    rewrite (IH n' eq_refl). simpl length. lia.
Qed.

Lemma enumerate_lookup {A} (l : list A) (i : nat) (x : A) :
  l !! i = Some x -> (Z.of_nat i, x) ∈ enumerate l.
Proof.
  intros H. unfold enumerate.
  apply (elem_of_lookup_imap_2 (fun i x => (Z.of_nat i, x))). exact H.
Qed.

Lemma elem_of_enumerate {A} (l : list A) (p : Z * A) :
  p ∈ enumerate l -> exists i : nat, p.1 = Z.of_nat i /\ l !! i = Some p.2.
Proof.
  unfold enumerate. intros H.
  apply elem_of_lookup_imap in H as (i & x & -> & Hx). eauto.
Qed.

Lemma length_enumerate {A} (l : list A) : length (enumerate l) = length l.
Proof. unfold enumerate. apply length_imap. Qed.

Lemma np_index_of_nat {A} (l : list A) (i : nat) :
  (i < length l)%nat -> np_index l (Z.of_nat i) = l !! i.
Proof.
  intros H. unfold np_index. rewrite np_pos_nonneg by lia.
  cbn [mbind option_bind]. rewrite Nat2Z.id. reflexivity.
Qed.

(** *** The best score never decreases *)

Section BestScore.

Variable m : MATERIAL.
Variable curve_fit : list Z -> list Q -> Q * Q * Q.
Variable connected_components : Graph -> list (list Z).
Variable step : Q.
Hypothesis Hconn : connections_nonneg m.
Hypothesis Hwindow : 0 <= min_band m <= max_band m.
Hypothesis Htotal : min_band m < total_bands m.

Lemma correct_signal_facts solved clusters out prev oc :
  Forall (fun x => (0 <= x)%Q) (final_score out) ->
  correct_signal m curve_fit solved clusters out prev = Some oc ->
  Forall (fun x => (0 <= x)%Q) (final_score oc.1) /\
  length (final_score oc.1) = length (final_score out) /\
  same_zeros (correct_signalfinal_prev oc.2) (correct_signalfinal oc.2).
Proof.
  intros Hfs. unfold correct_signal.
  destruct (obtain_output m solved clusters out) as [out1|] eqn:H1;
    [|discriminate].
  cbn [mbind option_bind].
  destruct (correct_signal_after_output m curve_fit out1 prev) as [c|] eqn:H2;
    [|discriminate].
  cbn [mbind option_bind]. intros H. injection H as <-. simpl.
  destruct (obtain_output_final_score m Hconn _ _ _ _ Hfs H1) as [Hn Hl].
  split; [exact Hn|]. split; [exact Hl|].
  eapply correct_signal_same_zeros; eauto.
Qed.

Lemma solve_compute_facts energies s solved clusters out c :
  Forall (fun x => (0 <= x)%Q) (final_score (output s)) ->
  solve_compute m curve_fit connected_components energies s
    = Some (solved, clusters, out, c) ->
  Forall (fun x => (0 <= x)%Q) (final_score out) /\
  length (final_score out) = length (final_score (output s)) /\
  same_zeros (correct_signalfinal_prev c) (correct_signalfinal c).
Proof.
  intros Hfs. unfold solve_compute.
  destruct (get_components _ _ _ _ _) as [r|]; [|discriminate].
  cbn [mbind option_bind].
  destruct (obtain_output m r.1 r.2 (output s)) as [out1|] eqn:H1;
    [|discriminate].
  cbn [mbind option_bind].
  destruct (correct_signal _ _ _ _ _ _) as [oc|] eqn:H2; [|discriminate].
  cbn [mbind option_bind]. intros H. injection H as _ _ <- <-.
  destruct (obtain_output_final_score m Hconn _ _ _ _ Hfs H1) as [Hn Hl].
  destruct (correct_signal_facts _ _ _ _ _ Hn H2) as (Hn2 & Hl2 & Hz).
  split; [exact Hn2|]. split; [congruence|exact Hz].
Qed.

Lemma solve_step_best_score energies s s' :
  best_score_inv s ->
  solve_step m curve_fit connected_components step energies s = Some s' ->
  best_score_inv s' /\ Forall2 Qle (best_score s) (best_score s').
Proof.
  intros (Hfs & Hbest & Hlen & Hmax). unfold solve_step.
  destruct (solve_compute _ _ _ _ _) as [[[[solved_ clusters_] out] c]|] eqn:Hc;
    [|discriminate].
  cbn [mbind option_bind].
  destruct (solve_compute_facts _ _ _ _ _ _ Hfs Hc) as (Hn & Hl & Hz).
  destruct (count_solved _ _ _ _) as [solved|] eqn:Hcount; [|discriminate].
  cbn [mbind option_bind].
  pose proof (count_solved_bounds _ _ _ _ _ Hcount) as Hb.
  rewrite length_enumerate in Hb.
  destruct (Z.leb_spec (max_solved s) solved) as [Hupd|Hkeep].
  - (* the result is stored as the best one *)
    intros H. injection H as <-. unfold best_score_inv. simpl.
    assert (Hfull : solved = Z.of_nat (length (final_score out))).
    { destruct Hmax as [[Hm0 Hzero]|Hm].
      - rewrite <- (length_enumerate (final_score out)).
        eapply count_solved_all; [| |exact Hcount].
        + apply Forall_forall. intros p Hp b Hbp.
          apply elem_of_enumerate in Hp as (i & Hi & Hpi).
          rewrite Hi in Hbp. apply np_index_Some in Hbp as (q & _ & Hq).
          rewrite Forall_forall in Hzero.
          assert (H0 : (b == 0)%Q)
            by (apply Hzero, list_elem_of_lookup; eauto).
          rewrite H0. rewrite Forall_forall in Hn.
          apply Hn, list_elem_of_lookup. eauto.
        + intros bn. symmetry. apply count_not_solved_same_zeros. exact Hz.
      - lia. }
    split; [|rewrite Hfull in Hcount].
    + split; [exact Hn|]. split; [exact Hn|]. split; [reflexivity|].
      right. exact Hfull.
    + rewrite <- (length_enumerate (final_score out)) in Hcount.
      apply count_solved_full in Hcount. rewrite Forall_forall in Hcount.
      apply Forall2_same_length_lookup_2; [congruence|].
      intros i x y Hx Hy.
      destruct (Hcount _ (enumerate_lookup _ _ _ Hy)) as (b & Hbi & Hle).
      simpl in Hbi, Hle.
      rewrite np_index_of_nat in Hbi by (eapply lookup_lt_Some; eauto).
      congruence.
  - (* the best result is restored *)
    destruct (best_signal_final s) as [best_signal|]; [|discriminate].
    cbn [mbind option_bind].
    destruct (correct_signal _ _ _ _ _ _) as [oc|] eqn:H2; [|discriminate].
    cbn [mbind option_bind]. intros H. injection H as <-.
    unfold best_score_inv. simpl.
    apply correct_signal_facts in H2 as (Hn2 & Hl2 & _); [|exact Hbest].
    simpl in Hl2. split.
    + split; [exact Hn2|]. split; [exact Hbest|]. split; [congruence|].
      exact Hmax.
    + apply Forall2_same_length_lookup_2; [reflexivity|].
      intros i x y Hx Hy. assert (y = x) by congruence. subst y.
      apply Qle_refl.
Qed.

Lemma solve_init_best_score_inv G : best_score_inv (solve_init m G).
Proof.
  unfold best_score_inv, solve_init, initial_output. simpl.
  assert (H0 : Forall (fun x => (0 <= x)%Q)
                      (replicate (Z.to_nat (total_bands m)) 0%Q)).
  { apply Forall_replicate. apply Qle_refl. }
  split; [exact H0|]. split; [exact H0|]. split; [reflexivity|].
  left. split; [reflexivity|]. apply Forall_replicate. reflexivity.
Qed.

Lemma solve_iterate_best_score_inv energies G (n : nat) s :
  solve_iterate m curve_fit connected_components step energies n
                (solve_init m G) = Some s ->
  best_score_inv s.
Proof.
  revert s. induction n as [|n IH]; intros s; cbn [solve_iterate].
  - intros H. injection H as <-. apply solve_init_best_score_inv.
  - destruct (solve_iterate _ _ _ _ _ n _) as [s0|]; [|discriminate].
    cbn [mbind option_bind]. intros H.
    exact (proj1 (solve_step_best_score _ _ _ (IH s0 eq_refl) H)).
Qed.

End BestScore.

(** C5: with overlaps that are magnitudes (not negative) and a band
    window inside the bands of the input, every iteration of the loop of
    [solve] leaves each [best_score[b]] at least as large as it was after
    the previous iteration. *)
Theorem best_score_non_decreasing m curve_fit connected_components
    (step : Q) energies G (n : nat) s s' :
  connections_nonneg m ->
  0 <= min_band m <= max_band m ->
  min_band m < total_bands m ->
  solve_iterate m curve_fit connected_components step energies n
                (solve_init m G) = Some s ->
  solve_step m curve_fit connected_components step energies s = Some s' ->
  Forall2 Qle (best_score s) (best_score s').
Proof.
  intros Hconn Hwin Htot Hs Hstep.
  eapply solve_step_best_score; eauto.
  eapply solve_iterate_best_score_inv; eauto.
Qed.

Lemma best_score_non_decreasing_witness :
  best_score (crossing3_state 1) = [0 # 3; 6 # 6; 0 # 3]%Q /\
  best_score (crossing3_state 2) = [3 # 6; 6 # 6; 0 # 6]%Q /\
  Forall2 Qle (best_score (crossing3_state 1))
              (best_score (crossing3_state 2)).
Proof.
  split; [reflexivity|]. split; [reflexivity|].
  apply (best_score_non_decreasing crossing3 flat_fit reference_components
           (1 # 10) (default [] (make_BandsEnergy crossing3))
           crossing3_graph 1).
  - unfold connections_nonneg.
    repeat match goal with |- Forall _ _ => constructor end;
      vm_compute; discriminate.
  - simpl. lia.
  - reflexivity.
  - vm_compute. reflexivity.
  - vm_compute. reflexivity.
Defined.

(** *** The nodes of the components *)

Section ComponentNodes.

Variable m : MATERIAL.
Variable curve_fit : list Z -> list Q -> Q * Q * Q.
Variable energies : list (list (list Q)).
Variable tol : Q.
Variable P : Z -> Prop.

Local Abbreviation nodes_in := (fun c : COMPONENT => Forall P (nodes c)).

Lemma calculate_pointsMatrix_nodes c c' :
  calculate_pointsMatrix m c = Some c' -> nodes c' = nodes c.
Proof.
  unfold calculate_pointsMatrix.
  destruct (mapM _ _) as [ip|]; [|discriminate]. cbn [mbind option_bind].
  destruct (foldlM _ _ _) as [pm|]; [|discriminate]. cbn [mbind option_bind].
  intros H. injection H as <-. reflexivity.
Qed.

Lemma calc_boundary_nodes c : nodes (calc_boundary m c) = nodes c.
Proof. reflexivity. Qed.

Lemma join_nodes self component c' :
  nodes_in self -> nodes_in component ->
  join m self component = Some c' -> nodes_in c'.
Proof.
  intros Hs Hc. unfold join.
  destruct (calculate_pointsMatrix _ _) as [c|] eqn:H; [|discriminate].
  cbn [mbind option_bind]. intros H'. injection H' as <-.
  rewrite calc_boundary_nodes, (calculate_pointsMatrix_nodes _ _ H).
  cbn [nodes]. apply Forall_app. split; [exact Hs|].
  apply Forall_forall. intros n Hn.
  apply list_elem_of_filter in Hn as [_ Hn].
  rewrite elem_of_remove_dups in Hn.
  rewrite Forall_forall in Hc. auto.
Qed.

Lemma get_cluster_score_nodes self cluster r :
  get_cluster_score m curve_fit energies self cluster tol = Some r ->
  nodes r.2 = nodes self.
Proof.
  unfold get_cluster_score. destruct (was_modified cluster).
  - destruct (scores self !! id_ cluster); [|discriminate].
    cbn [mbind option_bind]. intros H. injection H as <-. reflexivity.
  - destruct (boundary_score _ _ _ _ _ _); [|discriminate].
    cbn [mbind option_bind]. intros H. injection H as <-. reflexivity.
Qed.

Lemma score_sample_nodes clusters sample r :
  score_sample m curve_fit energies tol clusters sample = Some r ->
  nodes r.2 = nodes sample.
Proof.
  unfold score_sample.
  apply (foldlM_invariant
           (fun acc : list Q * COMPONENT => nodes acc.2 = nodes sample));
    [|reflexivity].
  intros [scores s0] cluster a' _ Ha. cbn [snd] in Ha.
  destruct (negb _).
  - intros H. injection H as <-. exact Ha.
  - destruct (bool_decide _).
    + destruct (calculate_pointsMatrix m s0) as [s1|] eqn:H1;
        [|discriminate].
      cbn [fmap option_fmap option_map mbind option_bind].
      destruct (get_cluster_score _ _ _ _ _ _) as [r'|] eqn:H2;
        [|discriminate].
      cbn [mbind option_bind]. intros H. injection H as <-. cbn [snd].
      rewrite (get_cluster_score_nodes _ _ _ H2), calc_boundary_nodes,
        (calculate_pointsMatrix_nodes _ _ H1). exact Ha.
    + cbn [mbind option_bind].
      destruct (get_cluster_score _ _ _ _ _ _) as [r'|] eqn:H2;
        [|discriminate].
      cbn [mbind option_bind]. intros H. injection H as <-. cbn [snd].
      rewrite (get_cluster_score_nodes _ _ _ H2). exact Ha.
Qed.

Lemma evaluate_round_nodes clusters samples ev :
  Forall nodes_in samples ->
  evaluate_round m curve_fit energies tol clusters samples = Some ev ->
  Forall nodes_in ev.2.
Proof.
  intros Hs. unfold evaluate_round.
  destruct (mapM _ samples) as [scored|] eqn:Hm; [|discriminate].
  cbn [mbind option_bind]. intros H. injection H as <-. cbn [snd].
  apply mapM_Some_1 in Hm. apply Forall_fmap.
  clear -Hs Hm. induction Hm as [|sample r samples scored Hr _ IH];
    [constructor|].
  inversion_clear Hs as [|? ? Hs1 Hs2]. constructor; [|auto].
  destruct (score_sample _ _ _ _ _ _) as [r0|] eqn:H0; [|discriminate].
  cbn [mbind option_bind] in Hr.
  destruct (np_max _); [|discriminate]. cbn [mbind option_bind] in Hr.
  destruct (argmax _); [|discriminate]. cbn [mbind option_bind] in Hr.
  injection Hr as <-. simpl.
  rewrite (score_sample_nodes _ _ _ H0). exact Hs1.
Qed.

Local Abbreviation state_in :=
  (fun st : list COMPONENT * list COMPONENT * list COMPONENT =>
     Forall nodes_in st.1.1 /\ Forall nodes_in st.1.2 /\
     Forall nodes_in st.2).

Lemma merge_round_nodes st r :
  state_in st ->
  merge_round m curve_fit energies tol st = Some r -> state_in r.2.
Proof.
  destruct st as [[solved clusters] samples]. intros (Hso & Hcl & Hsa).
  cbn [fst snd] in Hso, Hcl, Hsa. unfold merge_round.
  destruct (evaluate_round _ _ _ _ _ _) as [[es samples']|] eqn:Hev;
    [|discriminate].
  cbn [mbind option_bind].
  apply (evaluate_round_nodes _ _ _ Hsa) in Hev. cbn [snd] in Hev.
  destruct (argmax _) as [arg_max|]; [|discriminate].
  cbn [mbind option_bind].
  destruct (samples' !! arg_max) as [sample|] eqn:Hsample; [|discriminate].
  cbn [mbind option_bind].
  destruct (es !! arg_max) as [best|]; [|discriminate].
  cbn [mbind option_bind].
  destruct (map _ clusters !! best.2) as [cluster|] eqn:Hcluster;
    [|discriminate].
  cbn [mbind option_bind].
  destruct (join m cluster sample) as [joined|] eqn:Hj; [|discriminate].
  cbn [mbind option_bind].
  assert (Hcl' : Forall nodes_in (map (set_was_modified false) clusters)).
  { apply Forall_fmap. eapply Forall_impl; [exact Hcl|]. auto. }
  assert (Hjoined : nodes_in (set_was_modified true joined)).
  { cbn [set_was_modified nodes].
    eapply join_nodes; [| |exact Hj].
    - rewrite Forall_forall in Hcl'.
      apply Hcl', list_elem_of_lookup. eauto.
    - rewrite Forall_forall in Hev.
      apply Hev, list_elem_of_lookup. eauto. }
  assert (Hins : Forall nodes_in
            (<[best.2 := set_was_modified true joined]>
               (map (set_was_modified false) clusters))).
  { apply Forall_insert; assumption. }
  destruct (_ =? _); intros H; injection H as <-; cbn [fst snd].
  - split; [|split].
    + apply Forall_app. split; [exact Hso|]. constructor; [|constructor].
      exact Hjoined.
    + apply Forall_delete. exact Hins.
    + apply Forall_delete. exact Hev.
  - split; [exact Hso|]. split; [exact Hins|].
    apply Forall_delete. exact Hev.
Qed.

Lemma merge_loop_nodes rounds st st' :
  state_in st ->
  merge_loop m curve_fit energies tol rounds st = Some st' -> state_in st'.
Proof.
  revert st. induction rounds as [|rounds IH]; intros st Hst;
    cbn [merge_loop].
  - intros H. injection H as <-. exact Hst.
  - destruct (merge_round _ _ _ _ _) as [r|] eqn:Hr; [|discriminate].
    cbn [mbind option_bind]. apply IH.
    exact (merge_round_nodes _ _ Hst Hr).
Qed.

Lemma partition_step_nodes st component st' :
  state_in st -> nodes_in component ->
  partition_step m st component = Some st' -> state_in st'.
Proof.
  destruct st as [[solved clusters] samples]. intros (Hso & Hcl & Hsa) Hc.
  cbn [fst snd] in Hso, Hcl, Hsa. unfold partition_step.
  destruct (_ =? _).
  { intros H. injection H as <-. cbn [fst snd].
    split; [|split; assumption].
    apply Forall_app. split; [exact Hso|]. constructor; [exact Hc|constructor]. }
  destruct (calculate_pointsMatrix m component) as [c|] eqn:H1;
    [|discriminate].
  cbn [mbind option_bind].
  assert (Hc' : nodes_in (calc_boundary m c)).
  { rewrite calc_boundary_nodes, (calculate_pointsMatrix_nodes _ _ H1).
    exact Hc. }
  assert (Hsnoc : forall l, Forall nodes_in l ->
            Forall nodes_in (l ++ [calc_boundary m c])).
  { intros l Hl. apply Forall_app. split; [exact Hl|].
    constructor; [exact Hc'|constructor]. }
  destruct (bool_decide _); [|destruct (negb _)];
    intros H; injection H as <-; cbn [fst snd]; auto.
Qed.

Lemma partition_nodes components st :
  Forall nodes_in components ->
  partition m components = Some st -> state_in st.
Proof.
  intros Hc. unfold partition.
  destruct (mapM _ _) as [sorted|] eqn:Hs; [|discriminate].
  cbn [mbind option_bind].
  assert (Hsorted : Forall nodes_in sorted).
  { apply Forall_forall. intros c Hin.
    rewrite Forall_forall in Hc.
    exact (Hc _ (elem_of_mapM_lookup _ _ _ _ Hs Hin)). }
  apply (foldlM_invariant state_in).
  - intros a x a' Hx Ha. apply partition_step_nodes; [exact Ha|].
    rewrite Forall_forall in Hsorted. auto.
  - cbn [fst snd]. auto.
Qed.

Lemma get_components_nodes components r :
  Forall (Forall P) components ->
  get_components m curve_fit energies tol components = Some r ->
  Forall nodes_in r.1 /\ Forall nodes_in r.2.
Proof.
  intros Hc. unfold get_components.
  destruct (partition _ _) as [st|] eqn:Hp; [|discriminate].
  cbn [mbind option_bind].
  destruct (merge_loop _ _ _ _ _ _) as [st'|] eqn:Hm; [|discriminate].
  cbn [mbind option_bind].
  case_guard; [|discriminate]. cbn [mbind option_bind].
  intros Hres. injection Hres as <-. cbn [fst snd].
  assert (Hst : state_in st).
  { eapply partition_nodes; [|exact Hp].
    apply Forall_fmap. eapply Forall_impl; [exact Hc|]. auto. }
  destruct (merge_loop_nodes _ _ _ Hst Hm) as (H1 & H2 & _). auto.
Qed.

End ComponentNodes.

(** *** The round of the merger *)

(** C8 (as amended): the sample popped in a round of the merger has the
    highest best score of all samples, and every sample before it in the
    list [samples] has a strictly lower best score: ties go to the first
    position of the list, and the selection is deterministic.  The popped
    sample is the one that is merged: it leaves the list of samples and
    is joined to its best cluster, which takes the place of that cluster
    or moves to the solved components when it covers every k point. *)
Theorem merge_round_pops_first_max m curve_fit energies tol
    solved clusters samples arg_max st' :
  merge_round m curve_fit energies tol (solved, clusters, samples)
    = Some (arg_max, st') ->
  exists evaluate_samples samples' sample0 sample best cluster joined,
    evaluate_round m curve_fit energies tol clusters samples
      = Some (evaluate_samples, samples') /\
    first_max (map fst evaluate_samples) arg_max /\
    samples !! arg_max = Some sample0 /\
    samples' !! arg_max = Some sample /\
    nodes sample = nodes sample0 /\
    evaluate_samples !! arg_max = Some best /\
    clusters !! best.2 = Some cluster /\
    join m (set_was_modified false cluster) sample = Some joined /\
    st'.2 = delete arg_max samples' /\
    st'.1 = (let joined := set_was_modified true joined in
             let clusters := <[best.2 := joined]>
                               (map (set_was_modified false) clusters) in
             if N joined =? nks m
             then (solved ++ [joined], delete best.2 clusters)
             else (solved, clusters)).
Proof.
  unfold merge_round.
  destruct (evaluate_round _ _ _ _ _ _) as [[ev samples']|] eqn:Hev;
    [|discriminate].
  cbn [mbind option_bind].
  destruct (argmax (map fst ev)) as [a|] eqn:Ha; [|discriminate].
  cbn [mbind option_bind].
  destruct (samples' !! a) as [sample|] eqn:Hsample; [|discriminate].
  cbn [mbind option_bind].
  destruct (ev !! a) as [best|] eqn:Hbest; [|discriminate].
  cbn [mbind option_bind].
  destruct (map (set_was_modified false) clusters !! best.2)
    as [cluster'|] eqn:Hcluster; [|discriminate].
  cbn [mbind option_bind].
  destruct (join m cluster' sample) as [joined|] eqn:Hjoin; [|discriminate].
  cbn [mbind option_bind]. intros H.
  rewrite list_lookup_fmap in Hcluster.
  destruct (clusters !! best.2) as [cluster|] eqn:Hcl; [|discriminate].
  cbn in Hcluster. injection Hcluster as <-.
  (* the popped sample before the scoring pass *)
  assert (Hsample0 : exists sample0,
            samples !! a = Some sample0 /\ nodes sample = nodes sample0).
  { revert Hev. unfold evaluate_round.
    destruct (mapM _ samples) as [scored|] eqn:Hm; [|discriminate].
    cbn [mbind option_bind]. intros Hev. injection Hev as _ <-.
    rewrite list_lookup_fmap in Hsample.
    destruct (scored !! a) as [[e s']|] eqn:Hsc; [|discriminate].
    cbn in Hsample. injection Hsample as ->.
    apply mapM_Some_1 in Hm.
    destruct (Forall2_lookup_r _ _ _ _ _ Hm Hsc) as (sample0 & Hs0 & Hf).
    exists sample0. split; [exact Hs0|].
    destruct (score_sample _ _ _ _ _ sample0) as [r|] eqn:Hss;
      [|discriminate].
    cbn [mbind option_bind] in Hf.
    destruct (np_max r.1); [|discriminate]. cbn [mbind option_bind] in Hf.
    destruct (argmax r.1); [|discriminate]. cbn [mbind option_bind] in Hf.
    injection Hf as _ <-.
    exact (score_sample_nodes m curve_fit energies tol _ _ _ Hss). }
  destruct Hsample0 as (sample0 & Hs0 & Hnodes).
  assert (Harg : a = arg_max) by (destruct (_ =? _); congruence).
  subst a.
  exists ev, samples', sample0, sample, best, cluster, joined.
  split; [reflexivity|].
  split; [apply argmax_first_max; exact Ha|].
  do 6 (split; [assumption|]).
  cbv zeta. destruct (_ =? _); injection H as <-; split; reflexivity.
Qed.

Lemma merge_round_pops_first_max_witness :
  exists evaluate_samples samples' sample0 sample best cluster joined,
    evaluate_round chain4 flat_fit chain4_energies (1 # 2)
                   chain4_partition.1.2 chain4_partition.2
      = Some (evaluate_samples, samples') /\
    first_max (map fst evaluate_samples) 0 /\
    chain4_partition.2 !! 0%nat = Some sample0 /\
    samples' !! 0%nat = Some sample /\
    nodes sample = nodes sample0 /\
    evaluate_samples !! 0%nat = Some best /\
    chain4_partition.1.2 !! best.2 = Some cluster /\
    join chain4 (set_was_modified false cluster) sample = Some joined /\
    chain4_round1.2 = delete 0%nat samples' /\
    chain4_round1.1
    = (let joined := set_was_modified true joined in
       let clusters := <[best.2 := joined]>
                         (map (set_was_modified false)
                              chain4_partition.1.2) in
       if N joined =? nks chain4
       then (chain4_partition.1.1 ++ [joined], delete best.2 clusters)
       else (chain4_partition.1.1, clusters)).
Proof.
  apply (merge_round_pops_first_max chain4 flat_fit chain4_energies (1 # 2)
           chain4_partition.1.1 chain4_partition.1.2 chain4_partition.2
           0%nat chain4_round1).
  vm_compute. reflexivity.
Defined.

(** C8 as stated fails on the chain of four k points: the samples [{3}]
    and [{0}] tie at the best score 19/80 against the cluster [{1, 2}];
    the round pops position 0 of the list, the sample with identifier 3,
    not the one with identifier 0. *)
Lemma merge_round_tie_not_lowest_id :
  match first_round chain4 chain4_components with
  | Some (evaluate_samples, samples', (arg_max, _)) =>
      arg_max = 0%nat /\
      map id_ samples' = [3; 0] /\
      ~ lowest_id_on_ties evaluate_samples samples' arg_max
  | None => False
  end.
Proof.
  vm_compute. split; [reflexivity|]. split; [reflexivity|].
  intros H.
  specialize (H 1%nat _ _ _ _ eq_refl eq_refl eq_refl eq_refl).
  simpl in H. apply H; reflexivity.
Qed.

(** *** The nodes of the graph *)

Lemma has_node_add_node (G : Graph) (x n : Z) :
  has_node (add_node x G) n <-> n = x \/ has_node G n.
Proof.
  unfold has_node, add_node. destruct (G !! x) eqn:E.
  - split; [auto|]. intros [->|H]; [rewrite E; eauto|exact H].
  - destruct (decide (n = x)) as [->|Hne].
    + rewrite lookup_insert_eq. split; eauto.
    + rewrite lookup_insert_ne by congruence. split; [auto|].
      intros [?|?]; [contradiction|assumption].
Qed.

Lemma has_node_add_nodes_from (ns : list Z) (G : Graph) (n : Z) :
  has_node (add_nodes_from ns G) n <-> n ∈ ns \/ has_node G n.
Proof.
  revert G. induction ns as [|x ns IH]; intros G; simpl.
  - split; [auto|]. intros [H|H]; [inversion H|exact H].
  - rewrite IH, has_node_add_node, elem_of_cons. tauto.
Qed.

Lemma has_node_add_edge (G : Graph) (u v n : Z) :
  has_node (add_edge u v G) n <-> n = u \/ n = v \/ has_node G n.
Proof.
  unfold has_node, add_edge.
  destruct (decide (n = v)) as [->|Hv].
  - rewrite lookup_insert_eq. split; eauto.
  - rewrite lookup_insert_ne by congruence.
    destruct (decide (n = u)) as [->|Hu].
    + rewrite lookup_insert_eq. split; eauto.
    + rewrite lookup_insert_ne by congruence. split; [auto|].
      intros [?|[?|?]]; [contradiction|contradiction|assumption].
Qed.

Lemma has_node_add_edges_from (edges : list (Z * Z)) (G : Graph) (n : Z) :
  has_node (add_edges_from edges G) n
  <-> has_node G n \/ exists e, e ∈ edges /\ (n = e.1 \/ n = e.2).
Proof.
  revert G. induction edges as [|e edges IH]; intros G; simpl.
  - split; [auto|]. intros [H|(e & H & _)]; [exact H|inversion H].
  - rewrite IH, has_node_add_edge. split.
    + intros [[->|[->|H]]|(e' & He & H)].
      * right. exists e. split; [apply list_elem_of_here|auto].
      * right. exists e. split; [apply list_elem_of_here|auto].
      * auto.
      * right. exists e'. split; [apply list_elem_of_further, He|exact H].
    + intros [H|(e' & He & H)]; [auto|].
      apply elem_of_cons in He as [->|He]; [tauto|eauto].
Qed.

Lemma graph_wf_initial (m : MATERIAL) : graph_wf (initial_graph m).
Proof. intros u v H. destruct (initial_graph_no_edge _ _ _ H). Qed.

Lemma graph_wf_add_edges_from (edges : list (Z * Z)) (G : Graph) :
  graph_wf G -> graph_wf (add_edges_from edges G).
Proof.
  intros HG u v. rewrite has_edge_add_edges_from, has_node_add_edges_from.
  intros [H|[H|H]].
  - left. eapply HG, H.
  - right. exists (u, v). auto.
  - right. exists (v, u). auto.
Qed.

Lemma graph_nodes_add_edges_from (P : Z -> Prop) (edges : list (Z * Z))
    (G : Graph) :
  graph_nodes P G ->
  Forall (fun e : Z * Z => P e.1 /\ P e.2) edges ->
  graph_nodes P (add_edges_from edges G).
Proof.
  intros HG He n. rewrite has_node_add_edges_from.
  intros [H|(e & Hin & H)]; [auto|].
  rewrite Forall_forall in He. destruct (He _ Hin) as [H1 H2].
  destruct H as [->| ->]; assumption.
Qed.

Lemma graph_nodes_initial (m : MATERIAL) :
  graph_nodes (fun n => 0 <= n) (initial_graph m).
Proof.
  intros n. unfold initial_graph. rewrite has_node_add_nodes_from.
  intros [H|H].
  - apply elem_of_arange in H. lia.
  - unfold has_node in H. rewrite lookup_empty in H.
    destruct H as [? H]. discriminate.
Qed.

(** The reference [connected_components] yields nodes of the graph. *)
Lemma reach_nodes (fuel : nat) (G : Graph) (s : gset Z) :
  graph_wf G ->
  (forall n, n ∈ s -> has_node G n) ->
  forall n, n ∈ reach fuel G s -> has_node G n.
Proof.
  intros HG. revert s. induction fuel as [|fuel IH]; intros s Hs; simpl;
    [exact Hs|].
  apply IH. intros n. unfold reach_step. rewrite elem_of_union.
  intros [H|H]; [auto|].
  apply elem_of_union_list in H as (X & HX & Hn).
  apply list_elem_of_fmap in HX as (u & -> & _).
  exact (HG u n Hn).
Qed.

Lemma reference_components_of_graph : components_of_graph reference_components.
Proof.
  intros G HG. unfold reference_components.
  assert (Hdom : Forall (has_node G) (merge_sort Z.le (elements (dom G)))).
  { apply Forall_forall. intros n Hn.
    rewrite merge_sort_Permutation in Hn.
    apply elem_of_elements, elem_of_dom in Hn. exact Hn. }
  revert Hdom. generalize (merge_sort Z.le (elements (dom G))).
  intros l Hl.
  cut (forall comps, Forall (Forall (has_node G)) comps ->
         Forall (Forall (has_node G))
           (fold_left (fun comps n =>
              if existsb (fun c => bool_decide (n ∈ c)) comps then comps
              else comps ++ [merge_sort Z.le
                               (elements (reach (size G) G {[n]}))])
              l comps)).
  { intros H. apply H. constructor. }
  induction l as [|n l IH]; intros comps Hcomps; simpl; [exact Hcomps|].
  inversion_clear Hl as [|? ? Hn Hl']. apply IH; [exact Hl'|].
  destruct (existsb _ comps); [exact Hcomps|].
  apply Forall_app. split; [exact Hcomps|]. constructor; [|constructor].
  apply Forall_forall. intros x Hx.
  rewrite merge_sort_Permutation in Hx. apply elem_of_elements in Hx.
  eapply reach_nodes; [exact HG| |exact Hx].
  intros y Hy. apply elem_of_singleton in Hy. subst y. exact Hn.
Qed.

Lemma make_matrix_entries (nkx nky : Z) :
  Forall (Forall (fun kp => 0 <= kp < nkx * nky)) (make_matrix nkx nky).
Proof.
  unfold make_matrix. apply Forall_fmap, Forall_forall. intros i Hi.
  apply Forall_fmap, Forall_forall. intros j Hj.
  apply elem_of_arange in Hi, Hj. simpl. nia.
Qed.

Section GraphCoverage.

Variable m : MATERIAL.
Hypothesis Hnks : nks m = nkx m * nky m.
Hypothesis Hwindow : 0 <= min_band m <= max_band m.

Lemma node_ok_entry (kp b : Z) :
  0 <= kp < nks m -> band_ok m b ->
  node_ok m (kp + (b - min_band m) * nks m).
Proof.
  intros Hkp Hb. unfold node_ok, c_nks. rewrite <- Hnks.
  rewrite Z.div_add by lia. rewrite Z.div_small by lia.
  replace (0 + (b - min_band m) + min_band m) with b by lia. exact Hb.
Qed.

Lemma node_ok_of_range (n : Z) :
  0 <= n < nks m * nbnd m -> node_ok m n.
Proof.
  intros Hn. unfold node_ok, c_nks. rewrite <- Hnks. right.
  unfold nbnd in Hn.
  assert (Hpos : 0 < nks m) by nia.
  assert (0 <= n / nks m) by (apply Z.div_pos; lia).
  assert (n / nks m < max_band m + 1 - min_band m)
    by (apply Z.div_lt_upper_bound; lia).
  lia.
Qed.

Lemma band_edges_nodes out bn ident edges :
  bands_final_ok m (bands_final out) ->
  band_edges m out bn ident = Some edges ->
  Forall (fun e : Z * Z => graph_node_ok m e.1 /\ graph_node_ok m e.2) edges.
Proof.
  intros Hok. unfold band_edges.
  destruct (mapM _ _) as [found|] eqn:HM; [|discriminate].
  cbn [mbind option_bind]. intros H. injection H as <-.
  apply Forall_forall. intros e He.
  apply (elem_of_concat_mapM _ _ _ _ HM) in He as ([ik jk] & l & _ & Hl & He).
  destruct (np_index2 ident ik jk) as [need|]; [|discriminate].
  cbn [mbind option_bind] in Hl.
  destruct (np_index2 (matrix m) ik jk) as [kp|] eqn:Hkp; [|discriminate].
  cbn [mbind option_bind] in Hl.
  destruct (need && _).
  { injection Hl as <-. inversion He. }
  destruct (mapM _ [(1, 0); (0, 1)]) as [es|] eqn:HE; [|discriminate].
  cbn [mbind option_bind] in Hl. injection Hl as <-.
  apply (elem_of_concat_mapM _ _ _ _ HE) in He as (d & l & _ & Hl & He).
  destruct (_ || _).
  { injection Hl as <-. inversion He. }
  destruct (np_index2 (matrix m) (ik + d.1) (jk + d.2)) as [kneig|] eqn:Hkn;
    [|discriminate].
  cbn [mbind option_bind] in Hl.
  destruct (np_index2 ident _ _) as [marked|]; [|discriminate].
  cbn [mbind option_bind] in Hl.
  destruct (negb marked).
  2:{ injection Hl as <-. inversion He. }
  destruct (np_index2 (bands_final out) kp bn) as [b|] eqn:Hb;
    [|discriminate].
  cbn [mbind option_bind] in Hl.
  destruct (np_index2 (bands_final out) kneig bn) as [b_n|] eqn:Hbn;
    [|discriminate].
  cbn [mbind option_bind] in Hl. injection Hl as <-.
  apply list_elem_of_singleton in He. subst e. cbn [fst snd].
  pose proof (np_index2_elem _ _ _ _ _ (make_matrix_entries _ _) Hkp) as H1.
  pose proof (np_index2_elem _ _ _ _ _ (make_matrix_entries _ _) Hkn) as H2.
  simpl in H1, H2. rewrite <- Hnks in H1, H2.
  split; right; apply node_ok_entry; try assumption.
  - exact (np_index2_elem _ _ _ _ _ Hok Hb).
  - exact (np_index2_elem _ _ _ _ _ Hok Hbn).
Qed.

Lemma correct_signal_after_output_graph curve_fit out prev c :
  bands_final_ok m (bands_final out) ->
  correct_signal_after_output m curve_fit out prev = Some c ->
  graph_wf (GRAPH c) /\ graph_nodes (graph_node_ok m) (GRAPH c).
Proof.
  intros Hok. unfold correct_signal_after_output.
  destruct (evaluate_signals m curve_fit out) as [csf0|]; [|discriminate].
  cbn [mbind option_bind]. cbv zeta.
  destruct (mapM _ (where_eq2 csf0 3)) as [other_same|]; [|discriminate].
  cbn [mbind option_bind].
  destruct (mapM _ (where_eq2 csf0 1 ++ _)) as [k_index|]; [|discriminate].
  cbn [mbind option_bind].
  destruct (foldlM _ (replicate _ _) _) as [bs|]; [|discriminate].
  cbn [mbind option_bind].
  case_guard; [|discriminate]. cbn [mbind option_bind].
  apply (foldlM_invariant
           (fun c => graph_wf (GRAPH c) /\
                     graph_nodes (graph_node_ok m) (GRAPH c))).
  - intros a p a' _ [Hwf Hn].
    destruct (band_edges _ _ _ _) as [edges|] eqn:He; [|discriminate].
    cbn [mbind option_bind].
    destruct (foldlM _ (correct_signalfinal a) _) as [csf1|]; [|discriminate].
    cbn [mbind option_bind]. intros Hres. injection Hres as <-.
    cbn [GRAPH]. split.
    + apply graph_wf_add_edges_from. exact Hwf.
    + apply graph_nodes_add_edges_from; [exact Hn|].
      eapply band_edges_nodes; eauto.
  - cbn [GRAPH]. split; [apply graph_wf_initial|].
    intros n Hn. left. exact (graph_nodes_initial m n Hn).
Qed.

Lemma make_connections_edges_graph tol n_process G :
  neighbors_in_range m ->
  make_connections_edges m tol n_process = Some G ->
  graph_wf G /\ graph_nodes (graph_node_ok m) G.
Proof.
  intros Hneigh. unfold make_connections_edges, parallelize.
  destruct (parallelize_chunks _ _) as [chunks|] eqn:Hchunks; [|discriminate].
  cbn [mbind option_bind]. intros HG. injection HG as <-.
  split; [apply graph_wf_add_edges_from, graph_wf_initial|].
  apply graph_nodes_add_edges_from.
  { intros n Hn. left. exact (graph_nodes_initial m n Hn). }
  apply Forall_forall. intros [a b] Hin.
  apply elem_of_concat in Hin as (es & Hin & Hes).
  apply list_elem_of_fmap in Hes as (chunk & -> & Hchunk).
  destruct (connection_component m tol chunk) as [es|] eqn:Hes;
    [|inversion Hin].
  cbn [default] in Hin.
  revert Hes. unfold connection_component.
  destruct (np_index (neighbors m) 0) as [row0|]; [|discriminate].
  cbn [mbind option_bind].
  destruct (mapM _ _) as [found|] eqn:HM; [|discriminate].
  cbn [mbind option_bind]. intros Hes. injection Hes as <-.
  apply (elem_of_concat_mapM _ _ _ _ HM) in Hin as (i_ & l & Hi & Hl & Hab).
  apply (parallelize_chunks_elem _ _ _ _ _ Hchunks Hchunk) in Hi.
  apply elem_of_arange in Hi.
  destruct (node_edges_inv _ _ _ _ _ _ _ Hl Hab)
    as (-> & row & neigh & bb & Hrow & Hnb & Hbb & Hne & -> & _).
  cbn [fst snd]. split; left; [lia|].
  apply elem_of_np_repeat, elem_of_arange in Hbb.
  apply np_index_elem in Hrow.
  unfold neighbors_in_range in Hneigh. rewrite Forall_forall in Hneigh.
  specialize (Hneigh _ Hrow). rewrite Forall_forall in Hneigh.
  destruct (Hneigh _ Hnb) as [?|?]; [contradiction|]. nia.
Qed.

End GraphCoverage.

(** *** Coverage: the entries of [bands_final] *)

Lemma get_components_guard m curve_fit energies tol components r :
  get_components m curve_fit energies tol components = Some r ->
  Forall (fun c => Forall (fun n => - (nks m * nbnd m) <= n < nks m * nbnd m)
                          (nodes c)) (r.1 ++ r.2).
Proof.
  unfold get_components.
  destruct (partition _ _) as [st|]; [|discriminate].
  cbn [mbind option_bind].
  destruct (merge_loop _ _ _ _ _ _) as [st'|]; [|discriminate].
  cbn [mbind option_bind].
  case_guard as Hguard; [|discriminate]. cbn [mbind option_bind].
  intros Hres. injection Hres as <-. exact Hguard.
Qed.

Lemma initial_output_bands_ok (m : MATERIAL) :
  bands_final_ok m (bands_final (initial_output m)).
Proof.
  unfold bands_final_ok, initial_output, full2. cbn [bands_final].
  apply Forall_forall. intros row Hrow.
  apply list_elem_of_In, repeat_spec in Hrow. subst row.
  apply Forall_forall. intros x Hx.
  apply list_elem_of_In, repeat_spec in Hx. subst x. left. reflexivity.
Qed.

Section SolveCoverage.

Variable m : MATERIAL.
Variable curve_fit : list Z -> list Q -> Q * Q * Q.
Variable connected_components : Graph -> list (list Z).
Variable step : Q.
Variable min_tol : Q.
Hypothesis Hcc : components_of_graph connected_components.
Hypothesis Hnks : nks m = nkx m * nky m.
Hypothesis Hwindow : 0 <= min_band m <= max_band m.

Lemma get_components_ok energies tol G r :
  graph_wf G -> graph_nodes (graph_node_ok m) G ->
  get_components m curve_fit energies tol (connected_components G) = Some r ->
  components_ok m r.1 /\ components_ok m r.2.
Proof.
  intros Hwf Hnodes Hr.
  assert (Hcomps : Forall (Forall (graph_node_ok m)) (connected_components G)).
  { eapply Forall_impl; [exact (Hcc G Hwf)|]. intros c Hc.
    eapply Forall_impl; [exact Hc|]. exact Hnodes. }
  destruct (get_components_nodes _ _ _ _ _ _ _ Hcomps Hr) as [H1 H2].
  pose proof (get_components_guard _ _ _ _ _ _ Hr) as Hg.
  apply Forall_app in Hg as [Hg1 Hg2].
  assert (Hboth : forall cs,
            Forall (fun c => Forall (graph_node_ok m) (nodes c)) cs ->
            Forall (fun c => Forall (fun n => - (nks m * nbnd m) <= n
                                             < nks m * nbnd m) (nodes c)) cs ->
            components_ok m cs).
  { intros cs Ha Hb. unfold components_ok.
    apply Forall_forall. intros c Hc. rewrite Forall_forall in Ha, Hb.
    specialize (Ha c Hc). specialize (Hb c Hc).
    apply Forall_forall. intros n Hn. rewrite Forall_forall in Ha, Hb.
    destruct (Ha n Hn) as [Hpos|Hok]; [|exact Hok].
    specialize (Hb n Hn).
    apply node_ok_of_range; [assumption..|lia]. }
  split; apply Hboth; assumption.
Qed.

Lemma correct_signal_coverage solved clusters out prev oc :
  components_ok m solved -> components_ok m clusters ->
  bands_final_ok m (bands_final out) ->
  correct_signal m curve_fit solved clusters out prev = Some oc ->
  bands_final_ok m (bands_final oc.1) /\
  graph_wf (GRAPH oc.2) /\ graph_nodes (graph_node_ok m) (GRAPH oc.2).
Proof.
  intros Hs Hc Hok. unfold correct_signal.
  destruct (obtain_output m solved clusters out) as [out1|] eqn:H1;
    [|discriminate].
  cbn [mbind option_bind].
  destruct (correct_signal_after_output m curve_fit out1 prev) as [c|] eqn:H2;
    [|discriminate].
  cbn [mbind option_bind]. intros H. injection H as <-. cbn [fst snd].
  pose proof (obtain_output_bands_ok m _ _ _ _ Hs Hc Hok H1) as Hok1.
  split; [exact Hok1|].
  eapply correct_signal_after_output_graph; eauto.
Qed.

Lemma solve_step_coverage energies s s' :
  coverage_inv m s ->
  solve_step m curve_fit connected_components step energies s = Some s' ->
  coverage_inv m s'.
Proof.
  intros (Hout & Hbest & Hprev & Hwf & Hnodes). unfold solve_step.
  destruct (solve_compute _ _ _ _ _) as [[[[solved_ clusters_] out] c]|] eqn:Hc;
    [|discriminate].
  cbn [mbind option_bind].
  assert (Hfacts : components_ok m solved_ /\ components_ok m clusters_ /\
            bands_final_ok m (bands_final out) /\
            graph_wf (GRAPH c) /\ graph_nodes (graph_node_ok m) (GRAPH c)).
  { revert Hc. unfold solve_compute.
    destruct (get_components _ _ _ _ _) as [r|] eqn:Hr; [|discriminate].
    cbn [mbind option_bind].
    destruct (get_components_ok _ _ _ _ Hwf Hnodes Hr) as [Hr1 Hr2].
    destruct (obtain_output m r.1 r.2 (output s)) as [out1|] eqn:H1;
      [|discriminate].
    cbn [mbind option_bind].
    pose proof (obtain_output_bands_ok m _ _ _ _ Hr1 Hr2 Hout H1) as Hok1.
    destruct (correct_signal _ _ _ _ _ _) as [oc|] eqn:H2; [|discriminate].
    cbn [mbind option_bind]. intros H. injection H as <- <- <- <-.
    destruct (correct_signal_coverage _ _ _ _ _ Hr1 Hr2 Hok1 H2)
      as (Ha & Hb & Hd).
    auto. }
  destruct Hfacts as (Hso & Hcl & Hok & Hwf' & Hnodes').
  destruct (count_solved _ _ _ _) as [solved|]; [|discriminate].
  cbn [mbind option_bind].
  destruct (max_solved s <=? solved).
  - intros H. injection H as <-. unfold coverage_inv. simpl. auto.
  - destruct (best_signal_final s) as [best_signal|]; [|discriminate].
    cbn [mbind option_bind].
    destruct (correct_signal _ _ _ _ _ _) as [oc|] eqn:H2; [|discriminate].
    cbn [mbind option_bind]. intros H. injection H as <-.
    apply correct_signal_coverage in H2 as (Ha & Hb & Hd);
      [|assumption..].
    unfold coverage_inv. simpl. auto.
Qed.

Lemma solve_iterate_coverage energies (n : nat) s s' :
  coverage_inv m s ->
  solve_iterate m curve_fit connected_components step energies n s = Some s' ->
  coverage_inv m s'.
Proof.
  intros Hs. revert s'. induction n as [|n IH]; intros s';
    cbn [solve_iterate].
  - intros H. injection H as <-. exact Hs.
  - destruct (solve_iterate _ _ _ _ _ n _) as [s0|]; [|discriminate].
    cbn [mbind option_bind]. intros H.
    exact (solve_step_coverage _ _ _ (IH s0 eq_refl) H).
Qed.

Lemma solve_loop_coverage energies (fuel : nat) s (i : nat) s' (n : nat) :
  coverage_inv m s ->
  solve_loop m curve_fit connected_components step min_tol fuel energies s i
    = Done s' n ->
  coverage_inv m s'.
Proof.
  revert s i. induction fuel as [|fuel IH]; intros s i Hs; cbn [solve_loop];
    destruct (_ && _).
  - discriminate.
  - intros H. injection H as <- _. exact Hs.
  - destruct (solve_step _ _ _ _ _ _) as [s1|] eqn:H1; [|discriminate].
    apply IH. exact (solve_step_coverage _ _ _ Hs H1).
  - intros H. injection H as <- _. exact Hs.
Qed.

Lemma solve_init_coverage G :
  graph_wf G -> graph_nodes (graph_node_ok m) G ->
  coverage_inv m (solve_init m G).
Proof.
  intros Hwf Hnodes. unfold coverage_inv, solve_init. simpl.
  pose proof (initial_output_bands_ok m) as H. auto.
Qed.

End SolveCoverage.

(** C6: from the graph of [make_connections] on, the array [bands_final]
    holds only -1 and original bands of the window [min_band, max_band]:
    after every iteration of the loop of [solve] (the current array and
    the best one), and in the array that [solve] leaves at the end. *)
Theorem bands_final_in_window m curve_fit connected_components
    (step min_tol tol : Q) (n_process : Z) G :
  components_of_graph connected_components ->
  nks m = nkx m * nky m ->
  0 <= min_band m <= max_band m ->
  neighbors_in_range m ->
  make_connections_edges m tol n_process = Some G ->
  (forall energies (n : nat) s,
     solve_iterate m curve_fit connected_components step energies n
                   (solve_init m G) = Some s ->
     bands_final_ok m (bands_final (output s)) /\
     bands_final_ok m (best_bands_final s)) /\
  (forall (fuel : nat) s (n : nat),
     solve m curve_fit connected_components step min_tol fuel G = Done s n ->
     bands_final_ok m (bands_final (output s))).
Proof.
  intros Hcc Hnks Hwin Hneigh HG.
  destruct (make_connections_edges_graph m Hnks Hwin tol n_process G Hneigh HG)
    as [Hwf Hnodes].
  pose proof (solve_init_coverage m G Hwf Hnodes) as Hinit.
  split.
  - intros energies n s Hs.
    destruct (solve_iterate_coverage m curve_fit connected_components step
                Hcc Hnks Hwin energies n _ _ Hinit Hs) as (H1 & H2 & _).
    auto.
  - intros fuel s n. unfold solve.
    destruct (make_BandsEnergy m) as [energies|]; [|discriminate].
    destruct (solve_loop _ _ _ _ _ _ _ _ _) as [s0 n0| |] eqn:Hloop;
      try discriminate.
    destruct (best_signal_final s0); [|discriminate].
    intros H. injection H as <- _. cbn [output bands_final].
    destruct (solve_loop_coverage m curve_fit connected_components step
                min_tol Hcc Hnks Hwin _ _ _ _ _ _ Hinit Hloop)
      as (_ & H2 & _).
    exact H2.
Qed.

Lemma bands_final_in_window_witness :
  bands_final (output (crossing3_state 1))
    = [[2; 1; -1]; [1; 2; -1]; [-1; 1; -1]] /\
  bands_final_ok crossing3 (bands_final (output (crossing3_state 1))) /\
  bands_final_ok crossing3 (best_bands_final (crossing3_state 1)).
Proof.
  split; [vm_compute; reflexivity|].
  apply (bands_final_in_window crossing3 flat_fit reference_components
           (1 # 10) 0 (95 # 100) 1 crossing3_graph) with
    (energies := default [] (make_BandsEnergy crossing3)) (n := 1%nat).
  - exact reference_components_of_graph.
  - reflexivity.
  - simpl. lia.
  - unfold neighbors_in_range.
    repeat match goal with |- Forall _ _ => constructor end;
      vm_compute;
      ((left; reflexivity) || (right; split; [discriminate|reflexivity])).
  - vm_compute. reflexivity.
  - vm_compute. reflexivity.
Defined.

(** * Further properties of the code *)

(** ** [solve] *)

(** X1: [solve] with [min_tol] above the initial tolerance 0.5 runs no
    iteration; restoring the best result then reads
    [self.best_signal_final], which no statement has set, and the call
    raises. *)
Theorem solve_without_iteration_raises m curve_fit connected_components
    (step min_tol : Q) (fuel : nat) G :
  (1 # 2 < min_tol)%Q ->
  solve m curve_fit connected_components step min_tol fuel G = Raised 0.
Proof.
  intros Hlt. unfold solve.
  destruct (make_BandsEnergy m) as [energies|]; [|reflexivity].
  assert (Hcond : bands_final_flag (solve_init m G)
                  && Qle_bool min_tol (TOL (solve_init m G)) = false).
  { cbn [solve_init bands_final_flag TOL andb].
    destruct (Qle_bool min_tol (1 # 2)) eqn:E; [|reflexivity].
    apply Qle_bool_iff in E. lra. }
  destruct fuel; cbn [solve_loop]; rewrite Hcond; reflexivity.
Qed.

Lemma solve_without_iteration_raises_witness :
  solve square2 flat_fit reference_components (1 # 10) (6 # 10) 6
        (default ∅ (make_connections_edges square2 (95 # 100) 1))
  = Raised 0.
Proof.
  apply (solve_without_iteration_raises square2 flat_fit reference_components
           (1 # 10) (6 # 10) 6).
  reflexivity.
Defined.

Section AllBandsSolved.

Variable m : MATERIAL.
Variable curve_fit : list Z -> list Q -> Q * Q * Q.
Variable connected_components : Graph -> list (list Z).
Variable step : Q.
Hypothesis Hconn : connections_nonneg m.
Hypothesis Hwindow : 0 <= min_band m <= max_band m.
Hypothesis Htotal : min_band m < total_bands m.

Lemma solve_step_all_solved energies s s' :
  best_score_inv s ->
  solve_step m curve_fit connected_components step energies s = Some s' ->
  max_solved s' = Z.of_nat (length (best_score s')) /\
  length (best_score s') = length (best_score s) /\
  is_Some (best_signal_final s').
Proof.
  intros (Hfs & Hbest & Hlen & Hmax). unfold solve_step.
  destruct (solve_compute _ _ _ _ _) as [[[[solved_ clusters_] out] c]|] eqn:Hc;
    [|discriminate].
  cbn [mbind option_bind].
  destruct (solve_compute_facts m curve_fit connected_components
              Hconn Hwindow Htotal _ _ _ _ _ _ Hfs Hc) as (Hn & Hl & Hz).
  destruct (count_solved _ _ _ _) as [solved|] eqn:Hcount; [|discriminate].
  cbn [mbind option_bind].
  pose proof (count_solved_bounds _ _ _ _ _ Hcount) as Hb.
  rewrite length_enumerate in Hb.
  destruct (Z.leb_spec (max_solved s) solved) as [Hupd|Hkeep].
  - intros H. injection H as <-. simpl.
    split; [|split; [congruence|eauto]].
    destruct Hmax as [[Hm0 Hzero]|Hm]; [|lia].
    rewrite <- (length_enumerate (final_score out)).
    eapply count_solved_all; [| |exact Hcount].
    + apply Forall_forall. intros p Hp b Hbp.
      apply elem_of_enumerate in Hp as (i & Hi & Hpi).
      rewrite Hi in Hbp. apply np_index_Some in Hbp as (q & _ & Hq).
      rewrite Forall_forall in Hzero.
      assert (H0 : (b == 0)%Q)
        by (apply Hzero, list_elem_of_lookup; eauto).
      rewrite H0. rewrite Forall_forall in Hn.
      apply Hn, list_elem_of_lookup. eauto.
    + intros bn. symmetry. apply count_not_solved_same_zeros. exact Hz.
  - destruct (best_signal_final s) as [best_signal|] eqn:Hsig; [|discriminate].
    cbn [mbind option_bind].
    destruct (correct_signal _ _ _ _ _ _) as [oc|]; [|discriminate].
    cbn [mbind option_bind]. intros H. injection H as <-. simpl.
    split; [|split; [reflexivity|eauto]].
    destruct Hmax as [[Hm0 _]|Hm]; [lia|exact Hm].
Qed.

Lemma solve_step_replaces energies s s' :
  best_score_inv s ->
  max_solved s = Z.of_nat (length (best_score s)) ->
  solve_step m curve_fit connected_components step energies s = Some s' ->
  exists solved clusters out c,
    solve_compute m curve_fit connected_components energies s
      = Some (solved, clusters, out, c) /\
    ((Forall2 Qle (best_score s) (final_score out) /\
      best_bands_final s' = bands_final out /\
      best_score s' = final_score out /\
      best_signal_final s' = Some (signal_final out) /\
      degenerate_best s' = degenerate_final out)
     \/
     (~ Forall2 Qle (best_score s) (final_score out) /\
      best_bands_final s' = best_bands_final s /\
      best_score s' = best_score s /\
      best_signal_final s' = best_signal_final s /\
      degenerate_best s' = degenerate_best s)).
Proof.
  intros (Hfs & Hbest & Hlen & _) Hmax. unfold solve_step.
  destruct (solve_compute _ _ _ _ _) as [[[[solved_ clusters_] out] c]|] eqn:Hc;
    [|discriminate].
  cbn [mbind option_bind].
  destruct (solve_compute_facts m curve_fit connected_components
              Hconn Hwindow Htotal _ _ _ _ _ _ Hfs Hc) as (Hn & Hl & Hz).
  destruct (count_solved _ _ _ _) as [solved|] eqn:Hcount; [|discriminate].
  cbn [mbind option_bind].
  pose proof (count_solved_bounds _ _ _ _ _ Hcount) as Hb.
  rewrite length_enumerate in Hb.
  destruct (Z.leb_spec (max_solved s) solved) as [Hupd|Hkeep].
  - intros Heq. injection Heq as <-.
    exists solved_, clusters_, out, c. split; [reflexivity|]. left. cbn.
    split; [|auto].
    assert (Hfull : solved = Z.of_nat (length (enumerate (final_score out))))
      by (rewrite length_enumerate; lia).
    rewrite Hfull in Hcount.
    apply count_solved_full in Hcount. rewrite Forall_forall in Hcount.
    apply Forall2_same_length_lookup_2; [congruence|].
    intros i x y Hx Hy.
    destruct (Hcount _ (enumerate_lookup _ _ _ Hy)) as (b & Hbi & Hle).
    simpl in Hbi, Hle.
    rewrite np_index_of_nat in Hbi by (eapply lookup_lt_Some; eauto).
    congruence.
  - destruct (best_signal_final s) as [best_signal|]; [|discriminate].
    cbn [mbind option_bind].
    destruct (correct_signal _ _ _ _ _ _) as [oc|]; [|discriminate].
    cbn [mbind option_bind]. intros Heq. injection Heq as <-.
    exists solved_, clusters_, out, c. split; [reflexivity|]. right. cbn.
    split; [|auto].
    intros Hall.
    assert (Hfull : solved = Z.of_nat (length (enumerate (final_score out)))).
    { eapply count_solved_all; [| |exact Hcount].
      - apply Forall_forall. intros p Hp b Hbp.
        apply elem_of_enumerate in Hp as (i & Hi & Hpi).
        rewrite Hi in Hbp.
        rewrite np_index_of_nat in Hbp
          by (apply lookup_lt_Some in Hpi; lia).
        exact (Forall2_lookup_lr _ _ _ _ _ _ Hall Hbp Hpi).
      - intros bn. symmetry. apply count_not_solved_same_zeros. exact Hz. }
    rewrite length_enumerate in Hfull. lia.
Qed.

End AllBandsSolved.

(** X2: with overlaps that are not negative, after the first iteration of
    the loop of [solve] (and after each later one) [max_solved] is the
    number of bands and a best result is stored; from then on the result
    of an iteration replaces the best one exactly when no band scores
    below the best, and otherwise the best one is kept. *)
Theorem max_solved_after_first_iteration m curve_fit connected_components
    (step : Q) energies G (n : nat) s :
  connections_nonneg m ->
  0 <= min_band m <= max_band m ->
  min_band m < total_bands m ->
  solve_iterate m curve_fit connected_components step energies (S n)
                (solve_init m G) = Some s ->
  max_solved s = total_bands m /\
  length (best_score s) = Z.to_nat (total_bands m) /\
  is_Some (best_signal_final s) /\
  forall s',
    solve_step m curve_fit connected_components step energies s = Some s' ->
    exists solved clusters out c,
      solve_compute m curve_fit connected_components energies s
        = Some (solved, clusters, out, c) /\
      ((Forall2 Qle (best_score s) (final_score out) /\
        best_bands_final s' = bands_final out /\
        best_score s' = final_score out /\
        best_signal_final s' = Some (signal_final out) /\
        degenerate_best s' = degenerate_final out)
       \/
       (~ Forall2 Qle (best_score s) (final_score out) /\
        best_bands_final s' = best_bands_final s /\
        best_score s' = best_score s /\
        best_signal_final s' = best_signal_final s /\
        degenerate_best s' = degenerate_best s)).
Proof.
  intros Hconn Hwin Htot.
  assert (Hlen : forall k s0,
            solve_iterate m curve_fit connected_components step energies k
                          (solve_init m G) = Some s0 ->
            length (best_score s0) = Z.to_nat (total_bands m)).
  { induction k as [|k IH]; intros s0; cbn [solve_iterate].
    - intros H. injection H as <-. cbn [solve_init best_score].
      apply length_replicate.
    - destruct (solve_iterate _ _ _ _ _ k _) as [s1|] eqn:Hk; [|discriminate].
      cbn [mbind option_bind]. intros H.
      pose proof (solve_iterate_best_score_inv m curve_fit
                    connected_components step Hconn Hwin Htot _ _ _ _ Hk)
        as Hinv.
      destruct (solve_step_all_solved m curve_fit connected_components step
                  Hconn Hwin Htot _ _ _ Hinv H) as (_ & Hl & _).
      rewrite Hl. apply IH. reflexivity. }
  intros Hs. pose proof (Hlen _ _ Hs) as Hl.
  pose proof (solve_iterate_best_score_inv m curve_fit
                connected_components step Hconn Hwin Htot _ _ _ _ Hs) as Hinvs.
  revert Hs. cbn [solve_iterate].
  destruct (solve_iterate _ _ _ _ _ n _) as [s1|] eqn:Hn; [|discriminate].
  cbn [mbind option_bind]. intros H.
  pose proof (solve_iterate_best_score_inv m curve_fit
                connected_components step Hconn Hwin Htot _ _ _ _ Hn) as Hinv.
  destruct (solve_step_all_solved m curve_fit connected_components step
              Hconn Hwin Htot _ _ _ Hinv H) as (Hm & _ & Hsig).
  split; [rewrite Hm, Hl; lia|].
  split; [exact Hl|]. split; [exact Hsig|].
  intros s' Hs'.
  exact (solve_step_replaces m curve_fit connected_components step
           Hconn Hwin Htot energies s s' Hinvs Hm Hs').
Qed.

Lemma max_solved_after_first_iteration_witness :
  let s := crossing3_state 2 in
  max_solved s = total_bands crossing3 /\
  length (best_score s) = Z.to_nat (total_bands crossing3) /\
  is_Some (best_signal_final s) /\
  forall s',
    solve_step crossing3 flat_fit reference_components (1 # 10)
               (default [] (make_BandsEnergy crossing3)) s = Some s' ->
    exists solved clusters out c,
      solve_compute crossing3 flat_fit reference_components
                    (default [] (make_BandsEnergy crossing3)) s
        = Some (solved, clusters, out, c) /\
      ((Forall2 Qle (best_score s) (final_score out) /\
        best_bands_final s' = bands_final out /\
        best_score s' = final_score out /\
        best_signal_final s' = Some (signal_final out) /\
        degenerate_best s' = degenerate_final out)
       \/
       (~ Forall2 Qle (best_score s) (final_score out) /\
        best_bands_final s' = best_bands_final s /\
        best_score s' = best_score s /\
        best_signal_final s' = best_signal_final s /\
        degenerate_best s' = degenerate_best s)).
Proof.
  apply (max_solved_after_first_iteration crossing3 flat_fit
           reference_components (1 # 10)
           (default [] (make_BandsEnergy crossing3)) crossing3_graph 1).
  - unfold connections_nonneg.
    repeat match goal with |- Forall _ _ => constructor end;
      vm_compute; discriminate.
  - simpl. lia.
  - reflexivity.
  - vm_compute. reflexivity.
Defined.

(** X3: [correct_signal] copies [correct_signalfinal] into
    [correct_signalfinal_prev] before its last update, which only writes
    the signal 4 over points that hold the signal 3.  The two arrays
    hold NOT_SOLVED at the same places, so for every band the counts
    [not_solved] and [not_solved_prev] that [solve] compares are equal. *)
Theorem correct_signal_unsolved_counts m curve_fit solved clusters out prev
    oc (bn : Z) :
  0 <= min_band m <= max_band m ->
  min_band m < total_bands m ->
  correct_signal m curve_fit solved clusters out prev = Some oc ->
  count_not_solved (correct_signalfinal oc.2) bn
  = count_not_solved (correct_signalfinal_prev oc.2) bn.
Proof.
  intros Hwin Htot. unfold correct_signal.
  destruct (obtain_output m solved clusters out) as [out1|]; [|discriminate].
  cbn [mbind option_bind].
  destruct (correct_signal_after_output m curve_fit out1 prev) as [c|] eqn:H2;
    [|discriminate].
  cbn [mbind option_bind]. intros H. injection H as <-. cbn [snd].
  symmetry. apply count_not_solved_same_zeros.
  eapply correct_signal_same_zeros; eauto.
Qed.

Lemma correct_signal_unsolved_counts_witness :
  count_not_solved (correct_signalfinal crossing3_corrected.2) 2 = Some 3 /\
  count_not_solved (correct_signalfinal crossing3_corrected.2) 2
  = count_not_solved (correct_signalfinal_prev crossing3_corrected.2) 2.
Proof.
  split; [vm_compute; reflexivity|].
  apply (correct_signal_unsolved_counts crossing3 flat_fit
           crossing3_components.1 crossing3_components.2
           (initial_output crossing3)
           (full2 (nks crossing3) (total_bands crossing3) (-1))).
  - simpl. lia.
  - reflexivity.
  - vm_compute. reflexivity.
Defined.

(** ** [evaluate_result] and [evaluate_point] *)

(** X4: [evaluate_result] returns CORRECT exactly when the mean exceeds
    0.9, POTENTIAL_CORRECT exactly when it is in (0.8, 0.9],
    POTENTIAL_MISTAKE exactly when it is in (0.2, 0.8), and MISTAKE
    otherwise; it never returns NOT_SOLVED or DEGENERATE. *)
Theorem evaluate_result_signals (values : list Q) :
  (evaluate_result values = CORRECT <-> (9 # 10 < mean values)%Q) /\
  (evaluate_result values = POTENTIAL_CORRECT
   <-> (8 # 10 < mean values)%Q /\ (mean values <= 9 # 10)%Q) /\
  (evaluate_result values = POTENTIAL_MISTAKE
   <-> (2 # 10 < mean values)%Q /\ (mean values < 8 # 10)%Q) /\
  (evaluate_result values = MISTAKE
   <-> (mean values <= 2 # 10)%Q \/ (mean values == 8 # 10)%Q) /\
  evaluate_result values <> NOT_SOLVED /\
  evaluate_result values <> DEGENERATE.
Proof.
  unfold evaluate_result. cbv zeta.
  destruct (Qlt_bool (9 # 10) (mean values)) eqn:E1.
  { apply Qlt_bool_iff in E1.
    repeat split; try discriminate; try (intros; exact E1); try reflexivity.
    - intros [? ?]. lra.
    - intros [? ?]. lra.
    - intros [?|H]; [lra|]. rewrite H in E1. lra. }
  apply Qlt_bool_false_iff in E1.
  destruct (Qlt_bool (8 # 10) (mean values)) eqn:E2.
  { apply Qlt_bool_iff in E2.
    repeat split; try discriminate; try assumption; try reflexivity.
    - intros ?. lra.
    - intros [? ?]. lra.
    - intros [?|H]; [lra|]. rewrite H in E2. lra. }
  apply Qlt_bool_false_iff in E2.
  destruct (Qlt_bool (2 # 10) (mean values)) eqn:E3.
  - apply Qlt_bool_iff in E3.
    destruct (Qlt_bool (mean values) (8 # 10)) eqn:E4; simpl andb.
    + apply Qlt_bool_iff in E4.
      repeat split; try discriminate; try assumption; try reflexivity.
      * intros ?. lra.
      * intros [? ?]. lra.
      * intros [?|H]; [lra|]. rewrite H in E4. lra.
    + apply Qlt_bool_false_iff in E4.
      repeat split; try discriminate; try reflexivity.
      * intros ?. lra.
      * intros [? ?]. lra.
      * intros [? ?]. lra.
      * intros _. right. apply Qle_antisym; assumption.
  - apply Qlt_bool_false_iff in E3. simpl andb.
    repeat split; try discriminate; try reflexivity.
    + intros ?. lra.
    + intros [? ?]. lra.
    + intros [? ?]. lra.
    + intros _. left. exact E3.
Qed.


(** X5: when [evaluate_point] returns, [scores] holds one entry per
    direction (four), each 0 or 1; the signal is 4 when all are 1, 1 when
    all are 0 and 3 when both values occur. *)
Theorem evaluate_point_scores curve_fit (k bn : Z) k_index k_matrix signal
    bands energies (sig : Z) (scores : list Z) :
  evaluate_point curve_fit k bn k_index k_matrix signal bands energies
    = Some (sig, scores) ->
  length scores = 4%nat /\
  Forall (fun x => x = 0 \/ x = 1) scores /\
  (sig = 4 <-> Forall (fun x => x = 1) scores) /\
  (sig = 1 <-> Forall (fun x => x = 0) scores) /\
  (sig = 3 <-> 0 ∈ scores /\ 1 ∈ scores).
Proof.
  unfold evaluate_point. cbv zeta.
  destruct (np_index2 bands k bn) as [mach_bn|]; [|discriminate].
  cbn [mbind option_bind].
  destruct (np_index2 signal k bn) as [sg|]; [|discriminate].
  cbn [mbind option_bind].
  destruct (np_index k_index k) as [ikjk|]; [|discriminate].
  cbn [mbind option_bind].
  destruct (np_index2 energies k mach_bn) as [Ek|]; [|discriminate].
  cbn [mbind option_bind].
  destruct (mapM _ directions) as [energy_vals|] eqn:HM; [|discriminate].
  cbn [mbind option_bind].
  apply mapM_Some_1, Forall2_length in HM. cbn [directions length] in HM.
  destruct energy_vals as [|e1 [|e2 [|e3 [|e4 [|e5 ?]]]]]; try discriminate.
  cbn [map foldr]. unfold N_NEIGS.
  set (s1 := if Qlt_bool (9 # 10) e1 then 1 else 0).
  set (s2 := if Qlt_bool (9 # 10) e2 then 1 else 0).
  set (s3 := if Qlt_bool (9 # 10) e3 then 1 else 0).
  set (s4 := if Qlt_bool (9 # 10) e4 then 1 else 0).
  assert (H1 : s1 = 0 \/ s1 = 1)
    by (subst s1; destruct (Qlt_bool (9 # 10) e1); auto).
  assert (H2 : s2 = 0 \/ s2 = 1)
    by (subst s2; destruct (Qlt_bool (9 # 10) e2); auto).
  assert (H3 : s3 = 0 \/ s3 = 1)
    by (subst s3; destruct (Qlt_bool (9 # 10) e3); auto).
  assert (H4 : s4 = 0 \/ s4 = 1)
    by (subst s4; destruct (Qlt_bool (9 # 10) e4); auto).
  clearbody s1 s2 s3 s4. intros Hres.
  assert (Hsig : sig = (if s1 + (s2 + (s3 + (s4 + 0))) =? 4 then 4
                        else if s1 + (s2 + (s3 + (s4 + 0))) =? 0 then 1
                        else 3) /\ scores = [s1; s2; s3; s4]).
  { destruct (_ =? 4); [|destruct (_ =? 0)]; injection Hres as <- <-; auto. }
  destruct Hsig as [-> ->]. clear Hres.
  rewrite !Forall_cons, !Forall_nil, !elem_of_cons, !elem_of_nil.
  split; [reflexivity|].
  destruct (Z.eqb_spec (s1 + (s2 + (s3 + (s4 + 0)))) 4);
    [|destruct (Z.eqb_spec (s1 + (s2 + (s3 + (s4 + 0)))) 0)]; lia.
Qed.

Lemma evaluate_point_scores_witness :
  length [1; 1; 1; 1] = 4%nat /\
  Forall (fun x => x = 0 \/ x = 1) [1; 1; 1; 1] /\
  (4 = 4 <-> Forall (fun x => x = 1) [1; 1; 1; 1]) /\
  (4 = 1 <-> Forall (fun x => x = 0) [1; 1; 1; 1]) /\
  (4 = 3 <-> 0 ∈ [1; 1; 1; 1] /\ 1 ∈ [1; 1; 1; 1]).
Proof.
  apply (evaluate_point_scores flat_fit 0 0 (make_kpoints_index 2 4)
           (make_matrix 2 2) corner_signal corner_bands corner_energies).
  vm_compute. reflexivity.
Defined.

(** ** [make_kpointsIndex] and [make_BandsEnergy] *)

Lemma np_index_arange (lo hi k : Z) :
  0 <= k < hi - lo -> np_index (arange lo hi) k = Some (lo + k).
Proof.
  intros Hk. unfold np_index, arange.
  rewrite length_seqZ, np_pos_nonneg by lia. cbn [mbind option_bind].
  apply lookup_seqZ. lia.
Qed.

Lemma np_index_map {A B} (f : A -> B) (l : list A) (i : Z) :
  np_index (map f l) i = f <$> np_index l i.
Proof.
  unfold np_index. rewrite length_map.
  destruct (np_pos (length l) i) as [p|]; [|reflexivity].
  cbn [mbind option_bind]. apply list_lookup_fmap.
Qed.

Lemma mapM_arange_index {B} (f : Z -> option B) (n k : Z) (ys : list B) :
  mapM f (arange 0 n) = Some ys -> 0 <= k < n ->
  exists y, f k = Some y /\ np_index ys k = Some y.
Proof.
  intros HM Hk. apply mapM_Some_1 in HM.
  assert (Hl : arange 0 n !! Z.to_nat k = Some k).
  { unfold arange. apply lookup_seqZ. lia. }
  destruct (Forall2_lookup_l _ _ _ _ _ HM Hl) as (y & Hy & Hf).
  exists y. split; [exact Hf|].
  replace k with (Z.of_nat (Z.to_nat k)) at 1 by lia.
  rewrite np_index_of_nat; [exact Hy|].
  eapply lookup_lt_Some; eauto.
Qed.

Lemma np_index2_make_matrix (nkx nky i j : Z) :
  0 <= i < nkx -> 0 <= j < nky ->
  np_index2 (make_matrix nkx nky) i j = Some (j * nkx + i).
Proof.
  intros Hi Hj. unfold np_index2, make_matrix.
  rewrite np_index_map, np_index_arange by lia. cbn [fmap option_fmap option_map mbind option_bind].
  rewrite np_index_map, np_index_arange by lia. reflexivity.
Qed.

Lemma np_index_make_kpoints_index (nkx nks k : Z) :
  0 <= k < nks ->
  np_index (make_kpoints_index nkx nks) k = Some (k mod nkx, k / nkx).
Proof.
  intros Hk. unfold make_kpoints_index.
  rewrite np_index_map, np_index_arange by lia. reflexivity.
Qed.

(** X6: [matrix] and [kpoints_index] of [make_kpointsIndex] are inverse to
    each other on a grid of [nkx] by [nky] points: [kpoints_index[k]] is a
    position of the grid at which [matrix] holds [k], and at the position
    [(i, j)] the array [matrix] holds the k point whose index pair is
    [(i, j)]. *)
Theorem kpoints_index_matrix_inverse (nkx nky : Z) :
  0 < nkx ->
  (forall k, 0 <= k < nkx * nky ->
     exists i j, np_index (make_kpoints_index nkx (nkx * nky)) k = Some (i, j)
                 /\ 0 <= i < nkx /\ 0 <= j < nky
                 /\ np_index2 (make_matrix nkx nky) i j = Some k) /\
  (forall i j, 0 <= i < nkx -> 0 <= j < nky ->
     exists k, np_index2 (make_matrix nkx nky) i j = Some k
               /\ 0 <= k < nkx * nky
               /\ np_index (make_kpoints_index nkx (nkx * nky)) k
                  = Some (i, j)).
Proof.
  intros Hnkx. split.
  - intros k Hk. exists (k mod nkx), (k / nkx).
    assert (Hi : 0 <= k mod nkx < nkx) by (apply Z.mod_pos_bound; lia).
    assert (Hj : 0 <= k / nkx < nky).
    { split; [apply Z.div_pos; lia|].
      apply Z.div_lt_upper_bound; lia. }
    split; [apply np_index_make_kpoints_index; exact Hk|].
    split; [exact Hi|]. split; [exact Hj|].
    rewrite np_index2_make_matrix by assumption. f_equal.
    pose proof (Z.div_mod k nkx). lia.
  - intros i j Hi Hj. exists (j * nkx + i).
    split; [apply np_index2_make_matrix; assumption|].
    assert (Hk : 0 <= j * nkx + i < nkx * nky) by nia.
    split; [exact Hk|].
    rewrite np_index_make_kpoints_index by exact Hk. f_equal. f_equal.
    + rewrite Z.add_comm, Z.mod_add by lia. apply Z.mod_small. lia.
    + rewrite Z.add_comm, Z.div_add by lia. rewrite Z.div_small by lia. lia.
Qed.

Lemma kpoints_index_matrix_inverse_witness :
  (forall k, 0 <= k < 2 * 3 ->
     exists i j, np_index (make_kpoints_index 2 (2 * 3)) k = Some (i, j)
                 /\ 0 <= i < 2 /\ 0 <= j < 3
                 /\ np_index2 (make_matrix 2 3) i j = Some k) /\
  (forall i j, 0 <= i < 2 -> 0 <= j < 3 ->
     exists k, np_index2 (make_matrix 2 3) i j = Some k
               /\ 0 <= k < 2 * 3
               /\ np_index (make_kpoints_index 2 (2 * 3)) k = Some (i, j)).
Proof. apply (kpoints_index_matrix_inverse 2 3). lia. Defined.

(** X7: [make_BandsEnergy] lays the eigenvalues out on the grid: for
    every band of the input and every k point [k], the array holds
    [eigenvalues[k, bn]] at the position [kpoints_index[k]] of the band
    [bn]; the array has one grid per band. *)
Theorem make_BandsEnergy_entries (m : MATERIAL) energies (bn k : Z) :
  0 < nkx m ->
  nks m = nkx m * nky m ->
  make_BandsEnergy m = Some energies ->
  0 <= bn < total_bands m ->
  0 <= k < nks m ->
  exists ik jk e,
    np_index (kpoints_index m) k = Some (ik, jk) /\
    np_index2 (eigenvalues m) k bn = Some e /\
    np_index3 energies bn ik jk = Some e.
Proof.
  intros Hnkx Hnks HE Hbn Hk. unfold make_BandsEnergy in HE.
  destruct (mapM_arange_index _ _ _ _ HE Hbn) as (grid & Hgrid & Hg).
  assert (Hi : 0 <= k mod nkx m < nkx m) by (apply Z.mod_pos_bound; lia).
  assert (Hj : 0 <= k / nkx m < nky m).
  { split; [apply Z.div_pos; lia|].
    apply Z.div_lt_upper_bound; lia. }
  destruct (mapM_arange_index _ _ _ _ Hgrid Hi) as (col & Hcol & Hc).
  destruct (mapM_arange_index _ _ _ _ Hcol Hj) as (e & He & Hcj).
  exists (k mod nkx m), (k / nkx m), e.
  split; [apply np_index_make_kpoints_index; exact Hk|].
  split.
  - rewrite <- He. f_equal. pose proof (Z.div_mod k (nkx m)). lia.
  - unfold np_index3, np_index2. rewrite Hg. cbn [mbind option_bind].
    rewrite Hc. cbn [mbind option_bind]. exact Hcj.
Qed.

Lemma make_BandsEnergy_entries_witness :
  exists ik jk e,
    np_index (kpoints_index crossing3) 2 = Some (ik, jk) /\
    np_index2 (eigenvalues crossing3) 2 1 = Some e /\
    np_index3 crossing3_energies 1 ik jk = Some e.
Proof.
  apply (make_BandsEnergy_entries crossing3 crossing3_energies 1 2).
  - reflexivity.
  - reflexivity.
  - vm_compute. reflexivity.
  - simpl. lia.
  - simpl. lia.
Defined.

(** ** [parallelize] *)

(** X8: with at least one process, [parallelize] starts [n_process]
    processes and the slices of the iterator they receive, taken in
    order, make up the iterator: every item goes to exactly one process
    (the last one takes the remainder of the division). *)
Theorem parallelize_chunks_partition {A} (n_process : Z) (iterator : list A) :
  0 < n_process ->
  exists chunks,
    parallelize_chunks n_process iterator = Some chunks /\
    Z.of_nat (length chunks) = n_process /\
    concat chunks = iterator.
Proof.
  intros Hp.
  destruct (parallelize_chunks_is_Some n_process iterator) as [chunks Hc];
    [lia|].
  exists chunks. split; [exact Hc|].
  split; [|exact (parallelize_chunks_concat _ _ _ Hp Hc)].
  revert Hc. unfold parallelize_chunks.
  rewrite option_guard_True by lia. cbn [mbind option_bind].
  intros H. injection H as <-.
  rewrite length_map. unfold arange. rewrite length_seqZ. lia.
Qed.

Lemma parallelize_chunks_partition_witness :
  exists chunks,
    parallelize_chunks 3 [10; 11; 12; 13; 14; 15; 16; 17] = Some chunks /\
    Z.of_nat (length chunks) = 3 /\
    concat chunks = [10; 11; 12; 13; 14; 15; 16; 17].
Proof.
  apply (parallelize_chunks_partition 3 [10; 11; 12; 13; 14; 15; 16; 17]).
  lia.
Defined.

(** [parallelize] with [n_process = 0] raises on the division
    [N//self.n_process]; with a negative [n_process] it starts no process
    and every item of the iterator is dropped. *)
Lemma parallelize_chunks_no_process {A} (n_process : Z) (iterator : list A) :
  n_process <= 0 ->
  parallelize_chunks n_process iterator
  = if n_process =? 0 then None else Some [].
Proof.
  intros Hp. unfold parallelize_chunks.
  destruct (Z.eqb_spec n_process 0) as [->|Hne].
  - rewrite option_guard_False by lia. reflexivity.
  - rewrite option_guard_True by lia. cbn [mbind option_bind].
    unfold arange. rewrite seqZ_nil by lia. reflexivity.
Qed.

Lemma parallelize_chunks_no_process_witness :
  parallelize_chunks (-2) [10; 11; 12] = Some [] /\
  parallelize_chunks 0 [10; 11; 12] = None.
Proof.
  split.
  - apply (parallelize_chunks_no_process (-2) [10; 11; 12]). lia.
  - apply (parallelize_chunks_no_process 0 [10; 11; 12]). lia.
Defined.

(** ** [make_vectors] *)

Lemma concat_mjoin {A} (l : list (list A)) : concat l = mjoin l.
Proof. induction l; simpl; congruence. Qed.

Lemma tile_lookup {A} (l : list A) (n j i : nat) :
  (j < n)%nat -> (i < length l)%nat ->
  tile l n !! (j * length l + i)%nat = l !! i.
Proof.
  intros Hj Hi. unfold tile. rewrite concat_mjoin.
  destruct (l !! i) as [x|] eqn:Hx.
  - apply (join_lookup_Some_same_length' (length l)); [|exact Hi|].
    + apply Forall_replicate. reflexivity.
    + exists l. split; [|exact Hx]. apply lookup_replicate. auto.
  - apply lookup_ge_None in Hx. lia.
Qed.


Lemma mapM_lookup_Some {A B} (f : A -> option B) (l : list A) (k : list B)
    (i : nat) (x : A) :
  mapM f l = Some k -> l !! i = Some x ->
  exists y, k !! i = Some y /\ f x = Some y.
Proof.
  intros HM Hx. apply mapM_Some_1 in HM.
  destruct (Forall2_lookup_l _ _ _ _ _ HM Hx) as (y & Hy & Hf). eauto.
Qed.

Lemma mapM_length {A B} (f : A -> option B) (l : list A) (k : list B) :
  mapM f l = Some k -> length k = length l.
Proof.
  intros HM. apply mapM_Some_1, Forall2_length in HM. congruence.
Qed.

Lemma length_arange (lo hi : Z) : length (arange lo hi) = Z.to_nat (hi - lo).
Proof. unfold arange. apply length_seqZ. Qed.

Lemma lookup_arange (lo hi : Z) (i : nat) :
  Z.of_nat i < hi - lo -> arange lo hi !! i = Some (lo + Z.of_nat i).
Proof. intros H. unfold arange. apply lookup_seqZ. lia. Qed.

Section MakeVectors.

Variable m : MATERIAL.

Local Abbreviation nb := (window_end m - min_band m).

Lemma make_vectors_array_rows vs :
  0 <= nks m -> 0 < nb ->
  make_vectors_array m = Some vs ->
  Z.of_nat (length (eigenvalues m)) = nks m.
Proof.
  intros Hnks Hnb. unfold make_vectors_array. cbv zeta.
  case_guard; [|discriminate]. cbn [mbind option_bind].
  destruct (mapM _ (arange _ _)) as [columns|] eqn:HM; [|discriminate].
  cbn [mbind option_bind].
  repeat (case_guard; cbn [mbind option_bind]); try discriminate.
  match goal with H : length _ = length _ |- _ => rename H into Hlen end.
  intros _.
  rewrite length_tile, length_map in Hlen.
  unfold kpoints_index, make_kpoints_index in Hlen.
  rewrite length_map, length_arange in Hlen.
  assert (Hcols : length (concat columns)
                  = (Z.to_nat nb * length (eigenvalues m))%nat).
  { pose proof (mapM_length _ _ _ HM) as Hl. rewrite length_arange in Hl.
    replace (Z.to_nat nb) with (length columns) by lia.
    assert (HF : Forall (fun col => length col = length (eigenvalues m))
                        columns).
    { eapply mapM_Forall; [|exact HM]. intros b col _ Hcol.
      exact (mapM_length _ _ _ Hcol). }
    clear -HF. induction HF as [|col cols Hc _ IH]; [reflexivity|].
    simpl. rewrite length_app, IH, Hc. reflexivity. }
  rewrite Hcols in Hlen. nia.
Qed.

Lemma make_vectors_array_lookup vs (n : Z) :
  make_vectors_array m = Some vs ->
  0 <= n < nb * nks m ->
  0 <= nks m ->
  exists e,
    vs !! Z.to_nat n
      = Some ((n mod nks m) mod nkx m, (n mod nks m) / nkx m, e) /\
    node_energy m n = Some e.
Proof.
  intros Hvs Hn Hnks.
  assert (Hnb : 0 < nb) by nia.
  assert (Hpos : 0 < nks m) by nia.
  pose proof (make_vectors_array_rows vs Hnks Hnb Hvs) as Hrows.
  revert Hvs. unfold make_vectors_array. cbv zeta.
  case_guard; [|discriminate]. cbn [mbind option_bind].
  destruct (mapM _ (arange _ _)) as [columns|] eqn:HM; [|discriminate].
  cbn [mbind option_bind].
  repeat (case_guard; cbn [mbind option_bind]); try discriminate.
  match goal with H : length _ = length _ |- _ => rename H into Hlen end.
  intros Hvs. injection Hvs as <-.
  set (j := n / nks m). set (i := n mod nks m).
  assert (Hi : 0 <= i < nks m) by (apply Z.mod_pos_bound; lia).
  assert (Hj : 0 <= j < nb).
  { split; [apply Z.div_pos; lia|]. apply Z.div_lt_upper_bound; lia. }
  assert (Hnji : Z.to_nat n
                 = (Z.to_nat j * Z.to_nat (nks m) + Z.to_nat i)%nat).
  { pose proof (Z.div_mod n (nks m)). subst i j. nia. }
  assert (Hkl : length (kpoints_index m) = Z.to_nat (nks m)).
  { unfold kpoints_index, make_kpoints_index.
    rewrite length_map, length_arange. lia. }
  assert (Hki : kpoints_index m !! Z.to_nat i = Some (i mod nkx m, i / nkx m)).
  { unfold kpoints_index, make_kpoints_index.
    rewrite list_lookup_fmap, lookup_arange by lia.
    simpl. repeat f_equal; lia. }
  (* the energy *)
  assert (Hb : arange (min_band m) (window_end m) !! Z.to_nat j
               = Some (min_band m + j)).
  { rewrite lookup_arange by lia. f_equal. lia. }
  destruct (mapM_lookup_Some _ _ _ _ _ HM Hb) as (col & Hcol & Hc).
  assert (Hrow : exists row, eigenvalues m !! Z.to_nat i = Some row).
  { apply lookup_lt_is_Some. lia. }
  destruct Hrow as [row Hrow].
  destruct (mapM_lookup_Some _ _ _ _ _ Hc Hrow) as (e & He & Hre).
  exists e. split.
  - apply lookup_zip_with_Some. exists (i mod nkx m, i / nkx m), e.
    split; [reflexivity|]. split.
    + apply lookup_zip_with_Some. exists (i mod nkx m), (i / nkx m).
      split; [reflexivity|].
      rewrite Hnji, <- Hkl. split.
      * rewrite <- (length_map fst (kpoints_index m)).
        rewrite tile_lookup by (rewrite ?length_map; lia).
        rewrite list_lookup_fmap, Hki. reflexivity.
      * rewrite <- (length_map snd (kpoints_index m)).
        rewrite tile_lookup by (rewrite ?length_map; lia).
        rewrite list_lookup_fmap, Hki. reflexivity.
    + rewrite concat_mjoin, Hnji.
      replace (Z.to_nat (nks m)) with (length (eigenvalues m)) by lia.
      apply (join_lookup_Some_same_length' (length (eigenvalues m)));
        [|lia|eauto].
      eapply mapM_Forall; [|exact HM]. intros b col' _ Hcol'.
      exact (mapM_length _ _ _ Hcol').
  - unfold node_energy, np_index2. fold i j.
    replace i with (Z.of_nat (Z.to_nat i)) at 1 by lia.
    rewrite np_index_of_nat by lia. rewrite Hrow.
    cbn [mbind option_bind]. rewrite <- Hre. f_equal. lia.
Qed.

Lemma make_vectors_array_length vs :
  0 <= nks m ->
  make_vectors_array m = Some vs ->
  Z.of_nat (length vs) = nb * nks m.
Proof.
  intros Hnks. unfold make_vectors_array. cbv zeta.
  case_guard; [|discriminate]. cbn [mbind option_bind].
  destruct (mapM _ (arange _ _)) as [columns|] eqn:HM; [|discriminate].
  cbn [mbind option_bind].
  repeat (case_guard; cbn [mbind option_bind]); try discriminate.
  match goal with H : length _ = length _ |- _ => rename H into Hlen end.
  intros Hvs. injection Hvs as <-.
  rewrite !length_zip_with, <- Hlen, !length_tile, !length_map.
  unfold kpoints_index, make_kpoints_index.
  rewrite length_map, length_arange. nia.
Qed.

End MakeVectors.

Lemma isclose0_int (z : Z) : isclose0 (inject_Z z) = true <-> z = 0.
Proof.
  unfold isclose0. rewrite Qle_bool_iff.
  unfold Qle, Qabs, inject_Z. simpl. lia.
Qed.

Lemma isclose0_iff (x : Q) :
  isclose0 x = true <-> (Qabs x <= 1 # 100000000)%Q.
Proof. unfold isclose0. apply Qle_bool_iff. Qed.

Lemma py_slice_from {A} (l : list A) (a : Z) :
  0 <= a -> py_slice l a (Z.of_nat (length l)) = drop (Z.to_nat a) l.
Proof.
  intros Ha. unfold py_slice.
  destruct (Z.ltb_spec a 0); [lia|].
  destruct (Z.ltb_spec (Z.of_nat (length l)) 0); [lia|].
  rewrite take_ge by (rewrite length_drop; lia).
  destruct (Z.le_gt_cases a (Z.of_nat (length l))).
  - rewrite Z.min_l by lia. reflexivity.
  - rewrite Z.min_r by lia. rewrite !drop_ge by lia. reflexivity.
Qed.

Lemma elem_of_obtain_degenerates all chunk (d1 d2 : Z) :
  (forall p, p ∈ chunk -> 0 <= p.1) ->
  (d1, d2) ∈ obtain_degenerates all chunk
  <-> exists v w, (d1, v) ∈ chunk /\ d1 < d2 /\
                  all !! Z.to_nat d2 = Some w /\ same_vector v w = true.
Proof.
  intros Hpos. unfold obtain_degenerates. rewrite list_elem_of_bind. split.
  - intros ([i v] & Hin & Hiv). specialize (Hpos _ Hiv). cbn [fst snd] in *.
    rewrite py_slice_from in Hin by lia.
    apply list_elem_of_fmap in Hin as (d & Heq & Hd).
    apply list_elem_of_fmap in Hd as ([d' w] & -> & Hd).
    apply list_elem_of_filter in Hd as [Hsame Hd].
    apply elem_of_enumerate in Hd as (q & Hq & Hw). cbn [fst snd] in *.
    injection Heq as -> ->. subst d'.
    rewrite lookup_drop in Hw.
    exists v, w. split; [exact Hiv|]. split; [lia|]. split; [|exact Hsame].
    rewrite <- Hw. f_equal. lia.
  - intros (v & w & Hiv & Hlt & Hw & Hsame).
    exists (d1, v). split; [|exact Hiv]. specialize (Hpos _ Hiv).
    cbn [fst snd] in *. rewrite py_slice_from by lia.
    apply list_elem_of_fmap. exists (d2 - d1 - 1). split; [f_equal; lia|].
    apply list_elem_of_fmap. exists (d2 - d1 - 1, w). split; [reflexivity|].
    apply list_elem_of_filter. split; [exact Hsame|].
    replace (d2 - d1 - 1) with (Z.of_nat (Z.to_nat (d2 - d1 - 1))) by lia.
    apply enumerate_lookup. rewrite lookup_drop. rewrite <- Hw. f_equal. lia.
Qed.

Lemma obtain_degenerates_concat all (chunks : list (list (Z * (Z * Z * Q)))) :
  concat (map (obtain_degenerates all) chunks)
  = obtain_degenerates all (concat chunks).
Proof.
  induction chunks as [|c cs IH]; [reflexivity|].
  cbn [map concat]. rewrite IH. unfold obtain_degenerates.
  rewrite bind_app. reflexivity.
Qed.

Lemma kpoint_of_index (nkx k k' : Z) :
  nkx <> 0 -> k mod nkx = k' mod nkx -> k / nkx = k' / nkx -> k = k'.
Proof.
  intros Hn Hm Hd.
  rewrite (Z.div_mod k nkx), (Z.div_mod k' nkx) by exact Hn. congruence.
Qed.

(** X9: the pairs that [make_vectors] stores in [self.degenerados] are
    exactly the pairs of nodes [d1 < d2] of the same k point whose
    eigenvalues differ by at most 1e-8. *)
Theorem make_degenerados_pairs (n_process : Z) (m : MATERIAL) ds (d1 d2 : Z) :
  0 < n_process -> 0 < nkx m -> 0 <= nks m ->
  make_degenerados n_process m = Some ds ->
  (d1, d2) ∈ ds
  <-> 0 <= d1 < d2 /\ d2 < (window_end m - min_band m) * nks m /\
      d1 mod nks m = d2 mod nks m /\
      exists e1 e2, node_energy m d1 = Some e1 /\ node_energy m d2 = Some e2
                    /\ (Qabs (e2 - e1) <= 1 # 100000000)%Q.
Proof.
  intros Hp Hnkx Hnks. unfold make_degenerados.
  destruct (make_vectors_array m) as [vs|] eqn:Hvs; [|discriminate].
  cbn [mbind option_bind].
  destruct (parallelize_chunks n_process (enumerate vs)) as [chunks|] eqn:Hc;
    [|discriminate].
  pose proof (parallelize_chunks_concat _ _ _ Hp Hc) as Hchunks.
  cbn [mbind option_bind]. intros H. injection H as <-.
  pose proof (make_vectors_array_length m vs Hnks Hvs) as Hlen.
  rewrite obtain_degenerates_concat, Hchunks, elem_of_obtain_degenerates.
  2:{ intros p Hp'. apply elem_of_enumerate in Hp' as (i & -> & _). lia. }
  split.
  - intros (v & w & Hv & Hlt & Hw & Hsame).
    apply elem_of_enumerate in Hv as (i & Hi & Hv). cbn [fst snd] in Hi, Hv.
    subst d1.
    assert (H1 : 0 <= Z.of_nat i < (window_end m - min_band m) * nks m).
    { apply lookup_lt_Some in Hv. lia. }
    assert (H2 : 0 <= d2 < (window_end m - min_band m) * nks m).
    { apply lookup_lt_Some in Hw. lia. }
    destruct (make_vectors_array_lookup m vs _ Hvs H1 Hnks) as (e1 & Hv1 & He1).
    destruct (make_vectors_array_lookup m vs _ Hvs H2 Hnks) as (e2 & Hv2 & He2).
    rewrite Nat2Z.id in Hv1. rewrite Hv in Hv1. injection Hv1 as ->.
    rewrite Hw in Hv2. injection Hv2 as ->.
    unfold same_vector in Hsame. cbn [fst snd] in Hsame.
    apply andb_true_iff in Hsame as [Hsame He].
    apply andb_true_iff in Hsame as [Hi Hj].
    apply isclose0_int in Hi, Hj. apply isclose0_iff in He.
    split; [lia|]. split; [lia|]. split.
    + apply (kpoint_of_index (nkx m)); lia.
    + eauto.
  - intros (Hd & Hd2 & Hk & e1 & e2 & He1 & He2 & Hclose).
    assert (H1 : 0 <= d1 < (window_end m - min_band m) * nks m) by lia.
    assert (H2 : 0 <= d2 < (window_end m - min_band m) * nks m) by lia.
    destruct (make_vectors_array_lookup m vs _ Hvs H1 Hnks) as (e1' & Hv1 & He1').
    destruct (make_vectors_array_lookup m vs _ Hvs H2 Hnks) as (e2' & Hv2 & He2').
    assert (e1' = e1) by congruence. assert (e2' = e2) by congruence.
    subst e1' e2'.
    eexists _, _. split; [|split; [lia|split; [exact Hv2|]]].
    + replace d1 with (Z.of_nat (Z.to_nat d1)) at 1 by lia.
      apply enumerate_lookup. exact Hv1.
    + unfold same_vector. cbn [fst snd]. rewrite Hk.
      rewrite !Z.sub_diag.
      rewrite (proj2 (isclose0_int 0) eq_refl).
      apply isclose0_iff in Hclose. rewrite Hclose. reflexivity.
Qed.

Lemma make_degenerados_pairs_witness :
  (0, 4) ∈ [(0, 4)]
  <-> 0 <= 0 < 4 /\
      4 < (window_end square2_degenerate - min_band square2_degenerate)
          * nks square2_degenerate /\
      0 mod nks square2_degenerate = 4 mod nks square2_degenerate /\
      exists e1 e2, node_energy square2_degenerate 0 = Some e1 /\
                    node_energy square2_degenerate 4 = Some e2 /\
                    (Qabs (e2 - e1) <= 1 # 100000000)%Q.
Proof.
  apply (make_degenerados_pairs 1 square2_degenerate [(0, 4)] 0 4).
  - lia.
  - simpl. lia.
  - simpl. lia.
  - vm_compute. reflexivity.
Defined.

(** X10: [make_vectors] makes one row of [self.vectors] per node: the row
    of the node [n] holds the grid position of the k point [n % nks] and
    its eigenvalue in the band [n // nks + min_band]; with an explicit
    [max_band] the graph has exactly these nodes and no edge. *)
Theorem make_vectors_nodes (m : MATERIAL) vs :
  0 <= nks m ->
  make_vectors_array m = Some vs ->
  Z.of_nat (length vs) = (window_end m - min_band m) * nks m /\
  (forall n, 0 <= n < Z.of_nat (length vs) ->
     exists e,
       vs !! Z.to_nat n
         = Some ((n mod nks m) mod nkx m, (n mod nks m) / nkx m, e) /\
       node_energy m n = Some e) /\
  (max_band m <> -1 ->
   (forall n, has_node (initial_graph m) n <-> 0 <= n < Z.of_nat (length vs))
   /\ forall a b, ~ has_edge (initial_graph m) a b).
Proof.
  intros Hnks Hvs.
  pose proof (make_vectors_array_length m vs Hnks Hvs) as Hlen.
  split; [exact Hlen|]. split.
  - intros n Hn. apply make_vectors_array_lookup; [exact Hvs|lia|exact Hnks].
  - intros Hmax. split; [|apply initial_graph_no_edge].
    intros n. unfold initial_graph.
    rewrite has_node_add_nodes_from, elem_of_arange.
    assert (Hnv : n_vectors m = Z.of_nat (length vs)).
    { rewrite Hlen. unfold n_vectors, nbnd, window_end.
      destruct (Z.eqb_spec (max_band m) (-1)); [contradiction|reflexivity]. }
    rewrite Hnv. split; [|auto]. intros [H|H]; [exact H|].
    unfold has_node in H. rewrite lookup_empty in H.
    destruct H as [? H]. discriminate.
Qed.

Lemma make_vectors_nodes_witness :
  Z.of_nat (length (default [] (make_vectors_array crossing3)))
  = (window_end crossing3 - min_band crossing3) * nks crossing3 /\
  (forall n,
     0 <= n < Z.of_nat (length (default [] (make_vectors_array crossing3))) ->
     exists e,
       default [] (make_vectors_array crossing3) !! Z.to_nat n
         = Some ((n mod nks crossing3) mod nkx crossing3,
                 (n mod nks crossing3) / nkx crossing3, e) /\
       node_energy crossing3 n = Some e) /\
  (max_band crossing3 <> -1 ->
   (forall n, has_node (initial_graph crossing3) n
              <-> 0 <= n < Z.of_nat (length (default []
                                       (make_vectors_array crossing3))))
   /\ forall a b, ~ has_edge (initial_graph crossing3) a b).
Proof.
  apply (make_vectors_nodes crossing3).
  - simpl. lia.
  - vm_compute. reflexivity.
Defined.

(** ** [COMPONENT] *)

(** X11: [join] keeps the nodes of the component in place and adds the
    nodes of the other component that are new after them: the nodes of
    the result are those of either component, [N] is their number, the
    identifier and the stored scores stay and [was_modified] is set; nodes
    without repetition stay without repetition. *)
Theorem join_node_set (m : MATERIAL) (self component c : COMPONENT) :
  join m self component = Some c ->
  nodes self `prefix_of` nodes c /\
  (forall n, n ∈ nodes c <-> n ∈ nodes self \/ n ∈ nodes component) /\
  N c = Z.of_nat (length (nodes c)) /\
  id_ c = id_ self /\ scores c = scores self /\ was_modified c = true /\
  (NoDup (nodes self) -> NoDup (nodes c)).
Proof.
  unfold join.
  destruct (calculate_pointsMatrix _ _) as [c0|] eqn:H; [|discriminate].
  cbn [mbind option_bind]. intros H'. injection H' as <-.
  revert H. unfold calculate_pointsMatrix.
  destruct (mapM _ _) as [ip|]; [|discriminate]. cbn [mbind option_bind].
  destruct (foldlM _ _ _) as [pm|]; [|discriminate]. cbn [mbind option_bind].
  intros H. injection H as <-.
  cbn [calc_boundary set_k_edges nodes N id_ scores was_modified].
  split; [apply prefix_app_r; reflexivity|].
  split.
  { intros n. rewrite elem_of_app, list_elem_of_filter, elem_of_remove_dups.
    destruct (decide (n ∈ nodes self)); tauto. }
  repeat split.
  intros Hnd. apply NoDup_app. split; [exact Hnd|]. split.
  - intros n Hn Hn'. apply list_elem_of_filter in Hn' as [Hn' _].
    contradiction.
  - apply NoDup_filter, NoDup_remove_dups.
Qed.

Lemma join_node_set_witness :
  let c := default (new_component [])
             (join chain4 (new_component [1; 2]) (new_component [2; 3])) in
  nodes (new_component [1; 2]) `prefix_of` nodes c /\
  (forall n, n ∈ nodes c
             <-> n ∈ nodes (new_component [1; 2])
                 \/ n ∈ nodes (new_component [2; 3])) /\
  N c = Z.of_nat (length (nodes c)) /\
  id_ c = id_ (new_component [1; 2]) /\
  scores c = scores (new_component [1; 2]) /\ was_modified c = true /\
  (NoDup (nodes (new_component [1; 2])) -> NoDup (nodes c)).
Proof.
  apply (join_node_set chain4 (new_component [1; 2]) (new_component [2; 3])).
  vm_compute. reflexivity.
Defined.

(** ** [get_components] *)

(** *** [np.argsort] *)

Lemma argsort_insert_Permutation (a : list Z) (i : nat) (l : list nat) :
  argsort_insert a i l ≡ₚ i :: l.
Proof.
  induction l as [|j l IH]; simpl; [reflexivity|].
  destruct (_ <? _); [reflexivity|].
  rewrite IH. apply Permutation_swap.
Qed.

Lemma argsort_Permutation (a : list Z) : argsort a ≡ₚ seq 0 (length a).
Proof.
  unfold argsort.
  assert (H : forall is_ acc,
            fold_left (fun l i => argsort_insert a i l) is_ acc
            ≡ₚ acc ++ is_).
  { induction is_ as [|i is_ IH]; intros acc; simpl.
    - rewrite app_nil_r. reflexivity.
    - rewrite IH, argsort_insert_Permutation.
      rewrite <- Permutation_middle. reflexivity. }
  rewrite H. reflexivity.
Qed.

Lemma argsort_insert_sorted (a : list Z) (i : nat) (l : list nat) :
  Sorted (fun i j => nth i a 0 <= nth j a 0) l ->
  Sorted (fun i j => nth i a 0 <= nth j a 0) (argsort_insert a i l).
Proof.
  induction l as [|j l IH]; intros Hs; simpl.
  - repeat constructor.
  - destruct (Z.ltb_spec (nth i a 0) (nth j a 0)).
    + constructor; [exact Hs|]. constructor. lia.
    + inversion_clear Hs as [|? ? Hs' Hhd]. constructor; [auto|].
      destruct l as [|j' l]; simpl.
      * constructor. lia.
      * destruct (_ <? _); constructor; [lia|].
        inversion_clear Hhd. assumption.
Qed.

Lemma argsort_sorted (a : list Z) :
  Sorted (fun i j => nth i a 0 <= nth j a 0) (argsort a).
Proof.
  unfold argsort.
  assert (H : forall is_ acc,
            Sorted (fun i j => nth i a 0 <= nth j a 0) acc ->
            Sorted (fun i j => nth i a 0 <= nth j a 0)
                   (fold_left (fun l i => argsort_insert a i l) is_ acc)).
  { induction is_ as [|i is_ IH]; intros acc Hacc; simpl; [exact Hacc|].
    apply IH, argsort_insert_sorted, Hacc. }
  apply H. constructor.
Qed.

Lemma mapM_lookup_Permutation {A} (l : list A) (is_ : list nat) (xs : list A) :
  is_ ≡ₚ seq 0 (length l) ->
  mapM (fun i => l !! i) is_ = Some xs -> xs ≡ₚ l.
Proof.
  intros Hperm HM.
  destruct l as [|d l'] eqn:El.
  { simpl in Hperm. apply Permutation_nil_r in Hperm. subst is_.
    injection HM as <-. reflexivity. }
  rewrite <- El in *. clear El l'.
  assert (Hxs : xs = map (fun i => nth i l d) is_).
  { apply mapM_Some_1 in HM. clear Hperm.
    induction HM as [|i x is_ xs Hi _ IH]; [reflexivity|].
    simpl. f_equal; [|exact IH].
    symmetry. apply nth_lookup_Some with (d := d) in Hi. exact Hi. }
  rewrite Hxs, Hperm. clear. 
  assert (H : forall k, map (fun i => nth i l d) (seq k (length l - k))
                        = drop k l).
  { intros k. remember (length l - k)%nat as n eqn:En.
    revert k En. induction n as [|n IH]; intros k En; simpl.
    - rewrite drop_ge by lia. reflexivity.
    - rewrite IH by lia.
      destruct (lookup_lt_is_Some_2 l k ltac:(lia)) as [x Hx].
      rewrite (drop_S _ _ _ Hx). f_equal.
      apply nth_lookup_Some with (d := d) in Hx. exact Hx. }
  specialize (H 0%nat). rewrite Nat.sub_0_r in H. rewrite H. reflexivity.
Qed.

(** *** The nodes that [get_components] returns *)


Lemma all_nodes_app l1 l2 : all_nodes (l1 ++ l2) = all_nodes l1 ++ all_nodes l2.
Proof. unfold all_nodes. apply bind_app. Qed.

Lemma all_nodes_cons c l : all_nodes (c :: l) = nodes c ++ all_nodes l.
Proof. reflexivity. Qed.

Lemma all_nodes_Permutation l1 l2 : l1 ≡ₚ l2 -> all_nodes l1 ≡ₚ all_nodes l2.
Proof. intros H. unfold all_nodes. rewrite H. reflexivity. Qed.

Lemma all_nodes_same l1 l2 :
  Forall2 (fun c c' => nodes c' = nodes c) l1 l2 ->
  all_nodes l2 = all_nodes l1.
Proof.
  induction 1 as [|c c' l1 l2 Hc _ IH]; [reflexivity|].
  rewrite !all_nodes_cons, Hc, IH. reflexivity.
Qed.

Lemma insert_Permutation_delete {A} (l : list A) (i : nat) (x : A) :
  (i < length l)%nat -> <[i := x]> l ≡ₚ x :: delete i l.
Proof.
  intros Hi. rewrite insert_take_drop by exact Hi.
  rewrite delete_take_drop. rewrite <- Permutation_middle. reflexivity.
Qed.

Lemma list_delete_insert {A} (l : list A) (i : nat) (x : A) :
  delete i (<[i := x]> l) = delete i l.
Proof.
  revert i. induction l as [|y l IH]; intros [|i]; simpl; try reflexivity.
  f_equal. apply IH.
Qed.

Section ComponentsPartition.

Variable m : MATERIAL.
Variable curve_fit : list Z -> list Q -> Q * Q * Q.
Variable energies : list (list (list Q)).
Variable tol : Q.


Lemma evaluate_round_same_nodes clusters samples ev :
  evaluate_round m curve_fit energies tol clusters samples = Some ev ->
  Forall2 (fun c c' => nodes c' = nodes c) samples ev.2.
Proof.
  unfold evaluate_round.
  destruct (mapM _ samples) as [scored|] eqn:Hm; [|discriminate].
  cbn [mbind option_bind]. intros H. injection H as <-. cbn [snd].
  apply mapM_Some_1 in Hm. apply Forall2_fmap_r.
  eapply Forall2_impl; [exact Hm|]. intros sample r Hr. cbv beta in Hr.
  destruct (score_sample _ _ _ _ _ _) as [r0|] eqn:H0; [|discriminate].
  cbn [mbind option_bind] in Hr.
  destruct (np_max _); [|discriminate]. cbn [mbind option_bind] in Hr.
  destruct (argmax _); [|discriminate]. cbn [mbind option_bind] in Hr.
  injection Hr as <-. cbn [snd].
  exact (score_sample_nodes _ _ _ _ _ _ _ H0).
Qed.

Lemma join_N self component c :
  join m self component = Some c ->
  (forall n, n ∈ nodes c <-> n ∈ nodes self \/ n ∈ nodes component).
Proof.
  unfold join.
  destruct (calculate_pointsMatrix _ _) as [c0|] eqn:H; [|discriminate].
  cbn [mbind option_bind]. intros H'. injection H' as <-.
  rewrite calc_boundary_nodes, (calculate_pointsMatrix_nodes _ _ _ H).
  cbn [nodes]. intros n.
  rewrite elem_of_app, list_elem_of_filter, elem_of_remove_dups.
  destruct (decide (n ∈ nodes self)); tauto.
Qed.

Lemma merge_round_inv ns st r :
  partition_inv m ns st ->
  merge_round m curve_fit energies tol st = Some r ->
  partition_inv m ns r.2 /\ S (length r.2.2) = length st.2.
Proof.
  destruct st as [[solved clusters] samples]. intros (Hns & Hso & Hcl).
  cbn [fst snd] in Hns, Hso, Hcl. unfold merge_round.
  destruct (evaluate_round _ _ _ _ _ _) as [[es samples']|] eqn:Hev;
    [|discriminate].
  cbn [mbind option_bind].
  apply evaluate_round_same_nodes in Hev. cbn [snd] in Hev.
  destruct (argmax _) as [arg_max|]; [|discriminate].
  cbn [mbind option_bind].
  destruct (samples' !! arg_max) as [sample|] eqn:Hsample; [|discriminate].
  cbn [mbind option_bind].
  destruct (es !! arg_max) as [best|]; [|discriminate].
  cbn [mbind option_bind].
  destruct (map _ clusters !! best.2) as [cluster|] eqn:Hcluster;
    [|discriminate].
  cbn [mbind option_bind].
  destruct (join m cluster sample) as [joined|] eqn:Hj; [|discriminate].
  cbn [mbind option_bind].
  set (clusters0 := map (set_was_modified false) clusters) in *.
  assert (Hc0 : all_nodes clusters0 = all_nodes clusters).
  { apply all_nodes_same. subst clusters0. apply Forall2_fmap_r.
    apply Forall_Forall2_diag. apply Forall_forall. reflexivity. }
  assert (Hs0 : all_nodes samples' = all_nodes samples)
    by (apply all_nodes_same; exact Hev).
  assert (Hcl0 : Forall (fun c => N c <> nks m) clusters0).
  { subst clusters0. apply Forall_fmap.
    eapply Forall_impl; [exact Hcl|]. auto. }
  pose proof (delete_Permutation _ _ _ Hsample) as Hps.
  pose proof (delete_Permutation _ _ _ Hcluster) as Hpc.
  assert (Hlen : S (length (delete arg_max samples')) = length samples).
  { rewrite (Forall2_length _ _ _ Hev).
    apply Permutation_length in Hps. simpl in Hps. lia. }
  assert (Hjoin : forall n, n ∈ nodes (set_was_modified true joined)
                            <-> n ∈ nodes cluster \/ n ∈ nodes sample).
  { intros n. cbn [set_was_modified nodes]. apply join_N. exact Hj. }
  assert (Hbn : (best.2 < length clusters0)%nat)
    by (eapply lookup_lt_Some; eauto).
  assert (F2 : forall n, n ∈ all_nodes clusters0
                 <-> n ∈ nodes cluster
                     \/ n ∈ all_nodes (delete best.2 clusters0)).
  { intros n. rewrite (all_nodes_Permutation _ _ Hpc), all_nodes_cons.
    apply elem_of_app. }
  assert (F3 : forall n, n ∈ all_nodes samples'
                 <-> n ∈ nodes sample
                     \/ n ∈ all_nodes (delete arg_max samples')).
  { intros n. rewrite (all_nodes_Permutation _ _ Hps), all_nodes_cons.
    apply elem_of_app. }
  assert (F5 : forall n,
            n ∈ all_nodes (<[best.2 := set_was_modified true joined]> clusters0)
            <-> n ∈ nodes (set_was_modified true joined)
                \/ n ∈ all_nodes (delete best.2 clusters0)).
  { intros n.
    rewrite (all_nodes_Permutation _ _ (insert_Permutation_delete _ _ _ Hbn)).
    rewrite all_nodes_cons. apply elem_of_app. }
  assert (Hns' : forall n,
            n ∈ all_nodes solved \/ n ∈ all_nodes clusters0
            \/ n ∈ all_nodes samples' <-> n ∈ ns).
  { intros n. rewrite <- Hns, !all_nodes_app, !elem_of_app, Hc0, Hs0.
    reflexivity. }
  destruct (Z.eqb_spec (N (set_was_modified true joined)) (nks m)) as [HN|HN];
    intros H; injection H as <-; cbn [fst snd]; (split; [|exact Hlen]);
    unfold partition_inv; cbn [fst snd].
  - split; [|split].
    + intros n. rewrite <- Hns', F2, F3.
      rewrite !all_nodes_app, !elem_of_app, list_delete_insert.
      rewrite all_nodes_cons, elem_of_app, Hjoin.
      unfold all_nodes at 2. simpl. rewrite elem_of_nil. tauto.
    + apply Forall_app. split; [exact Hso|]. constructor; [exact HN|constructor].
    + rewrite list_delete_insert. apply Forall_delete. exact Hcl0.
  - split; [|split].
    + intros n. rewrite <- Hns', F2, F3.
      rewrite !all_nodes_app, !elem_of_app, F5, Hjoin. tauto.
    + exact Hso.
    + apply Forall_insert; [exact Hcl0|exact HN].
Qed.

Lemma merge_loop_inv ns rounds st st' :
  partition_inv m ns st -> rounds = length st.2 ->
  merge_loop m curve_fit energies tol rounds st = Some st' ->
  partition_inv m ns st' /\ st'.2 = [].
Proof.
  revert st. induction rounds as [|rounds IH]; intros st Hst Hlen;
    cbn [merge_loop].
  - intros H. injection H as <-. split; [exact Hst|].
    destruct st.2; [reflexivity|discriminate].
  - destruct (merge_round _ _ _ _ _) as [r|] eqn:Hr; [|discriminate].
    cbn [mbind option_bind].
    destruct (merge_round_inv _ _ _ Hst Hr) as [Hinv Hl].
    apply IH; [exact Hinv|lia].
Qed.

End ComponentsPartition.

Section PartitionStep.

Variable m : MATERIAL.

Lemma partition_step_inv ns st component st' :
  partition_inv m ns st ->
  partition_step m st component = Some st' ->
  partition_inv m (ns ++ nodes component) st'.
Proof.
  destruct st as [[solved clusters] samples]. intros (Hns & Hso & Hcl).
  cbn [fst snd] in Hns, Hso, Hcl. unfold partition_step.
  assert (Hns' : forall n,
            n ∈ all_nodes solved \/ n ∈ all_nodes clusters
            \/ n ∈ all_nodes samples <-> n ∈ ns).
  { intros n. rewrite <- Hns, !all_nodes_app, !elem_of_app. reflexivity. }
  destruct (Z.eqb_spec (N component) (nks m)) as [HN|HN].
  { intros H. injection H as <-. unfold partition_inv. cbn [fst snd].
    split; [|split; [|exact Hcl]].
    - intros n. rewrite !all_nodes_app, !elem_of_app, <- Hns'.
      unfold all_nodes at 2. simpl. rewrite app_nil_r. tauto.
    - apply Forall_app. split; [exact Hso|].
      constructor; [exact HN|constructor]. }
  destruct (calculate_pointsMatrix m component) as [c|] eqn:H1;
    [|discriminate].
  cbn [mbind option_bind].
  assert (Hc : nodes (calc_boundary m c) = nodes component).
  { rewrite calc_boundary_nodes. exact (calculate_pointsMatrix_nodes _ _ _ H1). }
  assert (HNc : N (calc_boundary m c) <> nks m).
  { revert H1. unfold calculate_pointsMatrix.
    destruct (mapM _ _); [|discriminate]. cbn [mbind option_bind].
    destruct (foldlM _ _ _); [|discriminate]. cbn [mbind option_bind].
    intros H. injection H as <-. exact HN. }
  assert (Hone : forall n, n ∈ all_nodes [calc_boundary m c]
                           <-> n ∈ nodes component).
  { intros n.
    change (all_nodes [calc_boundary m c])
      with (nodes (calc_boundary m c) ++ []).
    rewrite app_nil_r, Hc. reflexivity. }
  assert (Hcluster : partition_inv m (ns ++ nodes component)
                       (solved, clusters ++ [calc_boundary m c], samples)).
  { unfold partition_inv. cbn [fst snd]. split; [|split; [exact Hso|]].
    - intros n. rewrite !all_nodes_app, !elem_of_app, <- Hns', Hone. tauto.
    - apply Forall_app. split; [exact Hcl|].
      constructor; [exact HNc|constructor]. }
  destruct (bool_decide _); [|destruct (negb _)];
    intros H; injection H as <-; try exact Hcluster.
  unfold partition_inv. cbn [fst snd]. split; [|split; assumption].
  intros n. rewrite !all_nodes_app, !elem_of_app, <- Hns', Hone. tauto.
Qed.

Lemma foldlM_partition_step_inv ns comps st st' :
  partition_inv m ns st ->
  foldlM (partition_step m) st comps = Some st' ->
  partition_inv m (ns ++ all_nodes comps) st'.
Proof.
  revert ns st. induction comps as [|c comps IH]; intros ns st Hst;
    cbn [foldlM].
  - intros H. injection H as <-. unfold all_nodes. simpl.
    rewrite app_nil_r. exact Hst.
  - destruct (partition_step m st c) as [st1|] eqn:H1; [|discriminate].
    cbn [mbind option_bind]. intros H.
    rewrite all_nodes_cons, app_assoc.
    eapply IH; [|exact H]. eapply partition_step_inv; eauto.
Qed.

End PartitionStep.


(** X12: [get_components] loses no node and invents none: the nodes of
    the solved components and of the clusters it returns are those of the
    connected components it started from (every sample ends in a
    cluster); a solved component holds [nks] nodes and a cluster never
    does. *)
Theorem get_components_partition m curve_fit energies tol components
    solved clusters :
  get_components m curve_fit energies tol components
    = Some (solved, clusters) ->
  (forall n, (exists c, c ∈ solved ++ clusters /\ n ∈ nodes c)
             <-> exists ns, ns ∈ components /\ n ∈ ns) /\
  Forall (fun c => N c = nks m) solved /\
  Forall (fun c => N c <> nks m) clusters.
Proof.
  unfold get_components.
  destruct (partition _ _) as [st|] eqn:Hp; [|discriminate].
  cbn [mbind option_bind].
  destruct (merge_loop _ _ _ _ _ _) as [st'|] eqn:Hm; [|discriminate].
  cbn [mbind option_bind].
  case_guard; [|discriminate]. cbn [mbind option_bind].
  intros Hres. injection Hres as <- <-.
  revert Hp. unfold partition.
  destruct (mapM _ _) as [sorted|] eqn:Hs; [|discriminate].
  cbn [mbind option_bind]. intros Hp.
  assert (Hinit : partition_inv m [] ([], [], [])).
  { unfold partition_inv. cbn. split; [reflexivity|]. split; constructor. }
  pose proof (foldlM_partition_step_inv m _ _ _ _ Hinit Hp) as Hst.
  rewrite app_nil_l in Hst.
  destruct (merge_loop_inv m curve_fit energies tol _ _ _ _ Hst eq_refl Hm)
    as [(Hns & Hso & Hcl) Hempty].
  split; [|split; assumption].
  intros n. rewrite Hempty, app_nil_r in Hns.
  assert (Hperm : sorted ≡ₚ map (new_component) components).
  { eapply mapM_lookup_Permutation; [|exact Hs].
    rewrite reverse_Permutation, argsort_Permutation.
    rewrite !length_map. reflexivity. }
  transitivity (n ∈ all_nodes (st'.1.1 ++ st'.1.2)).
  { unfold all_nodes. rewrite list_elem_of_bind. split.
    - intros (c & Hc & Hn). eauto.
    - intros (c & Hn & Hc). eauto. }
  rewrite Hns, (all_nodes_Permutation _ _ Hperm).
  unfold all_nodes. rewrite list_elem_of_bind. split.
  - intros (c & Hn & Hc). apply list_elem_of_fmap in Hc as (ns & -> & Hns').
    eauto.
  - intros (ns & Hns' & Hn). exists (new_component ns).
    split; [exact Hn|]. apply list_elem_of_fmap. eauto.
Qed.

Lemma get_components_partition_witness :
  (forall n,
     (exists c, c ∈ crossing3_components.1 ++ crossing3_components.2
                /\ n ∈ nodes c)
     <-> exists ns, ns ∈ reference_components crossing3_graph /\ n ∈ ns) /\
  Forall (fun c => N c = nks crossing3) crossing3_components.1 /\
  Forall (fun c => N c <> nks crossing3) crossing3_components.2.
Proof.
  apply (get_components_partition crossing3 flat_fit crossing3_energies
           (1 # 2)).
  vm_compute. reflexivity.
Defined.

(** ** [obtain_output] *)

Section BandSlots.

Variable m : MATERIAL.

Lemma next_band_solved_free solved_bands bn bands b :
  next_band_solved m solved_bands bn bands = Some b -> b ∉ solved_bands.
Proof.
  revert bn. induction bands as [|b0 bands IH]; intros bn;
    cbn [next_band_solved]; case_bool_decide as Hin;
    try discriminate; try (intros H; injection H as <-; exact Hin).
  apply IH.
Qed.

Lemma next_band_cluster_free solved_bands bn bands b rest :
  next_band_cluster m solved_bands bn bands = (b, rest) ->
  b ∉ solved_bands \/ rest = [].
Proof.
  revert bn. induction bands as [|b0 bands IH]; intros bn;
    cbn [next_band_cluster].
  - intros H. injection H as <- <-. auto.
  - case_bool_decide as Hin; [apply IH|].
    intros H. injection H as <- <-. auto.
Qed.

Lemma output_solved_slots st c st' :
  output_solved m st c = Some st' ->
  exists bn, st'.1 = st.1 ++ [bn] /\ bn ∉ st.1.
Proof.
  unfold output_solved. destruct st as [sb out].
  destruct (get_bands m c) as [k_bands c'].
  destruct (head (bands c')) as [b0|]; [|discriminate].
  cbn [mbind option_bind].
  destruct (next_band_solved _ _ _ _) as [bn|] eqn:Hbn; [|discriminate].
  cbn [mbind option_bind].
  destruct (assign_band _ _ _ _ _ _) as [out'|]; [|discriminate].
  cbn [mbind option_bind]. intros H. injection H as <-. cbn [fst].
  exists bn. split; [reflexivity|].
  eapply next_band_solved_free; eauto.
Qed.

Lemma NoDup_snoc_notin {A} (l : list A) (x : A) :
  NoDup l -> x ∉ l -> NoDup (l ++ [x]).
Proof.
  intros Hl Hx. apply NoDup_app. split; [exact Hl|].
  split; [|apply NoDup_singleton].
  intros y Hy Hy'. apply list_elem_of_singleton in Hy'. subst y. contradiction.
Qed.

Lemma foldlM_output_solved_slots solved st st' :
  NoDup st.1 ->
  foldlM (output_solved m) st solved = Some st' ->
  NoDup st'.1 /\ length st'.1 = (length st.1 + length solved)%nat.
Proof.
  revert st. induction solved as [|c solved IH]; intros st Hnd;
    cbn [foldlM].
  - intros H. injection H as <-. split; [exact Hnd|simpl; lia].
  - destruct (output_solved m st c) as [st1|] eqn:H1; [|discriminate].
    cbn [mbind option_bind]. intros H.
    destruct (output_solved_slots _ _ _ H1) as (bn & Heq & Hbn).
    destruct (IH st1) as [Hnd' Hlen]; [|exact H|].
    + rewrite Heq. apply NoDup_snoc_notin; assumption.
    + split; [exact Hnd'|]. rewrite Hlen, Heq, length_app. simpl. lia.
Qed.

Lemma output_clusters_slots clusters st st' :
  NoDup st.1 ->
  output_clusters m clusters st = Some st' ->
  NoDup st'.1 /\ st.1 `prefix_of` st'.1 /\
  (length st'.1 <= length st.1 + length clusters)%nat.
Proof.
  revert st. induction clusters as [|c cs IH]; intros st Hnd;
    cbn [output_clusters].
  - intros H. injection H as <-. split; [exact Hnd|].
    split; [reflexivity|simpl; lia].
  - destruct st as [sb out].
    destruct (get_bands m c) as [k_bands c'].
    destruct (head (bands c')) as [b0|]; [|discriminate].
    cbn [mbind option_bind].
    destruct (next_band_cluster _ _ _ _) as [bn rest] eqn:Hbn.
    case_bool_decide as Hin; cbn [andb].
    + case_bool_decide as Hrest.
      * intros H. injection H as <-. split; [exact Hnd|].
        split; [reflexivity|simpl; lia].
      * apply next_band_cluster_free in Hbn as [Hfree|Hnil];
          [contradiction|]. subst rest. exfalso. apply Hrest. reflexivity.
    + destruct (assign_band _ _ _ _ _ _) as [out'|]; [|discriminate].
      cbn [mbind option_bind]. intros H.
      destruct (IH (sb ++ [bn], out')) as (Hnd' & Hpre & Hlen);
        [apply NoDup_snoc_notin; assumption|exact H|].
      split; [exact Hnd'|]. cbn [fst] in *. split.
      * etransitivity; [|exact Hpre]. apply prefix_app_r. reflexivity.
      * rewrite length_app in Hlen. simpl in *. lia.
Qed.

End BandSlots.

(** X13: [obtain_output] gives every component a physical band of its
    own: the list [solved_bands] never holds a band twice, every solved
    component adds one band and every cluster at most one. *)
Theorem assigned_bands_distinct (m : MATERIAL) solved clusters out sb :
  assigned_bands m solved clusters out = Some sb ->
  NoDup sb /\
  (length solved <= length sb <= length solved + length clusters)%nat.
Proof.
  unfold assigned_bands.
  destruct (foldlM _ _ _) as [st1|] eqn:H1; [|discriminate].
  cbn [mbind option_bind].
  destruct (mapM _ _) as [sorted|] eqn:Hs; [|discriminate].
  cbn [mbind option_bind].
  destruct (output_clusters m sorted st1) as [st2|] eqn:H2; [|discriminate].
  cbn [mbind option_bind]. intros H. injection H as <-.
  destruct (foldlM_output_solved_slots m solved ([], out) st1
              (NoDup_nil_2) H1) as [Hnd1 Hlen1].
  destruct (output_clusters_slots m sorted _ _ Hnd1 H2)
    as (Hnd2 & Hpre & Hlen2).
  simpl in Hlen1. split; [exact Hnd2|].
  apply prefix_length in Hpre.
  assert (length sorted = length clusters).
  { apply mapM_Some_1, Forall2_length in Hs.
    rewrite length_reverse in Hs.
    pose proof (Permutation_length (argsort_Permutation (map N clusters))) as Hp.
    rewrite length_seq, length_map in Hp. lia. }
  lia.
Qed.

Lemma obtain_output_assigned_bands (m : MATERIAL) solved clusters out :
  is_Some (obtain_output m solved clusters out) ->
  is_Some (assigned_bands m solved clusters out).
Proof.
  unfold obtain_output, assigned_bands. intros [out' H]. revert H.
  destruct (foldlM _ _ _) as [st1|]; [|discriminate].
  cbn [mbind option_bind].
  destruct (mapM _ _) as [sorted|]; [|discriminate].
  cbn [mbind option_bind].
  destruct (output_clusters m sorted st1) as [st2|]; [|discriminate].
  cbn [mbind option_bind]. eauto.
Qed.

Lemma fold_left_Qplus_le (l : list Q) (a : Q) :
  Forall (fun x => (x <= 1)%Q) l ->
  (fold_left Qplus l a <= a + inject_Z (Z.of_nat (length l)))%Q.
Proof.
  intros Hl. revert a. induction Hl as [|x l Hx _ IH]; intros a; simpl.
  - change (inject_Z (Z.of_nat 0)) with 0%Q. lra.
  - eapply Qle_trans; [apply IH|].
    replace (Z.of_nat (S (length l))) with (Z.of_nat (length l) + 1) by lia.
    rewrite inject_Z_plus. change (inject_Z 1) with 1%Q. lra.
Qed.

Lemma Qdiv_le_1 (a : Q) (n : Z) :
  (a <= inject_Z n)%Q -> 0 < n -> (a / inject_Z n <= 1)%Q.
Proof.
  intros Ha Hn. apply Qle_shift_div_r.
  - change 0%Q with (inject_Z 0). rewrite <- Zlt_Qlt. exact Hn.
  - lra.
Qed.

Lemma mean_le_1 (l : list Q) :
  Forall (fun x => (x <= 1)%Q) l -> (mean l <= 1)%Q.
Proof.
  intros Hl. unfold mean, Qsum.
  destruct l as [|x l]; [simpl; unfold Qdiv; rewrite Qmult_0_l; discriminate|].
  apply Qdiv_le_1; [|simpl; lia].
  eapply Qle_trans; [apply fold_left_Qplus_le; exact Hl|]. lra.
Qed.

Lemma np_index4_unit (m : MATERIAL) (i j k l : Z) (x : Q) :
  connections_unit m ->
  np_index4 (connections m) i j k l = Some x -> (0 <= x <= 1)%Q.
Proof.
  unfold connections_unit, np_index4. intros Hc.
  destruct (np_index (connections m) i) as [a1|] eqn:H1; [|discriminate].
  cbn [mbind option_bind].
  destruct (np_index a1 j) as [a2|] eqn:H2; [|discriminate].
  cbn [mbind option_bind]. intros H.
  apply np_index_elem in H1, H2.
  rewrite Forall_forall in Hc. specialize (Hc _ H1).
  rewrite Forall_forall in Hc. specialize (Hc _ H2).
  exact (np_index2_elem _ _ _ _ _ Hc H).
Qed.

Lemma connections_unit_nonneg (m : MATERIAL) :
  connections_unit m -> connections_nonneg m.
Proof.
  unfold connections_unit, connections_nonneg. intros H.
  eapply Forall_impl; [exact H|]. intros a Ha.
  eapply Forall_impl; [exact Ha|]. intros b Hb.
  eapply Forall_impl; [exact Hb|]. intros c Hc.
  eapply Forall_impl; [exact Hc|]. intros x Hx. exact (proj1 Hx).
Qed.

Lemma length_omap_le {A B} (f : A -> option B) (l : list A) :
  (length (omap f l) <= length l)%nat.
Proof.
  induction l as [|x l IH]; [reflexivity|].
  cbn [omap list_omap]. destruct (f x); cbn [length]; lia.
Qed.

Section ScoreUnit.

Variable m : MATERIAL.
Hypothesis Hconn : connections_unit m.

Lemma scan_point_le_1 out bn k e x :
  scan_point m out bn k = Some (e, Some x) -> (x <= 1)%Q.
Proof.
  unfold scan_point.
  destruct (np_index2 (signal_final out) k bn) as [sig|]; [|discriminate].
  cbn [mbind option_bind].
  destruct (sig =? NOT_SOLVED); [discriminate|].
  destruct (np_index (neighbors m) k) as [row|]; [|discriminate].
  cbn [mbind option_bind].
  case_guard; [|discriminate]. cbn [mbind option_bind].
  destruct (mapM _ (filter _ (enumerate row))) as [sigs|]; [|discriminate].
  cbn [mbind option_bind].
  destruct (bool_decide _); [discriminate|].
  destruct (np_index2 (bands_final out) k bn) as [bn_k|]; [|discriminate].
  cbn [mbind option_bind].
  destruct (mapM (fun kn => np_index2 (bands_final out) kn bn) _)
    as [bn_neighs|]; [|discriminate].
  cbn [mbind option_bind].
  destruct (mapM (fun p : Z * Z => np_index4 (connections m) k p.1 bn_k p.2) _)
    as [dps|] eqn:Hdps; [|discriminate].
  cbn [mbind option_bind].
  destruct (find_rotation _ _ _ _ _ _ _) as [en|]; [|discriminate].
  cbn [mbind option_bind]. intros Hres. injection Hres as _ <-.
  apply mean_le_1. revert Hdps. apply mapM_Forall.
  intros p y _ Hy. eapply np_index4_unit; eauto.
Qed.

Lemma scan_band_le_1 out bn entries score :
  scan_band m out bn = Some (entries, score) -> (score <= 1)%Q.
Proof.
  unfold scan_band. case_guard; [|discriminate].
  cbn [mbind option_bind].
  destruct (mapM _ _) as [found|] eqn:HM; [|discriminate].
  cbn [mbind option_bind]. intros Hres. injection Hres as _ <-.
  destruct (Z_lt_le_dec 0 (nks m)) as [Hpos|Hneg].
  - apply Qdiv_le_1; [|exact Hpos].
    eapply Qle_trans.
    + apply fold_left_Qplus_le.
      apply Forall_forall. intros x Hx.
      apply list_elem_of_omap in Hx as ([e o] & Hin & Ho). simpl in Ho.
      subst o. apply list_elem_of_lookup in Hin as [i Hi].
      apply mapM_Some_1 in HM.
      destruct (Forall2_lookup_r _ _ _ _ _ HM Hi) as (k & _ & Hk).
      eapply scan_point_le_1; exact Hk.
    + rewrite Qplus_0_l, <- Zle_Qle.
      pose proof (length_omap_le snd found) as Hle.
      apply mapM_Some_1, Forall2_length in HM.
      unfold arange in HM. rewrite length_seqZ in HM. lia.
  - assert (Hnil : arange 0 (nks m) = []).
    { unfold arange, seqZ. replace (Z.to_nat (nks m - 0)) with 0%nat by lia.
      reflexivity. }
    rewrite Hnil in HM. simpl in HM. injection HM as <-. simpl.
    unfold Qdiv. rewrite Qmult_0_l. discriminate.
Qed.

End ScoreUnit.

Section FinalScore.

Variable m : MATERIAL.

Lemma assign_band_final_score is_cluster c k_bands bn out out' :
  assign_band m is_cluster c k_bands bn out = Some out' ->
  final_score out' = final_score out /\
  degenerate_final out' = degenerate_final out.
Proof.
  unfold assign_band.
  destruct (foldlM _ (bands_final out) _) as [bf|]; [|discriminate].
  cbn [mbind option_bind].
  destruct (foldlM _ (signal_final out) _) as [sf|]; [|discriminate].
  cbn [mbind option_bind]. intros H. injection H as <-. auto.
Qed.

Lemma output_solved_final_score st c st' :
  output_solved m st c = Some st' -> final_score st'.2 = final_score st.2.
Proof.
  unfold output_solved. destruct st as [sb out].
  destruct (get_bands m c) as [k_bands c'].
  destruct (head (bands c')) as [b0|]; [|discriminate].
  cbn [mbind option_bind].
  destruct (next_band_solved _ _ _ _) as [bn|]; [|discriminate].
  cbn [mbind option_bind].
  destruct (assign_band _ _ _ _ _ _) as [out'|] eqn:Ha; [|discriminate].
  cbn [mbind option_bind]. intros H. injection H as <-. cbn [snd].
  exact (proj1 (assign_band_final_score _ _ _ _ _ _ Ha)).
Qed.

Lemma output_clusters_final_score clusters st st' :
  output_clusters m clusters st = Some st' ->
  final_score st'.2 = final_score st.2.
Proof.
  revert st. induction clusters as [|c cs IH]; intros st;
    cbn [output_clusters].
  - intros H. injection H as <-. reflexivity.
  - destruct st as [sb out].
    destruct (get_bands m c) as [k_bands c'].
    destruct (head (bands c')) as [b0|]; [|discriminate].
    cbn [mbind option_bind].
    destruct (next_band_cluster _ _ _ _) as [bn rest].
    destruct (_ && _).
    + intros H. injection H as <-. reflexivity.
    + destruct (assign_band _ _ _ _ _ _) as [out'|] eqn:Ha; [|discriminate].
      cbn [mbind option_bind]. intros H. apply IH in H. rewrite H.
      cbn [snd]. exact (proj1 (assign_band_final_score _ _ _ _ _ _ Ha)).
Qed.

Lemma obtain_output_scores (P : Q -> Prop) solved clusters out out' :
  (forall o bn entries score,
     scan_band m o bn = Some (entries, score) -> P score) ->
  Forall P (final_score out) ->
  obtain_output m solved clusters out = Some out' ->
  Forall P (final_score out').
Proof.
  intros HP Hfs. unfold obtain_output.
  destruct (foldlM (output_solved m) _ _) as [st1|] eqn:H1; [|discriminate].
  cbn [mbind option_bind].
  destruct (mapM _ _) as [sorted|]; [|discriminate].
  cbn [mbind option_bind].
  destruct (output_clusters m sorted st1) as [st2|] eqn:H2; [|discriminate].
  cbn [mbind option_bind].
  destruct (foldlM (output_degenerate m) _ _) as [sf_bf|]; [|discriminate].
  cbn [mbind option_bind].
  destruct (mapM _ (arange 0 (total_bands m))) as [scanned|] eqn:Hscan;
    [|discriminate].
  cbn [mbind option_bind].
  destruct (foldlM _ (final_score _) _) as [fs|] eqn:Hfold; [|discriminate].
  cbn [mbind option_bind].
  destruct (fold_rotations _ _) as [degenerates|]; [|discriminate].
  cbn [mbind option_bind]. intros H. injection H as <-. cbn [final_score].
  assert (Hst2 : final_score st2.2 = final_score out).
  { rewrite (output_clusters_final_score _ _ _ H2).
    revert H1. apply (foldlM_invariant
                        (fun st => final_score st.2 = final_score out));
      [|reflexivity].
    intros a c a' _ Ha Hstep.
    rewrite (output_solved_final_score _ _ _ Hstep). exact Ha. }
  cbn [final_score] in Hfold. rewrite Hst2 in Hfold.
  assert (Hscores : Forall P (map snd scanned)).
  { apply Forall_fmap. eapply mapM_Forall; [|exact Hscan].
    intros bn [entries score] _ Hb. simpl. eapply HP. exact Hb. }
  revert Hfold. apply foldlM_invariant; [|exact Hfs].
  intros a [bn score] a' Hin Ha Hset. cbn [fst snd] in Hset.
  eapply np_set_Forall; [exact Ha| |exact Hset].
  apply elem_of_zip_r in Hin. rewrite Forall_forall in Hscores. auto.
Qed.

End FinalScore.

Lemma evaluate_result_range (values : list Q) :
  1 <= evaluate_result values <= 5.
Proof.
  unfold evaluate_result. cbv zeta.
  destruct (Qlt_bool _ _); [unfold CORRECT; lia|].
  destruct (Qlt_bool _ _); [unfold POTENTIAL_CORRECT; lia|].
  destruct (_ && _); [unfold POTENTIAL_MISTAKE; lia|unfold MISTAKE; lia].
Qed.

Lemma evaluate_point_range curve_fit k bn k_index k_matrix signal bands
    energies r :
  evaluate_point curve_fit k bn k_index k_matrix signal bands energies
    = Some r ->
  1 <= r.1 <= 4.
Proof.
  unfold evaluate_point. cbv zeta.
  destruct (np_index2 bands k bn) as [mach_bn|]; [|discriminate].
  cbn [mbind option_bind].
  destruct (np_index2 signal k bn) as [sg|]; [|discriminate].
  cbn [mbind option_bind].
  destruct (np_index k_index k) as [ikjk|]; [|discriminate].
  cbn [mbind option_bind].
  destruct (np_index2 energies k mach_bn) as [Ek|]; [|discriminate].
  cbn [mbind option_bind].
  destruct (mapM _ directions) as [energy_vals|]; [|discriminate].
  cbn [mbind option_bind].
  destruct (_ =? N_NEIGS); [|destruct (_ =? 0)];
    intros H; injection H as <-; simpl; lia.
Qed.

Section Signals.

Variable m : MATERIAL.

Lemma assign_band_signals is_cluster c k_bands bn out out' :
  signals_within 5 (signal_final out) ->
  assign_band m is_cluster c k_bands bn out = Some out' ->
  signals_within 5 (signal_final out').
Proof.
  intros Hok. unfold assign_band.
  destruct (foldlM _ (bands_final out) _) as [bf|]; [|discriminate].
  cbn [mbind option_bind].
  destruct (foldlM _ (signal_final out) _) as [sf|] eqn:Hsf; [|discriminate].
  cbn [mbind option_bind]. intros H. injection H as <-. cbn [signal_final].
  revert Hsf. apply foldlM_invariant; [|exact Hok].
  intros a k a' _ Ha.
  destruct (point_connections _ _ _ _) as [conns|]; [|discriminate].
  cbn [mbind option_bind]. intros Hset.
  eapply np_set2_Forall; [exact Ha| |exact Hset].
  pose proof (evaluate_result_range conns). cbv beta. lia.
Qed.

Lemma output_solved_signals st c st' :
  signals_within 5 (signal_final st.2) ->
  output_solved m st c = Some st' ->
  signals_within 5 (signal_final st'.2).
Proof.
  intros Hok. unfold output_solved. destruct st as [sb out].
  destruct (get_bands m c) as [k_bands c'].
  destruct (head (bands c')) as [b0|]; [|discriminate].
  cbn [mbind option_bind].
  destruct (next_band_solved _ _ _ _) as [bn|]; [|discriminate].
  cbn [mbind option_bind].
  destruct (assign_band _ _ _ _ _ _) as [out'|] eqn:Ha; [|discriminate].
  cbn [mbind option_bind]. intros H. injection H as <-. cbn [snd].
  eapply assign_band_signals; eauto.
Qed.

Lemma output_clusters_signals clusters st st' :
  signals_within 5 (signal_final st.2) ->
  output_clusters m clusters st = Some st' ->
  signals_within 5 (signal_final st'.2).
Proof.
  revert st. induction clusters as [|c cs IH]; intros st Hok;
    cbn [output_clusters].
  - intros H. injection H as <-. exact Hok.
  - destruct st as [sb out].
    destruct (get_bands m c) as [k_bands c'].
    destruct (head (bands c')) as [b0|]; [|discriminate].
    cbn [mbind option_bind].
    destruct (next_band_cluster _ _ _ _) as [bn rest].
    destruct (_ && _).
    + intros H. injection H as <-. exact Hok.
    + destruct (assign_band _ _ _ _ _ _) as [out'|] eqn:Ha; [|discriminate].
      cbn [mbind option_bind]. apply IH. cbn [snd].
      eapply assign_band_signals; eauto.
Qed.

Lemma output_degenerate_signals sf_bf d sf_bf' :
  signals_within 5 sf_bf.1 ->
  output_degenerate m sf_bf d = Some sf_bf' ->
  signals_within 5 sf_bf'.1.
Proof.
  intros Hok. unfold output_degenerate. destruct sf_bf as [sf bf].
  destruct (np_index bf (d.1 mod nks m)) as [row1|]; [|discriminate].
  cbn [mbind option_bind].
  destruct (np_index bf (d.2 mod nks m)) as [row2|]; [|discriminate].
  cbn [mbind option_bind].
  destruct (np_set2 sf _ _ _) as [sf1|] eqn:H1; [|discriminate].
  cbn [mbind option_bind].
  destruct (np_set2 sf1 _ _ _) as [sf2|] eqn:H2; [|discriminate].
  cbn [mbind option_bind]. intros H. injection H as <-. cbn [fst].
  assert (Hd : 0 <= DEGENERATE <= 5) by (unfold DEGENERATE; lia).
  unfold signals_within in *.
  exact (np_set2_Forall _ _ _ _ _ _
           (np_set2_Forall _ _ _ _ _ _ Hok Hd H1) Hd H2).
Qed.

Lemma obtain_output_signals solved clusters out out' :
  signals_within 5 (signal_final out) ->
  obtain_output m solved clusters out = Some out' ->
  signals_within 5 (signal_final out').
Proof.
  intros Hok. unfold obtain_output.
  destruct (foldlM (output_solved m) _ _) as [st1|] eqn:H1; [|discriminate].
  cbn [mbind option_bind].
  destruct (mapM _ _) as [sorted|]; [|discriminate].
  cbn [mbind option_bind].
  destruct (output_clusters m sorted st1) as [st2|] eqn:H2; [|discriminate].
  cbn [mbind option_bind].
  destruct (foldlM (output_degenerate m) _ _) as [sf_bf|] eqn:H3;
    [|discriminate].
  cbn [mbind option_bind].
  destruct (mapM _ (arange 0 (total_bands m))) as [scanned|]; [|discriminate].
  cbn [mbind option_bind].
  destruct (foldlM _ (final_score _) _) as [fs|]; [|discriminate].
  cbn [mbind option_bind].
  destruct (fold_rotations _ _) as [degenerates|]; [|discriminate].
  cbn [mbind option_bind]. intros H. injection H as <-. cbn [signal_final].
  assert (Hst1 : signals_within 5 (signal_final st1.2)).
  { revert H1. apply (foldlM_invariant
                        (fun st => signals_within 5 (signal_final st.2)));
      [|exact Hok].
    intros a c a' _ Ha Hstep. eapply output_solved_signals; eauto. }
  pose proof (output_clusters_signals _ _ _ Hst1 H2) as Hst2.
  revert H3. apply (foldlM_invariant (fun p => signals_within 5 p.1));
    [|exact Hst2].
  intros a d a' _ Ha Hstep. eapply output_degenerate_signals; eauto.
Qed.

Lemma evaluate_signals_within curve_fit out csf :
  signals_within 5 (signal_final out) ->
  evaluate_signals m curve_fit out = Some csf ->
  signals_within 4 csf.
Proof.
  intros Hok. unfold evaluate_signals. cbv zeta.
  apply foldlM_invariant.
  - intros a p a' _ Ha.
    destruct (evaluate_point _ _ _ _ _ _ _ _) as [r|] eqn:Hr; [|discriminate].
    cbn [mbind option_bind]. intros Hset.
    eapply np_set2_Forall; [exact Ha| |exact Hset].
    pose proof (evaluate_point_range _ _ _ _ _ _ _ _ _ Hr). cbv beta. lia.
  - unfold signals_within. apply Forall_fmap.
    eapply Forall_impl; [exact Hok|]. intros row Hrow. cbv beta.
    apply Forall_fmap. eapply Forall_impl; [exact Hrow|].
    intros s Hs. unfold compose, CORRECT. cbv beta in *.
    destruct (Z.eqb_spec s 5); lia.
Qed.

Lemma correct_signal_after_output_within curve_fit out prev c :
  signals_within 5 (signal_final out) ->
  correct_signal_after_output m curve_fit out prev = Some c ->
  signals_within 4 (correct_signalfinal c).
Proof.
  intros Hok. unfold correct_signal_after_output.
  destruct (evaluate_signals m curve_fit out) as [csf0|] eqn:H0;
    [|discriminate].
  cbn [mbind option_bind]. cbv zeta.
  pose proof (evaluate_signals_within _ _ _ Hok H0) as Hcsf0.
  destruct (mapM _ (where_eq2 csf0 3)) as [other_same|]; [|discriminate].
  cbn [mbind option_bind].
  destruct (mapM _ (where_eq2 csf0 1 ++ _)) as [k_index|]; [|discriminate].
  cbn [mbind option_bind].
  destruct (foldlM _ (replicate _ _) _) as [bs|]; [|discriminate].
  cbn [mbind option_bind].
  case_guard; [|discriminate]. cbn [mbind option_bind].
  apply (foldlM_invariant
           (fun c => signals_within 4 (correct_signalfinal c)));
    [|exact Hcsf0].
  intros a p a' _ Ha.
  destruct (band_edges _ _ _ _) as [edges|]; [|discriminate].
  cbn [mbind option_bind].
  destruct (foldlM _ (correct_signalfinal a) _) as [csf1|] eqn:H1;
    [|discriminate].
  cbn [mbind option_bind]. intros Hres. injection Hres as <-.
  cbn [correct_signalfinal].
  revert H1. apply foldlM_invariant; [|exact Ha].
  intros b q b' _ Hb Hset.
  eapply np_set2_Forall; [exact Hb| |exact Hset].
  unfold CORRECT. cbv beta. lia.
Qed.

End Signals.

(** X14: [obtain_output] keeps the entries of [signal_final] among the
    signals 0 to 5, and the array [correct_signalfinal] that
    [correct_signal] leaves holds only 0 to 4: the signal CORRECT (5) is
    rewritten to 4 and [evaluate_point] answers 1, 3 or 4. *)
Theorem correct_signal_signals (m : MATERIAL) curve_fit solved clusters out
    prev oc :
  signals_within 5 (signal_final out) ->
  correct_signal m curve_fit solved clusters out prev = Some oc ->
  signals_within 5 (signal_final oc.1) /\
  signals_within 4 (correct_signalfinal oc.2).
Proof.
  intros Hok. unfold correct_signal.
  destruct (obtain_output m solved clusters out) as [out1|] eqn:H1;
    [|discriminate].
  cbn [mbind option_bind].
  destruct (correct_signal_after_output m curve_fit out1 prev) as [c|] eqn:H2;
    [|discriminate].
  cbn [mbind option_bind]. intros H. injection H as <-. cbn [fst snd].
  pose proof (obtain_output_signals m _ _ _ _ Hok H1) as Hs.
  split; [exact Hs|]. eapply correct_signal_after_output_within; eauto.
Qed.

Section SolveScores.

Variable m : MATERIAL.
Variable curve_fit : list Z -> list Q -> Q * Q * Q.
Variable connected_components : Graph -> list (list Z).
Variable step : Q.
Variable min_tol : Q.
Hypothesis Hconn : connections_unit m.

Lemma obtain_output_unit solved clusters out out' :
  Forall (fun x => (0 <= x <= 1)%Q) (final_score out) ->
  obtain_output m solved clusters out = Some out' ->
  Forall (fun x => (0 <= x <= 1)%Q) (final_score out').
Proof.
  apply obtain_output_scores.
  intros o bn entries score Hs. split.
  - eapply scan_band_nonneg; [|exact Hs].
    apply connections_unit_nonneg. exact Hconn.
  - eapply scan_band_le_1; eauto.
Qed.

Lemma correct_signal_unit solved clusters out prev oc :
  Forall (fun x => (0 <= x <= 1)%Q) (final_score out) ->
  correct_signal m curve_fit solved clusters out prev = Some oc ->
  Forall (fun x => (0 <= x <= 1)%Q) (final_score oc.1).
Proof.
  intros Hfs. unfold correct_signal.
  destruct (obtain_output m solved clusters out) as [out1|] eqn:H1;
    [|discriminate].
  cbn [mbind option_bind].
  destruct (correct_signal_after_output m curve_fit out1 prev) as [c|];
    [|discriminate].
  cbn [mbind option_bind]. intros H. injection H as <-. cbn [fst].
  eapply obtain_output_unit; eauto.
Qed.

Lemma solve_step_scores_unit energies s s' :
  scores_unit s ->
  solve_step m curve_fit connected_components step energies s = Some s' ->
  scores_unit s'.
Proof.
  intros [Hfs Hbest]. unfold solve_step.
  destruct (solve_compute _ _ _ _ _) as [[[[solved_ clusters_] out] c]|] eqn:Hc;
    [|discriminate].
  cbn [mbind option_bind].
  assert (Hout : Forall (fun x => (0 <= x <= 1)%Q) (final_score out)).
  { revert Hc. unfold solve_compute.
    destruct (get_components _ _ _ _ _) as [r|]; [|discriminate].
    cbn [mbind option_bind].
    destruct (obtain_output m r.1 r.2 (output s)) as [out1|] eqn:H1;
      [|discriminate].
    cbn [mbind option_bind].
    destruct (correct_signal _ _ _ _ _ _) as [oc|] eqn:H2; [|discriminate].
    cbn [mbind option_bind]. intros H. injection H as _ _ <- _.
    eapply correct_signal_unit; [|exact H2].
    eapply obtain_output_unit; eauto. }
  destruct (count_solved _ _ _ _) as [solved|]; [|discriminate].
  cbn [mbind option_bind].
  destruct (max_solved s <=? solved).
  - intros H. injection H as <-. split; exact Hout.
  - destruct (best_signal_final s) as [best_signal|]; [|discriminate].
    cbn [mbind option_bind].
    destruct (correct_signal _ _ _ _ _ _) as [oc|] eqn:H2; [|discriminate].
    cbn [mbind option_bind]. intros H. injection H as <-.
    split; [|exact Hbest]. cbn [output].
    eapply correct_signal_unit; [|exact H2]. exact Hbest.
Qed.

Lemma solve_init_scores_unit G : scores_unit (solve_init m G).
Proof.
  unfold scores_unit, solve_init, initial_output. simpl.
  split; apply Forall_replicate; split; discriminate.
Qed.

Lemma solve_loop_scores_unit energies (fuel : nat) s (i : nat) s' (n : nat) :
  scores_unit s ->
  solve_loop m curve_fit connected_components step min_tol fuel energies s i
    = Done s' n ->
  scores_unit s'.
Proof.
  revert s i. induction fuel as [|fuel IH]; intros s i Hs; cbn [solve_loop];
    destruct (_ && _).
  - discriminate.
  - intros H. injection H as <- _. exact Hs.
  - destruct (solve_step _ _ _ _ _ _) as [s1|] eqn:H1; [|discriminate].
    apply IH. exact (solve_step_scores_unit _ _ _ Hs H1).
  - intros H. injection H as <- _. exact Hs.
Qed.

End SolveScores.

Lemma solve_iterate_scores_unit m curve_fit connected_components
    (step : Q) energies G (n : nat) s :
  connections_unit m ->
  solve_iterate m curve_fit connected_components step energies n
                (solve_init m G) = Some s ->
  scores_unit s.
Proof.
  intros Hconn. revert s. induction n as [|n IH]; intros s;
    cbn [solve_iterate].
  - intros H. injection H as <-. apply solve_init_scores_unit.
  - destruct (solve_iterate _ _ _ _ _ n _) as [s0|]; [|discriminate].
    cbn [mbind option_bind]. intros H.
    exact (solve_step_scores_unit m curve_fit connected_components step
             Hconn _ _ _ (IH s0 eq_refl) H).
Qed.

(** X15: with overlaps between 0 and 1, every entry of [final_score] and
    of [best_score] lies between 0 and 1 after each iteration of [solve],
    and so does every entry of the [final_score] that [solve] leaves. *)
Theorem solve_scores_unit m curve_fit connected_components
    (step min_tol : Q) G :
  connections_unit m ->
  (forall energies (n : nat) s,
     solve_iterate m curve_fit connected_components step energies n
                   (solve_init m G) = Some s ->
     Forall (fun x => (0 <= x <= 1)%Q) (final_score (output s)) /\
     Forall (fun x => (0 <= x <= 1)%Q) (best_score s)) /\
  (forall (fuel : nat) s (n : nat),
     solve m curve_fit connected_components step min_tol fuel G = Done s n ->
     Forall (fun x => (0 <= x <= 1)%Q) (final_score (output s))).
Proof.
  intros Hconn. split.
  - intros energies n s Hs.
    exact (solve_iterate_scores_unit _ _ _ _ _ _ _ _ Hconn Hs).
  - intros fuel s n. unfold solve.
    destruct (make_BandsEnergy m) as [energies|]; [|discriminate].
    destruct (solve_loop _ _ _ _ _ _ _ _ _) as [s0 n0| |] eqn:Hloop;
      try discriminate.
    destruct (best_signal_final s0); [|discriminate].
    intros H. injection H as <- _. cbn [output final_score].
    exact (proj2 (solve_loop_scores_unit m curve_fit connected_components
                    step min_tol Hconn _ _ _ _ _ _
                    (solve_init_scores_unit m G) Hloop)).
Qed.

Lemma solve_scores_unit_witness :
  final_score (output crossing3_result) = [3 # 6; 6 # 6; 0 # 6]%Q /\
  Forall (fun x => (0 <= x <= 1)%Q) (final_score (output crossing3_result)).
Proof.
  split; [vm_compute; reflexivity|].
  apply (fun H => proj2 (solve_scores_unit crossing3 flat_fit
           reference_components (1 # 10) 0 crossing3_graph H) 6%nat
           crossing3_result 3%nat).
  - unfold connections_unit.
    repeat match goal with |- Forall _ _ => constructor end;
      vm_compute; split; discriminate.
  - vm_compute. reflexivity.
Defined.

Lemma correct_signal_signals_witness :
  signals_within 5 (signal_final crossing3_corrected.1) /\
  signals_within 4 (correct_signalfinal crossing3_corrected.2).
Proof.
  apply (correct_signal_signals crossing3 flat_fit crossing3_components.1
           crossing3_components.2 (initial_output crossing3)
           (full2 (nks crossing3) (total_bands crossing3) (-1))).
  - unfold signals_within.
    repeat match goal with |- Forall _ _ => constructor end; lia.
  - vm_compute. reflexivity.
Defined.

Lemma assigned_bands_distinct_witness :
  NoDup [1; 0] /\
  (length crossing3_components.1 <= length [1; 0]
   <= length crossing3_components.1 + length crossing3_components.2)%nat.
Proof.
  apply (assigned_bands_distinct crossing3 crossing3_components.1
           crossing3_components.2 (initial_output crossing3) [1; 0]).
  vm_compute. reflexivity.
Defined.

Lemma has_shape_full2 {A} (n0 n1 : Z) (x : A) :
  0 <= n0 -> 0 <= n1 -> has_shape n0 n1 (full2 n0 n1 x).
Proof.
  intros H0 H1. unfold has_shape, full2. rewrite repeat_length.
  split; [lia|]. apply Forall_forall. intros row Hrow.
  apply list_elem_of_In, repeat_spec in Hrow. subst row.
  rewrite repeat_length. lia.
Qed.

Lemma lookup_repeat {A} (x : A) (n i : nat) :
  (i < n)%nat -> repeat x n !! i = Some x.
Proof.
  revert i. induction n as [|n IH]; intros [|i] H; simpl; try lia;
    [reflexivity|]. apply IH. lia.
Qed.

Lemma np_index2_full2 {A} (n0 n1 i j : Z) (x : A) :
  0 <= i < n0 -> 0 <= j < n1 -> np_index2 (full2 n0 n1 x) i j = Some x.
Proof.
  intros Hi Hj. unfold np_index2, full2.
  replace i with (Z.of_nat (Z.to_nat i)) by lia.
  rewrite np_index_of_nat by (rewrite repeat_length; lia).
  rewrite lookup_repeat by lia. cbn [mbind option_bind].
  replace j with (Z.of_nat (Z.to_nat j)) by lia.
  rewrite np_index_of_nat by (rewrite repeat_length; lia).
  apply lookup_repeat. lia.
Qed.

Lemma np_set2_in_shape {A} (n0 n1 i j : Z) (a : list (list A)) (x : A) :
  has_shape n0 n1 a -> 0 <= i < n0 -> 0 <= j < n1 ->
  exists a',
    np_set2 a i j x = Some a' /\ has_shape n0 n1 a' /\
    forall i' j', 0 <= i' < n0 -> 0 <= j' < n1 ->
      np_index2 a' i' j'
      = if (i' =? i) && (j' =? j) then Some x else np_index2 a i' j'.
Proof.
  intros [Hlen Hrows] Hi Hj.
  destruct (lookup_lt_is_Some_2 a (Z.to_nat i)) as [row Hrow]; [lia|].
  assert (Hrl : Z.of_nat (length row) = n1).
  { rewrite Forall_forall in Hrows. apply Hrows.
    apply list_elem_of_lookup. eauto. }
  exists (<[Z.to_nat i := <[Z.to_nat j := x]> row]> a).
  split; [|split].
  - unfold np_set2, np_index, np_set.
    rewrite np_pos_nonneg by lia. cbn [mbind option_bind]. rewrite Hrow.
    cbn [mbind option_bind]. rewrite np_pos_nonneg by lia.
    reflexivity.
  - split; [rewrite length_insert; exact Hlen|].
    apply Forall_insert; [exact Hrows|]. rewrite length_insert. exact Hrl.
  - intros i' j' Hi' Hj'. unfold np_index2, np_index.
    rewrite length_insert. rewrite np_pos_nonneg by lia.
    cbn [mbind option_bind].
    destruct (Z.eqb_spec i' i) as [->|Hne]; cbn [andb].
    + rewrite list_lookup_insert_eq by lia. cbn [mbind option_bind].
      rewrite Hrow. cbn [mbind option_bind].
      rewrite length_insert, np_pos_nonneg by lia. cbn [mbind option_bind].
      destruct (Z.eqb_spec j' j) as [->|Hnej].
      * apply list_lookup_insert_eq. lia.
      * rewrite list_lookup_insert_ne by lia. reflexivity.
    + rewrite list_lookup_insert_ne by lia. reflexivity.
Qed.

Lemma mark_points (n0 n1 : Z) (pts : list (Z * Z)) (a : list (list Z)) :
  has_shape n0 n1 a ->
  Forall (fun p : Z * Z => 0 <= p.1 < n0 /\ 0 <= p.2 < n1) pts ->
  exists a',
    foldlM (fun pm (ij : Z * Z) => np_set2 pm ij.1 ij.2 1) a pts = Some a' /\
    has_shape n0 n1 a' /\
    forall i j, 0 <= i < n0 -> 0 <= j < n1 ->
      np_index2 a' i j
      = if bool_decide ((i, j) ∈ pts) then Some 1 else np_index2 a i j.
Proof.
  intros Ha Hpts. revert a Ha.
  induction Hpts as [|[pi pj] pts [Hpi Hpj] _ IH]; intros a Ha.
  - exists a. split; [reflexivity|]. split; [exact Ha|].
    intros i j _ _. rewrite bool_decide_eq_false_2; [reflexivity|].
    apply not_elem_of_nil.
  - cbn [fst snd] in Hpi, Hpj.
    destruct (np_set2_in_shape n0 n1 pi pj a 1 Ha Hpi Hpj)
      as (a1 & Hset & Ha1 & Hget1).
    destruct (IH a1 Ha1) as (a' & Hfold & Ha' & Hget).
    exists a'. split; [|split; [exact Ha'|]].
    + cbn [foldlM fst snd]. rewrite Hset. exact Hfold.
    + intros i j Hi Hj. rewrite (Hget i j Hi Hj), (Hget1 i j Hi Hj).
      destruct (decide ((i, j) ∈ pts)) as [Hin|Hnin].
      * rewrite !bool_decide_eq_true_2; [reflexivity| |exact Hin].
        apply list_elem_of_further. exact Hin.
      * rewrite (bool_decide_eq_false_2 _ Hnin).
        destruct (Z.eqb_spec i pi) as [->|Hne];
          [destruct (Z.eqb_spec j pj) as [->|Hnej]|]; cbn [andb].
        -- rewrite bool_decide_eq_true_2; [reflexivity|].
           apply list_elem_of_here.
        -- rewrite bool_decide_eq_false_2; [reflexivity|].
           intros Hin. apply elem_of_cons in Hin as [Heq|Hin];
             [congruence|contradiction].
        -- rewrite bool_decide_eq_false_2; [reflexivity|].
           intros Hin. apply elem_of_cons in Hin as [Heq|Hin];
             [congruence|contradiction].
Qed.

Lemma calculate_pointsMatrix_positions (m : MATERIAL) (c : COMPONENT) :
  0 < nkx m -> 0 < nky m -> nks m = nkx m * nky m ->
  exists c',
    calculate_pointsMatrix m c = Some c' /\
    nodes c' = nodes c /\
    k_points c' = map (fun n => n mod nks m) (nodes c) /\
    forall i j, 0 <= i < nkx m -> 0 <= j < nky m ->
      np_index2 (positions_matrix c') i j
      = Some (if bool_decide (j * nkx m + i ∈ k_points c') then 1 else 0).
Proof.
  intros Hnkx Hnky Hnks. unfold calculate_pointsMatrix, c_nks.
  rewrite <- Hnks.
  set (ks := map (fun n => n mod nks m) (nodes c)).
  assert (Hks : Forall (fun k => 0 <= k < nks m) ks).
  { subst ks. apply Forall_fmap, Forall_forall. intros n _. simpl.
    apply Z.mod_pos_bound. nia. }
  assert (Hip : mapM (np_index (kpoints_index m)) ks
                = Some (map (fun k => (k mod nkx m, k / nkx m)) ks)).
  { apply mapM_Some. apply Forall2_fmap_r, Forall_Forall2_diag.
    eapply Forall_impl; [exact Hks|]. intros k Hk. cbv beta.
    apply np_index_make_kpoints_index. exact Hk. }
  rewrite Hip. cbn [mbind option_bind].
  destruct (mark_points (nkx m) (nky m)
              (map (fun k => (k mod nkx m, k / nkx m)) ks)
              (full2 (nkx m) (nky m) 0))
    as (pm & Hpm & _ & Hget).
  { apply has_shape_full2; lia. }
  { apply Forall_fmap. eapply Forall_impl; [exact Hks|].
    intros k Hk. unfold compose. cbn [fst snd].
    cbv beta in Hk. split; [apply Z.mod_pos_bound; lia|].
    split; [apply Z.div_pos; lia|]. apply Z.div_lt_upper_bound; lia. }
  rewrite Hpm. cbn [mbind option_bind]. eexists. split; [reflexivity|].
  cbn [nodes k_points positions_matrix].
  split; [reflexivity|]. split; [reflexivity|].
  intros i j Hi Hj. rewrite (Hget i j Hi Hj), np_index2_full2 by assumption.
  assert (Hiff : (i, j) ∈ map (fun k => (k mod nkx m, k / nkx m)) ks
                 <-> j * nkx m + i ∈ ks).
  { rewrite list_elem_of_fmap. split.
    - intros (k & Heq & Hk). injection Heq as -> ->.
      replace (k / nkx m * nkx m + k mod nkx m) with k; [exact Hk|].
      pose proof (Z.div_mod k (nkx m)). lia.
    - intros Hk. exists (j * nkx m + i). split; [|exact Hk]. f_equal.
      + rewrite Z.add_comm, Z.mod_add by lia. symmetry.
        apply Z.mod_small. lia.
      + rewrite Z.add_comm, Z.div_add by lia.
        rewrite Z.div_small by lia. lia. }
  destruct (decide (j * nkx m + i ∈ ks)) as [Hin|Hnin].
  - rewrite !bool_decide_eq_true_2; [reflexivity|exact Hin|].
    apply Hiff. exact Hin.
  - rewrite !bool_decide_eq_false_2; [reflexivity|exact Hnin|].
    rewrite Hiff. exact Hnin.
Qed.

Lemma at2_np_index2 (a : list (list Z)) (i j x : Z) :
  0 <= i -> 0 <= j -> np_index2 a i j = Some x -> at2 a i j = x.
Proof.
  intros Hi Hj H. apply np_index2_Some in H as (p & q & row & Hp & Hrow & Hq & Hx).
  unfold np_pos in Hp, Hq.
  destruct ((0 <=? i) && (i <? Z.of_nat (length a))) eqn:E1.
  2:{ destruct ((- Z.of_nat (length a) <=? i) && (i <? 0)) eqn:E2;
        [lia|discriminate]. }
  destruct ((0 <=? j) && (j <? Z.of_nat (length row))) eqn:E3.
  2:{ destruct ((- Z.of_nat (length row) <=? j) && (j <? 0)) eqn:E4;
        [lia|discriminate]. }
  injection Hp as <-. injection Hq as <-. unfold at2.
  apply nth_lookup_Some with (d := []) in Hrow. rewrite Hrow.
  apply nth_lookup_Some with (d := 0) in Hx. exact Hx.
Qed.

(** X16: on a proper grid [calculate_pointsMatrix] never raises; the mask
    [positions_matrix] holds 1 exactly at the grid positions of the k
    points of the component and 0 elsewhere; the boundary points that
    [calc_boundary] then stores are k points of the component, and there
    is at least one when the component has a node. *)
Theorem component_mask_and_boundary (m : MATERIAL) (c : COMPONENT) :
  0 < nkx m -> 0 < nky m -> nks m = nkx m * nky m ->
  exists c',
    calculate_pointsMatrix m c = Some c' /\
    k_points c' = map (fun n => n mod nks m) (nodes c) /\
    (forall i j, 0 <= i < nkx m -> 0 <= j < nky m ->
       np_index2 (positions_matrix c') i j
       = Some (if bool_decide (j * nkx m + i ∈ k_points c') then 1 else 0)) /\
    (forall k, k ∈ k_edges (calc_boundary m c') -> k ∈ k_points c') /\
    (nodes c <> [] -> k_edges (calc_boundary m c') <> []).
Proof.
  intros Hnkx Hnky Hnks.
  destruct (calculate_pointsMatrix_positions m c Hnkx Hnky Hnks)
    as (c' & Hc' & Hnodes & Hks & Hmask).
  exists c'. split; [exact Hc'|]. split; [exact Hks|].
  split; [exact Hmask|].
  unfold calc_boundary. cbv zeta. cbn [set_k_edges k_edges].
  unfold c_nks. rewrite <- Hnks.
  match goal with
  | |- context [match ?l with [] => _ | _ :: _ => ?l' end] =>
      set (found := l)
  end.
  assert (Hfound : forall k, k ∈ found -> k ∈ k_points c').
  { intros k Hk. subst found.
    apply list_elem_of_bind in Hk as (i & Hk & Hi).
    apply list_elem_of_bind in Hk as (j & Hk & Hj).
    apply elem_of_arange in Hi, Hj.
    destruct (0 <? _) eqn:Hb; [|inversion Hk].
    apply list_elem_of_singleton in Hk. subst k.
    specialize (Hmask i j ltac:(lia) ltac:(lia)).
    apply at2_np_index2 in Hmask; [|lia|lia].
    rewrite (at2_np_index2 (matrix m) i j (j * nkx m + i));
      [|lia|lia|apply np_index2_make_matrix; lia].
    destruct (bool_decide (j * nkx m + i ∈ k_points c')) eqn:E.
    - apply bool_decide_eq_true in E. exact E.
    - rewrite Hmask in Hb. apply Z.ltb_lt in Hb. lia. }
  split.
  - intros k. destruct found as [|k0 found'] eqn:Ef.
    + rewrite Hnodes, Hks. auto.
    + apply Hfound.
  - intros Hne. destruct found as [|k0 found'] eqn:Ef; [|discriminate].
    rewrite Hnodes. destruct (nodes c); [contradiction|discriminate].
Qed.

Lemma grid_map (f : Z -> Z -> Z) (g : Z -> Z) (key : Z -> Z -> Z)
    (l l' : list Z) :
  (forall i j, i ∈ l -> j ∈ l' -> f i j = g (key i j)) ->
  (i ← l; j ← l'; [f i j]) = map g (i ← l; j ← l'; [key i j]).
Proof.
  intros H. induction l as [|i l IH]; [reflexivity|].
  cbn [mbind list_bind]. rewrite map_app. f_equal.
  - assert (Hi : forall j, j ∈ l' -> f i j = g (key i j)).
    { intros j Hj. apply H; [apply list_elem_of_here|exact Hj]. }
    clear -Hi. induction l' as [|j l' IH']; [reflexivity|].
    cbn [mbind list_bind app map]. f_equal.
    + apply Hi, list_elem_of_here.
    + apply IH'. intros j' Hj'. apply Hi, list_elem_of_further, Hj'.
  - apply IH. intros i' j Hi' Hj. apply H; [|exact Hj].
    apply list_elem_of_further, Hi'.
Qed.

Lemma elem_of_grid_keys (nkx nky k : Z) :
  0 < nkx -> k ∈ grid_keys nkx nky <-> 0 <= k < nkx * nky.
Proof.
  intros Hnkx. unfold grid_keys. rewrite list_elem_of_bind. split.
  - intros (i & Hk & Hi). apply list_elem_of_bind in Hk as (j & Hk & Hj).
    apply list_elem_of_singleton in Hk. apply elem_of_arange in Hi, Hj. nia.
  - intros Hk. exists (k mod nkx).
    assert (0 <= k mod nkx < nkx) by (apply Z.mod_pos_bound; lia).
    split; [|apply elem_of_arange; lia].
    apply list_elem_of_bind. exists (k / nkx). split.
    + apply list_elem_of_singleton. pose proof (Z.div_mod k nkx). lia.
    + apply elem_of_arange. split; [apply Z.div_pos; lia|].
      apply Z.div_lt_upper_bound; lia.
Qed.

Lemma NoDup_grid_keys (nkx nky : Z) : 0 < nkx -> NoDup (grid_keys nkx nky).
Proof.
  intros Hnkx. unfold grid_keys. apply NoDup_bind.
  - intros i1 i2 k Hi1 Hi2 Hk1 Hk2.
    apply list_elem_of_bind in Hk1 as (j1 & Hk1 & Hj1).
    apply list_elem_of_bind in Hk2 as (j2 & Hk2 & Hj2).
    apply list_elem_of_singleton in Hk1, Hk2.
    apply elem_of_arange in Hi1, Hi2.
    assert (k mod nkx = i1).
    { subst k. rewrite Z.add_comm, Z.mod_add by lia. apply Z.mod_small. lia. }
    assert (k mod nkx = i2).
    { rewrite Hk2. rewrite Z.add_comm, Z.mod_add by lia.
      apply Z.mod_small. lia. }
    congruence.
  - intros i Hi. apply NoDup_bind.
    + intros j1 j2 k _ _ Hk1 Hk2.
      apply list_elem_of_singleton in Hk1, Hk2. nia.
    + intros j _. apply NoDup_singleton.
    + apply NoDup_seqZ.
  - apply NoDup_seqZ.
Qed.

Lemma sumZ_mask_at (ks L : list Z) :
  sumZ (map (mask_at ks) L)
  = Z.of_nat (length (filter (fun k => k ∈ ks) L)).
Proof.
  induction L as [|k L IH]; [reflexivity|].
  cbn [map sumZ foldr]. fold (sumZ (map (mask_at ks) L)). rewrite IH.
  rewrite filter_cons. unfold mask_at.
  destruct (decide (k ∈ ks)) as [Hin|Hnin].
  - rewrite bool_decide_eq_true_2 by exact Hin. simpl length. lia.
  - rewrite bool_decide_eq_false_2 by exact Hnin. lia.
Qed.

Lemma length_remove_dups (l : list Z) :
  (length (remove_dups l) <= length l)%nat /\
  (length (remove_dups l) = length l -> NoDup l).
Proof.
  induction l as [|x l [IH1 IH2]]; [split; [reflexivity|constructor]|].
  cbn [remove_dups]. destruct (decide_rel _ x l) as [Hin|Hnin].
  - split; [simpl; lia|]. simpl. lia.
  - split; [simpl; lia|]. simpl. intros H.
    constructor; [exact Hnin|]. apply IH2. lia.
Qed.

Lemma count_mask (ks L : list Z) :
  NoDup L -> (forall k, k ∈ ks -> k ∈ L) ->
  sumZ (map (mask_at ks) L) = Z.of_nat (length (remove_dups ks)).
Proof.
  intros HL Hks. rewrite sumZ_mask_at. f_equal.
  apply Permutation_length, NoDup_Permutation.
  - apply NoDup_filter. exact HL.
  - apply NoDup_remove_dups.
  - intros k. rewrite list_elem_of_filter, elem_of_remove_dups.
    split; [tauto|]. intros H. split; [exact H|apply Hks, H].
Qed.

Lemma sumZ_xor (ksA ksB L : list Z) :
  sumZ (map (fun k => Z.lxor (mask_at ksA k) (mask_at ksB k)) L)
  = sumZ (map (mask_at ksA) L) + sumZ (map (mask_at ksB) L)
    - 2 * sumZ (map (fun k => mask_at ksA k * mask_at ksB k) L).
Proof.
  induction L as [|k L IH]; [reflexivity|].
  cbn [map sumZ foldr]. unfold sumZ in IH. rewrite IH.
  unfold mask_at. destruct (bool_decide (k ∈ ksA)), (bool_decide (k ∈ ksB));
    rewrite ?Z.lxor_nilpotent, ?Z.lxor_0_r, ?Z.lxor_0_l; lia.
Qed.

Lemma sumZ_both (ksA ksB L : list Z) :
  0 <= sumZ (map (fun k => mask_at ksA k * mask_at ksB k) L) /\
  (sumZ (map (fun k => mask_at ksA k * mask_at ksB k) L) = 0
   <-> forall k, k ∈ L -> k ∈ ksA -> k ∉ ksB).
Proof.
  induction L as [|k L [IH1 IH2]].
  - split; [reflexivity|]. split; [|reflexivity].
    intros _ k Hk. inversion Hk.
  - cbn [map sumZ foldr]. unfold sumZ in IH1, IH2. unfold mask_at at 1 2 5 6.
    destruct (decide (k ∈ ksA)) as [HA|HA], (decide (k ∈ ksB)) as [HB|HB];
      rewrite ?(bool_decide_eq_true_2 _ HA), ?(bool_decide_eq_true_2 _ HB),
        ?(bool_decide_eq_false_2 _ HA), ?(bool_decide_eq_false_2 _ HB).
    + split; [lia|]. split; [lia|]. intros H. exfalso.
      exact (H k (list_elem_of_here _ _) HA HB).
    + split; [lia|]. rewrite Z.mul_0_r, Z.add_0_l, IH2. split.
      * intros H k' Hk'. apply elem_of_cons in Hk' as [->|Hk']; auto.
      * intros H k' Hk'. apply H, list_elem_of_further, Hk'.
    + split; [lia|]. rewrite Z.mul_0_l, Z.add_0_l, IH2. split.
      * intros H k' Hk'. apply elem_of_cons in Hk' as [->|Hk'];
          [contradiction|auto].
      * intros H k' Hk'. apply H, list_elem_of_further, Hk'.
    + split; [lia|]. rewrite Z.mul_0_l, Z.add_0_l, IH2. split.
      * intros H k' Hk'. apply elem_of_cons in Hk' as [->|Hk'];
          [contradiction|auto].
      * intros H k' Hk'. apply H, list_elem_of_further, Hk'.
Qed.

Lemma sumZ_xor_le (ksA ksB L : list Z) :
  sumZ (map (fun k => Z.lxor (mask_at ksA k) (mask_at ksB k)) L)
  <= Z.of_nat (length L).
Proof.
  induction L as [|k L IH]; [reflexivity|].
  cbn [map sumZ foldr length]. unfold sumZ in IH. unfold mask_at at 1 2.
  destruct (bool_decide (k ∈ ksA)), (bool_decide (k ∈ ksB));
    rewrite ?Z.lxor_nilpotent, ?Z.lxor_0_r, ?Z.lxor_0_l; lia.
Qed.

Lemma calculate_pointsMatrix_N (m : MATERIAL) c c' :
  calculate_pointsMatrix m c = Some c' -> N c' = N c.
Proof.
  unfold calculate_pointsMatrix.
  destruct (mapM _ _); [|discriminate]. cbn [mbind option_bind].
  destruct (foldlM _ _ _); [|discriminate]. cbn [mbind option_bind].
  intros H. injection H as <-. reflexivity.
Qed.

(** *** The merger joins compatible components *)

Lemma masked_at (m : MATERIAL) (c : COMPONENT) (i j : Z) :
  masked m c -> 0 <= i < nkx m -> 0 <= j < nky m ->
  np_index2 (positions_matrix c) i j
  = Some (mask_at (k_points c) (j * nkx m + i)).
Proof.
  intros (_ & _ & H) Hi Hj. rewrite Forall_forall in H.
  specialize (H i). rewrite Forall_forall in H.
  apply H; apply elem_of_arange; lia.
Qed.

Lemma remove_dups_NoDup (l : list Z) : NoDup l -> remove_dups l = l.
Proof.
  induction 1 as [|x l Hx _ IH]; [reflexivity|].
  simpl. case_decide; [contradiction|]. rewrite IH. reflexivity.
Qed.

Lemma filter_Forall_id {A} (P : A -> Prop) `{!forall x, Decision (P x)}
    (l : list A) :
  Forall P l -> filter P l = l.
Proof.
  induction 1 as [|x l Hx _ IH]; [reflexivity|].
  rewrite filter_cons_True by exact Hx. rewrite IH. reflexivity.
Qed.

Lemma np_max_elem (l : list Q) (mx : Q) :
  np_max l = Some mx ->
  (exists e, e ∈ l /\ (mx == e)%Q) /\ Forall (fun e => (e <= mx)%Q) l.
Proof.
  destruct l as [|x l]; [discriminate|]. simpl. intros [= <-].
  assert (H : forall a,
            ((fold_left Qmax l a == a)%Q \/
             exists e, e ∈ l /\ (fold_left Qmax l a == e)%Q) /\
            (a <= fold_left Qmax l a)%Q /\
            Forall (fun e => (e <= fold_left Qmax l a)%Q) l).
  { induction l as [|y l IH]; intros a; simpl.
    - split; [left; reflexivity|]. split; [apply Qle_refl|constructor].
    - destruct (IH (Qmax a y)) as (Hel & Hle & Hall).
      pose proof (Q.le_max_l a y). pose proof (Q.le_max_r a y).
      split; [|split].
      + destruct Hel as [Heq|(e & He & Heq)].
        * destruct (Q.max_dec a y) as [Hd|Hd].
          -- left. rewrite Heq. exact Hd.
          -- right. exists y. split; [apply list_elem_of_here|].
             rewrite Heq. exact Hd.
        * right. exists e. split; [apply list_elem_of_further, He|exact Heq].
      + lra.
      + constructor; [lra|exact Hall]. }
  destruct (H x) as (Hel & Hle & Hall). split.
  - destruct Hel as [Heq|(e & He & Heq)].
    + exists x. split; [apply list_elem_of_here|exact Heq].
    + exists e. split; [apply list_elem_of_further, He|exact Heq].
  - constructor; assumption.
Qed.

Section Masked.

Variable m : MATERIAL.
Hypothesis Hnkx : 0 < nkx m.
Hypothesis Hnky : 0 < nky m.
Hypothesis Hnks : nks m = nkx m * nky m.

Lemma validate_masked (a b : COMPONENT) :
  masked m a -> masked m b ->
  validate m a b = true
  <-> NoDup (k_points a) /\ NoDup (k_points b) /\
      forall k, k ∈ k_points a -> k ∉ k_points b.
Proof.
  intros Ha Hb.
  pose proof (masked_at m a) as Hma. pose proof (masked_at m b) as Hmb.
  specialize (fun i j => Hma i j Ha). specialize (fun i j => Hmb i j Hb).
  destruct Ha as (HNa & Hka & _). destruct Hb as (HNb & Hkb & _).
  set (A := k_points a) in *. set (B := k_points b) in *.
  set (L := grid_keys (nkx m) (nky m)).
  assert (HL : NoDup L) by (apply NoDup_grid_keys; exact Hnkx).
  assert (HinL : forall ks n, ks = map (fun n => n mod nks m) (nodes n) ->
            forall k, k ∈ ks -> k ∈ L).
  { intros ks n -> k Hk. apply list_elem_of_fmap in Hk as (x & -> & _).
    apply elem_of_grid_keys; [exact Hnkx|]. rewrite <- Hnks.
    apply Z.mod_pos_bound. nia. }
  assert (HlenA : Z.of_nat (length A) = N a).
  { rewrite HNa. subst A. rewrite Hka, length_map. reflexivity. }
  assert (HlenB : Z.of_nat (length B) = N b).
  { rewrite HNb. subst B. rewrite Hkb, length_map. reflexivity. }
  assert (Hsum : foldr Z.add 0
            (i ← arange 0 (nkx m);
             j ← arange 0 (nky m);
             [Z.lxor (at2 (positions_matrix a) i j)
                     (at2 (positions_matrix b) i j)])
          = sumZ (map (fun k => Z.lxor (mask_at A k) (mask_at B k)) L)).
  { unfold sumZ. f_equal. subst L. unfold grid_keys.
    apply (grid_map _ (fun k => Z.lxor (mask_at A k) (mask_at B k))
                    (fun i j => j * nkx m + i)).
    intros i j Hi Hj. apply elem_of_arange in Hi, Hj.
    assert (Hi' : 0 <= i < nkx m) by lia.
    assert (Hj' : 0 <= j < nky m) by lia.
    pose proof (Hma i j Hi' Hj') as H1.
    pose proof (Hmb i j Hi' Hj') as H2.
    apply at2_np_index2 in H1; [|lia|lia].
    apply at2_np_index2 in H2; [|lia|lia].
    rewrite H1, H2. reflexivity. }
  unfold validate. rewrite Hsum. unfold c_nks. rewrite <- Hnks.
  rewrite sumZ_xor.
  rewrite (count_mask A L HL (HinL A a Hka)).
  rewrite (count_mask B L HL (HinL B b Hkb)).
  pose proof (sumZ_xor_le A B L) as Hle. rewrite sumZ_xor in Hle.
  rewrite (count_mask A L HL (HinL A a Hka)) in Hle.
  rewrite (count_mask B L HL (HinL B b Hkb)) in Hle.
  destruct (sumZ_both A B L) as [Hnn Hzero].
  destruct (length_remove_dups A) as [HA1 HA2].
  destruct (length_remove_dups B) as [HB1 HB2].
  rewrite andb_true_iff, Z.leb_le, Z.eqb_eq. split.
  - intros [_ Heq].
    assert (Hz : sumZ (map (fun k => mask_at A k * mask_at B k) L) = 0)
      by lia.
    split; [apply HA2; lia|]. split; [apply HB2; lia|].
    intros k Hk. apply (proj1 Hzero Hz); [|exact Hk].
    exact (HinL A a Hka k Hk).
  - intros (HndA & HndB & Hdisj).
    assert (Hz : sumZ (map (fun k => mask_at A k * mask_at B k) L) = 0).
    { apply Hzero. intros k _. apply Hdisj. }
    assert (length (remove_dups A) = length A).
    { apply Permutation_length, NoDup_Permutation;
        [apply NoDup_remove_dups|exact HndA|].
      intros k. apply elem_of_remove_dups. }
    assert (length (remove_dups B) = length B).
    { apply Permutation_length, NoDup_Permutation;
        [apply NoDup_remove_dups|exact HndB|].
      intros k. apply elem_of_remove_dups. }
    assert (Hall : Z.of_nat (length L) = nks m).
    { assert (HP : L ≡ₚ arange 0 (nks m)).
      { apply NoDup_Permutation; [exact HL|apply NoDup_seqZ|].
        intros k. subst L. rewrite elem_of_grid_keys, elem_of_arange by lia.
        rewrite Hnks. reflexivity. }
      rewrite (Permutation_length HP). unfold arange. rewrite length_seqZ.
      assert (0 < nks m) by nia. lia. }
    lia.
Qed.

Lemma calculate_pointsMatrix_masked (c c' : COMPONENT) :
  N c = Z.of_nat (length (nodes c)) ->
  calculate_pointsMatrix m c = Some c' -> masked m c'.
Proof.
  intros HN Hc.
  destruct (calculate_pointsMatrix_positions m c Hnkx Hnky Hnks)
    as (c1 & Hc1 & Hn & Hk & Hm).
  rewrite Hc in Hc1. injection Hc1 as <-.
  split; [|split].
  - rewrite (calculate_pointsMatrix_N _ _ _ Hc), HN, Hn. reflexivity.
  - rewrite Hk, Hn. reflexivity.
  - apply Forall_forall. intros i Hi. apply Forall_forall. intros j Hj.
    apply elem_of_arange in Hi, Hj. apply Hm; lia.
Qed.

Lemma calc_boundary_masked (c : COMPONENT) :
  masked m c -> masked m (calc_boundary m c).
Proof. intros H. exact H. Qed.

Lemma set_was_modified_masked (b : bool) (c : COMPONENT) :
  masked m c -> masked m (set_was_modified b c).
Proof. intros H. exact H. Qed.

Lemma join_masked (self component j : COMPONENT) :
  join m self component = Some j -> masked m j.
Proof.
  unfold join.
  destruct (calculate_pointsMatrix _ _) as [c|] eqn:Hc; [|discriminate].
  cbn [mbind option_bind]. intros [= <-].
  apply calc_boundary_masked.
  eapply calculate_pointsMatrix_masked; [|exact Hc]. reflexivity.
Qed.

Lemma join_disjoint (self component j : COMPONENT) :
  masked m self -> masked m component ->
  NoDup (k_points self) -> NoDup (k_points component) ->
  (forall k, k ∈ k_points self -> k ∉ k_points component) ->
  join m self component = Some j ->
  nodes j = nodes self ++ nodes component /\ NoDup (k_points j).
Proof.
  intros (_ & Hks & _) (_ & Hkc & _) Hns Hnc Hdisj Hj.
  pose proof (join_masked _ _ _ Hj) as (_ & Hkj & _).
  assert (Hnodes : nodes j = nodes self ++ nodes component).
  { unfold join in Hj.
    destruct (calculate_pointsMatrix _ _) as [c|] eqn:Hc; [|discriminate].
    cbn [mbind option_bind] in Hj. injection Hj as <-.
    rewrite calc_boundary_nodes, (calculate_pointsMatrix_nodes _ _ _ Hc).
    cbn [nodes]. f_equal.
    assert (Hnd : NoDup (nodes component)).
    { rewrite Hkc in Hnc. eapply NoDup_fmap_1, Hnc. }
    rewrite (remove_dups_NoDup _ Hnd).
    apply filter_Forall_id. apply Forall_forall. intros n Hn Hn'.
    apply (Hdisj (n mod nks m)).
    - rewrite Hks. apply list_elem_of_fmap. eauto.
    - rewrite Hkc. apply list_elem_of_fmap. eauto. }
  split; [exact Hnodes|].
  rewrite Hkj, Hnodes, map_app, <- Hks, <- Hkc.
  apply NoDup_app. split; [exact Hns|]. split; [exact Hdisj|exact Hnc].
Qed.

Variable curve_fit : list Z -> list Q -> Q * Q * Q.
Variable energies : list (list (list Q)).
Variable tol : Q.

Lemma get_cluster_score_masked self cluster r :
  masked m self ->
  get_cluster_score m curve_fit energies self cluster tol = Some r ->
  masked m r.2.
Proof.
  intros Hs. unfold get_cluster_score. destruct (was_modified cluster).
  - destruct (scores self !! id_ cluster); [|discriminate].
    cbn [mbind option_bind]. intros [= <-]. exact Hs.
  - destruct (boundary_score _ _ _ _ _ _); [|discriminate].
    cbn [mbind option_bind]. intros [= <-]. exact Hs.
Qed.

(** The pairs [(cluster, sample)] that [validate] accepts. *)
Local Abbreviation compatible :=
  (fun a b : COMPONENT =>
     NoDup (k_points a) /\ NoDup (k_points b) /\
     forall k, k ∈ k_points a -> k ∉ k_points b).

Lemma score_sample_step (sample : COMPONENT) (pre clusters : list COMPONENT)
    (scores scores' : list Q) (s0 s' : COMPONENT) :
  Forall (masked m) clusters ->
  masked m s0 -> nodes s0 = nodes sample ->
  length scores = length pre ->
  (forall j s cl, scores !! j = Some s -> ~ (s == 0)%Q ->
                  pre !! j = Some cl -> compatible cl s0) ->
  foldlM (fun (acc : list Q * COMPONENT) cluster =>
            let '(scores, sample) := acc in
            if negb (validate m cluster sample)
            then Some (scores ++ [0%Q], sample)
            else
              sample ← (if bool_decide (length (k_edges sample) = 0%nat)
                        then calc_boundary m <$> calculate_pointsMatrix m sample
                        else Some sample);
              r ← get_cluster_score m curve_fit energies sample cluster tol;
              Some (scores ++ [r.1], r.2))
         (scores, s0) clusters = Some (scores', s') ->
  masked m s' /\ nodes s' = nodes sample /\
  length scores' = length (pre ++ clusters) /\
  (forall j s cl, scores' !! j = Some s -> ~ (s == 0)%Q ->
                  (pre ++ clusters) !! j = Some cl -> compatible cl s').
Proof.
  intros Hcl. revert pre scores s0.
  induction Hcl as [|cluster clusters Hc _ IH];
    intros pre scores s0 Hm Hn Hlen Hinv; simpl.
  - intros [= <- <-]. rewrite app_nil_r. auto.
  - assert (Hk : forall a b, masked m a -> masked m b -> nodes a = nodes b ->
                             k_points a = k_points b).
    { intros a b (_ & Ha & _) (_ & Hb & _) Hab. rewrite Ha, Hb, Hab.
      reflexivity. }
    assert (Hstep : forall x s1, masked m s1 -> nodes s1 = nodes sample ->
              (~ (x == 0)%Q -> validate m cluster s0 = true) ->
              foldlM (fun (acc : list Q * COMPONENT) cluster =>
                let '(scores, sample) := acc in
                if negb (validate m cluster sample)
                then Some (scores ++ [0%Q], sample)
                else
                  sample ← (if bool_decide (length (k_edges sample) = 0%nat)
                            then calc_boundary m <$> calculate_pointsMatrix m sample
                            else Some sample);
                  r ← get_cluster_score m curve_fit energies sample cluster tol;
                  Some (scores ++ [r.1], r.2))
                (scores ++ [x], s1) clusters = Some (scores', s') ->
              masked m s' /\ nodes s' = nodes sample /\
              length scores' = length (pre ++ cluster :: clusters) /\
              (forall j s cl, scores' !! j = Some s -> ~ (s == 0)%Q ->
                 (pre ++ cluster :: clusters) !! j = Some cl ->
                 compatible cl s')).
    { intros x s1 Hm1 Hn1 Hx Hf.
      assert (Hk01 : k_points s0 = k_points s1).
      { apply Hk; [assumption..|]. congruence. }
      rewrite cons_middle, app_assoc.
      apply (IH (pre ++ [cluster]) (scores ++ [x]) s1); try assumption.
      - rewrite !length_app. simpl. lia.
      - intros j s cl Hs Hs0 Hj.
        destruct (decide (j < length pre)%nat) as [Hlt|Hge].
        + rewrite lookup_app_l in Hs by lia.
          rewrite lookup_app_l in Hj by lia.
          specialize (Hinv j s cl Hs Hs0 Hj). rewrite <- Hk01. exact Hinv.
        + assert (j = length pre).
          { apply lookup_lt_Some in Hj. rewrite length_app in Hj.
            simpl in Hj. lia. }
          subst j. rewrite lookup_app_r in Hs by lia.
          rewrite lookup_app_r in Hj by lia.
          rewrite Hlen, Nat.sub_diag in Hs. rewrite Nat.sub_diag in Hj.
          simpl in Hs, Hj. injection Hs as <-. injection Hj as <-.
          rewrite <- Hk01. apply validate_masked; auto. }
    destruct (validate m cluster s0) eqn:Hv; cbn [negb].
    + destruct (bool_decide (length (k_edges s0) = 0%nat)).
      * destruct (calculate_pointsMatrix m s0) as [s1|] eqn:H1;
          [|discriminate].
        cbn [fmap option_fmap option_map mbind option_bind].
        destruct (get_cluster_score _ _ _ _ _ _) as [r|] eqn:Hr;
          [|discriminate].
        cbn [mbind option_bind].
        assert (Hm1 : masked m (calc_boundary m s1)).
        { apply calc_boundary_masked.
          eapply calculate_pointsMatrix_masked; [|exact H1]. apply Hm. }
        apply Hstep; [| |auto].
        -- eapply get_cluster_score_masked; eauto.
        -- rewrite (get_cluster_score_nodes _ _ _ _ _ _ _ Hr),
             calc_boundary_nodes, (calculate_pointsMatrix_nodes _ _ _ H1).
           exact Hn.
      * cbn [mbind option_bind].
        destruct (get_cluster_score _ _ _ _ _ _) as [r|] eqn:Hr;
          [|discriminate].
        cbn [mbind option_bind]. apply Hstep; [| |auto].
        -- eapply get_cluster_score_masked; eauto.
        -- rewrite (get_cluster_score_nodes _ _ _ _ _ _ _ Hr). exact Hn.
    + apply Hstep; [exact Hm|exact Hn|]. intros Hx. exfalso. apply Hx.
      reflexivity.
Qed.

Lemma evaluate_round_masked clusters samples ev samples' :
  Forall (masked m) clusters -> Forall (masked m) samples ->
  evaluate_round m curve_fit energies tol clusters samples
    = Some (ev, samples') ->
  Forall (masked m) samples'.
Proof.
  intros Hcl Hsa. unfold evaluate_round.
  destruct (mapM _ samples) as [scored|] eqn:Hm; [|discriminate].
  cbn [mbind option_bind]. intros [= <- <-].
  apply mapM_Some_1 in Hm. apply Forall_fmap.
  induction Hm as [|sample r samples scored Hr _ IH]; [constructor|].
  inversion_clear Hsa as [|? ? Hs1 Hs2]. constructor; [|auto].
  destruct (score_sample _ _ _ _ _ _) as [[scores s1]|] eqn:Hss;
    [|discriminate].
  cbn [mbind option_bind fst snd] in Hr.
  destruct (np_max _); [|discriminate]. cbn [mbind option_bind] in Hr.
  destruct (argmax _); [|discriminate]. cbn [mbind option_bind] in Hr.
  injection Hr as <-. simpl. unfold score_sample in Hss.
  apply (score_sample_step sample []) in Hss as (Hm1 & _);
    [exact Hm1|exact Hcl|exact Hs1|reflexivity|reflexivity|].
  intros j s cl H. discriminate.
Qed.

Lemma partition_step_masked st component st' :
  N component = Z.of_nat (length (nodes component)) ->
  Forall (masked m) st.1.2 -> Forall (masked m) st.2 ->
  partition_step m st component = Some st' ->
  Forall (masked m) st'.1.2 /\ Forall (masked m) st'.2.
Proof.
  destruct st as [[solved clusters] samples]. cbn [fst snd].
  intros HN Hcl Hsa. unfold partition_step.
  destruct (N component =? nks m).
  { intros [= <-]. auto. }
  destruct (calculate_pointsMatrix m component) as [c|] eqn:Hc;
    [|discriminate].
  cbn [mbind option_bind].
  assert (Hmc : masked m (calc_boundary m c)).
  { apply calc_boundary_masked. eapply calculate_pointsMatrix_masked; eauto. }
  case_bool_decide.
  { intros [= <-]. cbn [fst snd]. split; [|exact Hsa].
    apply Forall_app. auto. }
  destruct (negb _); intros [= <-]; cbn [fst snd].
  - split; [|exact Hsa]. apply Forall_app. auto.
  - split; [exact Hcl|]. apply Forall_app. auto.
Qed.

Lemma partition_masked components st :
  Forall (fun c => N c = Z.of_nat (length (nodes c))) components ->
  partition m components = Some st ->
  Forall (masked m) st.1.2 /\ Forall (masked m) st.2.
Proof.
  intros HN. unfold partition.
  destruct (mapM _ _) as [sorted|] eqn:Hs; [|discriminate].
  cbn [mbind option_bind].
  assert (Hin : forall c, c ∈ sorted -> c ∈ components).
  { apply mapM_Some_1 in Hs. clear -Hs.
    induction Hs as [|i c is_ cs Hc _ IH]; intros c' Hc'.
    - inversion Hc'.
    - apply elem_of_cons in Hc' as [->|Hc']; [|auto].
      apply list_elem_of_lookup. eauto. }
  apply (foldlM_invariant
           (fun st => Forall (masked m) st.1.2 /\ Forall (masked m) st.2)).
  - intros a c a' Hc [H1 H2]. apply partition_step_masked; [|exact H1|exact H2].
    rewrite Forall_forall in HN. auto.
  - split; constructor.
Qed.

End Masked.

(** X17: for two components whose masks were computed, [validate]
    accepts exactly when each component holds at most one node per k
    point and the two components share no k point. *)
Theorem validate_disjoint (m : MATERIAL) (self component self' component' : COMPONENT) :
  0 < nkx m -> 0 < nky m -> nks m = nkx m * nky m ->
  N self = Z.of_nat (length (nodes self)) ->
  N component = Z.of_nat (length (nodes component)) ->
  calculate_pointsMatrix m self = Some self' ->
  calculate_pointsMatrix m component = Some component' ->
  validate m self' component' = true
  <-> NoDup (k_points self') /\ NoDup (k_points component') /\
      forall k, k ∈ k_points self' -> k ∉ k_points component'.
Proof.
  intros Hnkx Hnky Hnks HNs HNc Hs Hc.
  exact (validate_masked m Hnkx Hnky Hnks self' component'
           (calculate_pointsMatrix_masked m Hnkx Hnky Hnks _ _ HNs Hs)
           (calculate_pointsMatrix_masked m Hnkx Hnky Hnks _ _ HNc Hc)).
Qed.

Lemma component_mask_and_boundary_witness :
  exists c',
    calculate_pointsMatrix chain4 (new_component [1; 2]) = Some c' /\
    k_points c' = map (fun n => n mod nks chain4)
                      (nodes (new_component [1; 2])) /\
    (forall i j, 0 <= i < nkx chain4 -> 0 <= j < nky chain4 ->
       np_index2 (positions_matrix c') i j
       = Some (if bool_decide (j * nkx chain4 + i ∈ k_points c')
               then 1 else 0)) /\
    (forall k, k ∈ k_edges (calc_boundary chain4 c') -> k ∈ k_points c') /\
    (nodes (new_component [1; 2]) <> [] ->
     k_edges (calc_boundary chain4 c') <> []).
Proof.
  apply (component_mask_and_boundary chain4 (new_component [1; 2])).
  - simpl. lia.
  - simpl. lia.
  - reflexivity.
Defined.

Lemma validate_disjoint_witness :
  let self' := default (new_component [])
                 (calculate_pointsMatrix chain4 (new_component [1; 2])) in
  let component' := default (new_component [])
                      (calculate_pointsMatrix chain4 (new_component [3])) in
  validate chain4 self' component' = true
  <-> NoDup (k_points self') /\ NoDup (k_points component') /\
      forall k, k ∈ k_points self' -> k ∉ k_points component'.
Proof.
  apply (validate_disjoint chain4 (new_component [1; 2]) (new_component [3])).
  - simpl. lia.
  - simpl. lia.
  - reflexivity.
  - reflexivity.
  - reflexivity.
  - vm_compute. reflexivity.
  - vm_compute. reflexivity.
Defined.
(** *** [get_bands] *)

Lemma unique_Permutation (a : list Z) : unique a ≡ₚ remove_dups a.
Proof. unfold unique. apply merge_sort_Permutation. Qed.

Lemma map_nth_seq {A} (l : list A) (d : A) :
  map (fun i => nth i l d) (seq 0 (length l)) = l.
Proof.
  apply list_eq. intros i. rewrite list_lookup_fmap.
  destruct (decide (i < length l)%nat) as [Hi|Hi].
  - rewrite lookup_seq_lt by exact Hi. simpl.
    destruct (lookup_lt_is_Some_2 l i Hi) as [x Hx]. rewrite Hx.
    f_equal. apply nth_lookup_Some with (d := d) in Hx. exact Hx.
  - rewrite lookup_seq_ge by lia. rewrite lookup_ge_None_2 by lia. reflexivity.
Qed.

Lemma reverse_argsort_decreasing (a : list Z) (i j p q : nat) :
  (i <= j)%nat ->
  reverse (argsort a) !! i = Some p -> reverse (argsort a) !! j = Some q ->
  nth q a 0 <= nth p a 0.
Proof.
  intros Hij Hp Hq.
  pose proof (argsort_sorted a) as Hs.
  apply Sorted_StronglySorted in Hs; [|intros x y z; lia].
  remember (argsort a) as L eqn:EL. clear EL.
  assert (Hi : (i < length L)%nat).
  { apply lookup_lt_Some in Hp. rewrite length_reverse in Hp. exact Hp. }
  assert (Hj : (j < length L)%nat).
  { apply lookup_lt_Some in Hq. rewrite length_reverse in Hq. exact Hq. }
  rewrite reverse_lookup in Hp by exact Hi.
  rewrite reverse_lookup in Hq by exact Hj.
  destruct (decide (i = j)) as [->|Hne].
  { rewrite Hp in Hq. injection Hq as ->. lia. }
  assert (Hlt : (length L - S j < length L - S i)%nat) by lia.
  revert Hp Hq Hlt. generalize (length L - S i)%nat (length L - S j)%nat.
  clear -Hs. intros u v Hp Hq Hlt.
  revert u v Hp Hq Hlt.
  induction Hs as [|x L Hs IH Hall]; intros u v Hp Hq Hlt; [done|].
  destruct v as [|v]; destruct u as [|u]; try lia; simpl in *.
  - injection Hq as ->. rewrite List.Forall_forall in Hall.
    apply Hall. apply list_elem_of_In. apply list_elem_of_lookup. eauto.
  - eapply IH; eauto. lia.
Qed.

(** X18: [get_bands] returns the band offset of every node and stores in
    [self.bands] every band offset the component touches exactly once, the
    offsets with more nodes first. *)
Theorem get_bands_by_frequency (m : MATERIAL) (c : COMPONENT) :
  let k_bands := (get_bands m c).1 in
  let bs := bands (get_bands m c).2 in
  let count b := length (filter (fun x => x = b) k_bands) in
  k_bands = map (fun n => n / (nkx m * nky m)) (nodes c) /\
  NoDup bs /\
  (forall b, b ∈ bs <-> b ∈ k_bands) /\
  (forall i j b1 b2, (i <= j)%nat -> bs !! i = Some b1 -> bs !! j = Some b2 ->
     (count b2 <= count b1)%nat).
Proof.
  cbv zeta. unfold get_bands. cbn [fst snd bands]. unfold c_nks.
  set (k_bands := map (fun n => n / (nkx m * nky m)) (nodes c)).
  set (uniq := unique k_bands).
  set (cnt := fun b => Z.of_nat (length (filter (fun x => x = b) k_bands))).
  set (counts := map cnt uniq).
  assert (Hlen : length counts = length uniq) by apply length_map.
  assert (Hperm : map (fun i => nth i uniq 0) (reverse (argsort counts))
                  ≡ₚ remove_dups k_bands).
  { rewrite reverse_Permutation, argsort_Permutation, Hlen, map_nth_seq.
    apply unique_Permutation. }
  split; [reflexivity|]. split; [|split].
  - rewrite Hperm. apply NoDup_remove_dups.
  - intros b. rewrite Hperm. apply elem_of_remove_dups.
  - intros i j b1 b2 Hij H1 H2.
    rewrite list_lookup_fmap in H1, H2.
    destruct (reverse (argsort counts) !! i) as [p|] eqn:Hp; [|discriminate].
    destruct (reverse (argsort counts) !! j) as [q|] eqn:Hq; [|discriminate].
    simpl in H1, H2. injection H1 as <-. injection H2 as <-.
    pose proof (reverse_argsort_decreasing counts i j p q Hij Hp Hq) as Hle.
    assert (Hin : forall r k, reverse (argsort counts) !! k = Some r ->
                              (r < length uniq)%nat).
    { intros r k Hr. assert (Hr' : r ∈ reverse (argsort counts)) by (apply list_elem_of_lookup; eauto). clear Hr. rename Hr' into Hr.
      rewrite elem_of_reverse, argsort_Permutation, Hlen in Hr.
      apply elem_of_seq in Hr. lia. }
    assert (Hnth : forall r, (r < length uniq)%nat ->
                             nth r counts 0 = cnt (nth r uniq 0)).
    { intros r Hr. unfold counts.
      rewrite <- (map_nth cnt uniq 0 r) at 1.
      apply nth_indep. rewrite length_map. exact Hr. }
    rewrite (Hnth p), (Hnth q) in Hle by eauto.
    unfold cnt in Hle. lia.
Qed.
(** *** [get_cluster_score] *)

Lemma fold_left_Qmin_le (l : list Q) (a : Q) :
  (fold_left Qmin l a <= a)%Q /\
  Forall (fun x => (fold_left Qmin l a <= x)%Q) l.
Proof.
  revert a. induction l as [|x l IH]; intros a; simpl.
  - split; [lra|constructor].
  - destruct (IH (Qmin a x)) as [H1 H2].
    pose proof (Q.le_min_l a x). pose proof (Q.le_min_r a x).
    split; [lra|]. constructor; [lra|exact H2].
Qed.

Lemma fold_left_Qmin_nonneg (l : list Q) (a : Q) :
  (0 <= a)%Q -> Forall (fun x => (0 <= x)%Q) l ->
  (0 <= fold_left Qmin l a)%Q.
Proof.
  intros Ha Hl. revert a Ha. induction Hl as [|x l Hx _ IH]; intros a Ha; simpl.
  - exact Ha.
  - apply IH. apply Q.min_glb; assumption.
Qed.

Lemma np_min_bounds (l : list Q) (mn : Q) :
  np_min l = Some mn -> Forall (fun x => (0 <= x)%Q) l ->
  (0 <= mn)%Q /\ Forall (fun x => (mn <= x)%Q) l.
Proof.
  destruct l as [|a l]; [discriminate|]. simpl. intros [= <-] Hl.
  inversion_clear Hl as [|? ? Ha Hl'].
  destruct (fold_left_Qmin_le l a) as [H1 H2].
  split; [apply fold_left_Qmin_nonneg; assumption|].
  constructor; assumption.
Qed.

Section ClusterScoreUnit.

Variable m : MATERIAL.
Variable curve_fit : list Z -> list Q -> Q * Q * Q.
Variable energies : list (list (list Q)).

Lemma difference_energy_score_unit bn1 bn2 iK1 iK2 Ei x :
  min_band m <= bn2 <= max_band m ->
  difference_energy_score m energies bn1 bn2 iK1 iK2 Ei = Some x ->
  (0 <= x <= 1)%Q.
Proof.
  intros Hbn. unfold difference_energy_score.
  destruct iK1 as [ik1 jk1], iK2 as [ik_n jk_n].
  destruct (match Ei with
            | Some e => Some e
            | None => np_index3 energies bn1 ik1 jk1
            end) as [E|]; [|discriminate].
  cbn [mbind option_bind].
  destruct (mapM _ _) as [diffs|] eqn:Hd; [|discriminate].
  cbn [mbind option_bind].
  destruct (np_min diffs) as [mn|] eqn:Hmn; [|discriminate].
  cbn [mbind option_bind].
  destruct (np_index3 energies bn2 ik_n jk_n) as [e2|] eqn:He2; [|discriminate].
  cbn [mbind option_bind]. intros Hx. apply (inj Some) in Hx. subst x.
  apply mapM_Some_1 in Hd.
  assert (Hnn : Forall (fun x => (0 <= x)%Q) diffs).
  { clear -Hd. induction Hd as [|bn y bs ys Hy _ IH]; constructor; [|exact IH].
    destruct (np_index3 energies bn ik_n jk_n) as [e|]; [|discriminate].
    cbn [mbind option_bind] in Hy.
    assert (Hyy : y = Qabs (E - e)) by congruence.
    rewrite Hyy. apply Qabs_nonneg. }
  assert (Hin : Qabs (E - e2) ∈ diffs).
  { assert (Hb : bn2 ∈ arange (min_band m) (max_band m + 1)).
    { unfold arange. apply elem_of_seqZ. lia. }
    clear -Hd Hb He2. induction Hd as [|bn y bs ys Hy _ IH].
    - inversion Hb.
    - apply elem_of_cons in Hb as [<-|Hb].
      + rewrite He2 in Hy. cbn [mbind option_bind] in Hy.
        assert (Hyy : y = Qabs (E - e2)) by congruence.
        rewrite Hyy. apply list_elem_of_here.
      + apply list_elem_of_further, IH, Hb. }
  destruct (np_min_bounds _ _ Hmn Hnn) as [H0 Hle].
  rewrite Forall_forall in Hle. specialize (Hle _ Hin).
  destruct (Qeq_bool (Qabs (E - e2)) 0) eqn:Hz; [split; lra|].
  apply Qeq_bool_neq in Hz.
  pose proof (Qabs_nonneg (E - e2)) as Hd0.
  assert (Hpos : (0 < Qabs (E - e2))%Q).
  { apply Qle_lteq in Hd0 as [?|Heq]; [assumption|]. exfalso. apply Hz.
    symmetry. exact Heq. }
  split.
  - apply Qle_shift_div_l; [exact Hpos|lra].
  - apply Qle_shift_div_r; [exact Hpos|lra].
Qed.

Lemma fit_energy_unit self bn1 bn2 iK1 iK2 x :
  min_band m <= bn2 <= max_band m ->
  fit_energy m curve_fit energies self bn1 bn2 iK1 iK2 = Some x ->
  (0 <= x <= 1)%Q.
Proof.
  intros Hbn. unfold fit_energy.
  destruct iK1 as [ik1 jk1], iK2 as [ik_n jk_n].
  destruct (if negb (ik1 =? ik_n) then _ else _) as [i j].
  destruct (fancy2 _ _ _) as [ks|]; [|discriminate].
  cbn [mbind option_bind].
  case_bool_decide.
  - apply difference_energy_score_unit, Hbn.
  - destruct (mapM _ _) as [aux|]; [|discriminate].
    cbn [mbind option_bind].
    destruct (mapM _ _) as [Es|]; [|discriminate].
    cbn [mbind option_bind].
    destruct (np_index3 energies bn1 ik1 jk1); [|discriminate].
    cbn [mbind option_bind].
    apply difference_energy_score_unit, Hbn.
Qed.

Variable tol : Q.
Hypothesis Htol : (0 <= tol <= 1)%Q.
Hypothesis Hconn : connections_unit m.

Lemma boundary_terms_unit self cluster k row terms :
  (forall k b, bands_number cluster !! k = Some b ->
               0 <= b <= max_band m - min_band m) ->
  np_index (neighbors m) k = Some row ->
  boundary_terms m curve_fit energies self cluster tol k = Some terms ->
  Forall (fun x => (0 <= x <= 1)%Q) terms /\
  (length terms <= length row)%nat.
Proof.
  intros Hb Hrow. unfold boundary_terms.
  destruct (bands_number self !! k) as [b1|]; [|discriminate].
  cbn [mbind option_bind].
  destruct (np_index (kpoints_index m) k) as [iK1|]; [|discriminate].
  cbn [mbind option_bind]. rewrite Hrow. cbn [mbind option_bind].
  destruct (mapM _ _) as [ts|] eqn:Hts; [|discriminate].
  cbn [mbind option_bind]. intros [= <-].
  apply mapM_Some_1 in Hts.
  assert (Hlen : length (imap (fun i x => (i, x)) row) = length row)
    by apply length_imap.
  rewrite <- Hlen. clear Hlen Hrow.
  induction Hts as [|p t ps ts Hp _ [IH1 IH2]]; simpl.
  - split; [constructor|lia].
  - assert (Ht : Forall (fun x => (0 <= x <= 1)%Q) t /\ (length t <= 1)%nat).
    { destruct (_ || _).
      - injection Hp as <-. split; [constructor|simpl; lia].
      - destruct (np_index (kpoints_index m) p.2) as [iK2|]; [|discriminate].
        cbn [mbind option_bind] in Hp.
        destruct (bands_number cluster !! p.2) as [b2|] eqn:Hb2; [|discriminate].
        cbn [mbind option_bind] in Hp.
        destruct (np_index4 _ _ _ _ _) as [c|] eqn:Hc; [|discriminate].
        cbn [mbind option_bind] in Hp.
        destruct (fit_energy _ _ _ _ _ _ _ _) as [e|] eqn:He; [|discriminate].
        cbn [mbind option_bind] in Hp. injection Hp as <-.
        apply np_index4_unit in Hc; [|exact Hconn].
        apply fit_energy_unit in He; [|specialize (Hb _ _ Hb2); lia].
        split; [|simpl; lia]. constructor; [|constructor].
        split; nra. }
    destruct Ht as [Ht1 Ht2]. split.
    + apply Forall_app. split; assumption.
    + rewrite length_app. lia.
Qed.

Lemma boundary_score_unit self cluster score :
  Forall (fun row => (length row <= 4)%nat) (neighbors m) ->
  (forall k b, bands_number cluster !! k = Some b ->
               0 <= b <= max_band m - min_band m) ->
  boundary_score m curve_fit energies self cluster tol = Some score ->
  (0 <= score <= 1)%Q.
Proof.
  intros Hrows Hb. unfold boundary_score.
  destruct (mapM _ _) as [terms|] eqn:Ht; [|discriminate].
  cbn [mbind option_bind]. case_bool_decide as Hne; [discriminate|].
  intros [= <-].
  apply mapM_Some_1 in Ht.
  assert (H : Forall (fun x => (0 <= x <= 1)%Q) (concat terms) /\
              (length (concat terms) <= 4 * length (k_edges self))%nat).
  { clear Hne. induction Ht as [|k t ks ts Hk _ [IH1 IH2]]; simpl.
    - split; [constructor|lia].
    - assert (Hrow : exists row, np_index (neighbors m) k = Some row).
      { unfold boundary_terms in Hk.
        destruct (bands_number self !! k); [|discriminate].
        cbn [mbind option_bind] in Hk.
        destruct (np_index (kpoints_index m) k); [|discriminate].
        cbn [mbind option_bind] in Hk.
        destruct (np_index (neighbors m) k) as [row|]; [eauto|discriminate]. }
      destruct Hrow as [row Hrow].
      destruct (boundary_terms_unit _ _ _ _ _ Hb Hrow Hk) as [H1 H2].
      apply np_index_elem in Hrow. rewrite Forall_forall in Hrows.
      specialize (Hrows _ Hrow). simpl in Hrows. split.
      + apply Forall_app. split; assumption.
      + rewrite length_app. lia. }
  destruct H as [H1 H2].
  assert (Hn : 0 < Z.of_nat (length (k_edges self)) * 4).
  { destruct (k_edges self); [done|]. simpl length. lia. }
  assert (Hpos : (0 < inject_Z (Z.of_nat (length (k_edges self)) * 4))%Q).
  { change 0%Q with (inject_Z 0). rewrite <- Zlt_Qlt. exact Hn. }
  split.
  - apply Qle_shift_div_l; [exact Hpos|]. rewrite Qmult_0_l.
    apply fold_left_Qplus_nonneg; [lra|].
    eapply Forall_impl; [exact H1|]. intros x Hx. exact (proj1 Hx).
  - apply Qdiv_le_1; [|exact Hn].
    eapply Qle_trans; [apply fold_left_Qplus_le|].
    + eapply Forall_impl; [exact H1|]. intros x Hx. exact (proj2 Hx).
    + rewrite Qplus_0_l. rewrite <- Zle_Qle. lia.
Qed.

End ClusterScoreUnit.

(** X19: a score that [get_cluster_score] computes (the cluster is not
    flagged as modified) lies between 0 and 1, when the overlaps and
    [tol] do, every k point has at most four neighbours and the bands of
    the cluster lie in the window. *)
Theorem get_cluster_score_unit (m : MATERIAL)
    (curve_fit : list Z -> list Q -> Q * Q * Q)
    (energies : list (list (list Q))) (self cluster self' : COMPONENT)
    (tol score : Q) :
  connections_unit m -> (0 <= tol <= 1)%Q ->
  Forall (fun row => (length row <= 4)%nat) (neighbors m) ->
  (forall k b, bands_number cluster !! k = Some b ->
               0 <= b <= max_band m - min_band m) ->
  was_modified cluster = false ->
  get_cluster_score m curve_fit energies self cluster tol
  = Some (score, self') ->
  (0 <= score <= 1)%Q /\
  scores self' !! id_ cluster = Some score.
Proof.
  intros Hconn Htol Hrows Hb Hmod. unfold get_cluster_score. rewrite Hmod.
  destruct (boundary_score _ _ _ _ _ _) as [s|] eqn:Hs; [|discriminate].
  cbn [mbind option_bind]. intros [= <- <-]. split.
  - eapply boundary_score_unit; eauto.
  - simpl. apply lookup_insert_eq.
Qed.

Lemma get_cluster_score_unit_witness :
  let self := default (new_component []) (chain4_partition.2 !! 0%nat) in
  let cluster := default (new_component []) (chain4_partition.1.2 !! 0%nat) in
  let r := default (0%Q, self)
             (get_cluster_score chain4 flat_fit chain4_energies self cluster
                                (1 # 2)) in
  ((0 <= r.1 <= 1)%Q /\ scores r.2 !! id_ cluster = Some r.1) /\
  r.1 = (38 # 160)%Q.
Proof.
  intros self cluster r. split; [|reflexivity].
  apply (get_cluster_score_unit chain4 flat_fit chain4_energies self cluster
                                r.2 (1 # 2) r.1).
  - unfold connections_unit. vm_compute.
    repeat (constructor; try (split; discriminate)).
  - split; discriminate.
  - vm_compute. repeat (constructor; try lia).
  - assert (Hall : map_Forall (fun _ b => 0 <= b <= max_band chain4 - min_band chain4)
                              (bands_number cluster)).
    { apply (bool_decide_unpack _). vm_compute. exact I. }
    intros k b H. exact (Hall k b H).
  - reflexivity.
  - vm_compute. reflexivity.
Defined.

(** X20: in a round of the merger whose best score is not zero, the
    cluster and the sample that are joined were accepted by [validate]:
    each holds one node per k point and they share no k point, so the
    joined cluster holds the nodes of both and again one node per k
    point. *)
Theorem merge_round_joins_compatible (m : MATERIAL)
    (curve_fit : list Z -> list Q -> Q * Q * Q)
    (energies : list (list (list Q))) (tol : Q)
    (solved clusters samples samples' : list COMPONENT)
    (ev : list (Q * nat)) (arg_max bn : nat) (score : Q)
    (st' : list COMPONENT * list COMPONENT * list COMPONENT) :
  0 < nkx m -> 0 < nky m -> nks m = nkx m * nky m ->
  Forall (masked m) clusters -> Forall (masked m) samples ->
  merge_round m curve_fit energies tol (solved, clusters, samples)
    = Some (arg_max, st') ->
  evaluate_round m curve_fit energies tol clusters samples
    = Some (ev, samples') ->
  ev !! arg_max = Some (score, bn) -> ~ (score == 0)%Q ->
  exists cluster sample joined,
    clusters !! bn = Some cluster /\ samples !! arg_max = Some sample /\
    NoDup (k_points cluster) /\ NoDup (k_points sample) /\
    (forall k, k ∈ k_points cluster -> k ∉ k_points sample) /\
    joined ∈ st'.1.1 ++ st'.1.2 /\
    nodes joined = nodes cluster ++ nodes sample /\
    NoDup (k_points joined) /\
    Forall (masked m) st'.1.2 /\ Forall (masked m) st'.2.
Proof.
  intros Hnkx Hnky Hnks Hcl Hsa Hround Hev Hbest Hscore.
  pose proof (evaluate_round_masked m Hnkx Hnky Hnks _ _ _ _ _ _ _ Hcl Hsa Hev)
    as Hsa'.
  unfold merge_round in Hround. rewrite Hev in Hround.
  cbn [mbind option_bind] in Hround.
  destruct (argmax (map fst ev)) as [a|]; [|discriminate].
  cbn [mbind option_bind] in Hround.
  destruct (samples' !! a) as [sample'|] eqn:Hsample'; [|discriminate].
  cbn [mbind option_bind] in Hround.
  destruct (ev !! a) as [best|] eqn:Hbest'; [|discriminate].
  cbn [mbind option_bind] in Hround.
  destruct (map (set_was_modified false) clusters !! best.2)
    as [cluster'|] eqn:Hcluster'; [|discriminate].
  cbn [mbind option_bind] in Hround.
  destruct (join m cluster' sample') as [joined|] eqn:Hjoin; [|discriminate].
  cbn [mbind option_bind] in Hround.
  assert (Ha : a = arg_max /\
               (st' = (solved ++ [set_was_modified true joined],
                       delete best.2
                         (<[best.2 := set_was_modified true joined]>
                            (map (set_was_modified false) clusters)),
                       delete a samples') \/
                st' = (solved,
                       <[best.2 := set_was_modified true joined]>
                         (map (set_was_modified false) clusters),
                       delete a samples'))).
  { destruct (_ =? _); injection Hround as <- <-; auto. }
  destruct Ha as [-> Hst']. clear Hround.
  rewrite Hbest in Hbest'. injection Hbest' as <-. cbn [snd] in *.
  (* the entry of the popped sample *)
  unfold evaluate_round in Hev.
  destruct (mapM _ samples) as [scored|] eqn:Hm; [|discriminate].
  cbn [mbind option_bind] in Hev. injection Hev as <- <-.
  rewrite list_lookup_fmap in Hbest. rewrite list_lookup_fmap in Hsample'.
  destruct (scored !! arg_max) as [[e s']|] eqn:Hsc; [|discriminate].
  cbn in Hbest, Hsample'. injection Hbest as ->. injection Hsample' as ->.
  apply mapM_Some_1 in Hm.
  destruct (Forall2_lookup_r _ _ _ _ _ Hm Hsc) as (sample & Hsample & Hf).
  destruct (score_sample _ _ _ _ _ sample) as [[scores s1]|] eqn:Hss;
    [|discriminate].
  cbn [mbind option_bind fst snd] in Hf.
  destruct (np_max scores) as [mx|] eqn:Hmx; [|discriminate].
  cbn [mbind option_bind] in Hf.
  destruct (argmax scores) as [am|] eqn:Ham; [|discriminate].
  cbn [mbind option_bind] in Hf. injection Hf as <- <- <-.
  (* the best score is an entry of [scores] that is not zero *)
  apply argmax_first_max in Ham as (v & Hv & Hmax & _).
  apply np_max_elem in Hmx as ((e & He & Heq) & Hub).
  assert (Hv0 : ~ (v == 0)%Q).
  { intros Hz. apply Hscore.
    apply list_elem_of_lookup in He as (i & Hi).
    pose proof (Hmax _ _ Hi) as H1.
    rewrite Forall_forall in Hub.
    assert (H2 : (v <= mx)%Q).
    { apply Hub. apply list_elem_of_lookup. eauto. }
    lra. }
  assert (Hms : masked m sample).
  { rewrite Forall_forall in Hsa. apply Hsa, list_elem_of_lookup. eauto. }
  unfold score_sample in Hss.
  apply (score_sample_step m Hnkx Hnky Hnks curve_fit energies tol sample [])
    in Hss as (Hm1 & Hn1 & Hlen & Hinv);
    [|exact Hcl|exact Hms|reflexivity|reflexivity|intros j s cl H; discriminate].
  rewrite list_lookup_fmap in Hcluster'.
  destruct (clusters !! am) as [cluster|] eqn:Hcluster; [|discriminate].
  cbn in Hcluster'. injection Hcluster' as <-.
  destruct (Hinv am v cluster Hv Hv0 Hcluster) as (Hnc & Hns & Hdisj).
  assert (Hmc : masked m cluster).
  { rewrite Forall_forall in Hcl. apply Hcl, list_elem_of_lookup. eauto. }
  assert (Hk : k_points s1 = k_points sample).
  { destruct Hm1 as (_ & -> & _). destruct Hms as (_ & -> & _).
    rewrite Hn1. reflexivity. }
  destruct (join_disjoint m Hnkx Hnky Hnks (set_was_modified false cluster)
              s1 joined) as [Hnodes Hndj]; try assumption.
  exists cluster, sample, (set_was_modified true joined).
  split; [reflexivity|]. split; [exact Hsample|]. split; [exact Hnc|].
  split; [rewrite <- Hk; exact Hns|].
  split; [rewrite <- Hk; exact Hdisj|].
  split; [|split].
  - destruct Hst' as [Hst' | Hst']; rewrite Hst'; cbn [fst snd].
    + apply elem_of_app. left. apply elem_of_app. right.
      apply list_elem_of_here.
    + apply elem_of_app. right. apply list_elem_of_lookup. exists am.
      apply list_lookup_insert_eq. rewrite length_map.
      apply lookup_lt_Some in Hcluster. exact Hcluster.
  - cbn [set_was_modified nodes]. rewrite Hnodes, Hn1. reflexivity.
  - split; [exact Hndj|].
    assert (Hcl' : Forall (masked m)
              (<[am := set_was_modified true joined]>
                 (map (set_was_modified false) clusters))).
    { apply Forall_insert.
      - apply Forall_fmap. eapply Forall_impl; [exact Hcl|].
        intros c Hc. exact Hc.
      - apply set_was_modified_masked.
        exact (join_masked m Hnkx Hnky Hnks _ _ _ Hjoin). }
    destruct Hst' as [-> | ->]; cbn [fst snd];
      (split; [|apply Forall_delete; exact Hsa']).
    + apply Forall_delete. exact Hcl'.
    + exact Hcl'.
Qed.

Lemma merge_round_joins_compatible_witness :
  let clusters := chain4_partition.1.2 in
  let samples := chain4_partition.2 in
  let ev := default ([], [])
              (evaluate_round chain4 flat_fit chain4_energies (1 # 2)
                              clusters samples) in
  let st' := chain4_round1 in
  exists cluster sample joined,
    clusters !! 0%nat = Some cluster /\ samples !! 0%nat = Some sample /\
    NoDup (k_points cluster) /\ NoDup (k_points sample) /\
    (forall k, k ∈ k_points cluster -> k ∉ k_points sample) /\
    joined ∈ st'.1.1 ++ st'.1.2 /\
    nodes joined = nodes cluster ++ nodes sample /\
    NoDup (k_points joined) /\
    Forall (masked chain4) st'.1.2 /\ Forall (masked chain4) st'.2.
Proof.
  intros clusters samples ev st'.
  apply (merge_round_joins_compatible chain4 flat_fit chain4_energies (1 # 2)
           [] clusters samples ev.2 ev.1 0%nat 0%nat (38 # 160)%Q st').
  - simpl. lia.
  - simpl. lia.
  - reflexivity.
  - apply (bool_decide_unpack _). vm_compute. exact I.
  - apply (bool_decide_unpack _). vm_compute. exact I.
  - vm_compute. reflexivity.
  - vm_compute. reflexivity.
  - vm_compute. reflexivity.
  - discriminate.
Defined.
